(** * GlobalISel CombinerHelper: a shallow embedding and its properties

    The development embeds the parts of
    [llvm/lib/CodeGen/GlobalISel/CombinerHelper.cpp] that the combiner's
    specification talks about: the register replacement helper, the
    concat/shuffle matchers, the extending-load combine, the indexed
    load/store searches, the bulk-memory lowering, the shift splitting
    and the operand equality check.

    Conventions.
    - C++ [unsigned] and [uint64_t] values are [Z] with the wrap-around
      written out ([u32], [u64]).
    - A [MachineInstr*] is an instruction together with its identity
      [Id]; pointer comparison is comparison of [Id].
    - [assert] is compiled out of release builds and is recorded as a
      comment next to the place it guards; [llvm_unreachable] is [None].
    - Interfaces whose implementation lives outside this file
      (MachineRegisterInfo, TargetLowering, LegalizerInfo, the dominator
      tree, Utils.h) are records of functions or Section variables. *)

From Stdlib Require Import ZArith List Bool Lia.
Import ListNotations.
Local Open Scope Z_scope.

(* ================================================================== *)
(** ** Machine integers *)

Definition u32 (x : Z) : Z := x mod 2 ^ 32.
Definition u64 (x : Z) : Z := x mod 2 ^ 64.
Arguments u32 : simpl never.
Arguments u64 : simpl never.

(** MathExtras.h: [isPowerOf2_32(V)] is [V && !(V & (V - 1))]. *)
Definition isPowerOf2_32 (V : Z) : bool :=
  negb (V =? 0) && (Z.land V (u32 (V - 1)) =? 0).

(** MathExtras.h: [PowerOf2Floor(A)] is the largest power of two not
    above [A], and 0 for 0. *)
Definition PowerOf2Floor (A : Z) : Z :=
  if A <=? 0 then 0 else 2 ^ Z.log2 A.

(* ================================================================== *)
(** ** Type descriptors (LLT) *)

Inductive LLT : Type :=
  | LLT_invalid                                   (* LLT() *)
  | LLT_scalar (SizeInBits : Z)
  | LLT_pointer (AddressSpace SizeInBits : Z)
  | LLT_vector (NumElements ScalarSizeInBits : Z).

Module LLTOps.

Definition eqb (a b : LLT) : bool :=
  match a, b with
  | LLT_invalid, LLT_invalid => true
  | LLT_scalar x, LLT_scalar y => x =? y
  | LLT_pointer s x, LLT_pointer t y => (s =? t) && (x =? y)
  | LLT_vector n x, LLT_vector m y => (n =? m) && (x =? y)
  | _, _ => false
  end.

Definition isValid (t : LLT) : bool :=
  match t with LLT_invalid => false | _ => true end.

Definition isScalar (t : LLT) : bool :=
  match t with LLT_scalar _ => true | _ => false end.

Definition isVector (t : LLT) : bool :=
  match t with LLT_vector _ _ => true | _ => false end.

Definition getSizeInBits (t : LLT) : Z :=
  match t with
  | LLT_invalid => 0
  | LLT_scalar b => b
  | LLT_pointer _ b => b
  | LLT_vector n b => n * b
  end.

Definition getSizeInBytes (t : LLT) : Z := (getSizeInBits t + 7) / 8.

Definition getNumElements (t : LLT) : Z :=
  match t with LLT_vector n _ => n | _ => 1 end.

Definition getScalarType (t : LLT) : LLT :=
  match t with LLT_vector _ b => LLT_scalar b | _ => t end.

Definition getScalarSizeInBits (t : LLT) : Z :=
  match t with LLT_vector _ b => b | _ => getSizeInBits t end.

End LLTOps.

(* ================================================================== *)
(** ** Instructions, operands, registers *)

(** The generic opcodes this file mentions; every other opcode is
    [G_OTHER n]. *)
Inductive Opcode : Type :=
  | COPY | G_IMPLICIT_DEF | G_FRAME_INDEX | G_CONSTANT
  | G_LOAD | G_SEXTLOAD | G_ZEXTLOAD | G_STORE
  | G_INDEXED_LOAD | G_INDEXED_SEXTLOAD | G_INDEXED_ZEXTLOAD | G_INDEXED_STORE
  | G_ANYEXT | G_SEXT | G_ZEXT | G_TRUNC
  | G_PTR_ADD | G_MUL | G_SHL | G_LSHR | G_ASHR
  | G_MERGE_VALUES | G_UNMERGE_VALUES
  | G_BUILD_VECTOR | G_CONCAT_VECTORS | G_SHUFFLE_VECTOR
  | G_MEMCPY | G_MEMMOVE | G_MEMSET
  | G_OTHER (n : nat).

Definition Opcode_eq_dec (a b : Opcode) : {a = b} + {a <> b}.
Proof. decide equality. apply Nat.eq_dec. Defined.

Definition opc_eqb (a b : Opcode) : bool :=
  if Opcode_eq_dec a b then true else false.

(** Register.h: register 0 is "no register"; physical registers are
    1 .. 2^30 - 1; virtual registers have bit 31 set. *)
Definition Register : Type := Z.
Definition NoRegister : Register := 0.
Definition isPhysical (r : Register) : bool := (1 <=? r) && (r <? 2 ^ 30).
Definition index2VirtReg (i : Z) : Register := 2 ^ 31 + i.

Inductive MachineOperand : Type :=
  | MO_Register (Reg : Register) (IsDef : bool)
  | MO_Immediate (Imm : Z)
  | MO_CImmediate (Val : Z)
  | MO_FrameIndex (Index : Z)
  | MO_MachineBasicBlock (MBB : Z)
  | MO_ShuffleMask (Mask : list Z)
  | MO_Predicate (Pred : Z).

(** [Align] keeps the logarithm of the alignment, as Alignment.h does. *)
Record Align : Type := mkAlign { ShiftValue : nat }.
Definition Align_value (a : Align) : Z := 2 ^ Z.of_nat (ShiftValue a).

Record MachineMemOperand : Type := mkMMO {
    MMO_Offset : Z;
    MMO_Size : Z;                 (* bytes *)
    MMO_BaseAlign : Align;
    MMO_AddrSpace : Z;
    MMO_Volatile : bool;
    MMO_Ordering : Z              (* AtomicOrdering, 0 = NotAtomic *)
  }.

Record MachineInstr : Type := mkMI {
    Id : Z;                       (* identity: stands for the address *)
    Opc : Opcode;
    Operands : list MachineOperand;
    Parent : Z;                   (* owning basic block *)
    memoperands : list MachineMemOperand
  }.

Definition sameInstr (a b : MachineInstr) : bool := Id a =? Id b.

Definition isReg (MO : MachineOperand) : bool :=
  match MO with MO_Register _ _ => true | _ => false end.

Definition isDef (MO : MachineOperand) : bool :=
  match MO with MO_Register _ d => d | _ => false end.

(** [getReg] asserts [isReg()] in the source; on any other operand the
    embedding answers [NoRegister]. *)
Definition getReg (MO : MachineOperand) : Register :=
  match MO with MO_Register r _ => r | _ => NoRegister end.

Definition getOperand (MI : MachineInstr) (i : nat) : MachineOperand :=
  nth i (Operands MI) (MO_Register NoRegister false).

Definition getShuffleMask (MO : MachineOperand) : list Z :=
  match MO with MO_ShuffleMask m => m | _ => [] end.

Fixpoint dropDefs (l : list MachineOperand) : list MachineOperand :=
  match l with
  | MO_Register r true :: tl => dropDefs tl
  | _ => l
  end.

(** [MI.uses()]: the operands after the explicit definitions. *)
Definition uses (MI : MachineInstr) : list MachineOperand :=
  dropDefs (Operands MI).

Definition usesReg (r : Register) (MI : MachineInstr) : bool :=
  existsb (fun MO => isReg MO && negb (isDef MO) && (getReg MO =? r))
          (Operands MI).

Definition definesReg (r : Register) (MI : MachineInstr) : bool :=
  existsb (fun MO => isDef MO && (getReg MO =? r)) (Operands MI).

(** MathExtras.h [MinAlign(A, B)]: the largest power of two dividing
    both, [(A | B) & (1 + ~(A | B))]. *)
Definition MinAlign (A B : Z) : Z :=
  Z.land (Z.lor A B) (u64 (1 + Z.lnot (Z.lor A B))).

Definition Align_of_value (v : Z) : Align := mkAlign (Z.to_nat (Z.log2 v)).

Definition commonAlignment (A : Align) (Offset : Z) : Align :=
  Align_of_value (MinAlign (Align_value A) Offset).

(** [commonAlignment(Align A, Align B)] is the smaller of the two. *)
Definition commonAlignmentOf (A B : Align) : Align :=
  mkAlign (Nat.min (ShiftValue A) (ShiftValue B)).

Definition MMO_getAlign (m : MachineMemOperand) : Align :=
  commonAlignment (MMO_BaseAlign m) (u64 (MMO_Offset m)).

Definition MMO_getSizeInBits (m : MachineMemOperand) : Z := 8 * MMO_Size m.

Definition noMMO : MachineMemOperand := mkMMO 0 0 (mkAlign 0) 0 false 0.

(** [**MI.memoperands_begin()] and [**std::next(MI.memoperands_begin())]. *)
Definition firstMMO (MI : MachineInstr) : MachineMemOperand :=
  hd noMMO (memoperands MI).
Definition secondMMO (MI : MachineInstr) : MachineMemOperand :=
  nth 1 (memoperands MI) noMMO.

(* ================================================================== *)
(** ** Consumed interfaces *)

(** The read side of MachineRegisterInfo (and of the block list) that
    the matchers consult.  [use_nodbg_instructions] lists the using
    instructions in the order the use list enumerates them. *)
Record MachineRegisterInfo : Type := mkMRI {
    getType : Register -> LLT;
    getVRegDef : Register -> option MachineInstr;
    getUniqueVRegDef : Register -> option MachineInstr;
    use_nodbg_instructions : Register -> list MachineInstr;
    hasOneNonDBGUse : Register -> bool;
    blockInstrs : Z -> list MachineInstr
  }.

Inductive LegalizeAction : Type :=
  | Legal | NarrowScalar | WidenScalar | Lower | Libcall | Custom
  | Unsupported | NotFound.

Definition isLegalAction (a : LegalizeAction) : bool :=
  match a with Legal => true | _ => false end.

Record MemDesc : Type := mkMemDesc {
  MD_SizeInBits : Z; MD_AlignInBits : Z; MD_Ordering : Z }.

Record LegalityQuery : Type := mkQuery {
  Q_Opcode : Opcode; Q_Types : list LLT; Q_MMODescrs : list MemDesc }.

(** [const LegalizerInfo *LI]: a null pointer is [None]. *)
Definition LegalizerInfo : Type := LegalityQuery -> LegalizeAction.

Definition isLegalOrBeforeLegalizer (LI : option LegalizerInfo)
           (Query : LegalityQuery) : bool :=
  match LI with
  | None => true
  | Some li => isLegalAction (li Query)
  end.

(* ================================================================== *)
(** ** Extending-load combine: choosing the preferred use *)

Module Pref.
Record PreferredTuple : Type := mk {
  Ty : LLT;
  ExtendOpcode : Opcode;
  MI : option MachineInstr
  }.
End Pref.
Abbreviation PreferredTuple := Pref.PreferredTuple.

(** [ChoosePreferredUse], lines 281-326. *)
Definition ChoosePreferredUse (CurrentUse : PreferredTuple)
           (TyForCandidate : LLT) (OpcodeForCandidate : Opcode)
           (MIForCandidate : MachineInstr) : PreferredTuple :=
  let Candidate :=
    Pref.mk TyForCandidate OpcodeForCandidate (Some MIForCandidate) in
  let CurOpc := Pref.ExtendOpcode CurrentUse in
  if negb (LLTOps.isValid (Pref.Ty CurrentUse)) then
    if opc_eqb CurOpc OpcodeForCandidate || opc_eqb CurOpc G_ANYEXT
    then Candidate else CurrentUse
  else if opc_eqb OpcodeForCandidate G_ANYEXT
          && negb (opc_eqb CurOpc G_ANYEXT)
  then CurrentUse
  else if opc_eqb CurOpc G_ANYEXT
          && negb (opc_eqb OpcodeForCandidate G_ANYEXT)
  then Candidate
  else if LLTOps.eqb (Pref.Ty CurrentUse) TyForCandidate
          && opc_eqb CurOpc G_SEXT && opc_eqb OpcodeForCandidate G_ZEXT
  then CurrentUse
  else if LLTOps.eqb (Pref.Ty CurrentUse) TyForCandidate
          && opc_eqb CurOpc G_ZEXT && opc_eqb OpcodeForCandidate G_SEXT
  then Candidate
  else if LLTOps.getSizeInBits TyForCandidate
          >? LLTOps.getSizeInBits (Pref.Ty CurrentUse)
  then Candidate
  else CurrentUse.

Definition isExtendOpcode (o : Opcode) : bool :=
  opc_eqb o G_SEXT || opc_eqb o G_ZEXT || opc_eqb o G_ANYEXT.

(** The legality test of one extend use, lines 421-432: the query is
    for the load's own opcode at the pair (use type, pointer type)
    with the load's memory descriptor. *)
Definition extUseIsLegal (LI : option LegalizerInfo)
           (MRI : MachineRegisterInfo) (MI UseMI : MachineInstr) : bool :=
  match LI with
  | None => true
  | Some li =>
      let MMO := firstMMO MI in
      let MMDesc := mkMemDesc (MMO_getSizeInBits MMO)
                              (Align_value (MMO_getAlign MMO) * 8)
                              (MMO_Ordering MMO) in
      let UseTy := getType MRI (getReg (getOperand UseMI 0)) in
      let SrcTy := getType MRI (getReg (getOperand MI 1)) in
      isLegalAction (li (mkQuery (Opc MI) [UseTy; SrcTy] [MMDesc]))
  end.

(** One iteration of the loop at lines 416-437. *)
Definition extLoadStep (LI : option LegalizerInfo)
           (MRI : MachineRegisterInfo) (MI : MachineInstr)
           (Preferred : PreferredTuple) (UseMI : MachineInstr)
  : PreferredTuple :=
  if isExtendOpcode (Opc UseMI) then
    if negb (extUseIsLegal LI MRI MI UseMI) then Preferred
    else ChoosePreferredUse Preferred
           (getType MRI (getReg (getOperand UseMI 0))) (Opc UseMI) UseMI
  else Preferred.

(** [matchCombineExtendingLoads], lines 371-448.  The reference
    parameter [Preferred] is returned next to the result; it is the
    caller's value on the early exits.  The [assert] of line 444
    (preferred type differs from the loaded type) is not executed in
    release builds. *)
Definition matchCombineExtendingLoads (LI : option LegalizerInfo)
           (MRI : MachineRegisterInfo) (MI : MachineInstr)
           (Preferred : PreferredTuple) : bool * PreferredTuple :=
  if negb (opc_eqb (Opc MI) G_LOAD) && negb (opc_eqb (Opc MI) G_SEXTLOAD)
     && negb (opc_eqb (Opc MI) G_ZEXTLOAD)
  then (false, Preferred)
  else
    let LoadValue := getOperand MI 0 in
    let LoadValueTy := getType MRI (getReg LoadValue) in
    if negb (LLTOps.isScalar LoadValueTy) then (false, Preferred)
    else if LLTOps.getSizeInBits LoadValueTy <? 8 then (false, Preferred)
    else if negb (isPowerOf2_32 (LLTOps.getSizeInBits LoadValueTy))
    then (false, Preferred)
    else
      let PreferredOpcode :=
        if opc_eqb (Opc MI) G_LOAD then G_ANYEXT
        else if opc_eqb (Opc MI) G_SEXTLOAD then G_SEXT else G_ZEXT in
      let Preferred' :=
        fold_left (extLoadStep LI MRI MI)
                  (use_nodbg_instructions MRI (getReg LoadValue))
                  (Pref.mk LLT_invalid PreferredOpcode None) in
      match Pref.MI Preferred' with
      | None => (false, Preferred')
      | Some _ => (true, Preferred')
      end.

(* ================================================================== *)
(** ** Dominance queries and the indexed load/store searches *)

Section IndexedLoadStore.

Variable MRI : MachineRegisterInfo.
(** [MachineDominatorTree *MDT]; a null pointer is [None]. *)
Variable MDT : option (MachineInstr -> MachineInstr -> bool).
(** The command-line flag [force-legal-indexing]. *)
Variable ForceLegalIndexing : bool.
(** [TLI.isIndexingLegal(MI, Base, Offset, IsPre, MRI)]. *)
Variable isIndexingLegal :
  MachineInstr -> Register -> Register -> bool -> bool.
(** Utils.h, both closed over the register info. *)
Variable getOpcodeDef : Opcode -> Register -> option MachineInstr.
Variable getDefIgnoringCopies : Register -> option MachineInstr.

(** [isPredecessor], lines 560-574.  The loop's body is the [return]:
    it runs when the block's first instruction is neither argument,
    and control reaches [llvm_unreachable] when it is one of them. *)
Definition isPredecessor (DefMI UseMI : MachineInstr) : option bool :=
  if sameInstr DefMI UseMI then Some false
  else
    match blockInstrs MRI (Parent DefMI) with
    | [] => None
    | It :: _ =>
        if negb (sameInstr It DefMI) && negb (sameInstr It UseMI)
        then Some (sameInstr It DefMI)
        else None
    end.

(** [dominates], lines 576-586. *)
Definition dominates (DefMI UseMI : MachineInstr) : option bool :=
  match MDT with
  | Some mdt => Some (mdt DefMI UseMI)
  | None =>
      if negb (Parent DefMI =? Parent UseMI) then Some false
      else isPredecessor DefMI UseMI
  end.

(** The loop of lines 727-734. *)
Fixpoint memOpDominatesAddrUses (MI : MachineInstr)
         (AddrUses : list MachineInstr) : option bool :=
  match AddrUses with
  | [] => Some true
  | PtrAddUse :: rest =>
      match dominates MI PtrAddUse with
      | None => None
      | Some false => Some false
      | Some true => memOpDominatesAddrUses MI rest
      end
  end.

(** The loop of lines 701-746 over the users of [Base].  [Addr] and
    [Offset] are the reference parameters; [Offset] is overwritten by
    every pointer-add that is looked at. *)
Fixpoint postIndexLoop (MI : MachineInstr) (Base : Register)
         (Uses : list MachineInstr) (Addr Offset : Register)
  : option (bool * Register * Register) :=
  match Uses with
  | [] => Some (false, Addr, Offset)
  | Use :: rest =>
      if negb (opc_eqb (Opc Use) G_PTR_ADD)
      then postIndexLoop MI Base rest Addr Offset
      else
        let Offset := getReg (getOperand Use 2) in
        if negb ForceLegalIndexing
           && negb (isIndexingLegal MI Base Offset false)
        then postIndexLoop MI Base rest Addr Offset
        else
          match getUniqueVRegDef MRI Offset with
          | None => postIndexLoop MI Base rest Addr Offset
          | Some OffsetDef =>
              match dominates OffsetDef MI with
              | None => None
              | Some false => postIndexLoop MI Base rest Addr Offset
              | Some true =>
                  match memOpDominatesAddrUses MI
                          (use_nodbg_instructions MRI
                             (getReg (getOperand Use 0))) with
                  | None => None
                  | Some false => postIndexLoop MI Base rest Addr Offset
                  | Some true =>
                      Some (true, getReg (getOperand Use 0), Offset)
                  end
              end
          end
  end.

(** [findPostIndexCandidate], lines 683-749.  Result: the returned
    flag and the final [Addr], [Base], [Offset]. *)
Definition findPostIndexCandidate (MI : MachineInstr)
           (Addr Base Offset : Register)
  : option (bool * Register * Register * Register) :=
  let Base := getReg (getOperand MI 1) in
  let BaseDef := getUniqueVRegDef MRI Base in
  if match BaseDef with
     | Some d => opc_eqb (Opc d) G_FRAME_INDEX
     | None => false
     end
  then Some (false, Addr, Base, Offset)
  else
    match postIndexLoop MI Base (use_nodbg_instructions MRI Base)
                        Addr Offset with
    | None => None
    | Some (r, Addr', Offset') => Some (r, Addr', Base, Offset')
    end.

(** The loop of lines 802-807. *)
Fixpoint dominatesAllAddrUses (MI : MachineInstr)
         (AddrUses : list MachineInstr) : option bool :=
  match AddrUses with
  | [] => Some true
  | UseMI :: rest =>
      match dominates MI UseMI with
      | None => None
      | Some false => Some false
      | Some true => dominatesAllAddrUses MI rest
      end
  end.

(** [findPreIndexCandidate], lines 751-810.  [getDefIgnoringCopies]
    is dereferenced without a null test at line 779. *)
Definition findPreIndexCandidate (MI : MachineInstr)
           (Addr Base Offset : Register)
  : option (bool * Register * Register * Register) :=
  let Addr := getReg (getOperand MI 1) in
  match getOpcodeDef G_PTR_ADD Addr with
  | None => Some (false, Addr, Base, Offset)
  | Some AddrDef =>
      if hasOneNonDBGUse MRI Addr then Some (false, Addr, Base, Offset)
      else
        let Base := getReg (getOperand AddrDef 1) in
        let Offset := getReg (getOperand AddrDef 2) in
        if negb ForceLegalIndexing
           && negb (isIndexingLegal MI Base Offset true)
        then Some (false, Addr, Base, Offset)
        else
          match getDefIgnoringCopies Base with
          | None => None
          | Some BaseDef =>
              if opc_eqb (Opc BaseDef) G_FRAME_INDEX
              then Some (false, Addr, Base, Offset)
              else if opc_eqb (Opc MI) G_STORE
                      && (Base =? getReg (getOperand MI 0))
              then Some (false, Addr, Base, Offset)
              else if opc_eqb (Opc MI) G_STORE
                      && (getReg (getOperand MI 0) =? Addr)
              then Some (false, Addr, Base, Offset)
              else
                match dominatesAllAddrUses MI
                        (use_nodbg_instructions MRI Addr) with
                | None => None
                | Some false => Some (false, Addr, Base, Offset)
                | Some true => Some (true, Addr, Base, Offset)
                end
          end
  end.

End IndexedLoadStore.

(* ================================================================== *)
(** ** Operand equality *)

Section EqualDefs.

(** Utils.h [getDefIgnoringCopies(Reg, MRI)]. *)
Variable getDefIgnoringCopies : Register -> option MachineInstr.
(** MachineInstr queries that depend on the instruction descriptor. *)
Variable mayLoadOrStore : MachineInstr -> bool.
Variable isDereferenceableInvariantLoad : MachineInstr -> bool.
Variable isIdenticalTo : MachineInstr -> MachineInstr -> bool.
(** [Builder.getTII().produceSameValue(I1, I2, &MRI)]. *)
Variable produceSameValue : MachineInstr -> MachineInstr -> bool.

(** [matchEqualDefs], lines 1871-1941. *)
Definition matchEqualDefs (MOP1 MOP2 : MachineOperand) : bool :=
  if negb (isReg MOP1) || negb (isReg MOP2) then false
  else
    match getDefIgnoringCopies (getReg MOP1) with
    | None => false
    | Some I1 =>
        match getDefIgnoringCopies (getReg MOP2) with
        | None => false
        | Some I2 =>
            if sameInstr I1 I2 then getReg MOP1 =? getReg MOP2
            else if mayLoadOrStore I1
                    && negb (isDereferenceableInvariantLoad I1)
            then false
            else if existsb (fun MO => isReg MO && isPhysical (getReg MO))
                            (uses I1)
            then isIdenticalTo I1 I2
            else produceSameValue I1 I2
        end
    end.

End EqualDefs.

(* ================================================================== *)
(** ** The mutable function: instructions, registers, builder, observer *)

(** The notifications this file sends to the [GISelChangeObserver]. *)
Inductive ObserverEvent : Type :=
  | changingAllUsesOfReg (Reg : Register)
  | finishedChangingAllUsesOfReg
  | changingInstr (MI : Z)
  | changedInstr (MI : Z)
  | erasingInstr (MI : Z).

(** The state a combine runs in.  [Insts] is the function's instruction
    list in layout order (each instruction names its block);
    [RegTypes] and [NumVirtRegs] are the register info's type table and
    virtual register count; [InsertBB]/[InsertPt] is the insertion point
    of the member [Builder] (insert before the instruction whose
    identity is [InsertPt], at the end when there is none);
    [ObjectAligns] is the frame info's alignment table. *)
Record CombinerState : Type := mkState {
    Insts : list MachineInstr;
    RegTypes : list (Register * LLT);
    NumVirtRegs : Z;
    NextId : Z;
    InsertBB : Z;
    InsertPt : Z;
    ObjectAligns : list (Z * Align);
    Log : list ObserverEvent
  }.

Definition setInsts (l : list MachineInstr) (st : CombinerState) :=
  mkState l (RegTypes st) (NumVirtRegs st) (NextId st)
          (InsertBB st) (InsertPt st) (ObjectAligns st) (Log st).

Fixpoint lookupZ {A : Type} (k : Z) (l : list (Z * A)) : option A :=
  match l with
  | [] => None
  | (k', v) :: tl => if k' =? k then Some v else lookupZ k tl
  end.

Definition stateType (st : CombinerState) (r : Register) : LLT :=
  match lookupZ r (RegTypes st) with Some t => t | None => LLT_invalid end.

Definition countUses (r : Register) (MI : MachineInstr) : nat :=
  length (filter (fun MO => isReg MO && negb (isDef MO) && (getReg MO =? r))
                 (Operands MI)).

(** The register info as the matchers read it from the current state.
    The code walks a register's use list, which holds the uses in the
    order in which they were added to it; the state keeps no such list,
    and [use_nodbg_instructions] enumerates the uses in layout order:
    the use-list order of a function whose instructions were created
    front to back and whose operands were not changed afterwards.  The
    statements below that depend on the order of the uses take the
    register info as a parameter; only the example programs read it
    through [MRIof]. *)
Definition MRIof (st : CombinerState) : MachineRegisterInfo :=
  mkMRI (stateType st)
        (fun r => find (definesReg r) (Insts st))
        (fun r => match filter (definesReg r) (Insts st) with
                  | [d] => Some d
                  | _ => None
                  end)
        (fun r => filter (usesReg r) (Insts st))
        (fun r => Nat.eqb (list_sum (map (countUses r) (Insts st))) 1)
        (fun b => filter (fun i => Parent i =? b) (Insts st)).

(** A computation on the state.  [None]: the source runs into
    undefined behaviour (or a fuel-bounded loop ran out of fuel). *)
Definition M (A : Type) : Type := CombinerState -> option (A * CombinerState).

Definition ret {A : Type} (a : A) : M A := fun st => Some (a, st).
Definition bind {A B : Type} (m : M A) (k : A -> M B) : M B :=
  fun st => match m st with
            | None => None
            | Some (a, st') => k a st'
            end.
Definition undefinedBehaviour {A : Type} : M A := fun _ => None.
Definition getState : M CombinerState := fun st => Some (st, st).

Declare Scope comb_scope.
Delimit Scope comb_scope with comb.
Notation "x <- m ;; k" := (bind m (fun x => k))
  (at level 61, m at next level, right associativity) : comb_scope.
Notation "m ;;; k" := (bind m (fun _ => k))
  (at level 61, right associativity) : comb_scope.
Local Open Scope comb_scope.

Definition notify (e : ObserverEvent) : M unit :=
  fun st => Some (tt, mkState (Insts st) (RegTypes st) (NumVirtRegs st)
                              (NextId st) (InsertBB st) (InsertPt st)
                              (ObjectAligns st) (Log st ++ [e])).

(** [MRI.createGenericVirtualRegister(Ty)]. *)
Definition createGenericVirtualRegister (Ty : LLT) : M Register :=
  fun st =>
    let r := index2VirtReg (NumVirtRegs st) in
    Some (r, mkState (Insts st) ((r, Ty) :: RegTypes st)
                     (NumVirtRegs st + 1) (NextId st) (InsertBB st)
                     (InsertPt st) (ObjectAligns st) (Log st)).

(** [MRI.cloneVirtualRegister(VReg)]. *)
Definition cloneVirtualRegister (VReg : Register) : M Register :=
  fun st => createGenericVirtualRegister (stateType st VReg) st.

Fixpoint insertBefore (p : Z) (New : MachineInstr) (l : list MachineInstr)
  : list MachineInstr :=
  match l with
  | [] => [New]
  | x :: tl => if Id x =? p then New :: x :: tl
               else x :: insertBefore p New tl
  end.

(** A builder's insertion point: the block and the instruction to
    insert before. *)
Definition InsertPoint : Type := (Z * Z)%type.

(** [MachineIRBuilder MIB(MI)] and [Builder.setInstr(MI)]. *)
Definition pointBefore (MI : MachineInstr) : InsertPoint := (Parent MI, Id MI).

(** [buildInstr]: a new instruction with the given operands, inserted
    at the builder's point; the result is the new instruction. *)
Definition insertInstr (pt : InsertPoint) (O : Opcode)
           (Ops : list MachineOperand) (MMOs : list MachineMemOperand)
  : M MachineInstr :=
  fun st =>
    let New := mkMI (NextId st) O Ops (fst pt) MMOs in
    Some (New, mkState (insertBefore (snd pt) New (Insts st)) (RegTypes st)
                       (NumVirtRegs st) (NextId st + 1) (InsertBB st)
                       (InsertPt st) (ObjectAligns st) (Log st)).

(** [Builder.setInsertPt] to just before [MI], on the member builder. *)
Definition setInsertPt (MI : MachineInstr) : M unit :=
  fun st => Some (tt, mkState (Insts st) (RegTypes st) (NumVirtRegs st)
                              (NextId st) (Parent MI) (Id MI)
                              (ObjectAligns st) (Log st)).

Definition BuilderPoint : M InsertPoint :=
  fun st => Some ((InsertBB st, InsertPt st), st).

(** [MI.eraseFromParent()]. *)
Definition eraseFromParent (MI : MachineInstr) : M unit :=
  fun st => Some (tt, setInsts (filter (fun x => negb (Id x =? Id MI))
                                       (Insts st)) st).

Definition def (r : Register) : MachineOperand := MO_Register r true.
Definition use (r : Register) : MachineOperand := MO_Register r false.

(** The builder entry points used below.  The [LLT] variants allocate
    the destination register; the result is that register. *)
Definition buildUndef (pt : InsertPoint) (Res : LLT) : M Register :=
  r <- createGenericVirtualRegister Res ;;
  _ <- insertInstr pt G_IMPLICIT_DEF [def r] [] ;;
  ret r.

Definition buildCopy (pt : InsertPoint) (Res Op : Register) : M unit :=
  _ <- insertInstr pt COPY [def Res; use Op] [] ;; ret tt.

Definition buildConstant (pt : InsertPoint) (Res : LLT) (Val : Z)
  : M Register :=
  r <- createGenericVirtualRegister Res ;;
  _ <- insertInstr pt G_CONSTANT [def r; MO_CImmediate Val] [] ;;
  ret r.

Definition buildBinOp (pt : InsertPoint) (O : Opcode) (Res : LLT)
           (Src0 Src1 : Register) : M Register :=
  r <- createGenericVirtualRegister Res ;;
  _ <- insertInstr pt O [def r; use Src0; use Src1] [] ;;
  ret r.

Definition buildUnOp (pt : InsertPoint) (O : Opcode) (Res : LLT)
           (Src : Register) : M Register :=
  r <- createGenericVirtualRegister Res ;;
  _ <- insertInstr pt O [def r; use Src] [] ;;
  ret r.

Definition buildLoad (pt : InsertPoint) (Res : LLT) (Addr : Register)
           (MMO : MachineMemOperand) : M Register :=
  r <- createGenericVirtualRegister Res ;;
  _ <- insertInstr pt G_LOAD [def r; use Addr] [MMO] ;;
  ret r.

Definition buildStore (pt : InsertPoint) (Val Addr : Register)
           (MMO : MachineMemOperand) : M unit :=
  _ <- insertInstr pt G_STORE [use Val; use Addr] [MMO] ;; ret tt.

(** [buildMerge(Res, Ops)] into an existing register. *)
Definition buildMerge (pt : InsertPoint) (Res : Register)
           (Ops : list Register) : M unit :=
  _ <- insertInstr pt G_MERGE_VALUES (def Res :: map use Ops) [] ;; ret tt.

Fixpoint createRegs (n : nat) (Ty : LLT) : M (list Register) :=
  match n with
  | O => ret []
  | S k => r <- createGenericVirtualRegister Ty ;;
           rs <- createRegs k Ty ;;
           ret (r :: rs)
  end.

(** [buildUnmerge(Res : LLT, Op)]: as many results of type [Res] as fit
    in the source. *)
Definition buildUnmerge (pt : InsertPoint) (Res : LLT) (Op : Register)
  : M (list Register) :=
  st <- getState ;;
  let NumReg := u32 (LLTOps.getSizeInBits (stateType st Op)
                     / LLTOps.getSizeInBits Res) in
  rs <- createRegs (Z.to_nat NumReg) Res ;;
  _ <- insertInstr pt G_UNMERGE_VALUES (map def rs ++ [use Op]) [] ;;
  ret rs.

Definition buildUndefMI (pt : InsertPoint) (Res : LLT) : M MachineInstr :=
  r <- createGenericVirtualRegister Res ;;
  insertInstr pt G_IMPLICIT_DEF [def r] [].

(* ================================================================== *)
(** ** Register replacement *)

Definition replaceOperandReg (FromReg ToReg : Register)
           (MO : MachineOperand) : MachineOperand :=
  match MO with
  | MO_Register r d => if r =? FromReg then MO_Register ToReg d else MO
  | _ => MO
  end.

(** [MachineRegisterInfo::replaceRegWith(FromReg, ToReg)]: every
    operand that names [FromReg] is made to name [ToReg]. *)
Definition MRI_replaceRegWith (FromReg ToReg : Register) : M unit :=
  fun st =>
    Some (tt, setInsts
                (map (fun i => mkMI (Id i) (Opc i)
                                 (map (replaceOperandReg FromReg ToReg)
                                      (Operands i))
                                 (Parent i) (memoperands i))
                     (Insts st)) st).

(** [MachineRegisterInfo::constrainRegAttrs(Reg, ConstrainingReg)] on
    the type part of the attributes: two valid, different types cannot
    be merged; otherwise [Reg] takes the constraining type.  (Register
    classes and banks are not part of the state.) *)
Definition constrainRegAttrsByType (Reg ConstrainingReg : Register) : M bool :=
  fun st =>
    let RegTy := stateType st Reg in
    let ConstrainingRegTy := stateType st ConstrainingReg in
    if LLTOps.isValid RegTy && LLTOps.isValid ConstrainingRegTy
       && negb (LLTOps.eqb RegTy ConstrainingRegTy)
    then Some (false, st)
    else if LLTOps.isValid ConstrainingRegTy
    then Some (true, mkState (Insts st)
                             ((Reg, ConstrainingRegTy) :: RegTypes st)
                             (NumVirtRegs st) (NextId st) (InsertBB st)
                             (InsertPt st) (ObjectAligns st) (Log st))
    else Some (true, st).

Section ReplaceReg.

(** [MRI.constrainRegAttrs(Reg, ConstrainingReg)]. *)
Variable constrainRegAttrs : Register -> Register -> M bool.

(** [CombinerHelper::replaceRegWith], lines 56-66. *)
Definition replaceRegWith (FromReg ToReg : Register) : M unit :=
  notify (changingAllUsesOfReg FromReg) ;;;
  ok <- constrainRegAttrs ToReg FromReg ;;
  (if ok : bool then MRI_replaceRegWith FromReg ToReg
   else pt <- BuilderPoint ;; buildCopy pt ToReg FromReg) ;;;
  notify finishedChangingAllUsesOfReg.

End ReplaceReg.

(* ================================================================== *)
(** ** The concat-vectors and shuffle-vector matchers *)

(** The loop of lines 120-152.  The result is the returned flag with
    the final [IsUndef] and [Ops]. *)
Fixpoint concatVectorsLoop (MI : MachineInstr) (MOs : list MachineOperand)
         (Undef : option MachineInstr) (IsUndef : bool)
         (Ops : list Register) {struct MOs}
  : M (bool * bool * list Register) :=
  match MOs with
  | [] => ret (true, IsUndef, Ops)
  | MO :: rest =>
      let Reg := getReg MO in
      fun st =>
        match getVRegDef (MRIof st) Reg with
        | None => None
        | Some Def =>
            match Opc Def with
            | G_BUILD_VECTOR =>
                concatVectorsLoop MI rest Undef false
                                  (Ops ++ map getReg (uses Def)) st
            | G_IMPLICIT_DEF =>
                let OpType := stateType st Reg in
                (U <- match Undef with
                      | Some u => ret u
                      | None =>
                          setInsertPt MI ;;;
                          pt <- BuilderPoint ;;
                          buildUndefMI pt (LLTOps.getScalarType OpType)
                      end ;;
                 concatVectorsLoop MI rest (Some U) IsUndef
                   (Ops ++ repeat (getReg (getOperand U 0))
                                  (Z.to_nat (u32 (LLTOps.getNumElements
                                                    OpType))))) st
            | _ => Some ((false, IsUndef, Ops), st)
            end
        end
  end.

(** [matchCombineConcatVectors], lines 110-154. *)
Definition matchCombineConcatVectors (MI : MachineInstr) (IsUndef : bool)
           (Ops : list Register) : M (bool * bool * list Register) :=
  concatVectorsLoop MI (uses MI) None true Ops.

Fixpoint setNth {A : Type} (n : nat) (v : A) (l : list A) : list A :=
  match l, n with
  | [], _ => []
  | _ :: tl, O => v :: tl
  | x :: tl, S k => x :: setNth k v tl
  end.

(** The mask loop of lines 228-241, [i] running over [n] more indices.
    [None]: the mask is read out of bounds; [Some None]: the loop
    returns false. *)
Fixpoint shuffleMaskLoop (n : nat) (i : Z) (SrcNumElts : Z)
         (Mask ConcatSrcs : list Z) : option (option (list Z)) :=
  match n with
  | O => Some (Some ConcatSrcs)
  | S k =>
      match nth_error Mask (Z.to_nat i) with
      | None => None
      | Some Idx =>
          if Idx <? 0
          then shuffleMaskLoop k (u32 (i + 1)) SrcNumElts Mask ConcatSrcs
          else
            let piece := Z.to_nat (i / SrcNumElts) in
            let cur := nth piece ConcatSrcs (-1) in
            if negb (Idx mod SrcNumElts =? i mod SrcNumElts)
               || ((cur >=? 0) && negb (cur =? Idx / SrcNumElts))
            then Some None
            else shuffleMaskLoop k (u32 (i + 1)) SrcNumElts Mask
                                 (setNth piece (Idx / SrcNumElts) ConcatSrcs)
      end
  end.

(** The loop of lines 247-258. *)
Fixpoint shuffleOpsLoop (MI : MachineInstr) (SrcType : LLT)
         (Src1 Src2 : Register) (ConcatSrcs : list Z)
         (UndefReg : option Register) (Ops : list Register)
  : M (list Register) :=
  match ConcatSrcs with
  | [] => ret Ops
  | Src :: rest =>
      if Src <? 0 then
        u <- match UndefReg with
             | Some u => ret u
             | None =>
                 setInsertPt MI ;;;
                 pt <- BuilderPoint ;;
                 buildUndef pt SrcType
             end ;;
        shuffleOpsLoop MI SrcType Src1 Src2 rest (Some u) (Ops ++ [u])
      else if Src =? 0 then
        shuffleOpsLoop MI SrcType Src1 Src2 rest UndefReg (Ops ++ [Src1])
      else
        shuffleOpsLoop MI SrcType Src1 Src2 rest UndefReg (Ops ++ [Src2])
  end.

(** [matchCombineShuffleVector], lines 186-260.  A remainder by zero
    source elements is undefined behaviour. *)
Definition matchCombineShuffleVector (MI : MachineInstr)
           (Ops : list Register) : M (bool * list Register) :=
  st <- getState ;;
  let DstType := stateType st (getReg (getOperand MI 0)) in
  let Src1 := getReg (getOperand MI 1) in
  let SrcType := stateType st Src1 in
  let DstNumElts :=
    if LLTOps.isVector DstType then u32 (LLTOps.getNumElements DstType)
    else 1 in
  let SrcNumElts :=
    if LLTOps.isVector SrcType then u32 (LLTOps.getNumElements SrcType)
    else 1 in
  if (DstNumElts <? u32 (2 * SrcNumElts)) && negb (DstNumElts =? 1)
  then ret (false, Ops)
  else if SrcNumElts =? 0 then undefinedBehaviour
  else if negb (DstNumElts mod SrcNumElts =? 0) then ret (false, Ops)
  else
    let NumConcat := DstNumElts / SrcNumElts in
    let Mask := getShuffleMask (getOperand MI 3) in
    match shuffleMaskLoop (Z.to_nat DstNumElts) 0 SrcNumElts Mask
                          (repeat (-1) (Z.to_nat NumConcat)) with
    | None => undefinedBehaviour
    | Some None => ret (false, Ops)
    | Some (Some ConcatSrcs) =>
        let Src2 := getReg (getOperand MI 2) in
        Ops' <- shuffleOpsLoop MI SrcType Src1 Src2 ConcatSrcs None Ops ;;
        ret (true, Ops')
    end.

(* ================================================================== *)
(** ** Shift splitting *)

Section ShiftToUnmerge.

(** Utils.h [getConstantVRegValWithLookThrough(Reg, MRI)]: the
    64-bit signed value of the constant that defines [Reg], if any. *)
Variable getConstantVRegValWithLookThrough :
  MachineRegisterInfo -> Register -> option Z.

(** [matchCombineShiftToUnmerge], lines 1564-1587; the flag and the
    final [ShiftVal]. *)
Definition matchCombineShiftToUnmerge (MI : MachineInstr)
           (TargetShiftSize : Z) (ShiftVal : Z) : M (bool * Z) :=
  st <- getState ;;
  let Ty := stateType st (getReg (getOperand MI 0)) in
  if LLTOps.isVector Ty then ret (false, ShiftVal)
  else
    let Size := u32 (LLTOps.getSizeInBits Ty) in
    if Size <=? TargetShiftSize then ret (false, ShiftVal)
    else
      match getConstantVRegValWithLookThrough (MRIof st)
              (getReg (getOperand MI 2)) with
      | None => ret (false, ShiftVal)
      | Some Value =>
          let ShiftVal := u32 Value in
          ret ((Size / 2 <=? ShiftVal) && (ShiftVal <? Size), ShiftVal)
      end.

(** [applyCombineShiftToUnmerge], lines 1589-1661. *)
Definition applyCombineShiftToUnmerge (MI : MachineInstr) (ShiftVal : Z)
  : M bool :=
  let DstReg := getReg (getOperand MI 0) in
  let SrcReg := getReg (getOperand MI 1) in
  st <- getState ;;
  let Ty := stateType st SrcReg in
  let Size := u32 (LLTOps.getSizeInBits Ty) in
  let HalfSize := Size / 2 in
  let HalfTy := LLT_scalar HalfSize in
  setInsertPt MI ;;;
  pt <- BuilderPoint ;;
  Unmerge <- buildUnmerge pt HalfTy SrcReg ;;
  let NarrowShiftAmt := u32 (ShiftVal - HalfSize) in
  (if opc_eqb (Opc MI) G_LSHR then
     let Narrowed := nth 1 Unmerge NoRegister in
     Narrowed' <- (if negb (NarrowShiftAmt =? 0) then
                     c <- buildConstant pt HalfTy NarrowShiftAmt ;;
                     buildBinOp pt G_LSHR HalfTy Narrowed c
                   else ret Narrowed) ;;
     Zero <- buildConstant pt HalfTy 0 ;;
     buildMerge pt DstReg [Narrowed'; Zero]
   else if opc_eqb (Opc MI) G_SHL then
     let Narrowed := nth 0 Unmerge NoRegister in
     Narrowed' <- (if negb (NarrowShiftAmt =? 0) then
                     c <- buildConstant pt HalfTy NarrowShiftAmt ;;
                     buildBinOp pt G_SHL HalfTy Narrowed c
                   else ret Narrowed) ;;
     Zero <- buildConstant pt HalfTy 0 ;;
     buildMerge pt DstReg [Zero; Narrowed']
   else
     c <- buildConstant pt HalfTy (u32 (HalfSize - 1)) ;;
     Hi <- buildBinOp pt G_ASHR HalfTy (nth 1 Unmerge NoRegister) c ;;
     if ShiftVal =? HalfSize then
       buildMerge pt DstReg [nth 1 Unmerge NoRegister; Hi]
     else if ShiftVal =? u32 (Size - 1) then
       buildMerge pt DstReg [Hi; Hi]
     else
       c' <- buildConstant pt HalfTy (u32 (ShiftVal - HalfSize)) ;;
       Lo <- buildBinOp pt G_ASHR HalfTy (nth 1 Unmerge NoRegister) c' ;;
       buildMerge pt DstReg [Lo; Hi]) ;;;
  eraseFromParent MI ;;;
  ret true.

(** [tryCombineShiftToUnmerge], lines 1663-1672. *)
Definition tryCombineShiftToUnmerge (MI : MachineInstr)
           (TargetShiftAmount : Z) : M bool :=
  r <- matchCombineShiftToUnmerge MI TargetShiftAmount 0 ;;
  if fst r then
    applyCombineShiftToUnmerge MI (snd r) ;;; ret true
  else ret false.

End ShiftToUnmerge.

(** *** What the emitted instructions compute

    Values of the generic opcodes on scalars, as the comments of
    [applyCombineShiftToUnmerge] read them: [G_UNMERGE_VALUES] yields
    the pieces of its source from the least significant one up,
    [G_MERGE_VALUES] is its inverse, [G_CONSTANT] is its immediate at
    the width of its result, [G_LSHR]/[G_SHL] shift at the width of
    their result.  A register's value is an unsigned number below
    two to its width. *)
Definition RegEnv : Type := Register -> Z.

Definition setReg (r : Register) (v : Z) (env : RegEnv) : RegEnv :=
  fun r' => if r' =? r then v else env r'.

Fixpoint setPieces (w : Z) (src : Z) (k : Z) (defs : list MachineOperand)
         (env : RegEnv) : RegEnv :=
  match defs with
  | [] => env
  | d :: tl =>
      setPieces w src (k + 1) tl
                (setReg (getReg d) (Z.shiftr src (k * w) mod 2 ^ w) env)
  end.

Fixpoint mergePieces (w : Z) (k : Z) (srcs : list MachineOperand)
         (env : RegEnv) : Z :=
  match srcs with
  | [] => 0
  | s :: tl => Z.shiftl (env (getReg s)) (k * w) + mergePieces w (k + 1) tl env
  end.

Definition widthOf (st : CombinerState) (r : Register) : Z :=
  LLTOps.getSizeInBits (stateType st r).

(** One instruction; [None] for an opcode outside the fragment. *)
Definition evalInstr (st : CombinerState) (MI : MachineInstr) (env : RegEnv)
  : option RegEnv :=
  let d := getReg (getOperand MI 0) in
  let w := widthOf st d in
  match Opc MI with
  | G_CONSTANT =>
      match getOperand MI 1 with
      | MO_CImmediate v => Some (setReg d (v mod 2 ^ w) env)
      | _ => None
      end
  | G_LSHR =>
      let a := env (getReg (getOperand MI 1)) in
      let b := env (getReg (getOperand MI 2)) in
      if b <? w then Some (setReg d (Z.shiftr a b) env) else None
  | G_SHL =>
      let a := env (getReg (getOperand MI 1)) in
      let b := env (getReg (getOperand MI 2)) in
      if b <? w then Some (setReg d (Z.shiftl a b mod 2 ^ w) env) else None
  | G_UNMERGE_VALUES =>
      let defs := filter isDef (Operands MI) in
      let src := env (getReg (last (Operands MI) (use NoRegister))) in
      Some (setPieces w src 0 defs env)
  | G_MERGE_VALUES =>
      let srcs := uses MI in
      let ws := widthOf st (getReg (hd (use NoRegister) srcs)) in
      Some (setReg d (mergePieces ws 0 srcs env) env)
  | _ => None
  end.

Fixpoint evalInstrs (st : CombinerState) (l : list MachineInstr)
         (env : RegEnv) : option RegEnv :=
  match l with
  | [] => Some env
  | i :: tl => match evalInstr st i env with
               | None => None
               | Some env' => evalInstrs st tl env'
               end
  end.

(* ================================================================== *)
(** ** Bulk memory operations: planning *)

(** [MemOp] of TargetLowering.h: the description of one bulk
    operation handed to the planner.  [Copy] and [SetOp] ([MemOp::Set])
    are its two constructors; both allow overlapping accesses exactly
    when the operation is not volatile. *)
Record MemOp : Type := mkMemOp {
    MO_Size : Z;
    DstAlignCanChange : bool;
    DstAlign : Align;
    AllowOverlap : bool;
    IsMemset : bool;
    ZeroMemset : bool;
    MemcpyStrSrc : bool;
    SrcAlign : Align
  }.

Module MemOpOps.
Definition Copy (Size : Z) (DstAlignCanChange : bool)
           (DstAlign SrcAlign : Align) (IsVolatile : bool) : MemOp :=
  mkMemOp Size DstAlignCanChange DstAlign (negb IsVolatile)
          false false false SrcAlign.
Definition SetOp (Size : Z) (DstAlignCanChange : bool) (DstAlign : Align)
           (IsZeroMemset IsVolatile : bool) : MemOp :=
  mkMemOp Size DstAlignCanChange DstAlign (negb IsVolatile)
          true IsZeroMemset false (mkAlign 0).
Definition isFixedDstAlign (Op : MemOp) : bool :=
  negb (DstAlignCanChange Op).
Definition isMemcpy (Op : MemOp) : bool := negb (IsMemset Op).
Definition isMemcpyWithFixedDstAlign (Op : MemOp) : bool :=
  isMemcpy Op && negb (DstAlignCanChange Op).
End MemOpOps.

(** The target-lowering hooks the lowering consults.  The misaligned
    access hook has two forms in the source: on an [LLT] with only the
    yes/no answer, and on a machine value type with the [Fast] output
    as well (the pair below). *)
Record TargetLowering : Type := mkTLI {
    getOptimalMemOpLLT : MemOp -> LLT;
    allowsMisalignedMemoryAccesses : LLT -> Z -> Z -> bool;
    allowsMisalignedMemoryAccessesFast : LLT -> Z -> Z -> bool * bool;
    getMaxStoresPerMemset : bool -> Z;
    getMaxStoresPerMemcpy : bool -> Z;
    getMaxStoresPerMemmove : bool -> Z;
    isTruncateFree : LLT -> LLT -> bool
  }.

Section MemOpPlanning.

Variable TLI : TargetLowering.

(** The loop of lines 978-980, with [Ty] not yet aligned enough. *)
Fixpoint alignTypeLoop (fuel : nat) (Op : MemOp) (DstAS : Z) (Ty : LLT)
  : option LLT :=
  if (Align_value (DstAlign Op) <? LLTOps.getSizeInBytes Ty)
     && negb (allowsMisalignedMemoryAccesses TLI Ty DstAS
                (Align_value (DstAlign Op)))
  then match fuel with
       | O => None
       | S k => alignTypeLoop k Op DstAS
                  (LLT_scalar (LLTOps.getSizeInBytes Ty))
       end
  else Some Ty.

(** The loop of lines 989-1015: shrink [Ty] until it fits in [Size],
    or settle for an overlapping access.  Result: [Ty] and [TySize]. *)
Fixpoint shrinkTypeLoop (fuel : nat) (Op : MemOp) (DstAS : Z)
         (NumMemOps Size : Z) (Ty : LLT) (TySize : Z)
  : option (LLT * Z) :=
  if TySize >? Size then
    match fuel with
    | O => None
    | S k =>
        let NewTy := Ty in
        let NewTy :=
          if LLTOps.isVector NewTy
          then (if LLTOps.getSizeInBits NewTy >? 64
                then LLT_scalar 64 else LLT_scalar 32)
          else NewTy in
        let NewTy :=
          LLT_scalar (PowerOf2Floor (u32 (LLTOps.getSizeInBits NewTy - 1))) in
        let NewTySize := u32 (LLTOps.getSizeInBytes NewTy) in
        let VT := Ty in
        if negb (NumMemOps =? 0) && AllowOverlap Op && (NewTySize <? Size)
           && (let '(allowed, Fast) :=
                 allowsMisalignedMemoryAccessesFast TLI VT DstAS
                   (if MemOpOps.isFixedDstAlign Op
                    then Align_value (DstAlign Op) else 0) in
               allowed && Fast)
        then shrinkTypeLoop k Op DstAS NumMemOps Size Ty (u32 Size)
        else shrinkTypeLoop k Op DstAS NumMemOps Size NewTy NewTySize
    end
  else Some (Ty, TySize).

(** The loop of lines 987-1022, with the flag it ends on ([false]
    when the operation count passes [Limit]) and the final [MemOps]. *)
Fixpoint memOpsLoop (fuel inner : nat) (Limit : Z) (Op : MemOp)
         (DstAS : Z) (NumMemOps Size : Z) (Ty : LLT) (MemOps : list LLT)
  : option (bool * list LLT) :=
  if Size =? 0 then Some (true, MemOps)
  else
    match fuel with
    | O => None
    | S k =>
        match shrinkTypeLoop inner Op DstAS NumMemOps Size Ty
                             (u32 (LLTOps.getSizeInBytes Ty)) with
        | None => None
        | Some (Ty', TySize) =>
            let NumMemOps' := u32 (NumMemOps + 1) in
            if NumMemOps' >? Limit then Some (false, MemOps)
            else memOpsLoop k inner Limit Op DstAS NumMemOps'
                            (u64 (Size - TySize)) Ty' (MemOps ++ [Ty'])
        end
    end.

(** [findGISelOptimalMemOpLowering], lines 962-1025.  [fuel] bounds
    the iterations of each loop; [None] means it ran out.  Otherwise
    the returned flag and the final [MemOps]. *)
Definition findGISelOptimalMemOpLowering (fuel : nat)
           (MemOps : list LLT) (Limit : Z) (Op : MemOp) (DstAS SrcAS : Z)
  : option (bool * list LLT) :=
  if MemOpOps.isMemcpyWithFixedDstAlign Op
     && (Align_value (SrcAlign Op) <? Align_value (DstAlign Op))
  then Some (false, MemOps)
  else
    let Ty := getOptimalMemOpLLT TLI Op in
    match (if LLTOps.eqb Ty LLT_invalid then
             if MemOpOps.isFixedDstAlign Op
             then alignTypeLoop fuel Op DstAS (LLT_scalar 64)
             else Some (LLT_scalar 64)
           else Some Ty) with
    | None => None
    | Some Ty =>
        memOpsLoop fuel fuel Limit Op DstAS 0 (u64 (MO_Size Op)) Ty MemOps
    end.

End MemOpPlanning.

(* ================================================================== *)
(** ** Bulk memory operations: emission *)

(** [MF.getMachineMemOperand(&MMO, Offset, Size)]: the same access
    moved by [Offset] and resized. *)
Definition getMachineMemOperand (MMO : MachineMemOperand) (Offset Size : Z)
  : MachineMemOperand :=
  mkMMO (MMO_Offset MMO + Offset) Size (MMO_BaseAlign MMO)
        (MMO_AddrSpace MMO) (MMO_Volatile MMO) (MMO_Ordering MMO).

Definition getObjectAlign (st : CombinerState) (FI : Z) : Align :=
  match lookupZ FI (ObjectAligns st) with
  | Some a => a
  | None => mkAlign 0
  end.

Definition setObjectAlignment (FI : Z) (A : Align) : M unit :=
  fun st => Some (tt, mkState (Insts st) (RegTypes st) (NumVirtRegs st)
                              (NextId st) (InsertBB st) (InsertPt st)
                              ((FI, A) :: ObjectAligns st) (Log st)).

Definition getIndex (MO : MachineOperand) : Z :=
  match MO with MO_FrameIndex i => i | _ => 0 end.

(** A [w]-bit register value read as a two's complement number. *)
Definition signedValue (w v : Z) : Z :=
  if v <? 2 ^ (w - 1) then v else v - 2 ^ w.

(** [APInt::getSplat(NumBits, APInt(8, V))]: the byte repeated over
    [NumBits] bits, as the unsigned reading of these bits. *)
Fixpoint splatBytes (n : nat) (V : Z) : Z :=
  match n with
  | O => 0
  | S k => V mod 256 + 256 * splatBytes k V
  end.
Definition getSplat (NumBits V : Z) : Z :=
  splatBytes (Z.to_nat ((NumBits + 7) / 8)) V mod 2 ^ NumBits.

(** [buildSplatVector(Res, Src)]. *)
Definition buildSplatVector (pt : InsertPoint) (Res : LLT) (Src : Register)
  : M Register :=
  r <- createGenericVirtualRegister Res ;;
  _ <- insertInstr pt G_BUILD_VECTOR
         (def r :: repeat (use Src)
                          (Z.to_nat (u32 (LLTOps.getNumElements Res)))) [] ;;
  ret r.

(** [buildConstant(Res, Val)] for any [LLT]: a vector constant is a
    splat of the scalar one. *)
Definition buildConstantOfType (pt : InsertPoint) (Res : LLT) (Val : Z)
  : M Register :=
  if LLTOps.isVector Res then
    c <- buildConstant pt (LLTOps.getScalarType Res) Val ;;
    buildSplatVector pt Res c
  else buildConstant pt Res Val.

(** [buildZExtOrTrunc(Res, Op)]. *)
Definition buildZExtOrTrunc (pt : InsertPoint) (Res : LLT) (Op : Register)
  : M Register :=
  st <- getState ;;
  let OpTy := stateType st Op in
  let Opcode :=
    if LLTOps.getSizeInBits Res >? LLTOps.getSizeInBits OpTy then G_ZEXT
    else if LLTOps.getSizeInBits Res <? LLTOps.getSizeInBits OpTy
    then G_TRUNC else COPY in
  buildUnOp pt Opcode Res Op.

Section MemCpyFamily.

Variable TLI : TargetLowering.
(** Utils.h. *)
Variable getOpcodeDef :
  MachineRegisterInfo -> Opcode -> Register -> option MachineInstr.
Variable getConstantVRegValWithLookThrough :
  MachineRegisterInfo -> Register -> option Z.
(** The target triple and the function attributes read by
    [shouldLowerMemFuncForSize]. *)
Variables isOSDarwin hasMinSize hasOptSize : bool.
(** [MFI.isFixedObjectIndex]. *)
Variable isFixedObjectIndex : Z -> bool.
(** [DL.getABITypeAlign(getTypeForLLT(Ty, C))]. *)
Variable getABITypeAlign : LLT -> Align.
Variable exceedsNaturalStackAlignment : Align -> bool.
(** [TRI->needsStackRealignment(MF)]. *)
Variable needsStackRealignment : bool.
(** Bound on the iterations of the planner's loops. *)
Variable fuel : nat.

(** Lines 952-958. *)
Definition shouldLowerMemFuncForSize : bool :=
  if isOSDarwin then hasMinSize else hasOptSize.

(** Lines 1082-1084, 1197-1199, 1303-1305: the frame-index definition
    of [Dst], when it names a non-fixed object. *)
Definition frameIndexDef (st : CombinerState) (Dst : Register)
  : option MachineInstr * bool :=
  let FIDef := getOpcodeDef (MRIof st) G_FRAME_INDEX Dst in
  (FIDef,
   match FIDef with
   | Some d => negb (isFixedObjectIndex (getIndex (getOperand d 1)))
   | None => false
   end).

(** The loop [while (NewAlign > Alignment &&
    DL.exceedsNaturalStackAlignment(NewAlign)) NewAlign = NewAlign / 2],
    by recursion on the logarithm of [NewAlign]. *)
Fixpoint halveNewAlign (NewShift : nat) (Alignment : Align) : Align :=
  if (Align_value (mkAlign NewShift) >? Align_value Alignment)
     && exceedsNaturalStackAlignment (mkAlign NewShift)
  then match NewShift with
       | O => mkAlign O
       | S k => halveNewAlign k Alignment
       end
  else mkAlign NewShift.

(** Lines 1221-1240 and 1326-1345 (copy and move; [Realign] is
    true), lines 1104-1115 (set; the halving loop is absent).  The
    frame index is read through [FIDef] without a null test, which is
    sound because [DstAlignCanChange] implies [FIDef]. *)
Definition raiseDstAlign (Realign : bool) (FIDef : option MachineInstr)
           (Ty0 : LLT) (Alignment : Align) : M Align :=
  let NewAlign := getABITypeAlign Ty0 in
  let NewAlign :=
    if Realign && negb needsStackRealignment
    then halveNewAlign (ShiftValue NewAlign) Alignment
    else NewAlign in
  if Align_value NewAlign >? Align_value Alignment then
    match FIDef with
    | None => undefinedBehaviour
    | Some d =>
        let FI := getIndex (getOperand d 1) in
        st <- getState ;;
        (if Align_value (getObjectAlign st FI) <? Align_value NewAlign
         then setObjectAlignment FI NewAlign else ret tt) ;;;
        ret NewAlign
    end
  else ret Alignment.

(** The planner call of [optimizeMemcpy], lines 1195-1219: the
    operation limit is the target's for copies and overlapping accesses
    are allowed unless the copy is volatile.  [None]: out of fuel. *)
Definition memcpyPlan (st : CombinerState) (MI : MachineInstr)
           (Dst : Register) (KnownLen : Z) (DstAlign SrcAlign : Align)
           (IsVolatile : bool) : option (bool * list LLT) :=
  let OptSize := shouldLowerMemFuncForSize in
  let Alignment := commonAlignmentOf DstAlign SrcAlign in
  let DstAlignCanChange := snd (frameIndexDef st Dst) in
  let Limit := getMaxStoresPerMemcpy TLI OptSize in
  findGISelOptimalMemOpLowering TLI fuel [] Limit
    (MemOpOps.Copy KnownLen DstAlignCanChange Alignment SrcAlign IsVolatile)
    (MMO_AddrSpace (firstMMO MI)) (MMO_AddrSpace (secondMMO MI)).

(** The planner call of [optimizeMemmove], lines 1301-1324: the
    operation limit is the target's for moves and the operation is
    described as volatile, which disallows overlapping accesses. *)
Definition memmovePlan (st : CombinerState) (MI : MachineInstr)
           (Dst : Register) (KnownLen : Z) (DstAlign SrcAlign : Align)
  : option (bool * list LLT) :=
  let OptSize := shouldLowerMemFuncForSize in
  let Alignment := commonAlignmentOf DstAlign SrcAlign in
  let DstAlignCanChange := snd (frameIndexDef st Dst) in
  let Limit := getMaxStoresPerMemmove TLI OptSize in
  findGISelOptimalMemOpLowering TLI fuel [] Limit
    (MemOpOps.Copy KnownLen DstAlignCanChange Alignment SrcAlign true)
    (MMO_AddrSpace (firstMMO MI)) (MMO_AddrSpace (secondMMO MI)).

(** The load loop of [optimizeMemmove], lines 1356-1370. *)
Fixpoint memmoveLoadLoop (pt : InsertPoint) (Src : Register) (PtrTy : LLT)
         (SrcMMO : MachineMemOperand) (MemOps : list LLT)
         (CurrOffset : Z) (LoadVals : list Register)
  : M (list Register) :=
  match MemOps with
  | [] => ret LoadVals
  | CopyTy :: rest =>
      let LoadMMO := getMachineMemOperand SrcMMO CurrOffset
                       (LLTOps.getSizeInBytes CopyTy) in
      LoadPtr <- (if negb (CurrOffset =? 0) then
                    Offset <- buildConstant pt
                                (LLT_scalar (LLTOps.getSizeInBits PtrTy))
                                CurrOffset ;;
                    buildBinOp pt G_PTR_ADD PtrTy Src Offset
                  else ret Src) ;;
      v <- buildLoad pt CopyTy LoadPtr LoadMMO ;;
      memmoveLoadLoop pt Src PtrTy SrcMMO rest
        (u32 (CurrOffset + LLTOps.getSizeInBytes CopyTy)) (LoadVals ++ [v])
  end.

(** The store loop of [optimizeMemmove], lines 1373-1387, from index
    [I] on ([MemOps] is the part of the plan not yet stored). *)
Fixpoint memmoveStoreLoop (pt : InsertPoint) (Dst : Register) (PtrTy : LLT)
         (DstMMO : MachineMemOperand) (MemOps : list LLT)
         (LoadVals : list Register) (I : nat) (CurrOffset : Z) : M unit :=
  match MemOps with
  | [] => ret tt
  | CopyTy :: rest =>
      let StoreMMO := getMachineMemOperand DstMMO CurrOffset
                        (LLTOps.getSizeInBytes CopyTy) in
      StorePtr <- (if negb (CurrOffset =? 0) then
                     Offset <- buildConstant pt
                                 (LLT_scalar (LLTOps.getSizeInBits PtrTy))
                                 CurrOffset ;;
                     buildBinOp pt G_PTR_ADD PtrTy Dst Offset
                   else ret Dst) ;;
      buildStore pt (nth I LoadVals NoRegister) StorePtr StoreMMO ;;;
      memmoveStoreLoop pt Dst PtrTy DstMMO rest LoadVals (S I)
        (u32 (CurrOffset + LLTOps.getSizeInBytes CopyTy))
  end.

(** [optimizeMemmove], lines 1287-1390. *)
Definition optimizeMemmove (MI : MachineInstr) (Dst Src : Register)
           (KnownLen : Z) (DstAlign SrcAlign : Align) (IsVolatile : bool)
  : M bool :=
  st <- getState ;;
  let Alignment := commonAlignmentOf DstAlign SrcAlign in
  let '(FIDef, DstAlignCanChange) := frameIndexDef st Dst in
  let DstMMO := firstMMO MI in
  let SrcMMO := secondMMO MI in
  match memmovePlan st MI Dst KnownLen DstAlign SrcAlign with
  | None => undefinedBehaviour
  | Some (false, _) => ret false
  | Some (true, MemOps) =>
      (if DstAlignCanChange
       then raiseDstAlign true FIDef (hd LLT_invalid MemOps) Alignment
       else ret Alignment) ;;;
      let pt := pointBefore MI in
      let PtrTy := stateType st Src in
      LoadVals <- memmoveLoadLoop pt Src PtrTy SrcMMO MemOps 0 [] ;;
      memmoveStoreLoop pt Dst PtrTy DstMMO MemOps LoadVals 0 0 ;;;
      eraseFromParent MI ;;;
      ret true
  end.

(** The loop of [optimizeMemcpy], lines 1253-1281. *)
Fixpoint memcpyLoop (pt : InsertPoint) (Dst Src : Register) (PtrTy : LLT)
         (DstMMO SrcMMO : MachineMemOperand) (MemOps : list LLT)
         (CurrOffset Size : Z) : M unit :=
  match MemOps with
  | [] => ret tt
  | CopyTy :: rest =>
      let Bytes := LLTOps.getSizeInBytes CopyTy in
      let CurrOffset :=
        if Bytes >? Size then u32 (CurrOffset - u32 (Bytes - Size))
        else CurrOffset in
      let LoadMMO := getMachineMemOperand SrcMMO CurrOffset Bytes in
      let StoreMMO := getMachineMemOperand DstMMO CurrOffset Bytes in
      po <- (if negb (CurrOffset =? 0) then
               Offset <- buildConstant pt
                           (LLT_scalar (LLTOps.getSizeInBits PtrTy))
                           CurrOffset ;;
               LoadPtr <- buildBinOp pt G_PTR_ADD PtrTy Src Offset ;;
               ret (LoadPtr, Offset)
             else ret (Src, NoRegister)) ;;
      LdVal <- buildLoad pt CopyTy (fst po) LoadMMO ;;
      StorePtr <- (if CurrOffset =? 0 then ret Dst
                   else buildBinOp pt G_PTR_ADD PtrTy Dst (snd po)) ;;
      buildStore pt LdVal StorePtr StoreMMO ;;;
      memcpyLoop pt Dst Src PtrTy DstMMO SrcMMO rest
                 (u32 (CurrOffset + Bytes)) (u32 (Size - Bytes))
  end.

(** [optimizeMemcpy], lines 1181-1285. *)
Definition optimizeMemcpy (MI : MachineInstr) (Dst Src : Register)
           (KnownLen : Z) (DstAlign SrcAlign : Align) (IsVolatile : bool)
  : M bool :=
  st <- getState ;;
  let Alignment := commonAlignmentOf DstAlign SrcAlign in
  let '(FIDef, DstAlignCanChange) := frameIndexDef st Dst in
  let DstMMO := firstMMO MI in
  let SrcMMO := secondMMO MI in
  match memcpyPlan st MI Dst KnownLen DstAlign SrcAlign IsVolatile with
  | None => undefinedBehaviour
  | Some (false, _) => ret false
  | Some (true, MemOps) =>
      (if DstAlignCanChange
       then raiseDstAlign true FIDef (hd LLT_invalid MemOps) Alignment
       else ret Alignment) ;;;
      let pt := pointBefore MI in
      let PtrTy := stateType st Src in
      memcpyLoop pt Dst Src PtrTy DstMMO SrcMMO MemOps 0 KnownLen ;;;
      eraseFromParent MI ;;;
      ret true
  end.

(** [getMemsetValue], lines 1035-1066.  The splats of lines 1042 and
    1056 are [APInt]s of [NumBits] bits; the immediate of a
    [G_CONSTANT] is kept as the signed reading of its bits (it is what
    [getConstantVRegVal] reads back), so that a splat whose top bit is
    set is a negative immediate. *)
Definition getMemsetValue (Val : Register) (Ty : LLT) (pt : InsertPoint)
  : M Register :=
  st <- getState ;;
  let NumBits := LLTOps.getScalarSizeInBits Ty in
  let ValVRegAndVal := getConstantVRegValWithLookThrough (MRIof st) Val in
  match (if negb (LLTOps.isVector Ty) then ValVRegAndVal else None) with
  | Some Value =>
      let KnownVal := u32 Value in
      let SplatVal := getSplat NumBits (KnownVal mod 2 ^ 8) in
      buildConstantOfType pt Ty (signedValue NumBits SplatVal)
  | None =>
      if match ValVRegAndVal with Some v => v =? 0 | None => false end
      then buildConstantOfType pt Ty 0
      else
        let ExtType := LLTOps.getScalarType Ty in
        ZExt <- buildZExtOrTrunc pt ExtType Val ;;
        Val <- (if NumBits >? 8 then
                  MagicMI <- buildConstantOfType pt ExtType
                               (signedValue NumBits
                                            (getSplat NumBits 1)) ;;
                  buildBinOp pt G_MUL ExtType ZExt MagicMI
                else ret Val) ;;
        if LLTOps.isVector Ty then buildSplatVector pt Ty Val else ret Val
  end.

(** The store loop of [optimizeMemset], lines 1137-1175; the flag is
    false on the [return false] of line 1159. *)
Fixpoint memsetLoop (pt : InsertPoint) (Dst Val : Register) (PtrTy : LLT)
         (DstMMO : MachineMemOperand) (LargestTy : LLT)
         (MemSetValue : Register) (MemOps : list LLT) (DstOff Size : Z)
  : M bool :=
  match MemOps with
  | [] => ret true
  | Ty :: rest =>
      let TySize := u32 (LLTOps.getSizeInBytes Ty) in
      let DstOff :=
        if TySize >? Size then u32 (DstOff - u32 (TySize - Size))
        else DstOff in
      Value <- (if LLTOps.getSizeInBits Ty <? LLTOps.getSizeInBits LargestTy
                then
                  if negb (LLTOps.isVector LargestTy)
                     && negb (LLTOps.isVector Ty)
                     && isTruncateFree TLI LargestTy Ty
                  then buildUnOp pt G_TRUNC Ty MemSetValue
                  else getMemsetValue Val Ty pt
                else ret MemSetValue) ;;
      if Value =? NoRegister then ret false
      else
        let StoreMMO := getMachineMemOperand DstMMO DstOff
                          (LLTOps.getSizeInBytes Ty) in
        Ptr <- (if negb (DstOff =? 0) then
                  Offset <- buildConstant pt
                              (LLT_scalar (LLTOps.getSizeInBits PtrTy))
                              DstOff ;;
                  buildBinOp pt G_PTR_ADD PtrTy Dst Offset
                else ret Dst) ;;
        buildStore pt Value Ptr StoreMMO ;;;
        memsetLoop pt Dst Val PtrTy DstMMO LargestTy MemSetValue rest
                   (u32 (DstOff + LLTOps.getSizeInBytes Ty))
                   (u32 (Size - TySize))
  end.

(** Lines 1119-1122. *)
Definition largestType (MemOps : list LLT) : LLT :=
  fold_left (fun LargestTy Ty =>
               if LLTOps.getSizeInBits Ty >? LLTOps.getSizeInBits LargestTy
               then Ty else LargestTy)
            (tl MemOps) (hd LLT_invalid MemOps).

(** [optimizeMemset], lines 1068-1179. *)
Definition optimizeMemset (MI : MachineInstr) (Dst Val : Register)
           (KnownLen : Z) (Alignment : Align) (IsVolatile : bool)
  : M bool :=
  st <- getState ;;
  let OptSize := shouldLowerMemFuncForSize in
  let '(FIDef, DstAlignCanChange) := frameIndexDef st Dst in
  let Limit := getMaxStoresPerMemset TLI OptSize in
  let DstMMO := firstMMO MI in
  let IsZeroVal :=
    match getConstantVRegValWithLookThrough (MRIof st) Val with
    | Some v => v =? 0
    | None => false
    end in
  match findGISelOptimalMemOpLowering TLI fuel [] Limit
          (MemOpOps.SetOp KnownLen DstAlignCanChange Alignment IsZeroVal
                          IsVolatile)
          (MMO_AddrSpace DstMMO) (u32 (-1)) with
  | None => undefinedBehaviour
  | Some (false, _) => ret false
  | Some (true, MemOps) =>
      (if DstAlignCanChange
       then raiseDstAlign false FIDef (hd LLT_invalid MemOps) Alignment
       else ret Alignment) ;;;
      let pt := pointBefore MI in
      let LargestTy := largestType MemOps in
      MemSetValue <- getMemsetValue Val LargestTy pt ;;
      if MemSetValue =? NoRegister then ret false
      else
        let PtrTy := stateType st Dst in
        ok <- memsetLoop pt Dst Val PtrTy DstMMO LargestTy MemSetValue
                         MemOps 0 KnownLen ;;
        if ok : bool then eraseFromParent MI ;;; ret true
        else ret false
  end.

(** [tryCombineMemCpyFamily], lines 1392-1439.  The constant's
    64-bit value is narrowed to [unsigned KnownLen] at line 1422. *)
Definition tryCombineMemCpyFamily (MI : MachineInstr) (MaxLen : Z)
  : M bool :=
  let Opc := Opc MI in
  let MemOp := firstMMO MI in
  let IsVolatile := MMO_Volatile MemOp in
  if IsVolatile then ret false
  else
    let DstAlign := MMO_BaseAlign MemOp in
    let Dst := getReg (getOperand MI 0) in
    let Src := getReg (getOperand MI 1) in
    let Len := getReg (getOperand MI 2) in
    let SrcAlign :=
      if negb (opc_eqb Opc G_MEMSET)
      then MMO_BaseAlign (secondMMO MI) else mkAlign 0 in
    st <- getState ;;
    match getConstantVRegValWithLookThrough (MRIof st) Len with
    | None => ret false
    | Some Value =>
        let KnownLen := u32 Value in
        if KnownLen =? 0 then eraseFromParent MI ;;; ret true
        else if negb (MaxLen =? 0) && (KnownLen >? MaxLen) then ret false
        else if opc_eqb Opc G_MEMCPY
        then optimizeMemcpy MI Dst Src KnownLen DstAlign SrcAlign IsVolatile
        else if opc_eqb Opc G_MEMMOVE
        then optimizeMemmove MI Dst Src KnownLen DstAlign SrcAlign IsVolatile
        else if opc_eqb Opc G_MEMSET
        then optimizeMemset MI Dst Src KnownLen DstAlign IsVolatile
        else ret false
    end.

End MemCpyFamily.

(* ================================================================== *)
(** ** The tie-break of the extending-load combine, in the
       specification's words *)

Definition isDefinedExtend (o : Opcode) : bool :=
  opc_eqb o G_SEXT || opc_eqb o G_ZEXT.

(** [beats c p]: candidate [c] (opcode, destination width) is strictly
    preferred to [p].  (1) A defined extend beats an any-extend;
    (2) between a sign and a zero extend of equal width the sign extend
    wins; (3) otherwise the larger destination width wins. *)
Definition beats (cOpc : Opcode) (cWidth : Z) (pOpc : Opcode) (pWidth : Z)
  : bool :=
  if isDefinedExtend cOpc && negb (isDefinedExtend pOpc) then true
  else if negb (isDefinedExtend cOpc) && isDefinedExtend pOpc then false
  else if (cWidth =? pWidth) && opc_eqb cOpc G_SEXT && opc_eqb pOpc G_ZEXT
  then true
  else if (cWidth =? pWidth) && opc_eqb cOpc G_ZEXT && opc_eqb pOpc G_SEXT
  then false
  else cWidth >? pWidth.

(** The extend uses of the load's result that pass the legality query. *)
Definition legalExtendUses (LI : option LegalizerInfo)
           (MRI : MachineRegisterInfo) (MI : MachineInstr)
  : list MachineInstr :=
  filter (fun U => isExtendOpcode (Opc U) && extUseIsLegal LI MRI MI U)
         (use_nodbg_instructions MRI (getReg (getOperand MI 0))).

Definition useType (MRI : MachineRegisterInfo) (U : MachineInstr) : LLT :=
  getType MRI (getReg (getOperand U 0)).

(* ================================================================== *)
(** ** Example programs *)

Module Examples.

Definition v (i : Z) : Register := index2VirtReg i.

Definition emptyState (l : list MachineInstr) (tys : list (Register * LLT))
  : CombinerState :=
  mkState l tys 16 100 0 0 [] [].

(** A sign-extending load whose only user is a zero extend:
    <<
    %1:s16 = G_SEXTLOAD %0(p0)        ; load 1 byte
    %2:s32 = G_ZEXT %1
    >> *)
Definition sextload : MachineInstr :=
  mkMI 1 G_SEXTLOAD [def (v 1); use (v 0)] 0
       [mkMMO 0 1 (mkAlign 0) 0 false 0].
Definition zextOfLoad : MachineInstr :=
  mkMI 2 G_ZEXT [def (v 2); use (v 1)] 0 [].
Definition sextloadState : CombinerState :=
  emptyState [sextload; zextOfLoad]
             [(v 0, LLT_pointer 0 64); (v 1, LLT_scalar 16);
              (v 2, LLT_scalar 32)].

(** A plain load with a zero extend to 32 bits and an any-extend to
    64 bits:
    <<
    %1:s8 = G_LOAD %0(p0)
    %2:s32 = G_ZEXT %1
    %3:s64 = G_ANYEXT %1
    >> *)
Definition load8 : MachineInstr :=
  mkMI 1 G_LOAD [def (v 1); use (v 0)] 0
       [mkMMO 0 1 (mkAlign 0) 0 false 0].
Definition zext32 : MachineInstr :=
  mkMI 2 G_ZEXT [def (v 2); use (v 1)] 0 [].
Definition anyext64 : MachineInstr :=
  mkMI 3 G_ANYEXT [def (v 3); use (v 1)] 0 [].
Definition mixedUsesState : CombinerState :=
  emptyState [load8; zext32; anyext64]
             [(v 0, LLT_pointer 0 64); (v 1, LLT_scalar 8);
              (v 2, LLT_scalar 32); (v 3, LLT_scalar 64)].

(** Two results of one unmerge:
    <<
    %1:s64, %2:s64 = G_UNMERGE_VALUES %0(<2 x s64>)
    >> *)
Definition unmerge2 : MachineInstr :=
  mkMI 1 G_UNMERGE_VALUES [def (v 1); def (v 2); use (v 0)] 0 [].
Definition unmergeState : CombinerState :=
  emptyState [unmerge2]
             [(v 0, LLT_vector 2 64); (v 1, LLT_scalar 64);
              (v 2, LLT_scalar 64)].

(** On a program without [COPY], looking through copies is the plain
    definition lookup. *)
Definition defNoCopies (st : CombinerState) (r : Register)
  : option MachineInstr :=
  getVRegDef (MRIof st) r.

Definition opcodeDefNoCopies (st : CombinerState) (O : Opcode)
           (r : Register) : option MachineInstr :=
  match defNoCopies st r with
  | Some d => if opc_eqb (Opc d) O then Some d else None
  | None => None
  end.

(** Dominance inside one block whose instructions are numbered in
    layout order. *)
Definition sameBlockDominates (a b : MachineInstr) : bool := Id a <=? Id b.

(** A load whose base is advanced afterwards, the offset being
    computed before the load:
    <<
    %2:s64 = G_CONSTANT 4
    %0:p0 = ...
    %1:s32 = G_LOAD %0
    %3:p0 = G_PTR_ADD %0, %2
    G_STORE %1, %3
    >> *)
Definition postOffset : MachineInstr :=
  mkMI 0 G_CONSTANT [def (v 2); MO_CImmediate 4] 0 [].
Definition postBase : MachineInstr := mkMI 1 (G_OTHER 0) [def (v 0)] 0 [].
Definition postLoad : MachineInstr :=
  mkMI 2 G_LOAD [def (v 1); use (v 0)] 0 [mkMMO 0 4 (mkAlign 2) 0 false 0].
Definition postPtrAdd : MachineInstr :=
  mkMI 3 G_PTR_ADD [def (v 3); use (v 0); use (v 2)] 0 [].
Definition postStore : MachineInstr :=
  mkMI 4 G_STORE [use (v 1); use (v 3)] 0 [mkMMO 0 4 (mkAlign 2) 0 false 0].
Definition postIndexState : CombinerState :=
  emptyState [postOffset; postBase; postLoad; postPtrAdd; postStore]
             [(v 0, LLT_pointer 0 64); (v 1, LLT_scalar 32);
              (v 2, LLT_scalar 64); (v 3, LLT_pointer 0 64)].

(** A load through a computed address that a later load reads again:
    <<
    %0:p0 = ...
    %1:s64 = G_CONSTANT 4
    %2:p0 = G_PTR_ADD %0, %1
    %3:s32 = G_LOAD %2
    %4:s32 = G_LOAD %2
    >> *)
Definition preBase : MachineInstr := mkMI 0 (G_OTHER 0) [def (v 0)] 0 [].
Definition preOffset : MachineInstr :=
  mkMI 1 G_CONSTANT [def (v 1); MO_CImmediate 4] 0 [].
Definition prePtrAdd : MachineInstr :=
  mkMI 2 G_PTR_ADD [def (v 2); use (v 0); use (v 1)] 0 [].
Definition preLoad : MachineInstr :=
  mkMI 3 G_LOAD [def (v 3); use (v 2)] 0 [mkMMO 0 4 (mkAlign 2) 0 false 0].
Definition preLoadAgain : MachineInstr :=
  mkMI 4 G_LOAD [def (v 4); use (v 2)] 0 [mkMMO 0 4 (mkAlign 2) 0 false 0].
Definition preIndexState : CombinerState :=
  emptyState [preBase; preOffset; prePtrAdd; preLoad; preLoadAgain]
             [(v 0, LLT_pointer 0 64); (v 1, LLT_scalar 64);
              (v 2, LLT_pointer 0 64); (v 3, LLT_scalar 32);
              (v 4, LLT_scalar 32)].

(** A 32-bit value that is stored, and a 64-bit value that cannot take
    its place; the builder stands before the store:
    <<
    %0:s64 = ...
    %1:s32 = ...
    G_STORE %1, %2
    >> *)
Definition wideDef : MachineInstr := mkMI 0 (G_OTHER 0) [def (v 0)] 0 [].
Definition narrowDef : MachineInstr := mkMI 1 (G_OTHER 1) [def (v 1)] 0 [].
Definition narrowStore : MachineInstr :=
  mkMI 2 G_STORE [use (v 1); use (v 2)] 0 [mkMMO 0 4 (mkAlign 2) 0 false 0].
Definition replaceState : CombinerState :=
  mkState [wideDef; narrowDef; narrowStore]
          [(v 0, LLT_scalar 64); (v 1, LLT_scalar 32);
           (v 2, LLT_pointer 0 64)]
          16 100 0 2 [] [].

(** A concatenation of an undefined vector and a built vector:
    <<
    %0:<2 x s32> = G_IMPLICIT_DEF
    %3:<2 x s32> = G_BUILD_VECTOR %1, %2
    %5:<2 x s32> = ...
    %4:<4 x s32> = G_CONCAT_VECTORS %0, %3
    %6:<4 x s32> = G_CONCAT_VECTORS %0, %5
    >> *)
Definition undefVec : MachineInstr := mkMI 0 G_IMPLICIT_DEF [def (v 0)] 0 [].
Definition builtVec : MachineInstr :=
  mkMI 1 G_BUILD_VECTOR [def (v 3); use (v 1); use (v 2)] 0 [].
Definition otherVec : MachineInstr := mkMI 2 (G_OTHER 0) [def (v 5)] 0 [].
Definition concatUndefBuilt : MachineInstr :=
  mkMI 3 G_CONCAT_VECTORS [def (v 4); use (v 0); use (v 3)] 0 [].
Definition concatUndefOther : MachineInstr :=
  mkMI 4 G_CONCAT_VECTORS [def (v 6); use (v 0); use (v 5)] 0 [].
Definition concatState : CombinerState :=
  emptyState [undefVec; builtVec; otherVec; concatUndefBuilt;
              concatUndefOther]
             [(v 0, LLT_vector 2 32); (v 1, LLT_scalar 32);
              (v 2, LLT_scalar 32); (v 3, LLT_vector 2 32);
              (v 4, LLT_vector 4 32); (v 5, LLT_vector 2 32);
              (v 6, LLT_vector 4 32)].

(** A shuffle that takes its low half from the first source and leaves
    the high half undefined:
    <<
    %2:<4 x s32> = G_SHUFFLE_VECTOR %0(<2 x s32>), %1, shufflemask(0, 1, -1, -1)
    >> *)
Definition shuffleHalfUndef : MachineInstr :=
  mkMI 0 G_SHUFFLE_VECTOR
       [def (v 2); use (v 0); use (v 1); MO_ShuffleMask [0; 1; -1; -1]] 0 [].
Definition shuffleState : CombinerState :=
  emptyState [shuffleHalfUndef]
             [(v 0, LLT_vector 2 32); (v 1, LLT_vector 2 32);
              (v 2, LLT_vector 4 32)].

(** On a program whose constants are not wrapped in copies or
    extensions, the constant behind a register is the immediate of
    its defining [G_CONSTANT]. *)
Definition constantNoLookThrough (MRI : MachineRegisterInfo) (r : Register)
  : option Z :=
  match getVRegDef MRI r with
  | Some d =>
      if opc_eqb (Opc d) G_CONSTANT then
        match getOperand d 1 with
        | MO_CImmediate c => Some c
        | _ => None
        end
      else None
  | None => None
  end.

(** A 64-bit logical shift right by 40:
    <<
    %0:s64 = ...
    %1:s64 = G_CONSTANT 40
    %2:s64 = G_LSHR %0, %1
    >> *)
Definition shiftSrc : MachineInstr := mkMI 0 (G_OTHER 0) [def (v 0)] 0 [].
Definition shiftAmt : MachineInstr :=
  mkMI 1 G_CONSTANT [def (v 1); MO_CImmediate 40] 0 [].
Definition lshr40 : MachineInstr :=
  mkMI 2 G_LSHR [def (v 2); use (v 0); use (v 1)] 0 [].
Definition shiftState : CombinerState :=
  emptyState [shiftSrc; shiftAmt; lshr40]
             [(v 0, LLT_scalar 64); (v 1, LLT_scalar 64);
              (v 2, LLT_scalar 64)].

(** A target that names no optimal type, allows misaligned accesses,
    reports them as fast or not according to [fast], and limits every
    lowering to eight operations. *)
Definition simpleTLI (fast : bool) : TargetLowering :=
  mkTLI (fun _ => LLT_invalid) (fun _ _ _ => true)
        (fun _ _ _ => (true, fast))
        (fun _ => 8) (fun _ => 8) (fun _ => 8) (fun _ _ => true).

(** A copy and a move of [len] bytes, 4-byte aligned on both sides:
    <<
    %0:p0 = ...
    %1:p0 = ...
    %2:s64 = G_CONSTANT len
    G_MEMCPY %0, %1, %2     ; or G_MEMMOVE
    >> *)
Definition memDst : MachineInstr := mkMI 0 (G_OTHER 0) [def (v 0)] 0 [].
Definition memSrc : MachineInstr := mkMI 1 (G_OTHER 1) [def (v 1)] 0 [].
Definition memLen (len : Z) : MachineInstr :=
  mkMI 2 G_CONSTANT [def (v 2); MO_CImmediate len] 0 [].
Definition memOp (O : Opcode) : MachineInstr :=
  mkMI 3 O [use (v 0); use (v 1); use (v 2); MO_Immediate 0] 0
       [mkMMO 0 0 (mkAlign 2) 0 false 0; mkMMO 0 0 (mkAlign 2) 0 false 0].
Definition memState (O : Opcode) (len : Z) : CombinerState :=
  emptyState [memDst; memSrc; memLen len; memOp O]
             [(v 0, LLT_pointer 0 64); (v 1, LLT_pointer 0 64);
              (v 2, LLT_scalar 64)].

Definition opcodeDefOf (MRI : MachineRegisterInfo) (O : Opcode)
           (r : Register) : option MachineInstr :=
  match getVRegDef MRI r with
  | Some d => if opc_eqb (Opc d) O then Some d else None
  | None => None
  end.

(** [tryCombineMemCpyFamily] on the examples: no frame objects, an
    8-byte ABI alignment for every type. *)
Definition tryExample (fast : bool) (O : Opcode) (len MaxLen : Z)
  : option (bool * CombinerState) :=
  tryCombineMemCpyFamily (simpleTLI fast) opcodeDefOf
    constantNoLookThrough false false false (fun _ => true)
    (fun _ => mkAlign 3) (fun _ => false) false 64%nat
    (memOp O) MaxLen (memState O len).

(** The move of 7 bytes, lowered. *)
Definition memmove7 : option (bool * CombinerState) :=
  optimizeMemmove (simpleTLI true) opcodeDefOf false false false
    (fun _ => true) (fun _ => mkAlign 3) (fun _ => false) false 64%nat
    (memOp G_MEMMOVE) (v 0) (v 1) 7 (mkAlign 2) (mkAlign 2) false
    (memState G_MEMMOVE 7).
Definition memmove7State : CombinerState :=
  match memmove7 with
  | Some (_, st) => st
  | None => memState G_MEMMOVE 7
  end.

(** The planner calls of the copy and of the move of 7 bytes on the
    target with fast misaligned accesses. *)
Definition memcpyPlan7 : option (bool * list LLT) :=
  memcpyPlan (simpleTLI true) opcodeDefOf false false false (fun _ => true)
             64%nat (memState G_MEMCPY 7) (memOp G_MEMCPY) (v 0) 7
             (mkAlign 2) (mkAlign 2) false.
Definition memmovePlan7 : option (bool * list LLT) :=
  memmovePlan (simpleTLI true) opcodeDefOf false false false (fun _ => true)
              64%nat (memState G_MEMMOVE 7) (memOp G_MEMMOVE) (v 0) 7
              (mkAlign 2) (mkAlign 2).

End Examples.

(** What the loop of [matchCombineExtendingLoads] maintains on a plain
    [G_LOAD]: [seen] are the legal extend uses met so far and [P] the
    current preference. *)
Definition prefInvariant (MRI : MachineRegisterInfo)
           (seen : list MachineInstr) (P : PreferredTuple) : Prop :=
  match Pref.MI P with
  | None =>
      seen = [] /\ Pref.Ty P = LLT_invalid /\ Pref.ExtendOpcode P = G_ANYEXT
  | Some U =>
      In U seen /\ Pref.Ty P = useType MRI U /\ Pref.ExtendOpcode P = Opc U
      /\ forall V, In V seen ->
                   beats (Opc V) (LLTOps.getSizeInBits (useType MRI V))
                         (Opc U) (LLTOps.getSizeInBits (useType MRI U))
                   = false
  end.

(* ================================================================== *)
(** ** Register replacement and matcher purity, in the specification's
       words *)

Definition mentionsReg (r : Register) (MI : MachineInstr) : bool :=
  existsb (fun MO => isReg MO && (getReg MO =? r)) (Operands MI).

(** "Insert a copy-like instruction producing a fresh value from B
    typed as A, and redirect uses to that instead": some register that
    the function did not mention before is now defined by an
    instruction reading [B], has the type of [A], and nothing reads
    [A] any more. *)
Definition copiedToFreshValue (st st' : CombinerState) (A B : Register)
  : Prop :=
  exists (Fresh : Register) (Copy : MachineInstr),
    (forall i, In i (Insts st) -> mentionsReg Fresh i = false)
    /\ In Copy (Insts st')
    /\ definesReg Fresh Copy = true
    /\ usesReg B Copy = true
    /\ stateType st' Fresh = stateType st A
    /\ forall i, In i (Insts st') -> usesReg A i = false.




(* ================================================================== *)
(** ** The shift splitting, in the specification's words *)

(** The instructions that replace [Dst = G_LSHR Src, C] on a 64-bit
    value with [32 <= C <= 63]: the two 32-bit halves of [Src], one
    narrow shift of the high half by [C - 32] (none when [C] is 32),
    and the merge of the shifted high half, as the low part, with a
    zero high part.  [bb] is the block, [n] the first unused
    instruction identity and [k] the first unused register index. *)
Definition lshrSplitSequence (bb n k : Z) (Src Dst : Register) (C : Z)
  : list MachineInstr :=
  let lo := index2VirtReg k in
  let hi := index2VirtReg (k + 1) in
  let half := index2VirtReg (k + 1 + 1) in
  if C =? 32 then
    [mkMI n G_UNMERGE_VALUES [def lo; def hi; use Src] bb [];
     mkMI (n + 1) G_CONSTANT [def half; MO_CImmediate 0] bb [];
     mkMI (n + 1 + 1) G_MERGE_VALUES [def Dst; use hi; use half] bb []]
  else
    let amt := half in
    let narrowed := index2VirtReg (k + 1 + 1 + 1) in
    let zero := index2VirtReg (k + 1 + 1 + 1 + 1) in
    [mkMI n G_UNMERGE_VALUES [def lo; def hi; use Src] bb [];
     mkMI (n + 1) G_CONSTANT [def amt; MO_CImmediate (C - 32)] bb [];
     mkMI (n + 1 + 1) G_LSHR [def narrowed; use hi; use amt] bb [];
     mkMI (n + 1 + 1 + 1) G_CONSTANT [def zero; MO_CImmediate 0] bb [];
     mkMI (n + 1 + 1 + 1 + 1) G_MERGE_VALUES
          [def Dst; use narrowed; use zero] bb []].

Definition countOpcode (O : Opcode) (l : list MachineInstr) : nat :=
  length (filter (fun i => opc_eqb (Opc i) O) l).

(* ================================================================== *)
(** ** Planned chunks and their offsets *)

(** The offsets at which the two loops of [optimizeMemmove] place the
    planned chunks: each chunk starts where the previous one ends. *)
Fixpoint memmoveOffsets (MemOps : list LLT) (CurrOffset : Z) : list Z :=
  match MemOps with
  | [] => []
  | CopyTy :: rest =>
      CurrOffset
        :: memmoveOffsets rest (u32 (CurrOffset + LLTOps.getSizeInBytes CopyTy))
  end.

(** The offsets at which the loop of [optimizeMemcpy] places them: a
    chunk wider than what is left is moved back so as to end at the
    end of the copy. *)
Fixpoint memcpyOffsets (MemOps : list LLT) (CurrOffset Size : Z) : list Z :=
  match MemOps with
  | [] => []
  | CopyTy :: rest =>
      let Bytes := LLTOps.getSizeInBytes CopyTy in
      let CurrOffset :=
        if Bytes >? Size then u32 (CurrOffset - u32 (Bytes - Size))
        else CurrOffset in
      CurrOffset
        :: memcpyOffsets rest (u32 (CurrOffset + Bytes)) (u32 (Size - Bytes))
  end.

(** The memory accesses of opcode [O] in a list of instructions, each
    as (size in bytes, offset). *)
Definition accesses (O : Opcode) (l : list MachineInstr) : list (Z * Z) :=
  map (fun i => (MMO_Size (firstMMO i), MMO_Offset (firstMMO i)))
      (filter (fun i => opc_eqb (Opc i) O) l).

(** The accesses a plan asks for on the memory described by [Base]. *)
Definition chunksAt (Base : MachineMemOperand) (MemOps : list LLT)
           (Offsets : list Z) : list (Z * Z) :=
  map (fun p => (LLTOps.getSizeInBytes (fst p), MMO_Offset Base + snd p))
      (combine MemOps Offsets).

Definition firstRegs (O : Opcode) (l : list MachineInstr) : list Register :=
  map (fun i => getReg (getOperand i 0))
      (filter (fun i => opc_eqb (Opc i) O) l).

(** A type whose size in bytes fits the [unsigned] that
    [getSizeInBytes] returns. *)
Definition fitsUnsigned (Ty : LLT) : Prop :=
  0 <= LLTOps.getSizeInBytes Ty < 2 ^ 32.

(* ================================================================== *)
(** ** Byte ranges of a list of accesses *)

(** An access is (size in bytes, offset), as [accesses] lists them.
    [contiguousTo chunks lo cur hi]: every access lies inside
    [lo, hi), starts no later than where the accesses before it end
    ([cur]), and the last one ends at [hi]. *)
Fixpoint contiguousTo (chunks : list (Z * Z)) (lo cur hi : Z) : bool :=
  match chunks with
  | [] => cur =? hi
  | (b, o) :: tl =>
      (lo <=? o) && (o <=? cur) && (cur <=? o + b) && (o + b <=? hi)
      && contiguousTo tl lo (o + b) hi
  end.

(** [tilesFrom chunks cur hi]: every access starts exactly where the
    one before it ends, the first at [cur] and the last ending at
    [hi]. *)
Fixpoint tilesFrom (chunks : list (Z * Z)) (cur hi : Z) : bool :=
  match chunks with
  | [] => cur =? hi
  | (b, o) :: tl => (o =? cur) && (0 <=? b) && tilesFrom tl (o + b) hi
  end.

Definition chunkInside (lo hi : Z) (c : Z * Z) : Prop :=
  lo <= snd c /\ snd c + fst c <= hi.

Definition byteCovered (chunks : list (Z * Z)) (x : Z) : Prop :=
  exists c, In c chunks /\ snd c <= x < snd c + fst c.

(** The operation limit [tryCombineMemCpyFamily] works under for an
    instruction of opcode [O]: the one its lowering asks the target
    for at line 1205 (copy), 1307 (move) or 1086 (set). *)
Definition maxStoresFor (TLI : TargetLowering) (OptSize : bool) (O : Opcode)
  : Z :=
  if opc_eqb O G_MEMCPY then getMaxStoresPerMemcpy TLI OptSize
  else if opc_eqb O G_MEMMOVE then getMaxStoresPerMemmove TLI OptSize
  else getMaxStoresPerMemset TLI OptSize.

(* ================================================================== *)
(** ** Further example programs *)

Module Fixtures.

Import Examples.

(** The copy of 7 bytes, lowered on the target with fast misaligned
    accesses. *)
Definition memcpy7 : option (bool * CombinerState) :=
  optimizeMemcpy (simpleTLI true) opcodeDefOf false false false
    (fun _ => true) (fun _ => mkAlign 3) (fun _ => false) false 64%nat
    (memOp G_MEMCPY) (v 0) (v 1) 7 (mkAlign 2) (mkAlign 2) false
    (memState G_MEMCPY 7).
Definition memcpy7State : CombinerState :=
  match memcpy7 with
  | Some (_, st) => st
  | None => memState G_MEMCPY 7
  end.

(** A set of 7 bytes to an unknown byte value, 4-byte aligned:
    <<
    %0:p0 = ...
    %1:s8 = ...
    %2:s64 = G_CONSTANT 7
    G_MEMSET %0, %1, %2
    >> *)
Definition memsetVal : MachineInstr := mkMI 1 (G_OTHER 1) [def (v 1)] 0 [].
Definition memsetOp : MachineInstr :=
  mkMI 3 G_MEMSET [use (v 0); use (v 1); use (v 2); MO_Immediate 0] 0
       [mkMMO 0 0 (mkAlign 2) 0 false 0].
Definition memsetState : CombinerState :=
  emptyState [memDst; memsetVal; memLen 7; memsetOp]
             [(v 0, LLT_pointer 0 64); (v 1, LLT_scalar 8);
              (v 2, LLT_scalar 64)].
Definition memset7 : option (bool * CombinerState) :=
  optimizeMemset (simpleTLI true) opcodeDefOf constantNoLookThrough
    false false false (fun _ => true) (fun _ => mkAlign 3) (fun _ => false)
    false 64%nat memsetOp (v 0) (v 1) 7 (mkAlign 2) false memsetState.
Definition memset7State : CombinerState :=
  match memset7 with
  | Some (_, st) => st
  | None => memsetState
  end.

End Fixtures.

(* ================================================================== *)
(** ** The shift splitting of left and arithmetic right shifts, in the
       words of the source's comments *)

(** The instructions that replace [Dst = G_SHL Src, C] on a 64-bit
    value with [32 <= C <= 63] (lines 1619-1631): the two halves of
    [Src], one narrow [G_SHL] of the low half by [C - 32] (none when
    [C] is 32), and the merge of a zero low part with the shifted low
    half as the high part. *)
Definition shlSplitSequence (bb n k : Z) (Src Dst : Register) (C : Z)
  : list MachineInstr :=
  let lo := index2VirtReg k in
  let hi := index2VirtReg (k + 1) in
  let half := index2VirtReg (k + 1 + 1) in
  if C =? 32 then
    [mkMI n G_UNMERGE_VALUES [def lo; def hi; use Src] bb [];
     mkMI (n + 1) G_CONSTANT [def half; MO_CImmediate 0] bb [];
     mkMI (n + 1 + 1) G_MERGE_VALUES [def Dst; use half; use lo] bb []]
  else
    let amt := half in
    let narrowed := index2VirtReg (k + 1 + 1 + 1) in
    let zero := index2VirtReg (k + 1 + 1 + 1 + 1) in
    [mkMI n G_UNMERGE_VALUES [def lo; def hi; use Src] bb [];
     mkMI (n + 1) G_CONSTANT [def amt; MO_CImmediate (C - 32)] bb [];
     mkMI (n + 1 + 1) G_SHL [def narrowed; use lo; use amt] bb [];
     mkMI (n + 1 + 1 + 1) G_CONSTANT [def zero; MO_CImmediate 0] bb [];
     mkMI (n + 1 + 1 + 1 + 1) G_MERGE_VALUES
          [def Dst; use zero; use narrowed] bb []].

(** The instructions that replace [Dst = G_ASHR Src, C] (lines
    1632-1656): the two halves of [Src], the sign word [G_ASHR hi, 31],
    and the merge of [hi] itself (when [C] is 32), of the sign word
    (when [C] is 63) or of [G_ASHR hi, C - 32] as the low part with the
    sign word as the high part. *)
Definition ashrSplitSequence (bb n k : Z) (Src Dst : Register) (C : Z)
  : list MachineInstr :=
  let lo := index2VirtReg k in
  let hi := index2VirtReg (k + 1) in
  let c31 := index2VirtReg (k + 1 + 1) in
  let sign := index2VirtReg (k + 1 + 1 + 1) in
  let head :=
    [mkMI n G_UNMERGE_VALUES [def lo; def hi; use Src] bb [];
     mkMI (n + 1) G_CONSTANT [def c31; MO_CImmediate 31] bb [];
     mkMI (n + 1 + 1) G_ASHR [def sign; use hi; use c31] bb []] in
  if C =? 32 then
    head ++ [mkMI (n + 1 + 1 + 1) G_MERGE_VALUES
                  [def Dst; use hi; use sign] bb []]
  else if C =? 63 then
    head ++ [mkMI (n + 1 + 1 + 1) G_MERGE_VALUES
                  [def Dst; use sign; use sign] bb []]
  else
    let amt := index2VirtReg (k + 1 + 1 + 1 + 1) in
    let low := index2VirtReg (k + 1 + 1 + 1 + 1 + 1) in
    head ++ [mkMI (n + 1 + 1 + 1) G_CONSTANT
                  [def amt; MO_CImmediate (C - 32)] bb [];
             mkMI (n + 1 + 1 + 1 + 1) G_ASHR [def low; use hi; use amt] bb [];
             mkMI (n + 1 + 1 + 1 + 1 + 1) G_MERGE_VALUES
                  [def Dst; use low; use sign] bb []].

(** *** Values of further opcodes *)

(** [evalInstr] extended: [G_ASHR] shifts the signed reading of its
    source, [G_MUL] multiplies and [G_PTR_ADD] adds at the width of the
    result (the offset of a [G_PTR_ADD] having the width of the
    pointer). *)
Definition evalInstrX (st : CombinerState) (MI : MachineInstr) (env : RegEnv)
  : option RegEnv :=
  let d := getReg (getOperand MI 0) in
  let w := widthOf st d in
  let a := env (getReg (getOperand MI 1)) in
  let b := env (getReg (getOperand MI 2)) in
  match Opc MI with
  | G_ASHR =>
      if b <? w then Some (setReg d (Z.shiftr (signedValue w a) b mod 2 ^ w) env)
      else None
  | G_MUL => Some (setReg d ((a * b) mod 2 ^ w) env)
  | G_PTR_ADD => Some (setReg d ((a + b) mod 2 ^ w) env)
  | _ => evalInstr st MI env
  end.

Fixpoint evalInstrsX (st : CombinerState) (l : list MachineInstr)
         (env : RegEnv) : option RegEnv :=
  match l with
  | [] => Some env
  | i :: tl => match evalInstrX st i env with
               | None => None
               | Some env' => evalInstrsX st tl env'
               end
  end.

(* ================================================================== *)
(** ** Example programs for the shift splitting *)

Module ShiftFixtures.

Import Examples.

(** A 64-bit shift by 40 of either other kind:
    <<
    %0:s64 = ...
    %1:s64 = G_CONSTANT 40
    %2:s64 = G_SHL %0, %1         ; or G_ASHR
    >> *)
Definition shiftBy40 (O : Opcode) : MachineInstr :=
  mkMI 2 O [def (v 2); use (v 0); use (v 1)] 0 [].
Definition shiftByState (O : Opcode) : CombinerState :=
  emptyState [shiftSrc; shiftAmt; shiftBy40 O]
             [(v 0, LLT_scalar 64); (v 1, LLT_scalar 64);
              (v 2, LLT_scalar 64)].

End ShiftFixtures.

(* ================================================================== *)
(** ** Lanes of a shuffle and of a concatenation *)

(** The element counts [matchCombineShuffleVector] computes at lines
    196-197. *)
Definition shuffleNumElts (st : CombinerState) (r : Register) : Z :=
  if LLTOps.isVector (stateType st r)
  then u32 (LLTOps.getNumElements (stateType st r)) else 1.

(** Where lane [i] of [G_SHUFFLE_VECTOR Src1, Src2, Mask] comes from
    when [Mask[i]] is [Idx]: lane [Idx] of the two sources laid end to
    end, each of [n] lanes. *)
Definition shuffleSource (Src1 Src2 : Register) (n Idx : Z) : Register * Z :=
  if Idx <? n then (Src1, Idx) else (Src2, Idx - n).

(** Where lane [i] of the concatenation of [Ops], each of [n] lanes,
    comes from. *)
Definition concatSource (Ops : list Register) (n i : Z) : Register * Z :=
  (nth (Z.to_nat (i / n)) Ops NoRegister, i mod n).

(* ================================================================== *)
(** ** Example programs for the vector matchers *)

Module VectorFixtures.

Import Examples.

(** A shuffle that swaps the two sources:
    <<
    %2:<4 x s32> = G_SHUFFLE_VECTOR %0(<2 x s32>), %1, shufflemask(2, 3, 0, 1)
    >> *)
Definition shuffleSwap : MachineInstr :=
  mkMI 0 G_SHUFFLE_VECTOR
       [def (v 2); use (v 0); use (v 1); MO_ShuffleMask [2; 3; 0; 1]] 0 [].
Definition shuffleSwapState : CombinerState :=
  emptyState [shuffleSwap]
             [(v 0, LLT_vector 2 32); (v 1, LLT_vector 2 32);
              (v 2, LLT_vector 4 32)].

End VectorFixtures.

(* ================================================================== *)
(** ** Combines that rewrite an instruction in place *)

(** MathExtras.h: [isPowerOf2_64(V)] is [V && !(V & (V - 1))] and
    [Log2_64(V)] is [63 - countLeadingZeros(V)], on an unsigned 64-bit
    [V]; the latter is -1, as an unsigned, for 0. *)
Definition isPowerOf2_64 (V : Z) : bool :=
  negb (V =? 0) && (Z.land V (u64 (V - 1)) =? 0).

Definition Log2_64 (V : Z) : Z :=
  if V =? 0 then u32 (-1) else Z.log2 V.

(** A change made through the reference [MI]: the instruction of that
    identity is replaced by [f] of it, where it stands. *)
Definition updateInstr (MI : MachineInstr)
           (f : MachineInstr -> MachineInstr) : M unit :=
  fun st => Some (tt, setInsts (map (fun x => if Id x =? Id MI then f x else x)
                                    (Insts st)) st).

(** [MI.getOperand(i).setReg(Reg)]; [setReg] asserts a register
    operand, any other operand is left as it is. *)
Definition setOperandReg (i : nat) (Reg : Register) (MI : MachineInstr)
  : MachineInstr :=
  match nth_error (Operands MI) i with
  | Some (MO_Register _ d) =>
      mkMI (Id MI) (Opc MI) (setNth i (MO_Register Reg d) (Operands MI))
           (Parent MI) (memoperands MI)
  | _ => MI
  end.

(** [MI.setDesc(TII.get(O))]. *)
Definition setDesc (O : Opcode) (MI : MachineInstr) : MachineInstr :=
  mkMI (Id MI) O (Operands MI) (Parent MI) (memoperands MI).

(** [struct PtrAddChain] of CombinerHelper.h. *)
Module PtrAddChain.
Record t : Type := mk {
    Imm : Z;                      (* int64_t *)
    Base : Register
  }.
End PtrAddChain.

Section ConstantCombines.

(** Utils.h [getConstantVRegValWithLookThrough(Reg, MRI)], as above. *)
Variable getConstantVRegValWithLookThrough :
  MachineRegisterInfo -> Register -> option Z.

(** [matchPtrAddImmedChain], lines 1441-1472; the flag and the final
    [MatchInfo].  The sum of line 1469 is a signed 64-bit addition:
    outside that range the behaviour is undefined. *)
Definition matchPtrAddImmedChain (MI : MachineInstr)
           (MatchInfo : PtrAddChain.t) : M (bool * PtrAddChain.t) :=
  st <- getState ;;
  let MRI := MRIof st in
  if negb (opc_eqb (Opc MI) G_PTR_ADD) then ret (false, MatchInfo)
  else
    let Add2 := getReg (getOperand MI 1) in
    let Imm1 := getReg (getOperand MI 2) in
    match getConstantVRegValWithLookThrough MRI Imm1 with
    | None => ret (false, MatchInfo)
    | Some ImmVal =>
        match getUniqueVRegDef MRI Add2 with
        | None => ret (false, MatchInfo)
        | Some Add2Def =>
            if negb (opc_eqb (Opc Add2Def) G_PTR_ADD)
            then ret (false, MatchInfo)
            else
              let Base := getReg (getOperand Add2Def 1) in
              let Imm2 := getReg (getOperand Add2Def 2) in
              match getConstantVRegValWithLookThrough MRI Imm2 with
              | None => ret (false, MatchInfo)
              | Some Imm2Val =>
                  let Sum := ImmVal + Imm2Val in
                  if (- 2 ^ 63 <=? Sum) && (Sum <? 2 ^ 63)
                  then ret (true, PtrAddChain.mk Sum Base)
                  else undefinedBehaviour
              end
        end
    end.

(** [applyPtrAddImmedChain], lines 1474-1485. *)
Definition applyPtrAddImmedChain (MI : MachineInstr)
           (MatchInfo : PtrAddChain.t) : M bool :=
  let MIB := pointBefore MI in
  st <- getState ;;
  let OffsetTy := stateType st (getReg (getOperand MI 2)) in
  NewOffset <- buildConstant MIB OffsetTy (PtrAddChain.Imm MatchInfo) ;;
  notify (changingInstr (Id MI)) ;;;
  updateInstr MI (setOperandReg 1 (PtrAddChain.Base MatchInfo)) ;;;
  updateInstr MI (setOperandReg 2 NewOffset) ;;;
  notify (changedInstr (Id MI)) ;;;
  ret true.

(** [matchCombineMulToShl], lines 1487-1496; the flag and the final
    [ShiftVal].  The signed constant is handed to [isPowerOf2_64] and
    [Log2_64] as an unsigned 64-bit number. *)
Definition matchCombineMulToShl (MI : MachineInstr) (ShiftVal : Z)
  : M (bool * Z) :=
  st <- getState ;;
  match getConstantVRegValWithLookThrough (MRIof st)
          (getReg (getOperand MI 2)) with
  | None => ret (false, ShiftVal)
  | Some Value =>
      if negb (isPowerOf2_64 (u64 Value)) then ret (false, ShiftVal)
      else ret (true, Log2_64 (u64 Value))
  end.

(** [applyCombineMulToShl], lines 1498-1509. *)
Definition applyCombineMulToShl (MI : MachineInstr) (ShiftVal : Z)
  : M bool :=
  let MIB := pointBefore MI in
  st <- getState ;;
  let ShiftTy := stateType st (getReg (getOperand MI 0)) in
  ShiftCst <- buildConstant MIB ShiftTy ShiftVal ;;
  notify (changingInstr (Id MI)) ;;;
  updateInstr MI (setDesc G_SHL) ;;;
  updateInstr MI (setOperandReg 2 ShiftCst) ;;;
  notify (changedInstr (Id MI)) ;;;
  ret true.

End ConstantCombines.

(* ================================================================== *)
(** ** Example programs for the in-place combines *)

Module ConstantFixtures.

Import Examples.

(** A multiplication by eight and a chain of two pointer additions:
    <<
    %0:s32 = ...
    %1:s32 = G_CONSTANT 8
    %2:s32 = G_MUL %0, %1
    >>
    <<
    %0:p0 = ...
    %1:s64 = G_CONSTANT 16
    %2:p0 = G_PTR_ADD %0, %1
    %3:s64 = G_CONSTANT 24
    %4:p0 = G_PTR_ADD %2, %3
    >> *)
Definition mulSrc : MachineInstr := mkMI 0 (G_OTHER 0) [def (v 0)] 0 [].
Definition mulCst : MachineInstr :=
  mkMI 1 G_CONSTANT [def (v 1); MO_CImmediate 8] 0 [].
Definition mulBy8 : MachineInstr :=
  mkMI 2 G_MUL [def (v 2); use (v 0); use (v 1)] 0 [].
Definition mulState : CombinerState :=
  emptyState [mulSrc; mulCst; mulBy8]
             [(v 0, LLT_scalar 32); (v 1, LLT_scalar 32);
              (v 2, LLT_scalar 32)].

Definition chainBase : MachineInstr := mkMI 0 (G_OTHER 0) [def (v 0)] 0 [].
Definition chainImm2 : MachineInstr :=
  mkMI 1 G_CONSTANT [def (v 1); MO_CImmediate 16] 0 [].
Definition chainInner : MachineInstr :=
  mkMI 2 G_PTR_ADD [def (v 2); use (v 0); use (v 1)] 0 [].
Definition chainImm1 : MachineInstr :=
  mkMI 3 G_CONSTANT [def (v 3); MO_CImmediate 24] 0 [].
Definition chainRoot : MachineInstr :=
  mkMI 4 G_PTR_ADD [def (v 4); use (v 2); use (v 3)] 0 [].
Definition chainState : CombinerState :=
  emptyState [chainBase; chainImm2; chainInner; chainImm1; chainRoot]
             [(v 0, LLT_pointer 0 64); (v 1, LLT_scalar 64);
              (v 2, LLT_pointer 0 64); (v 3, LLT_scalar 64);
              (v 4, LLT_pointer 0 64)].

End ConstantFixtures.

(* ================================================================== *)
(** ** The uses the extending-load combine chooses among *)

(** The extend kind an extending load already performs, the seed of
    the preference at lines 410-414. *)
Definition ownExtend (MI : MachineInstr) : Opcode :=
  if opc_eqb (Opc MI) G_LOAD then G_ANYEXT
  else if opc_eqb (Opc MI) G_SEXTLOAD then G_SEXT else G_ZEXT.

(** While the preference has no type, [ChoosePreferredUse] (lines
    285-290) takes a candidate only when the seed's kind is the
    candidate's or the any-extend, and leaves the seed as it is
    otherwise; once it has a type every candidate is compared.
    [usesFromFirst K l]: the uses of [l] from the first one that a
    seed of kind [K] takes on; all of them when [K] is the
    any-extend. *)
Fixpoint usesFromFirst (K : Opcode) (l : list MachineInstr)
  : list MachineInstr :=
  match l with
  | [] => []
  | U :: tl =>
      if opc_eqb K (Opc U) || opc_eqb K G_ANYEXT then U :: tl
      else usesFromFirst K tl
  end.

(** The legal extend uses the combine chooses among: those from the
    first one of the load's own extend kind on. *)
Definition consideredUses (LI : option LegalizerInfo)
           (MRI : MachineRegisterInfo) (MI : MachineInstr)
  : list MachineInstr :=
  usesFromFirst (ownExtend MI) (legalExtendUses LI MRI MI).

(* ================================================================== *)
(** ** Example program for the extending-load combine on a
       zero-extending load *)

Module ExtendFixtures.

Import Examples.

(** A zero-extending load whose result is sign-extended, zero-extended
    and any-extended:
    <<
    %1:s16 = G_ZEXTLOAD %0(p0)
    %2:s64 = G_SEXT %1
    %3:s32 = G_ZEXT %1
    %4:s64 = G_ANYEXT %1
    >> *)
Definition zextload : MachineInstr :=
  mkMI 1 G_ZEXTLOAD [def (v 1); use (v 0)] 0
       [mkMMO 0 1 (mkAlign 0) 0 false 0].
Definition zextloadSext : MachineInstr :=
  mkMI 2 G_SEXT [def (v 2); use (v 1)] 0 [].
Definition zextloadZext : MachineInstr :=
  mkMI 3 G_ZEXT [def (v 3); use (v 1)] 0 [].
Definition zextloadAnyext : MachineInstr :=
  mkMI 4 G_ANYEXT [def (v 4); use (v 1)] 0 [].
Definition zextloadState : CombinerState :=
  emptyState [zextload; zextloadSext; zextloadZext; zextloadAnyext]
             [(v 0, LLT_pointer 0 64); (v 1, LLT_scalar 16);
              (v 2, LLT_scalar 64); (v 3, LLT_scalar 32);
              (v 4, LLT_scalar 64)].

End ExtendFixtures.

(* ================================================================== *)
(** ** Where an access points *)

(** The lowerings address a chunk through the base pointer itself at
    offset 0, and through [G_PTR_ADD Base, k] with [k] a [G_CONSTANT]
    elsewhere (lines 1262-1277, 1362-1367, 1379-1384, 1164-1168).
    [pointerOffset T Base Ptr] reads the offset back from the
    instructions [T] that define [Ptr]; [None]: [Ptr] is computed in
    another way. *)
Definition pointerOffset (T : list MachineInstr) (Base Ptr : Register)
  : option Z :=
  if Ptr =? Base then Some 0
  else
    match find (definesReg Ptr) T with
    | Some P =>
        if opc_eqb (Opc P) G_PTR_ADD && (getReg (getOperand P 1) =? Base)
        then
          match find (definesReg (getReg (getOperand P 2))) T with
          | Some C =>
              if opc_eqb (Opc C) G_CONSTANT then
                match getOperand C 1 with
                | MO_CImmediate c => Some c
                | _ => None
                end
              else None
          | None => None
          end
        else None
    | None => None
    end.

(** The accesses of opcode [O] among [E] by what they touch: the size
    in bytes of the memory operand and the offset from [Base] of the
    pointer operand (operand 1 of a [G_LOAD] and of a [G_STORE]), the
    pointers being computed by the instructions [T]. *)
Definition reachIn (T : list MachineInstr) (O : Opcode) (Base : Register)
           (E : list MachineInstr) : list (option (Z * Z)) :=
  map (fun i => option_map (fun o => (MMO_Size (firstMMO i), o))
                           (pointerOffset T Base (getReg (getOperand i 1))))
      (filter (fun i => opc_eqb (Opc i) O) E).

Definition reach (O : Opcode) (Base : Register) (E : list MachineInstr)
  : list (option (Z * Z)) :=
  reachIn E O Base E.

(** The chunks a plan asks for, as (size in bytes, offset). *)
Definition chunksFrom (MemOps : list LLT) (Offsets : list Z)
  : list (Z * Z) :=
  map (fun p => (LLTOps.getSizeInBytes (fst p), snd p))
      (combine MemOps Offsets).

(* ================================================================== *)
(** ** Emission in front of an instruction *)

(** The state while a lowering emits in front of [MI], which stands
    between [pre] and [post]: [acc] is what it has emitted so far, all
    of it new instructions (identities from [n0] on) that define
    registers created since the start (indices from [k0] on). *)
Definition emittedAt (MI : MachineInstr) (pre post : list MachineInstr)
           (n0 k0 : Z) (acc : list MachineInstr) (st : CombinerState)
  : Prop :=
  Insts st = pre ++ acc ++ MI :: post
  /\ Forall (fun i => Id i <> Id MI) (pre ++ acc)
  /\ Id MI < NextId st
  /\ n0 <= NextId st
  /\ Forall (fun i => n0 <= Id i) acc
  /\ k0 <= NumVirtRegs st
  /\ Forall (fun i => Forall (fun MO => isDef MO = true ->
                                        index2VirtReg k0 <= getReg MO
                                        < index2VirtReg (NumVirtRegs st))
                             (Operands i)) acc.

(** [m], run after [acc] has been emitted, only adds instructions in
    front of [MI]; [Q] relates its result to what it added. *)
Definition emitsAfter {A : Type} (MI : MachineInstr)
           (pre post : list MachineInstr) (n0 k0 : Z)
           (acc : list MachineInstr) (m : M A)
           (Q : A -> list MachineInstr -> Prop) : Prop :=
  forall st a st',
    emittedAt MI pre post n0 k0 acc st -> m st = Some (a, st') ->
    exists E, emittedAt MI pre post n0 k0 (acc ++ E) st' /\ Q a E.

(** [r] was created by the lowering and nothing in [acc] defines it. *)
Definition freshIn (k0 : Z) (acc : list MachineInstr) (r : Register)
  : Prop :=
  index2VirtReg k0 <= r
  /\ Forall (fun i => definesReg r i = false) acc.

(** Instructions that access no memory. *)
Definition quietList (E : list MachineInstr) : Prop :=
  Forall (fun i => Opc i <> G_STORE /\ Opc i <> G_LOAD) E.

(* ================================================================== *)
(** * Properties *)

(* ------------------------------------------------------------------ *)
(** ** Operand equality *)

Lemma sameInstr_refl (a : MachineInstr) : sameInstr a a = true.
Proof. unfold sameInstr. apply Z.eqb_refl. Qed.

(** C10.  When both operands are defined (looking through copies) by
    the same instruction, [matchEqualDefs] answers exactly whether the
    two operands name the same register: it reports them equal only if
    they are literally the same register, and two distinct registers
    defined by one instruction are never reported equal. *)
Theorem matchEqualDefs_same_instruction_same_register :
  forall (getDefIgnoringCopies : Register -> option MachineInstr)
         (mayLoadOrStore isDereferenceableInvariantLoad : MachineInstr -> bool)
         (isIdenticalTo produceSameValue : MachineInstr -> MachineInstr -> bool)
         (MOP1 MOP2 : MachineOperand) (I1 I2 : MachineInstr),
    getDefIgnoringCopies (getReg MOP1) = Some I1 ->
    getDefIgnoringCopies (getReg MOP2) = Some I2 ->
    sameInstr I1 I2 = true ->
    (matchEqualDefs getDefIgnoringCopies mayLoadOrStore
                    isDereferenceableInvariantLoad isIdenticalTo
                    produceSameValue MOP1 MOP2 = true ->
     getReg MOP1 = getReg MOP2)
    /\ (getReg MOP1 <> getReg MOP2 ->
        matchEqualDefs getDefIgnoringCopies mayLoadOrStore
                       isDereferenceableInvariantLoad isIdenticalTo
                       produceSameValue MOP1 MOP2 = false).
Proof.
  intros gd mls inv ident psv MOP1 MOP2 I1 I2 H1 H2 Hsame.
  unfold matchEqualDefs. rewrite H1, H2, Hsame.
  destruct (negb (isReg MOP1) || negb (isReg MOP2)).
  - split; [discriminate | reflexivity].
  - split.
    + intro E. now apply Z.eqb_eq.
    + intro N. now apply Z.eqb_neq.
Qed.

Lemma matchEqualDefs_same_instruction_same_register_witness :
  matchEqualDefs (Examples.defNoCopies Examples.unmergeState)
                 (fun _ => false) (fun _ => false)
                 (fun _ _ => true) (fun _ _ => true)
                 (use (Examples.v 1)) (use (Examples.v 2)) = false.
Proof.
  apply (proj2 (matchEqualDefs_same_instruction_same_register
                  (Examples.defNoCopies Examples.unmergeState)
                  (fun _ => false) (fun _ => false)
                  (fun _ _ => true) (fun _ _ => true)
                  (use (Examples.v 1)) (use (Examples.v 2))
                  Examples.unmerge2 Examples.unmerge2
                  eq_refl eq_refl eq_refl)).
  vm_compute. discriminate.
Defined.

(* ------------------------------------------------------------------ *)
(** ** Extending-load combine *)

Lemma isExtendOpcode_cases (o : Opcode) :
  isExtendOpcode o = true -> o = G_SEXT \/ o = G_ZEXT \/ o = G_ANYEXT.
Proof. destruct o; simpl; intro H; try discriminate; auto. Qed.

Ltac cmp_cases :=
  repeat match goal with
         | |- context [?a =? ?b] => destruct (Z.eqb_spec a b)
         | |- context [?a >? ?b] => destruct (Z.gtb_spec a b)
         | H : context [?a =? ?b] |- _ => destruct (Z.eqb_spec a b)
         | H : context [?a >? ?b] |- _ => destruct (Z.gtb_spec a b)
         end.

(** On scalar candidates and a valid current choice,
    [ChoosePreferredUse] keeps whichever of the two the tie-break
    prefers, the current one on a tie. *)
Lemma ChoosePreferredUse_beats :
  forall (cw : Z) (co : Opcode) (cm : option MachineInstr)
         (w : Z) (o : Opcode) (U : MachineInstr),
    isExtendOpcode co = true -> isExtendOpcode o = true ->
    ChoosePreferredUse (Pref.mk (LLT_scalar cw) co cm) (LLT_scalar w) o U
    = if beats o w co cw then Pref.mk (LLT_scalar w) o (Some U)
      else Pref.mk (LLT_scalar cw) co cm.
Proof.
  intros cw co cm w o U Hco Ho.
  destruct (isExtendOpcode_cases _ Hco) as [-> | [-> | ->]];
    destruct (isExtendOpcode_cases _ Ho) as [-> | [-> | ->]];
    unfold ChoosePreferredUse, beats; cbn;
    rewrite ?(Z.eqb_sym cw w); cmp_cases; try reflexivity; try lia.
Qed.

Lemma beats_negative_transitive :
  forall co cw po pw vo vw,
    beats co cw po pw = true ->
    beats vo vw po pw = false ->
    beats vo vw co cw = false.
Proof.
  intros co cw po pw vo vw.
  unfold beats.
  destruct (isDefinedExtend co) eqn:Dc; destruct (isDefinedExtend po) eqn:Dp;
    destruct (isDefinedExtend vo) eqn:Dv; cbn;
    destruct (opc_eqb co G_SEXT) eqn:Sc; destruct (opc_eqb co G_ZEXT) eqn:Zc;
    destruct (opc_eqb po G_SEXT) eqn:Sp; destruct (opc_eqb po G_ZEXT) eqn:Zp;
    destruct (opc_eqb vo G_SEXT) eqn:Sv; destruct (opc_eqb vo G_ZEXT) eqn:Zv;
    unfold isDefinedExtend in *;
    try (rewrite ?Sc, ?Zc in Dc; discriminate Dc);
    try (rewrite ?Sp, ?Zp in Dp; discriminate Dp);
    try (rewrite ?Sv, ?Zv in Dv; discriminate Dv);
    rewrite ?andb_true_r, ?andb_false_r; cbn;
    intros H1 H2; cmp_cases; try reflexivity; try discriminate; try lia.
Qed.

Lemma beats_irreflexive (o : Opcode) (w : Z) : beats o w o w = false.
Proof.
  unfold beats.
  destruct (isDefinedExtend o); cbn;
    destruct (opc_eqb o G_SEXT) eqn:S; destruct (opc_eqb o G_ZEXT) eqn:Zx;
    rewrite ?andb_true_r, ?andb_false_r; cbn; cmp_cases;
    try reflexivity; try lia.
  all: unfold opc_eqb in *;
    destruct (Opcode_eq_dec o G_SEXT); destruct (Opcode_eq_dec o G_ZEXT);
    congruence.
Qed.

Section ExtLoadChoice.

Variable LI : option LegalizerInfo.
Variable MRI : MachineRegisterInfo.
Variable MI : MachineInstr.

Let candidate (U : MachineInstr) : bool :=
  isExtendOpcode (Opc U) && extUseIsLegal LI MRI MI U.
Let wellTyped (V : MachineInstr) : Prop :=
  isExtendOpcode (Opc V) = true /\ LLTOps.isScalar (useType MRI V) = true.

Lemma extLoadStep_candidate (P : PreferredTuple) (U : MachineInstr) :
  extLoadStep LI MRI MI P U
  = if candidate U
    then ChoosePreferredUse P (useType MRI U) (Opc U) U else P.
Proof.
  unfold extLoadStep, candidate, useType.
  destruct (isExtendOpcode (Opc U)); cbn; [|reflexivity].
  destruct (extUseIsLegal LI MRI MI U); reflexivity.
Qed.

Lemma prefInvariant_step (seen : list MachineInstr) (P : PreferredTuple)
      (U : MachineInstr) :
  Forall wellTyped seen -> wellTyped U ->
  prefInvariant MRI seen P ->
  prefInvariant MRI (seen ++ [U])
                (ChoosePreferredUse P (useType MRI U) (Opc U) U).
Proof.
  intros Hseen [HoU HsU] Inv.
  destruct P as [ty opc mi]. unfold prefInvariant in Inv. cbn in Inv.
  destruct mi as [U'|].
  - destruct Inv as (HIn & Hty & Hopc & Hmax). subst ty opc.
    pose proof (proj1 (Forall_forall _ _) Hseen U' HIn) as [HoU' HsU'].
    destruct (useType MRI U') as [|cw| |] eqn:EU'; try discriminate.
    destruct (useType MRI U) as [|w| |] eqn:EU; try discriminate.
    rewrite ChoosePreferredUse_beats by assumption.
    destruct (beats (Opc U) w (Opc U') cw) eqn:B.
    + unfold prefInvariant; cbn. rewrite EU. cbn.
      repeat split; auto.
      * apply in_or_app; right; left; reflexivity.
      * intros V HV. apply in_app_or in HV. destruct HV as [HV | [<- | []]].
        -- specialize (Hmax V HV). cbn in Hmax.
           eapply beats_negative_transitive; eassumption.
        -- rewrite EU. apply beats_irreflexive.
    + unfold prefInvariant; cbn. rewrite EU'. cbn.
      repeat split; auto.
      * apply in_or_app; left; assumption.
      * intros V HV. apply in_app_or in HV. destruct HV as [HV | [<- | []]].
        -- specialize (Hmax V HV). exact Hmax.
        -- rewrite EU. exact B.
  - destruct Inv as (-> & Hty & Hopc). cbn in Hty, Hopc. subst ty opc.
    unfold ChoosePreferredUse; cbn.
    replace (opc_eqb G_ANYEXT (Opc U) || true) with true
      by (symmetry; apply orb_true_r).
    unfold prefInvariant; cbn. repeat split; auto.
    intros V [<- | []]. apply beats_irreflexive.
Qed.

Lemma prefInvariant_fold (l seen : list MachineInstr) (P : PreferredTuple) :
  Forall wellTyped seen -> Forall wellTyped (filter candidate l) ->
  prefInvariant MRI seen P ->
  prefInvariant MRI (seen ++ filter candidate l)
                (fold_left (extLoadStep LI MRI MI) l P).
Proof.
  revert seen P. induction l as [|U l IH]; intros seen P Hseen Hl Inv.
  - cbn. rewrite app_nil_r. exact Inv.
  - cbn [fold_left filter]. rewrite extLoadStep_candidate.
    cbn [filter] in Hl.
    destruct (candidate U) eqn:C.
    + inversion Hl as [|? ? HU Hl']; subst.
      replace (seen ++ U :: filter candidate l)
        with ((seen ++ [U]) ++ filter candidate l)
        by (rewrite <- app_assoc; reflexivity).
      apply IH; auto.
      * apply Forall_app; split; auto.
      * apply prefInvariant_step; auto.
    + apply IH; auto.
Qed.

End ExtLoadChoice.

Lemma usesFromFirst_anyext (l : list MachineInstr) :
  usesFromFirst G_ANYEXT l = l.
Proof.
  destruct l as [|U l]; [reflexivity|]. cbn [usesFromFirst].
  rewrite orb_true_r. reflexivity.
Qed.

Lemma usesFromFirst_incl (K : Opcode) (l : list MachineInstr) :
  incl (usesFromFirst K l) l.
Proof.
  induction l as [|U l IH]; cbn [usesFromFirst]; [apply incl_refl|].
  destruct (opc_eqb K (Opc U) || opc_eqb K G_ANYEXT).
  - apply incl_refl.
  - apply incl_tl. exact IH.
Qed.

(** The loop of lines 416-437 from its seed: the legal extend uses
    before the first one of the seed's kind leave the seed as it is,
    and from that one on the preference is an unbeaten one. *)
Lemma extLoadFold_from_seed (LI : option LegalizerInfo)
      (MRI : MachineRegisterInfo) (MI : MachineInstr) (K : Opcode) :
  forall l : list MachineInstr,
    let legal :=
      filter (fun U => isExtendOpcode (Opc U) && extUseIsLegal LI MRI MI U)
             l in
    Forall (fun V => isExtendOpcode (Opc V) = true
                     /\ LLTOps.isScalar (useType MRI V) = true) legal ->
    match usesFromFirst K legal with
    | [] => fold_left (extLoadStep LI MRI MI) l (Pref.mk LLT_invalid K None)
            = Pref.mk LLT_invalid K None
    | considered =>
        exists U,
          fold_left (extLoadStep LI MRI MI) l (Pref.mk LLT_invalid K None)
          = Pref.mk (useType MRI U) (Opc U) (Some U)
          /\ prefInvariant MRI considered
               (Pref.mk (useType MRI U) (Opc U) (Some U))
    end.
Proof.
  induction l as [|U l IH]; intros legal Hwt.
  - reflexivity.
  - subst legal. cbn [fold_left filter] in *. rewrite extLoadStep_candidate.
    destruct (isExtendOpcode (Opc U) && extUseIsLegal LI MRI MI U) eqn:C.
    + inversion Hwt as [|? ? HU Hl]; subst. cbn [usesFromFirst].
      destruct (opc_eqb K (Opc U) || opc_eqb K G_ANYEXT) eqn:EK.
      * assert (EC : ChoosePreferredUse (Pref.mk LLT_invalid K None)
                       (useType MRI U) (Opc U) U
                     = Pref.mk (useType MRI U) (Opc U) (Some U)).
        { unfold ChoosePreferredUse. cbn [Pref.Ty Pref.ExtendOpcode
                                          LLTOps.isValid negb].
          rewrite EK. reflexivity. }
        rewrite EC.
        pose proof (prefInvariant_fold LI MRI MI l [U]
                      (Pref.mk (useType MRI U) (Opc U) (Some U))) as Inv.
        cbn [app] in Inv.
        assert (I0 : prefInvariant MRI [U]
                       (Pref.mk (useType MRI U) (Opc U) (Some U))).
        { unfold prefInvariant. cbn [Pref.MI Pref.Ty Pref.ExtendOpcode].
          split; [left; reflexivity|]. split; [reflexivity|].
          split; [reflexivity|].
          intros V [<- | []]. apply beats_irreflexive. }
        specialize (Inv (Forall_cons _ HU (Forall_nil _)) Hl I0).
        destruct (fold_left (extLoadStep LI MRI MI) l
                            (Pref.mk (useType MRI U) (Opc U) (Some U)))
          as [ty opc mi] eqn:EF.
        unfold prefInvariant in Inv. cbn [Pref.MI Pref.Ty Pref.ExtendOpcode] in Inv.
        destruct mi as [W|].
        -- destruct Inv as (HIn & Hty & Ho & Hmax). subst ty opc.
           exists W. split; [reflexivity|].
           unfold prefInvariant. cbn [Pref.MI Pref.Ty Pref.ExtendOpcode].
           auto.
        -- destruct Inv as (Hnil & _). discriminate Hnil.
      * assert (EC : ChoosePreferredUse (Pref.mk LLT_invalid K None)
                       (useType MRI U) (Opc U) U
                     = Pref.mk LLT_invalid K None).
        { unfold ChoosePreferredUse. cbn [Pref.Ty Pref.ExtendOpcode
                                          LLTOps.isValid negb].
          rewrite EK. reflexivity. }
        rewrite EC. apply IH. exact Hl.
    + apply IH. exact Hwt.
Qed.

(** C1 (as amended).  For a [G_LOAD], [G_SEXTLOAD] or [G_ZEXTLOAD] of a
    scalar whose width is a power of two of at least 8 bits (extend
    results being scalars), the combine chooses among the legal extend
    uses from the first one of the load's own extend kind on, which is
    all of them for a plain [G_LOAD].  When there is none it abstains;
    otherwise the match succeeds and selects one preferred extension:
    one of these uses that no other of them beats under the tie-break
    (defined over any-extend; sign over zero extend at equal width;
    otherwise the larger destination width). *)
Theorem extending_load_selects_unbeaten_use :
  forall (LI : option LegalizerInfo) (MRI : MachineRegisterInfo)
         (MI : MachineInstr) (Preferred : PreferredTuple),
    Opc MI = G_LOAD \/ Opc MI = G_SEXTLOAD \/ Opc MI = G_ZEXTLOAD ->
    LLTOps.isScalar (getType MRI (getReg (getOperand MI 0))) = true ->
    8 <= LLTOps.getSizeInBits (getType MRI (getReg (getOperand MI 0))) ->
    isPowerOf2_32
      (LLTOps.getSizeInBits (getType MRI (getReg (getOperand MI 0)))) = true ->
    forallb (fun U => LLTOps.isScalar (useType MRI U))
            (legalExtendUses LI MRI MI) = true ->
    (Opc MI = G_LOAD ->
     consideredUses LI MRI MI = legalExtendUses LI MRI MI)
    /\ incl (consideredUses LI MRI MI) (legalExtendUses LI MRI MI)
    /\ (consideredUses LI MRI MI = [] ->
        matchCombineExtendingLoads LI MRI MI Preferred
        = (false, Pref.mk LLT_invalid (ownExtend MI) None))
    /\ (consideredUses LI MRI MI <> [] ->
        exists U,
          In U (consideredUses LI MRI MI)
          /\ matchCombineExtendingLoads LI MRI MI Preferred
             = (true, Pref.mk (useType MRI U) (Opc U) (Some U))
          /\ forall V, In V (consideredUses LI MRI MI) ->
                       beats (Opc V) (LLTOps.getSizeInBits (useType MRI V))
                             (Opc U) (LLTOps.getSizeInBits (useType MRI U))
                       = false).
Proof.
  intros LI MRI MI Preferred Hopc Hscalar Hbits Hpow Htys.
  assert (Hwt : Forall (fun V => isExtendOpcode (Opc V) = true
                                 /\ LLTOps.isScalar (useType MRI V) = true)
                       (legalExtendUses LI MRI MI)).
  { apply Forall_forall. intros V HV. split.
    - unfold legalExtendUses in HV. apply filter_In in HV.
      destruct HV as [_ HV]. apply andb_prop in HV. tauto.
    - exact (proj1 (forallb_forall _ _) Htys V HV). }
  pose proof (extLoadFold_from_seed LI MRI MI (ownExtend MI)
                (use_nodbg_instructions MRI (getReg (getOperand MI 0)))
                Hwt) as HF.
  fold (legalExtendUses LI MRI MI) in HF.
  fold (consideredUses LI MRI MI) in HF.
  assert (EM : matchCombineExtendingLoads LI MRI MI Preferred
               = let P := fold_left (extLoadStep LI MRI MI)
                            (use_nodbg_instructions MRI
                               (getReg (getOperand MI 0)))
                            (Pref.mk LLT_invalid (ownExtend MI) None) in
                 match Pref.MI P with
                 | None => (false, P)
                 | Some _ => (true, P)
                 end).
  { unfold matchCombineExtendingLoads, ownExtend.
    replace (negb (opc_eqb (Opc MI) G_LOAD)
             && negb (opc_eqb (Opc MI) G_SEXTLOAD)
             && negb (opc_eqb (Opc MI) G_ZEXTLOAD)) with false
      by (destruct Hopc as [-> | [-> | ->]]; reflexivity).
    rewrite Hscalar, Hpow. cbn [negb].
    replace (LLTOps.getSizeInBits (getType MRI (getReg (getOperand MI 0)))
             <? 8)
      with false by (symmetry; apply Z.ltb_ge; lia).
    reflexivity. }
  split; [| split; [| split]].
  - intros E. unfold consideredUses, ownExtend. rewrite E.
    change (opc_eqb G_LOAD G_LOAD) with true. cbv iota.
    apply usesFromFirst_anyext.
  - apply usesFromFirst_incl.
  - intros Hnil. rewrite Hnil in HF. rewrite EM. cbv zeta. rewrite HF.
    reflexivity.
  - intros Hne.
    destruct (consideredUses LI MRI MI) as [|C0 Cs] eqn:EC;
      [contradiction|].
    destruct HF as (U & EF & Inv). rewrite EM. cbv zeta. rewrite EF.
    cbn [Pref.MI].
    unfold prefInvariant in Inv. cbn [Pref.MI Pref.Ty Pref.ExtendOpcode] in Inv.
    destruct Inv as (HIn & _ & _ & Hmax).
    exists U. auto.
Qed.

Lemma extending_load_selects_unbeaten_use_witness :
  consideredUses (Some (fun _ => Legal))
                 (MRIof ExtendFixtures.zextloadState)
                 ExtendFixtures.zextload
  = [ExtendFixtures.zextloadZext; ExtendFixtures.zextloadAnyext]
  /\ exists U,
      In U (consideredUses (Some (fun _ => Legal))
                           (MRIof ExtendFixtures.zextloadState)
                           ExtendFixtures.zextload)
      /\ matchCombineExtendingLoads (Some (fun _ => Legal))
           (MRIof ExtendFixtures.zextloadState) ExtendFixtures.zextload
           (Pref.mk LLT_invalid G_ANYEXT None)
         = (true, Pref.mk (useType (MRIof ExtendFixtures.zextloadState) U)
                          (Opc U) (Some U))
      /\ forall V,
          In V (consideredUses (Some (fun _ => Legal))
                               (MRIof ExtendFixtures.zextloadState)
                               ExtendFixtures.zextload) ->
          beats (Opc V)
                (LLTOps.getSizeInBits
                   (useType (MRIof ExtendFixtures.zextloadState) V))
                (Opc U)
                (LLTOps.getSizeInBits
                   (useType (MRIof ExtendFixtures.zextloadState) U))
          = false.
Proof.
  split; [reflexivity|].
  refine (proj2 (proj2 (proj2
            (extending_load_selects_unbeaten_use
               (Some (fun _ => Legal)) (MRIof ExtendFixtures.zextloadState)
               ExtendFixtures.zextload (Pref.mk LLT_invalid G_ANYEXT None)
               _ _ _ _ _))) _).
  - right. right. reflexivity.
  - reflexivity.
  - vm_compute. discriminate.
  - reflexivity.
  - reflexivity.
  - vm_compute. discriminate.
Defined.

(** On the mixed-use example the zero extend to 32 bits is chosen over
    the any-extend to 64 bits. *)
Example extending_load_mixed_uses :
  matchCombineExtendingLoads (Some (fun _ => Legal))
    (MRIof Examples.mixedUsesState) Examples.load8
    (Pref.mk LLT_invalid G_ANYEXT None)
  = (true, Pref.mk (LLT_scalar 32) G_ZEXT (Some Examples.zext32)).
Proof. reflexivity. Qed.

(** On this example the sign extend, which comes before the first zero
    extend, is not considered, and the zero extend to 32 bits is
    chosen. *)
Example extending_load_zextload_uses :
  legalExtendUses (Some (fun _ => Legal))
                  (MRIof ExtendFixtures.zextloadState)
                  ExtendFixtures.zextload
  = [ExtendFixtures.zextloadSext; ExtendFixtures.zextloadZext; ExtendFixtures.zextloadAnyext]
  /\ matchCombineExtendingLoads (Some (fun _ => Legal))
       (MRIof ExtendFixtures.zextloadState) ExtendFixtures.zextload
       (Pref.mk LLT_invalid G_ANYEXT None)
     = (true, Pref.mk (LLT_scalar 32) G_ZEXT (Some ExtendFixtures.zextloadZext)).
Proof. split; reflexivity. Qed.

(** C1 (as stated) fails: a [G_SEXTLOAD] whose result has one legal
    extend use, a [G_ZEXT], gets no preferred extension; the match
    returns false. *)
Lemma extending_load_sextload_with_zext_use_abstains :
  legalExtendUses (Some (fun _ => Legal)) (MRIof Examples.sextloadState)
                  Examples.sextload
  = [Examples.zextOfLoad]
  /\ matchCombineExtendingLoads (Some (fun _ => Legal))
       (MRIof Examples.sextloadState) Examples.sextload
       (Pref.mk LLT_invalid G_ANYEXT None)
     = (false, Pref.mk LLT_invalid G_SEXT None).
Proof. split; reflexivity. Qed.

(* ------------------------------------------------------------------ *)
(** ** Indexed load/store searches *)

Section IndexedFacts.

Variable MRI : MachineRegisterInfo.
Variable MDT : option (MachineInstr -> MachineInstr -> bool).
Variable ForceLegalIndexing : bool.
Variable isIndexingLegal : MachineInstr -> Register -> Register -> bool -> bool.

Lemma memOpDominatesAddrUses_true (MI : MachineInstr) (l : list MachineInstr) :
  memOpDominatesAddrUses MRI MDT MI l = Some true ->
  forall U, In U l -> dominates MRI MDT MI U = Some true.
Proof.
  induction l as [|x l IH]; cbn; intros H U HU; [contradiction|].
  destruct (dominates MRI MDT MI x) as [[|]|] eqn:D; try discriminate.
  destruct HU as [<- | HU]; auto.
Qed.

Lemma dominatesAllAddrUses_true (MI : MachineInstr) (l : list MachineInstr) :
  dominatesAllAddrUses MRI MDT MI l = Some true ->
  forall U, In U l -> dominates MRI MDT MI U = Some true.
Proof.
  induction l as [|x l IH]; cbn; intros H U HU; [contradiction|].
  destruct (dominates MRI MDT MI x) as [[|]|] eqn:D; try discriminate.
  destruct HU as [<- | HU]; auto.
Qed.

Lemma postIndexLoop_accepts (MI : MachineInstr) (Base : Register)
      (l : list MachineInstr) (Addr0 Offset0 Addr Offset : Register) :
  postIndexLoop MRI MDT ForceLegalIndexing isIndexingLegal MI Base l
                Addr0 Offset0 = Some (true, Addr, Offset) ->
  exists Use OffsetDef,
    In Use l /\ Opc Use = G_PTR_ADD
    /\ Addr = getReg (getOperand Use 0)
    /\ Offset = getReg (getOperand Use 2)
    /\ getUniqueVRegDef MRI Offset = Some OffsetDef
    /\ dominates MRI MDT OffsetDef MI = Some true
    /\ forall PtrAddUse,
        In PtrAddUse (use_nodbg_instructions MRI Addr) ->
        dominates MRI MDT MI PtrAddUse = Some true.
Proof.
  revert Addr0 Offset0.
  induction l as [|Use l IH]; intros Addr0 Offset0 H; cbn in H;
    [discriminate|].
  assert (Hrec : forall A O,
             postIndexLoop MRI MDT ForceLegalIndexing isIndexingLegal MI Base
                           l A O = Some (true, Addr, Offset) ->
             exists Use0 OffsetDef,
               In Use0 (Use :: l) /\ Opc Use0 = G_PTR_ADD
               /\ Addr = getReg (getOperand Use0 0)
               /\ Offset = getReg (getOperand Use0 2)
               /\ getUniqueVRegDef MRI Offset = Some OffsetDef
               /\ dominates MRI MDT OffsetDef MI = Some true
               /\ forall PtrAddUse,
                   In PtrAddUse (use_nodbg_instructions MRI Addr) ->
                   dominates MRI MDT MI PtrAddUse = Some true).
  { intros A O HA. destruct (IH A O HA) as (U & D & HIn & Hrest).
    exists U, D. split; [right; exact HIn | exact Hrest]. }
  destruct (opc_eqb (Opc Use) G_PTR_ADD) eqn:EO; cbn in H; [|eauto].
  destruct (negb ForceLegalIndexing
            && negb (isIndexingLegal MI Base (getReg (getOperand Use 2)) false));
    [eauto|].
  destruct (getUniqueVRegDef MRI (getReg (getOperand Use 2)))
    as [OffsetDef|] eqn:EDef; [|eauto].
  destruct (dominates MRI MDT OffsetDef MI) as [[|]|] eqn:ED;
    [|eauto|discriminate].
  destruct (memOpDominatesAddrUses MRI MDT MI
              (use_nodbg_instructions MRI (getReg (getOperand Use 0))))
    as [[|]|] eqn:EM; [|eauto|discriminate].
  inversion H; subst Addr Offset.
  exists Use, OffsetDef. repeat split; auto.
  - left; reflexivity.
  - unfold opc_eqb in EO. destruct (Opcode_eq_dec (Opc Use) G_PTR_ADD);
      [assumption|discriminate].
  - apply memOpDominatesAddrUses_true. exact EM.
Qed.

End IndexedFacts.

(** C3 (as amended).  [findPostIndexCandidate] accepts a pointer-add
    user of the base only if the instruction defining the pointer-add's
    offset dominates the memory access and the memory access dominates
    every use of the pointer-add's result; a pointer-add that fails one
    of the two dominance tests is skipped: the search goes on with the
    remaining users, the graph being only read. *)
Theorem findPostIndexCandidate_dominance :
  forall (MRI : MachineRegisterInfo)
         (MDT : option (MachineInstr -> MachineInstr -> bool))
         (ForceLegalIndexing : bool)
         (isIndexingLegal : MachineInstr -> Register -> Register -> bool -> bool)
         (MI : MachineInstr),
    (forall Addr0 Base0 Offset0 Addr Base Offset,
        findPostIndexCandidate MRI MDT ForceLegalIndexing isIndexingLegal MI
                               Addr0 Base0 Offset0
        = Some (true, Addr, Base, Offset) ->
        Base = getReg (getOperand MI 1)
        /\ exists Use OffsetDef,
            In Use (use_nodbg_instructions MRI Base)
            /\ Opc Use = G_PTR_ADD
            /\ Addr = getReg (getOperand Use 0)
            /\ Offset = getReg (getOperand Use 2)
            /\ getUniqueVRegDef MRI Offset = Some OffsetDef
            /\ dominates MRI MDT OffsetDef MI = Some true
            /\ forall PtrAddUse,
                In PtrAddUse (use_nodbg_instructions MRI Addr) ->
                dominates MRI MDT MI PtrAddUse = Some true)
    /\ (forall Base Use rest Addr0 Offset0 OffsetDef,
           Opc Use = G_PTR_ADD ->
           getUniqueVRegDef MRI (getReg (getOperand Use 2)) = Some OffsetDef ->
           dominates MRI MDT OffsetDef MI = Some false
           \/ (dominates MRI MDT OffsetDef MI = Some true
               /\ memOpDominatesAddrUses MRI MDT MI
                    (use_nodbg_instructions MRI (getReg (getOperand Use 0)))
                  = Some false) ->
           postIndexLoop MRI MDT ForceLegalIndexing isIndexingLegal MI Base
                         (Use :: rest) Addr0 Offset0
           = postIndexLoop MRI MDT ForceLegalIndexing isIndexingLegal MI Base
                           rest Addr0 (getReg (getOperand Use 2))).
Proof.
  intros MRI MDT Force legal MI. split.
  - intros Addr0 Base0 Offset0 Addr Base Offset H.
    unfold findPostIndexCandidate in H.
    destruct (match getUniqueVRegDef MRI (getReg (getOperand MI 1)) with
              | Some d => opc_eqb (Opc d) G_FRAME_INDEX
              | None => false
              end); [discriminate|].
    destruct (postIndexLoop MRI MDT Force legal MI (getReg (getOperand MI 1))
                (use_nodbg_instructions MRI (getReg (getOperand MI 1)))
                Addr0 Offset0) as [[[r A] O]|] eqn:EL; [|discriminate].
    inversion H; subst r A Base O. split; [reflexivity|].
    eapply postIndexLoop_accepts. exact EL.
  - intros Base Use rest Addr0 Offset0 OffsetDef HO HDef Hfail.
    cbn [postIndexLoop]. rewrite HO.
    change (opc_eqb G_PTR_ADD G_PTR_ADD) with true. cbn [negb].
    rewrite HDef.
    destruct (negb Force
              && negb (legal MI Base (getReg (getOperand Use 2)) false));
      [reflexivity|].
    destruct Hfail as [-> | [-> ->]]; reflexivity.
Qed.

Lemma findPostIndexCandidate_dominance_witness :
  getReg (getOperand Examples.postLoad 1) = Examples.v 0
  /\ exists Use OffsetDef,
      In Use (use_nodbg_instructions (MRIof Examples.postIndexState)
                                     (Examples.v 0))
      /\ Opc Use = G_PTR_ADD
      /\ Examples.v 3 = getReg (getOperand Use 0)
      /\ Examples.v 2 = getReg (getOperand Use 2)
      /\ getUniqueVRegDef (MRIof Examples.postIndexState) (Examples.v 2)
         = Some OffsetDef
      /\ dominates (MRIof Examples.postIndexState)
                   (Some Examples.sameBlockDominates) OffsetDef
                   Examples.postLoad = Some true
      /\ forall PtrAddUse,
          In PtrAddUse (use_nodbg_instructions (MRIof Examples.postIndexState)
                                               (Examples.v 3)) ->
          dominates (MRIof Examples.postIndexState)
                    (Some Examples.sameBlockDominates) Examples.postLoad
                    PtrAddUse = Some true.
Proof.
  assert (E : Examples.v 0 = getReg (getOperand Examples.postLoad 1))
    by reflexivity.
  split; [reflexivity|].
  rewrite E.
  apply (proj1 (findPostIndexCandidate_dominance
                  (MRIof Examples.postIndexState)
                  (Some Examples.sameBlockDominates) true
                  (fun _ _ _ _ => false) Examples.postLoad)
               0 0 0 (Examples.v 3) (Examples.v 0) (Examples.v 2)).
  reflexivity.
Defined.

(** C3 (as stated) fails: the post-index search accepts a pointer-add
    whose offset is defined before the load, so the load does not
    dominate the offset's definition; what the code asks for is the
    opposite direction. *)
Lemma findPostIndexCandidate_offset_not_dominated_by_access :
  findPostIndexCandidate (MRIof Examples.postIndexState)
                         (Some Examples.sameBlockDominates) true
                         (fun _ _ _ _ => false) Examples.postLoad 0 0 0
  = Some (true, Examples.v 3, Examples.v 0, Examples.v 2)
  /\ getUniqueVRegDef (MRIof Examples.postIndexState) (Examples.v 2)
     = Some Examples.postOffset
  /\ dominates (MRIof Examples.postIndexState)
               (Some Examples.sameBlockDominates)
               Examples.postLoad Examples.postOffset = Some false
  /\ dominates (MRIof Examples.postIndexState)
               (Some Examples.sameBlockDominates)
               Examples.postOffset Examples.postLoad = Some true.
Proof. repeat split. Qed.

(** C4 (as amended).  [findPreIndexCandidate] forms a candidate only
    when the address operand is defined by a pointer-add (looking
    through copies), the address register does not have exactly one
    non-debug use, and the memory access dominates every non-debug use
    of the address; when the access is the only non-debug use of the
    address, the search abstains. *)
Theorem findPreIndexCandidate_needs_another_use :
  forall (MRI : MachineRegisterInfo)
         (MDT : option (MachineInstr -> MachineInstr -> bool))
         (ForceLegalIndexing : bool)
         (isIndexingLegal : MachineInstr -> Register -> Register -> bool -> bool)
         (getOpcodeDef : Opcode -> Register -> option MachineInstr)
         (getDefIgnoringCopies : Register -> option MachineInstr)
         (MI : MachineInstr) (Addr0 Base0 Offset0 : Register),
    (forall Addr Base Offset,
        findPreIndexCandidate MRI MDT ForceLegalIndexing isIndexingLegal
                              getOpcodeDef getDefIgnoringCopies MI
                              Addr0 Base0 Offset0
        = Some (true, Addr, Base, Offset) ->
        Addr = getReg (getOperand MI 1)
        /\ hasOneNonDBGUse MRI Addr = false
        /\ (exists AddrDef,
               getOpcodeDef G_PTR_ADD Addr = Some AddrDef
               /\ Base = getReg (getOperand AddrDef 1)
               /\ Offset = getReg (getOperand AddrDef 2))
        /\ forall UseMI,
            In UseMI (use_nodbg_instructions MRI Addr) ->
            dominates MRI MDT MI UseMI = Some true)
    /\ (hasOneNonDBGUse MRI (getReg (getOperand MI 1)) = true ->
        findPreIndexCandidate MRI MDT ForceLegalIndexing isIndexingLegal
                              getOpcodeDef getDefIgnoringCopies MI
                              Addr0 Base0 Offset0
        = Some (false, getReg (getOperand MI 1), Base0, Offset0)).
Proof.
  intros MRI MDT Force legal god gdic MI Addr0 Base0 Offset0. split.
  - intros Addr Base Offset H. unfold findPreIndexCandidate in H.
    destruct (god G_PTR_ADD (getReg (getOperand MI 1))) as [AddrDef|] eqn:EA;
      [|discriminate].
    destruct (hasOneNonDBGUse MRI (getReg (getOperand MI 1))) eqn:EOne;
      [discriminate|].
    destruct (negb Force && negb (legal MI (getReg (getOperand AddrDef 1))
                                        (getReg (getOperand AddrDef 2)) true));
      [discriminate|].
    destruct (gdic (getReg (getOperand AddrDef 1))) as [BaseDef|];
      [|discriminate].
    destruct (opc_eqb (Opc BaseDef) G_FRAME_INDEX); [discriminate|].
    destruct (opc_eqb (Opc MI) G_STORE
              && (getReg (getOperand AddrDef 1) =? getReg (getOperand MI 0)));
      [discriminate|].
    destruct (opc_eqb (Opc MI) G_STORE
              && (getReg (getOperand MI 0) =? getReg (getOperand MI 1)));
      [discriminate|].
    destruct (dominatesAllAddrUses MRI MDT MI
                (use_nodbg_instructions MRI (getReg (getOperand MI 1))))
      as [[|]|] eqn:ED; try discriminate.
    inversion H; subst Addr Base Offset.
    repeat split; auto.
    + exists AddrDef. auto.
    + apply dominatesAllAddrUses_true. exact ED.
  - intro HOne. unfold findPreIndexCandidate. rewrite HOne.
    destruct (god G_PTR_ADD (getReg (getOperand MI 1))); reflexivity.
Qed.

Lemma findPreIndexCandidate_needs_another_use_witness :
  findPreIndexCandidate (MRIof Examples.postIndexState)
    (Some Examples.sameBlockDominates) true (fun _ _ _ _ => false)
    (Examples.opcodeDefNoCopies Examples.postIndexState)
    (Examples.defNoCopies Examples.postIndexState)
    Examples.postStore 0 0 0
  = Some (false, getReg (getOperand Examples.postStore 1), 0, 0).
Proof.
  apply (proj2 (findPreIndexCandidate_needs_another_use
                  (MRIof Examples.postIndexState)
                  (Some Examples.sameBlockDominates) true
                  (fun _ _ _ _ => false)
                  (Examples.opcodeDefNoCopies Examples.postIndexState)
                  (Examples.defNoCopies Examples.postIndexState)
                  Examples.postStore 0 0 0)).
  reflexivity.
Defined.

(** C4 (as stated) fails: the pre-index search forms a candidate for a
    load whose address register is read by a second instruction. *)
Lemma findPreIndexCandidate_formed_with_second_use :
  findPreIndexCandidate (MRIof Examples.preIndexState)
    (Some Examples.sameBlockDominates) true (fun _ _ _ _ => false)
    (Examples.opcodeDefNoCopies Examples.preIndexState)
    (Examples.defNoCopies Examples.preIndexState)
    Examples.preLoad 0 0 0
  = Some (true, Examples.v 2, Examples.v 0, Examples.v 1)
  /\ use_nodbg_instructions (MRIof Examples.preIndexState) (Examples.v 2)
     = [Examples.preLoad; Examples.preLoadAgain]
  /\ hasOneNonDBGUse (MRIof Examples.preIndexState) (Examples.v 2) = false.
Proof. repeat split. Qed.

(** With no dominator tree the same-block scan never answers true: it
    answers false or runs into [llvm_unreachable]. *)
Lemma isPredecessor_never_true (MRI : MachineRegisterInfo)
      (DefMI UseMI : MachineInstr) :
  isPredecessor MRI DefMI UseMI <> Some true.
Proof.
  unfold isPredecessor.
  destruct (sameInstr DefMI UseMI); [discriminate|].
  destruct (blockInstrs MRI (Parent DefMI)) as [|It l]; [discriminate|].
  destruct (sameInstr It DefMI); cbn; [discriminate|].
  destruct (sameInstr It UseMI); cbn; discriminate.
Qed.

(* ------------------------------------------------------------------ *)
(** ** Register replacement *)

Lemma insertBefore_split (p : Z) (New : MachineInstr) (l : list MachineInstr) :
  exists l1 l2,
    l = l1 ++ l2
    /\ insertBefore p New l = l1 ++ New :: l2
    /\ Forall (fun i => Id i <> p) l1
    /\ match l2 with [] => True | h :: _ => Id h = p end.
Proof.
  induction l as [|x l IH]; cbn.
  - exists [], []. repeat split; constructor.
  - destruct (Z.eqb_spec (Id x) p) as [E|N].
    + exists [], (x :: l). repeat split; auto.
    + destruct IH as (l1 & l2 & E1 & E2 & F & Hd).
      exists (x :: l1), l2. cbn. rewrite E2, <- E1. repeat split; auto.
Qed.

Lemma insertBefore_keeps (p : Z) (New : MachineInstr) (l : list MachineInstr)
      (i : MachineInstr) :
  In i l -> In i (insertBefore p New l).
Proof.
  destruct (insertBefore_split p New l) as (l1 & l2 & E1 & E2 & _).
  rewrite E2, E1. intro H. apply in_app_or in H. apply in_or_app.
  destruct H; [left | right; right]; assumption.
Qed.

(** C6 (as amended).  When the constraint merge of [FromReg]'s
    attributes onto [ToReg] fails, [replaceRegWith] allocates no
    register and rewrites no operand: it inserts, at the builder's
    insertion point, one [COPY] whose two operands are the registers
    [FromReg] and [ToReg], every instruction already present staying as
    it was; the merge attempt and the insertion happen between the
    changing-all-uses notification for [FromReg] and the
    finished-changing-all-uses notification. *)
Theorem replaceRegWith_failed_merge_inserts_copy :
  forall (constrainRegAttrs : Register -> Register -> M bool)
         (FromReg ToReg : Register) (st st1 : CombinerState),
    constrainRegAttrs ToReg FromReg
      (mkState (Insts st) (RegTypes st) (NumVirtRegs st) (NextId st)
               (InsertBB st) (InsertPt st) (ObjectAligns st)
               (Log st ++ [changingAllUsesOfReg FromReg]))
    = Some (false, st1) ->
    exists (Copy : MachineInstr) (st' : CombinerState),
      replaceRegWith constrainRegAttrs FromReg ToReg st = Some (tt, st')
      /\ Opc Copy = COPY
      /\ (forall r, In r (map getReg (Operands Copy))
                    <-> r = FromReg \/ r = ToReg)
      /\ Insts st' = insertBefore (InsertPt st1) Copy (Insts st1)
      /\ (forall i, In i (Insts st1) -> In i (Insts st'))
      /\ RegTypes st' = RegTypes st1
      /\ NumVirtRegs st' = NumVirtRegs st1
      /\ Log st' = Log st1 ++ [finishedChangingAllUsesOfReg].
Proof.
  intros cra FromReg ToReg st st1 H.
  exists (mkMI (NextId st1) COPY [def ToReg; use FromReg] (InsertBB st1) []).
  eexists. split.
  - unfold replaceRegWith, bind, notify. rewrite H. cbn. reflexivity.
  - cbn. repeat split; auto.
    + intros [<- | [<- | []]]; auto.
    + intros [-> | ->]; auto.
    + intros i Hi. apply insertBefore_keeps. exact Hi.
Qed.

Lemma replaceRegWith_failed_merge_inserts_copy_witness :
  exists (Copy : MachineInstr) (st' : CombinerState),
    replaceRegWith constrainRegAttrsByType (Examples.v 1) (Examples.v 0)
                   Examples.replaceState = Some (tt, st')
    /\ Opc Copy = COPY
    /\ (forall r, In r (map getReg (Operands Copy))
                  <-> r = Examples.v 1 \/ r = Examples.v 0)
    /\ Insts st' = insertBefore 2 Copy (Insts Examples.replaceState)
    /\ (forall i, In i (Insts Examples.replaceState) -> In i (Insts st'))
    /\ RegTypes st' = RegTypes Examples.replaceState
    /\ NumVirtRegs st' = 16
    /\ Log st' = [changingAllUsesOfReg (Examples.v 1);
                  finishedChangingAllUsesOfReg].
Proof.
  apply (replaceRegWith_failed_merge_inserts_copy
           constrainRegAttrsByType (Examples.v 1) (Examples.v 0)
           Examples.replaceState
           (mkState (Insts Examples.replaceState)
                    (RegTypes Examples.replaceState) 16 100 0 2 []
                    [changingAllUsesOfReg (Examples.v 1)])).
  reflexivity.
Defined.

(** C6 (as stated) fails: replacing the stored 32-bit register by a
    64-bit one, the merge fails, and afterwards the store still reads
    the old register, no register has been allocated, and so no fresh
    value stands in for the old one. *)
Lemma replaceRegWith_failed_merge_redirects_nothing :
  exists st',
    replaceRegWith constrainRegAttrsByType (Examples.v 1) (Examples.v 0)
                   Examples.replaceState = Some (tt, st')
    /\ constrainRegAttrsByType (Examples.v 0) (Examples.v 1)
                               Examples.replaceState
       = Some (false, Examples.replaceState)
    /\ In Examples.narrowStore (Insts st')
    /\ usesReg (Examples.v 1) Examples.narrowStore = true
    /\ NumVirtRegs st' = NumVirtRegs Examples.replaceState
    /\ ~ copiedToFreshValue Examples.replaceState st'
                            (Examples.v 1) (Examples.v 0).
Proof.
  eexists. split; [vm_compute; reflexivity|].
  split; [reflexivity|].
  assert (HIn : In Examples.narrowStore
                   [Examples.wideDef; Examples.narrowDef;
                    mkMI 100 COPY [def (Examples.v 0); use (Examples.v 1)] 0 [];
                    Examples.narrowStore])
    by (right; right; right; left; reflexivity).
  split; [exact HIn|].
  split; [reflexivity|].
  split; [reflexivity|].
  intros (F & C & _ & _ & _ & _ & _ & Hno).
  specialize (Hno Examples.narrowStore HIn). discriminate Hno.
Qed.

(* ------------------------------------------------------------------ *)
(** ** What the vector matchers do to the graph *)










(** *** A second call *)


























(** The matcher also leaves its [G_IMPLICIT_DEF] behind when it ends
    up returning false. *)
Example matchCombineConcatVectors_false_changes_graph :
  exists st1,
    matchCombineConcatVectors Examples.concatUndefOther false []
                              Examples.concatState
    = Some ((false, true, [Examples.v 16; Examples.v 16]), st1)
    /\ length (Insts st1) = S (length (Insts Examples.concatState)).
Proof.
  eexists. split; [vm_compute; reflexivity|]. reflexivity.
Qed.

(* ------------------------------------------------------------------ *)
(** ** Inserting at an instruction, and the shift splitting *)

Lemma insertBefore_at (p : Z) (New x : MachineInstr)
      (l1 l2 : list MachineInstr) :
  Forall (fun i => Id i <> p) l1 -> Id x = p ->
  insertBefore p New (l1 ++ x :: l2) = (l1 ++ [New]) ++ x :: l2.
Proof.
  intros F E. induction F as [|y l1 Hy F IH]; cbn [app insertBefore].
  - rewrite (proj2 (Z.eqb_eq _ _) E). reflexivity.
  - rewrite (proj2 (Z.eqb_neq _ _) Hy). rewrite IH. reflexivity.
Qed.

Lemma erase_at (p : Z) (x : MachineInstr) (l1 l2 : list MachineInstr) :
  Forall (fun i => Id i <> p) l1 -> Forall (fun i => Id i <> p) l2 ->
  Id x = p ->
  filter (fun i => negb (Id i =? p)) (l1 ++ x :: l2) = l1 ++ l2.
Proof.
  intros F1 F2 E. rewrite filter_app. cbn [filter].
  rewrite (proj2 (Z.eqb_eq _ _) E). cbn [negb].
  assert (K : forall l, Forall (fun i => Id i <> p) l ->
                        filter (fun i => negb (Id i =? p)) l = l).
  { intros l F. induction F as [|y l Hy F IH]; cbn [filter]; [reflexivity|].
    rewrite (proj2 (Z.eqb_neq _ _) Hy). cbn [negb]. rewrite IH. reflexivity. }
  rewrite (K l1 F1), (K l2 F2). reflexivity.
Qed.

Lemma Forall_snoc {A} (P : A -> Prop) (l : list A) (x : A) :
  Forall P l -> P x -> Forall P (l ++ [x]).
Proof. intros. apply Forall_app. split; auto. Qed.

Ltac solve_forall :=
  repeat (apply Forall_snoc; [| cbn [Id]; lia]); assumption.

Ltac run_builder :=
  cbv beta iota zeta delta
      [bind ret buildConstant buildBinOp buildUnOp buildMerge buildLoad
       buildStore createGenericVirtualRegister insertInstr eraseFromParent
       setInsts createRegs fst snd];
  cbn [map app nth Insts RegTypes NumVirtRegs NextId InsertBB InsertPt
       ObjectAligns Log].

Lemma tryCombineShiftToUnmerge_lshr_runs :
  forall (getConstantVRegValWithLookThrough :
            MachineRegisterInfo -> Register -> option Z)
         (st : CombinerState) (MI : MachineInstr)
         (pre post : list MachineInstr) (TargetShiftSize C : Z),
    Opc MI = G_LSHR ->
    stateType st (getReg (getOperand MI 0)) = LLT_scalar 64 ->
    stateType st (getReg (getOperand MI 1)) = LLT_scalar 64 ->
    getConstantVRegValWithLookThrough (MRIof st) (getReg (getOperand MI 2))
    = Some C ->
    32 <= C <= 63 ->
    TargetShiftSize < 64 ->
    Insts st = pre ++ MI :: post ->
    Forall (fun i => Id i <> Id MI) (pre ++ post) ->
    Id MI < NextId st ->
    exists st',
      tryCombineShiftToUnmerge getConstantVRegValWithLookThrough MI
                               TargetShiftSize st = Some (true, st')
      /\ Insts st'
         = pre ++ lshrSplitSequence (Parent MI) (NextId st) (NumVirtRegs st)
                    (getReg (getOperand MI 1)) (getReg (getOperand MI 0)) C
               ++ post
      /\ RegTypes st'
         = (if C =? 32 then []
            else [(index2VirtReg (NumVirtRegs st + 1 + 1 + 1 + 1),
                   LLT_scalar 32);
                  (index2VirtReg (NumVirtRegs st + 1 + 1 + 1),
                   LLT_scalar 32)])
           ++ (index2VirtReg (NumVirtRegs st + 1 + 1), LLT_scalar 32)
              :: (index2VirtReg (NumVirtRegs st + 1), LLT_scalar 32)
              :: (index2VirtReg (NumVirtRegs st), LLT_scalar 32)
              :: RegTypes st.
Proof.
  intros gcv st MI pre post T C HO HD HS HC HCr HT HI HF HN.
  apply Forall_app in HF. destruct HF as [Fpre Fpost].
  unfold tryCombineShiftToUnmerge, matchCombineShiftToUnmerge, bind, getState.
  rewrite HD. cbn [LLTOps.isVector LLTOps.getSizeInBits].
  change (u32 64) with 64.
  replace (64 <=? T) with false by (symmetry; apply Z.leb_gt; lia).
  rewrite HC. unfold ret at 1. cbn [fst snd].
  assert (EC : u32 C = C) by (unfold u32; apply Z.mod_small; lia).
  rewrite EC. change (64 / 2) with 32.
  replace (32 <=? C) with true by (symmetry; apply Z.leb_le; lia).
  replace (C <? 64) with true by (symmetry; apply Z.ltb_lt; lia).
  cbn [andb].
  unfold applyCombineShiftToUnmerge, bind, getState.
  rewrite HS, HO. cbn [LLTOps.getSizeInBits]. change (u32 64) with 64.
  change (64 / 2) with 32.
  change (opc_eqb G_LSHR G_LSHR) with true. cbv iota.
  unfold setInsertPt, BuilderPoint, buildUnmerge, bind, getState.
  cbn [Insts RegTypes NumVirtRegs NextId InsertBB InsertPt ObjectAligns Log
       fst snd].
  unfold stateType in HS |- *. cbn [RegTypes].
  fold (stateType st (getReg (getOperand MI 1))).
  unfold stateType. rewrite HS.
  cbn [LLTOps.getSizeInBits]. change (Z.to_nat (u32 (64 / 32))) with 2%nat.
  run_builder. rewrite HI.
  rewrite insertBefore_at by (solve_forall || reflexivity).
  unfold lshrSplitSequence.
  destruct (Z.eqb_spec C 32) as [E32 | N32].
  - subst C. change (u32 (32 - 32)) with 0. change (negb (0 =? 0)) with false.
    cbv iota. run_builder.
    rewrite !insertBefore_at by (solve_forall || reflexivity).
    rewrite erase_at by (solve_forall || reflexivity).
    eexists. split; [reflexivity|]. cbn [Insts RegTypes].
    split.
    + rewrite <- !app_assoc. reflexivity.
    + reflexivity.
  - assert (EN : u32 (C - 32) = C - 32)
      by (unfold u32; apply Z.mod_small; lia).
    rewrite EN.
    replace (C - 32 =? 0) with false by (symmetry; apply Z.eqb_neq; lia).
    cbn [negb]. cbv iota. run_builder.
    rewrite !insertBefore_at by (solve_forall || reflexivity).
    rewrite erase_at by (solve_forall || reflexivity).
    eexists. split; [reflexivity|]. cbn [Insts RegTypes].
    split.
    + rewrite <- !app_assoc. reflexivity.
    + replace (C =? 32) with false by (symmetry; apply Z.eqb_neq; lia).
      reflexivity.
Qed.

Ltac decide_regs :=
  repeat match goal with
         | |- context [index2VirtReg ?a =? index2VirtReg ?b] =>
             first
               [ replace (index2VirtReg a =? index2VirtReg b) with true
                   by (symmetry; apply Z.eqb_eq; unfold index2VirtReg; lia)
               | replace (index2VirtReg a =? index2VirtReg b) with false
                   by (symmetry; apply Z.eqb_neq; unfold index2VirtReg; lia) ]
         end.

Lemma shiftr_high_half (x C : Z) :
  0 <= x < 2 ^ 64 -> 32 <= C <= 63 ->
  Z.shiftr (Z.shiftr x 32 mod 2 ^ 32) (C - 32) = Z.shiftr x C.
Proof.
  intros Hx HC.
  assert (H32 : 0 <= Z.shiftr x 32 < 2 ^ 32).
  { rewrite Z.shiftr_div_pow2 by lia. split.
    - apply Z.div_pos; lia.
    - apply Z.div_lt_upper_bound; [lia|].
      change (2 ^ 32 * 2 ^ 32) with (2 ^ 64). lia. }
  rewrite Z.mod_small by exact H32.
  rewrite Z.shiftr_shiftr by lia.
  f_equal. lia.
Qed.

Lemma lshrSplitSequence_value :
  forall (st' : CombinerState) (bb n k : Z) (Src Dst : Register)
         (C x : Z) (env : RegEnv),
    32 <= C <= 63 -> 0 <= x < 2 ^ 64 -> env Src = x ->
    stateType st' (index2VirtReg k) = LLT_scalar 32 ->
    stateType st' (index2VirtReg (k + 1)) = LLT_scalar 32 ->
    stateType st' (index2VirtReg (k + 1 + 1)) = LLT_scalar 32 ->
    (C <> 32 ->
     stateType st' (index2VirtReg (k + 1 + 1 + 1)) = LLT_scalar 32
     /\ stateType st' (index2VirtReg (k + 1 + 1 + 1 + 1)) = LLT_scalar 32) ->
    (exists e1,
        evalInstrs st' (firstn 1 (lshrSplitSequence bb n k Src Dst C)) env
        = Some e1
        /\ e1 (index2VirtReg k) = x mod 2 ^ 32
        /\ e1 (index2VirtReg (k + 1)) = Z.shiftr x 32)
    /\ exists env',
        evalInstrs st' (lshrSplitSequence bb n k Src Dst C) env = Some env'
        /\ env' Dst = Z.shiftr x C.
Proof.
  intros st' bb n k Src Dst C x env HC Hx Henv T0 T1 T2 T34.
  assert (H32 : Z.shiftr x 32 mod 2 ^ 32 = Z.shiftr x 32).
  { apply Z.mod_small. rewrite Z.shiftr_div_pow2 by lia. split.
    - apply Z.div_pos; lia.
    - apply Z.div_lt_upper_bound; [lia|].
      change (2 ^ 32 * 2 ^ 32) with (2 ^ 64). lia. }
  unfold lshrSplitSequence.
  destruct (Z.eqb_spec C 32) as [E32 | N32].
  - split.
    + eexists. cbn [firstn evalInstrs]. unfold evalInstr.
      cbn [Opc getOperand Operands nth getReg def use filter isDef last
           setPieces].
      unfold widthOf. rewrite T0. cbn [LLTOps.getSizeInBits].
      split; [reflexivity|]. unfold setReg. decide_regs.
      rewrite Henv. change (0 * 32) with 0. change (0 + 1) with 1.
      change (1 * 32) with 32. rewrite Z.shiftr_0_r. rewrite H32. auto.
    + eexists. cbn [evalInstrs]. unfold evalInstr.
      cbn [Opc getOperand Operands nth getReg def use filter isDef last
           setPieces uses dropDefs hd mergePieces].
      unfold widthOf. rewrite T0, T1, T2. cbn [LLTOps.getSizeInBits].
      split; [reflexivity|]. unfold setReg. rewrite Z.eqb_refl. decide_regs.
      rewrite Henv. change (0 + 1) with 1.
      change (1 * 32) with 32. change (0 * 32) with 0.
      rewrite H32. change (0 mod 2 ^ 32) with 0.
      rewrite Z.shiftl_0_r, Z.shiftl_0_l. subst C. lia.
  - destruct (T34 N32) as [T3 T4]. split.
    + eexists. cbn [firstn evalInstrs]. unfold evalInstr.
      cbn [Opc getOperand Operands nth getReg def use filter isDef last
           setPieces].
      unfold widthOf. rewrite T0. cbn [LLTOps.getSizeInBits].
      split; [reflexivity|]. unfold setReg. decide_regs.
      rewrite Henv. change (0 * 32) with 0. change (0 + 1) with 1.
      change (1 * 32) with 32. rewrite Z.shiftr_0_r. rewrite H32. auto.
    + assert (EM : (C - 32) mod 2 ^ 32 = C - 32) by (apply Z.mod_small; lia).
      eexists. cbn [evalInstrs]. unfold evalInstr.
      cbn [Opc getOperand Operands nth getReg def use filter isDef last
           setPieces uses dropDefs hd mergePieces].
      unfold widthOf. rewrite T0, T2, T3, T4. cbn [LLTOps.getSizeInBits].
      unfold setReg at 1. rewrite Z.eqb_refl. rewrite EM.
      replace (C - 32 <? 32) with true by (symmetry; apply Z.ltb_lt; lia).
      split; [reflexivity|]. unfold setReg. rewrite Z.eqb_refl. decide_regs.
      rewrite Henv. change (0 + 1) with 1.
      change (1 * 32) with 32. change (0 * 32) with 0.
      change (0 mod 2 ^ 32) with 0.
      rewrite Z.shiftl_0_r, Z.shiftl_0_l.
      rewrite shiftr_high_half by lia. lia.
Qed.

(** C8.  For a 64-bit value [x] and a constant amount [C] with
    [32 <= C <= 63], the shift-splitting rewrite of
    [Dst = G_LSHR Src, C] succeeds and replaces the instruction by the
    unmerge of [Src] into its two 32-bit halves, one narrow [G_LSHR] of
    the high half by [C - 32] (none when [C] is 32), a zero constant
    and the merge of the shifted high half (low part) with the zero
    (high part); run on any register file in which [Src] holds [x], the
    sequence leaves the two halves of [x] in the unmerge results and
    [x] shifted right by [C] in [Dst]. *)
Theorem shift_to_unmerge_lshr_correct :
  forall (getConstantVRegValWithLookThrough :
            MachineRegisterInfo -> Register -> option Z)
         (st : CombinerState) (MI : MachineInstr)
         (pre post : list MachineInstr) (TargetShiftSize C x : Z),
    Opc MI = G_LSHR ->
    stateType st (getReg (getOperand MI 0)) = LLT_scalar 64 ->
    stateType st (getReg (getOperand MI 1)) = LLT_scalar 64 ->
    getConstantVRegValWithLookThrough (MRIof st) (getReg (getOperand MI 2))
    = Some C ->
    32 <= C <= 63 ->
    TargetShiftSize < 64 ->
    Insts st = pre ++ MI :: post ->
    Forall (fun i => Id i <> Id MI) (pre ++ post) ->
    Id MI < NextId st ->
    0 <= x < 2 ^ 64 ->
    let Src := getReg (getOperand MI 1) in
    let Dst := getReg (getOperand MI 0) in
    let emitted :=
      lshrSplitSequence (Parent MI) (NextId st) (NumVirtRegs st) Src Dst C in
    exists st',
      tryCombineShiftToUnmerge getConstantVRegValWithLookThrough MI
                               TargetShiftSize st = Some (true, st')
      /\ Insts st' = pre ++ emitted ++ post
      /\ countOpcode G_UNMERGE_VALUES emitted = 1%nat
      /\ countOpcode G_LSHR emitted = (if C =? 32 then 0%nat else 1%nat)
      /\ countOpcode G_MERGE_VALUES emitted = 1%nat
      /\ forall env : RegEnv,
          env Src = x ->
          (exists e1,
              evalInstrs st' (firstn 1 emitted) env = Some e1
              /\ e1 (index2VirtReg (NumVirtRegs st)) = x mod 2 ^ 32
              /\ e1 (index2VirtReg (NumVirtRegs st + 1)) = Z.shiftr x 32)
          /\ exists env',
              evalInstrs st' emitted env = Some env'
              /\ env' Dst = Z.shiftr x C.
Proof.
  intros gcv st MI pre post T C x HO HD HS HC HCr HT HI HF HN Hx
         Src Dst emitted.
  destruct (tryCombineShiftToUnmerge_lshr_runs gcv st MI pre post T C
              HO HD HS HC HCr HT HI HF HN)
    as (st' & Hrun & HInsts & HRT).
  exists st'. split; [exact Hrun|]. split; [exact HInsts|].
  assert (Hcount : countOpcode G_UNMERGE_VALUES emitted = 1%nat
                   /\ countOpcode G_LSHR emitted
                      = (if C =? 32 then 0%nat else 1%nat)
                   /\ countOpcode G_MERGE_VALUES emitted = 1%nat).
  { unfold emitted, lshrSplitSequence. destruct (C =? 32);
      repeat split; reflexivity. }
  destruct Hcount as (H1 & H2 & H3).
  split; [exact H1|]. split; [exact H2|]. split; [exact H3|].
  intros env Henv.
  apply lshrSplitSequence_value; auto.
  - unfold stateType. rewrite HRT.
    destruct (C =? 32); cbn [app lookupZ]; decide_regs; reflexivity.
  - unfold stateType. rewrite HRT.
    destruct (C =? 32); cbn [app lookupZ]; decide_regs; reflexivity.
  - unfold stateType. rewrite HRT.
    destruct (C =? 32); cbn [app lookupZ]; decide_regs; reflexivity.
  - intro N32. unfold stateType. rewrite HRT.
    replace (C =? 32) with false by (symmetry; apply Z.eqb_neq; lia).
    cbn [app lookupZ]; decide_regs. split; reflexivity.
Qed.

Lemma shift_to_unmerge_lshr_correct_witness :
  exists st',
    tryCombineShiftToUnmerge Examples.constantNoLookThrough Examples.lshr40
                             32 Examples.shiftState = Some (true, st')
    /\ Insts st'
       = [Examples.shiftSrc; Examples.shiftAmt]
           ++ lshrSplitSequence 0 100 16 (Examples.v 0) (Examples.v 2) 40
           ++ []
    /\ countOpcode G_UNMERGE_VALUES
         (lshrSplitSequence 0 100 16 (Examples.v 0) (Examples.v 2) 40)
       = 1%nat
    /\ countOpcode G_LSHR
         (lshrSplitSequence 0 100 16 (Examples.v 0) (Examples.v 2) 40)
       = 1%nat
    /\ countOpcode G_MERGE_VALUES
         (lshrSplitSequence 0 100 16 (Examples.v 0) (Examples.v 2) 40)
       = 1%nat
    /\ forall env : RegEnv,
        env (Examples.v 0) = 81985529216486895 ->
        (exists e1,
            evalInstrs st'
              (firstn 1 (lshrSplitSequence 0 100 16 (Examples.v 0)
                                           (Examples.v 2) 40)) env
            = Some e1
            /\ e1 (index2VirtReg 16) = 81985529216486895 mod 2 ^ 32
            /\ e1 (index2VirtReg (16 + 1)) = Z.shiftr 81985529216486895 32)
        /\ exists env',
            evalInstrs st'
              (lshrSplitSequence 0 100 16 (Examples.v 0) (Examples.v 2) 40)
              env = Some env'
            /\ env' (Examples.v 2) = Z.shiftr 81985529216486895 40.
Proof.
  apply (shift_to_unmerge_lshr_correct
           Examples.constantNoLookThrough Examples.shiftState Examples.lshr40
           [Examples.shiftSrc; Examples.shiftAmt] [] 32 40
           81985529216486895).
  - reflexivity.
  - reflexivity.
  - reflexivity.
  - reflexivity.
  - lia.
  - lia.
  - reflexivity.
  - repeat constructor; cbn; lia.
  - cbn. lia.
  - lia.
Defined.

(* ------------------------------------------------------------------ *)
(** ** The length cap of the bulk-memory combine *)

(** As long as the constant length fits [unsigned], a non-zero cap
    below it makes the combine return false with the state untouched. *)
Lemma tryCombineMemCpyFamily_cap_in_range :
  forall (TLI : TargetLowering)
         (getOpcodeDef :
            MachineRegisterInfo -> Opcode -> Register -> option MachineInstr)
         (getConstantVRegValWithLookThrough :
            MachineRegisterInfo -> Register -> option Z)
         (isOSDarwin hasMinSize hasOptSize : bool)
         (isFixedObjectIndex : Z -> bool) (getABITypeAlign : LLT -> Align)
         (exceedsNaturalStackAlignment : Align -> bool)
         (needsStackRealignment : bool) (fuel : nat)
         (MI : MachineInstr) (MaxLen L : Z) (st : CombinerState),
    getConstantVRegValWithLookThrough (MRIof st) (getReg (getOperand MI 2))
    = Some L ->
    0 <= L < 2 ^ 32 -> 0 < MaxLen -> MaxLen < L ->
    tryCombineMemCpyFamily TLI getOpcodeDef
      getConstantVRegValWithLookThrough isOSDarwin hasMinSize hasOptSize
      isFixedObjectIndex getABITypeAlign exceedsNaturalStackAlignment
      needsStackRealignment fuel MI MaxLen st
    = Some (false, st).
Proof.
  intros TLI god gcv dar mins opts fixed abi exceeds realign fuel MI MaxLen L
         st HL Hr Hcap Hgt.
  unfold tryCombineMemCpyFamily.
  destruct (MMO_Volatile (firstMMO MI)); [reflexivity|].
  unfold bind, getState. rewrite HL.
  assert (EL : u32 L = L) by (unfold u32; apply Z.mod_small; exact Hr).
  rewrite EL.
  replace (L =? 0) with false by (symmetry; apply Z.eqb_neq; lia).
  replace (MaxLen =? 0) with false by (symmetry; apply Z.eqb_neq; lia).
  replace (L >? MaxLen) with true by (symmetry; apply Z.gtb_lt; lia).
  reflexivity.
Qed.

(** C9 at its failing input.  The length constant 4294967296 exceeds
    the cap 16, yet the combine returns true and the [G_MEMCPY] is gone
    with nothing in its place: line 1422 narrows the 64-bit constant to
    [unsigned], which makes it 0.  With 4294967303 the narrowed length
    is 7 and the copy of 4 GiB is lowered to two 4-byte accesses. *)
Theorem tryCombineMemCpyFamily_cap_missed_on_wide_length :
  (exists st',
      Examples.tryExample true G_MEMCPY 4294967296 16 = Some (true, st')
      /\ Insts st'
         = [Examples.memDst; Examples.memSrc; Examples.memLen 4294967296])
  /\ (exists st',
         Examples.tryExample true G_MEMCPY 4294967303 16 = Some (true, st')
         /\ countOpcode G_MEMCPY (Insts st') = 0%nat
         /\ countOpcode G_LOAD (Insts st') = 2%nat
         /\ countOpcode G_STORE (Insts st') = 2%nat).
Proof.
  split.
  - eexists. split; [vm_compute; reflexivity | reflexivity].
  - eexists. split; [vm_compute; reflexivity|]. repeat split.
Qed.

(* ------------------------------------------------------------------ *)
(** ** Memmove: loads first, then stores *)

Lemma countOpcode_app (O : Opcode) (a b : list MachineInstr) :
  countOpcode O (a ++ b) = (countOpcode O a + countOpcode O b)%nat.
Proof. unfold countOpcode. rewrite filter_app, length_app. reflexivity. Qed.

Lemma accesses_app (O : Opcode) (a b : list MachineInstr) :
  accesses O (a ++ b) = accesses O a ++ accesses O b.
Proof. unfold accesses. rewrite filter_app, map_app. reflexivity. Qed.

Lemma firstRegs_app (O : Opcode) (a b : list MachineInstr) :
  firstRegs O (a ++ b) = firstRegs O a ++ firstRegs O b.
Proof. unfold firstRegs. rewrite filter_app, map_app. reflexivity. Qed.

Section MemmoveEmission.

Variable MI : MachineInstr.
Variable post : list MachineInstr.
Variable PtrTy : LLT.

(** The state stands at [MI]: everything emitted so far is in [acc]. *)
Let At (acc : list MachineInstr) (st : CombinerState) : Prop :=
  Insts st = acc ++ MI :: post
  /\ Forall (fun i => Id i <> Id MI) acc
  /\ Id MI < NextId st.

Lemma memmoveLoadLoop_emits (Src : Register) (SrcMMO : MachineMemOperand)
      (MemOps : list LLT) :
  forall acc st CurrOffset LoadVals,
    At acc st ->
    exists E st',
      memmoveLoadLoop (pointBefore MI) Src PtrTy SrcMMO MemOps CurrOffset
                      LoadVals st
      = Some (LoadVals ++ firstRegs G_LOAD E, st')
      /\ At (acc ++ E) st'
      /\ countOpcode G_STORE E = 0%nat
      /\ accesses G_LOAD E
         = chunksAt SrcMMO MemOps (memmoveOffsets MemOps CurrOffset).
Proof.
  induction MemOps as [|CopyTy rest IH];
    intros acc st CurrOffset LoadVals (HI & HF & HN).
  - exists [], st. cbn [memmoveLoadLoop]. unfold ret.
    rewrite !app_nil_r. repeat split; auto.
  - cbn [memmoveLoadLoop memmoveOffsets]. unfold pointBefore.
    destruct (CurrOffset =? 0) eqn:E0; cbn [negb].
    + run_builder. rewrite HI.
      rewrite !insertBefore_at by (solve_forall || reflexivity).
      match goal with
      | |- context [memmoveLoadLoop ?pt ?s ?p ?m rest ?o ?lv ?st1] =>
          destruct (IH (acc ++ [mkMI (NextId st) G_LOAD
                                  [def (index2VirtReg (NumVirtRegs st));
                                   use Src] (Parent MI)
                                  [getMachineMemOperand SrcMMO CurrOffset
                                     (LLTOps.getSizeInBytes CopyTy)]])
                       st1 o lv)
            as (E & st' & Hrun & HAt & Hst & Hacc)
      end.
      { split; [reflexivity | split; [solve_forall | cbn [NextId]; lia]]. }
      eexists (_ :: E), st'. unfold pointBefore in Hrun.
      split; [| split; [| split]].
      2: { rewrite <- app_assoc in HAt. exact HAt. }
      * rewrite Hrun. unfold firstRegs. cbn [filter Opc].
        change (opc_eqb G_LOAD G_LOAD) with true.
        cbn [map getOperand Operands nth getReg def].
        rewrite <- app_assoc. reflexivity.
      * change (?x :: E) with ([x] ++ E). rewrite countOpcode_app, Hst.
        reflexivity.
      * change (?x :: E) with ([x] ++ E). rewrite accesses_app, Hacc.
        reflexivity.
    + run_builder. rewrite HI.
      rewrite !insertBefore_at by (solve_forall || reflexivity).
      match goal with
      | |- context [memmoveLoadLoop ?pt ?s ?p ?m rest ?o ?lv ?st1] =>
          destruct (IH (((acc ++ [mkMI (NextId st) G_CONSTANT
                                    [def (index2VirtReg (NumVirtRegs st));
                                     MO_CImmediate CurrOffset] (Parent MI) []])
                           ++ [mkMI (NextId st + 1) G_PTR_ADD
                                 [def (index2VirtReg (NumVirtRegs st + 1));
                                  use Src;
                                  use (index2VirtReg (NumVirtRegs st))]
                                 (Parent MI) []])
                          ++ [mkMI (NextId st + 1 + 1) G_LOAD
                                [def (index2VirtReg (NumVirtRegs st + 1 + 1));
                                 use (index2VirtReg (NumVirtRegs st + 1))]
                                (Parent MI)
                                [getMachineMemOperand SrcMMO CurrOffset
                                   (LLTOps.getSizeInBytes CopyTy)]])
                       st1 o lv)
            as (E & st' & Hrun & HAt & Hst & Hacc)
      end.
      { split; [reflexivity | split; [solve_forall | cbn [NextId]; lia]]. }
      eexists (_ :: _ :: _ :: E), st'. unfold pointBefore in Hrun.
      split; [| split; [| split]].
      2: { rewrite <- !app_assoc in HAt. exact HAt. }
      * rewrite Hrun. unfold firstRegs. cbn [filter Opc].
        change (opc_eqb G_LOAD G_LOAD) with true.
        change (opc_eqb G_CONSTANT G_LOAD) with false.
        change (opc_eqb G_PTR_ADD G_LOAD) with false.
        cbn [map getOperand Operands nth getReg def].
        rewrite <- app_assoc. reflexivity.
      * change (?x :: ?y :: ?z :: E) with ([x; y; z] ++ E).
        rewrite countOpcode_app, Hst. reflexivity.
      * change (?x :: ?y :: ?z :: E) with ([x; y; z] ++ E).
        rewrite accesses_app, Hacc. reflexivity.
Qed.

Lemma memmoveStoreLoop_emits (Dst : Register) (DstMMO : MachineMemOperand)
      (LoadVals : list Register) (MemOps : list LLT) :
  forall acc st I CurrOffset,
    At acc st ->
    exists E st',
      memmoveStoreLoop (pointBefore MI) Dst PtrTy DstMMO MemOps LoadVals I
                       CurrOffset st
      = Some (tt, st')
      /\ At (acc ++ E) st'
      /\ countOpcode G_LOAD E = 0%nat
      /\ accesses G_STORE E
         = chunksAt DstMMO MemOps (memmoveOffsets MemOps CurrOffset)
      /\ firstRegs G_STORE E
         = map (fun j => nth j LoadVals NoRegister) (seq I (length MemOps)).
Proof.
  induction MemOps as [|CopyTy rest IH];
    intros acc st I CurrOffset (HI & HF & HN).
  - exists [], st. cbn [memmoveStoreLoop]. unfold ret.
    rewrite !app_nil_r. repeat split; auto.
  - cbn [memmoveStoreLoop memmoveOffsets length seq map]. unfold pointBefore.
    destruct (CurrOffset =? 0) eqn:E0; cbn [negb].
    + run_builder. rewrite HI.
      rewrite !insertBefore_at by (solve_forall || reflexivity).
      match goal with
      | |- context [memmoveStoreLoop ?pt ?s ?p ?m rest ?lv ?i ?o ?st1] =>
          destruct (IH (acc ++ [mkMI (NextId st) G_STORE
                                  [use (nth I LoadVals NoRegister); use Dst]
                                  (Parent MI)
                                  [getMachineMemOperand DstMMO CurrOffset
                                     (LLTOps.getSizeInBytes CopyTy)]])
                       st1 i o)
            as (E & st' & Hrun & HAt & Hst & Hacc & Hregs)
      end.
      { split; [reflexivity | split; [solve_forall | cbn [NextId]; lia]]. }
      eexists (_ :: E), st'. unfold pointBefore in Hrun.
      split; [| split; [| split; [| split]]].
      2: { rewrite <- app_assoc in HAt. exact HAt. }
      * exact Hrun.
      * change (?x :: E) with ([x] ++ E). rewrite countOpcode_app, Hst.
        reflexivity.
      * change (?x :: E) with ([x] ++ E). rewrite accesses_app, Hacc.
        reflexivity.
      * change (?x :: E) with ([x] ++ E). rewrite firstRegs_app, Hregs.
        reflexivity.
    + run_builder. rewrite HI.
      rewrite !insertBefore_at by (solve_forall || reflexivity).
      match goal with
      | |- context [memmoveStoreLoop ?pt ?s ?p ?m rest ?lv ?i ?o ?st1] =>
          destruct (IH (((acc ++ [mkMI (NextId st) G_CONSTANT
                                    [def (index2VirtReg (NumVirtRegs st));
                                     MO_CImmediate CurrOffset] (Parent MI) []])
                           ++ [mkMI (NextId st + 1) G_PTR_ADD
                                 [def (index2VirtReg (NumVirtRegs st + 1));
                                  use Dst;
                                  use (index2VirtReg (NumVirtRegs st))]
                                 (Parent MI) []])
                          ++ [mkMI (NextId st + 1 + 1) G_STORE
                                [use (nth I LoadVals NoRegister);
                                 use (index2VirtReg (NumVirtRegs st + 1))]
                                (Parent MI)
                                [getMachineMemOperand DstMMO CurrOffset
                                   (LLTOps.getSizeInBytes CopyTy)]])
                       st1 i o)
            as (E & st' & Hrun & HAt & Hst & Hacc & Hregs)
      end.
      { split; [reflexivity | split; [solve_forall | cbn [NextId]; lia]]. }
      eexists (_ :: _ :: _ :: E), st'. unfold pointBefore in Hrun.
      split; [| split; [| split; [| split]]].
      2: { rewrite <- !app_assoc in HAt. exact HAt. }
      * exact Hrun.
      * change (?x :: ?y :: ?z :: E) with ([x; y; z] ++ E).
        rewrite countOpcode_app, Hst. reflexivity.
      * change (?x :: ?y :: ?z :: E) with ([x; y; z] ++ E).
        rewrite accesses_app, Hacc. reflexivity.
      * change (?x :: ?y :: ?z :: E) with ([x; y; z] ++ E).
        rewrite firstRegs_app, Hregs. reflexivity.
Qed.

End MemmoveEmission.

Lemma raiseDstAlign_keeps_graph :
  forall getABITypeAlign exceedsNaturalStackAlignment needsStackRealignment
         Realign FIDef Ty0 Alignment st a st1,
    raiseDstAlign getABITypeAlign exceedsNaturalStackAlignment
                  needsStackRealignment Realign FIDef Ty0 Alignment st
    = Some (a, st1) ->
    Insts st1 = Insts st /\ NextId st1 = NextId st
    /\ RegTypes st1 = RegTypes st /\ NumVirtRegs st1 = NumVirtRegs st.
Proof.
  intros abi exceeds realign Realign FIDef Ty0 Alignment st a st1 H.
  unfold raiseDstAlign in H.
  match type of H with
  | (if ?c then _ else _) _ = _ => destruct c
  end.
  - destruct FIDef as [d|]; [|discriminate].
    unfold bind, getState in H.
    match type of H with
    | context [if ?c then _ else _] => destruct c
    end; unfold setObjectAlignment, ret in H; inversion H; subst;
      cbn [Insts NextId RegTypes NumVirtRegs]; auto.
  - unfold ret in H. inversion H; subst. auto.
Qed.

Lemma nth_seq_self {A : Type} (d : A) (l : list A) :
  forall p, map (fun j => nth j (p ++ l) d) (seq (length p) (length l)) = l.
Proof.
  induction l as [|x l IH]; intro p; cbn [length seq map]; [reflexivity|].
  rewrite app_nth2 by lia. rewrite Nat.sub_diag. cbn [nth]. f_equal.
  specialize (IH (p ++ [x])). rewrite length_app in IH. cbn [length] in IH.
  rewrite Nat.add_1_r in IH. rewrite <- app_assoc in IH. exact IH.
Qed.



Lemma chunksAt_length (Base : MachineMemOperand) (MemOps : list LLT) :
  forall off, length (chunksAt Base MemOps (memmoveOffsets MemOps off))
              = length MemOps.
Proof.
  unfold chunksAt. induction MemOps as [|t l IH]; intro off;
    cbn [memmoveOffsets combine map length]; [reflexivity|].
  f_equal. apply IH.
Qed.

(** What a successful memmove lowering leaves in place of the
    [G_MEMMOVE]: the instructions of the load loop, then those of the
    store loop. *)
Lemma optimizeMemmove_emits :
  forall (TLI : TargetLowering)
         (getOpcodeDef :
            MachineRegisterInfo -> Opcode -> Register -> option MachineInstr)
         (isOSDarwin hasMinSize hasOptSize : bool)
         (isFixedObjectIndex : Z -> bool) (getABITypeAlign : LLT -> Align)
         (exceedsNaturalStackAlignment : Align -> bool)
         (needsStackRealignment : bool) (fuel : nat)
         (MI : MachineInstr) (Dst Src : Register) (KnownLen : Z)
         (DstAlign SrcAlign : Align) (IsVolatile : bool)
         (st st' : CombinerState) (pre post : list MachineInstr),
    Insts st = pre ++ MI :: post ->
    Forall (fun i => Id i <> Id MI) (pre ++ post) ->
    Id MI < NextId st ->
    optimizeMemmove TLI getOpcodeDef isOSDarwin hasMinSize hasOptSize
                    isFixedObjectIndex getABITypeAlign
                    exceedsNaturalStackAlignment needsStackRealignment fuel
                    MI Dst Src KnownLen DstAlign SrcAlign IsVolatile st
    = Some (true, st') ->
    exists (MemOps : list LLT) (loads stores : list MachineInstr),
      memmovePlan TLI getOpcodeDef isOSDarwin hasMinSize hasOptSize
                  isFixedObjectIndex fuel st MI Dst KnownLen DstAlign SrcAlign
      = Some (true, MemOps)
      /\ Insts st' = pre ++ (loads ++ stores) ++ post
      /\ countOpcode G_STORE loads = 0%nat
      /\ countOpcode G_LOAD stores = 0%nat
      /\ accesses G_LOAD loads
         = chunksAt (secondMMO MI) MemOps (memmoveOffsets MemOps 0)
      /\ accesses G_STORE stores
         = chunksAt (firstMMO MI) MemOps (memmoveOffsets MemOps 0)
      /\ firstRegs G_STORE stores = firstRegs G_LOAD loads.
Proof.
  intros TLI god dar mins opts fixed abi exceeds realign fuel MI Dst Src
         KnownLen DstAlign SrcAlign IsVolatile st st' pre post HI HF HN H.
  apply Forall_app in HF. destruct HF as [Fpre Fpost].
  unfold optimizeMemmove, bind, getState in H.
  destruct (frameIndexDef god fixed st Dst) as [FIDef CanChange] eqn:EFI.
  destruct (memmovePlan TLI god dar mins opts fixed fuel st MI Dst KnownLen
                        DstAlign SrcAlign) as [[[|] MemOps]|] eqn:EP;
    [| unfold ret in H; discriminate H | discriminate H].
  exists MemOps.
  match type of H with
  | match ?m st with _ => _ end = _ => destruct (m st) as [[a st1]|] eqn:ER
  end; [|discriminate H].
  assert (K : Insts st1 = Insts st /\ NextId st1 = NextId st).
  { destruct CanChange.
    - apply raiseDstAlign_keeps_graph in ER. tauto.
    - unfold ret in ER. inversion ER; subst. auto. }
  destruct K as [KI KN].
  destruct (memmoveLoadLoop_emits MI post (stateType st Src) Src (secondMMO MI)
              MemOps pre st1 0 [])
    as (loads & st2 & Hload & (HI2 & HF2 & HN2) & Hnostore & Hlacc).
  { rewrite KI, KN. auto. }
  rewrite Hload in H. cbn [app] in H.
  destruct (memmoveStoreLoop_emits MI post (stateType st Src) Dst (firstMMO MI)
              (firstRegs G_LOAD loads) MemOps (pre ++ loads) st2 0%nat 0)
    as (stores & st3 & Hstore & (HI3 & HF3 & HN3) & Hnoload & Hsacc & Hregs).
  { auto. }
  rewrite Hstore in H.
  unfold eraseFromParent, ret, setInsts in H. inversion H; subst st'.
  exists loads, stores. cbn [Insts]. rewrite HI3.
  rewrite erase_at by (auto || reflexivity).
  split; [reflexivity|].
  split; [rewrite <- !app_assoc; reflexivity|].
  split; [exact Hnostore|]. split; [exact Hnoload|].
  split; [exact Hlacc|]. split; [exact Hsacc|].
  rewrite Hregs.
  assert (Hlen : length (firstRegs G_LOAD loads) = length MemOps).
  { unfold firstRegs. rewrite length_map.
    pose proof (f_equal (@length _) Hlacc) as HL.
    unfold accesses in HL. rewrite length_map in HL.
    rewrite chunksAt_length in HL. exact HL. }
  rewrite <- Hlen.
  exact (nth_seq_self NoRegister (firstRegs G_LOAD loads) []).
Qed.

(* ------------------------------------------------------------------ *)
(** ** What the lowerings emit *)

Lemma find_first {A : Type} (f : A -> bool) (l1 l2 : list A) (x : A) :
  Forall (fun y => f y = false) l1 -> f x = true ->
  find f (l1 ++ x :: l2) = Some x.
Proof.
  intros F Hx. induction F as [|y l1 Hy F IH]; cbn [app find].
  - rewrite Hx. reflexivity.
  - rewrite Hy. exact IH.
Qed.

Lemma reachIn_app (T : list MachineInstr) (O : Opcode) (Base : Register)
      (a b : list MachineInstr) :
  reachIn T O Base (a ++ b) = reachIn T O Base a ++ reachIn T O Base b.
Proof. unfold reachIn. rewrite filter_app, map_app. reflexivity. Qed.

Lemma reachIn_none (T : list MachineInstr) (O : Opcode) (Base : Register)
      (E : list MachineInstr) :
  Forall (fun i => Opc i <> O) E -> reachIn T O Base E = [].
Proof.
  intro F. unfold reachIn.
  induction F as [|x l Hx F IH]; cbn [filter map]; [reflexivity|].
  unfold opc_eqb. destruct (Opcode_eq_dec (Opc x) O); [contradiction|].
  exact IH.
Qed.

Lemma accesses_none_of (O : Opcode) (E : list MachineInstr) :
  Forall (fun i => Opc i <> O) E -> accesses O E = [].
Proof.
  intro F. unfold accesses.
  induction F as [|x l Hx F IH]; cbn [filter map]; [reflexivity|].
  unfold opc_eqb. destruct (Opcode_eq_dec (Opc x) O); [contradiction|].
  exact IH.
Qed.

(** The pointer [G_PTR_ADD Base, c], with [c] the constant [off]: the
    first definitions of [p] and of [c] in [T] are these two. *)
Lemma pointerOffset_chain (acc mid S : list MachineInstr)
      (C P : MachineInstr) (Base c p off : Register) :
  Forall (fun i => definesReg c i = false) acc ->
  Forall (fun i => definesReg p i = false) (acc ++ C :: mid) ->
  p <> Base ->
  Opc C = G_CONSTANT -> Operands C = [def c; MO_CImmediate off] ->
  Opc P = G_PTR_ADD -> Operands P = [def p; use Base; use c] ->
  pointerOffset (acc ++ C :: mid ++ P :: S) Base p = Some off.
Proof.
  intros Fc Fp NE OC OpsC OP OpsP. unfold pointerOffset.
  rewrite (proj2 (Z.eqb_neq _ _) NE).
  assert (DP : definesReg p P = true).
  { unfold definesReg. rewrite OpsP. cbn. rewrite Z.eqb_refl. reflexivity. }
  assert (DC : definesReg c C = true).
  { unfold definesReg. rewrite OpsC. cbn. rewrite Z.eqb_refl. reflexivity. }
  replace (acc ++ C :: mid ++ P :: S) with ((acc ++ C :: mid) ++ P :: S)
    by (rewrite <- app_assoc; reflexivity).
  rewrite (find_first _ _ _ _ Fp DP).
  rewrite OP. unfold getOperand. rewrite OpsP. cbn [nth getReg use].
  change (opc_eqb G_PTR_ADD G_PTR_ADD) with true. rewrite Z.eqb_refl.
  cbn [andb].
  rewrite <- app_assoc. cbn [app].
  rewrite (find_first _ _ _ _ Fc DC).
  rewrite OC, OpsC. reflexivity.
Qed.

Section Emission.

Variable MI : MachineInstr.
Variables pre post : list MachineInstr.
(** The first unused instruction identity and register index when the
    lowering starts. *)
Variables n0 k0 : Z.

Let At := emittedAt MI pre post n0 k0.
Let emits {A : Type} := @emitsAfter A MI pre post n0 k0.
Let fresh := freshIn k0.
Let quiet := quietList.

Lemma emits_ret {A : Type} (acc : list MachineInstr) (a : A)
      (Q : A -> list MachineInstr -> Prop) :
  Q a [] -> emits acc (ret a) Q.
Proof.
  intros HQ st a' st' HA H. unfold ret in H. inversion H; subst.
  exists []. rewrite app_nil_r. auto.
Qed.

Lemma emits_bind {A B : Type} (acc : list MachineInstr) (m : M A)
      (k : A -> M B) (Q1 : A -> list MachineInstr -> Prop)
      (Q : B -> list MachineInstr -> Prop) :
  emits acc m Q1 ->
  (forall a E1, Q1 a E1 ->
                emits (acc ++ E1) (k a) (fun b E2 => Q b (E1 ++ E2))) ->
  emits acc (bind m k) Q.
Proof.
  intros Hm Hk st b st' HA H. unfold bind in H.
  destruct (m st) as [[a st1]|] eqn:Em; [|discriminate].
  destruct (Hm st a st1 HA Em) as (E1 & HA1 & HQ1).
  destruct (Hk a E1 HQ1 st1 b st' HA1 H) as (E2 & HA2 & HQ2).
  exists (E1 ++ E2). rewrite app_assoc. auto.
Qed.

Lemma emits_conseq {A : Type} (acc : list MachineInstr) (m : M A)
      (Q1 Q : A -> list MachineInstr -> Prop) :
  emits acc m Q1 -> (forall a E, Q1 a E -> Q a E) -> emits acc m Q.
Proof.
  intros Hm HQ st a st' HA H.
  destruct (Hm st a st' HA H) as (E & HA' & HQ1). eauto.
Qed.

Lemma emits_state {B : Type} (acc : list MachineInstr)
      (k : CombinerState -> M B) (Q : B -> list MachineInstr -> Prop) :
  (forall s, emits acc (k s) Q) -> emits acc (bind getState k) Q.
Proof.
  intros Hk st b st' HA H. unfold bind, getState in H.
  exact (Hk st st b st' HA H).
Qed.

Lemma definesReg_def (r r' : Register) (n : Z) (O : Opcode)
      (rest : list MachineOperand) (bb : Z) (MMOs : list MachineMemOperand) :
  Forall (fun MO => isDef MO = false) rest ->
  definesReg r (mkMI n O (def r' :: rest) bb MMOs) = (r' =? r).
Proof.
  intro F. unfold definesReg. cbn [Operands existsb def isDef getReg andb].
  assert (E : existsb (fun MO => isDef MO && (getReg MO =? r)) rest = false).
  { induction F as [|x l Hx F IH]; cbn [existsb]; [reflexivity|].
    rewrite Hx, IH. reflexivity. }
  rewrite E. apply orb_false_r.
Qed.

Lemma definesReg_nodef (r : Register) (n : Z) (O : Opcode)
      (ops : list MachineOperand) (bb : Z) (MMOs : list MachineMemOperand) :
  Forall (fun MO => isDef MO = false) ops ->
  definesReg r (mkMI n O ops bb MMOs) = false.
Proof.
  intro F. unfold definesReg. cbn [Operands].
  induction F as [|x l Hx F IH]; cbn [existsb]; [reflexivity|].
  rewrite Hx, IH. reflexivity.
Qed.

(** A builder call that creates a register and defines it by one
    instruction. *)
Lemma emits_def {A : Type} (acc : list MachineInstr) (Ty : LLT) (O : Opcode)
      (rest : list MachineOperand) (MMOs : list MachineMemOperand)
      (k : Register -> A) :
  Forall (fun MO => isDef MO = false) rest ->
  emits acc
        (r <- createGenericVirtualRegister Ty ;;
         _ <- insertInstr (pointBefore MI) O (def r :: rest) MMOs ;;
         ret (k r))
        (fun a E => exists r n,
             a = k r
             /\ E = [mkMI n O (def r :: rest) (Parent MI) MMOs]
             /\ fresh acc r).
Proof.
  intros HR st a st' (HI & HF & HN & Hn0 & Hids & Hk0 & Hdefs) H.
  unfold bind, createGenericVirtualRegister, insertInstr, pointBefore, ret
    in H.
  cbn [fst snd Insts RegTypes NumVirtRegs NextId InsertBB InsertPt
       ObjectAligns Log] in H.
  inversion H; subst a st'; clear H.
  set (r := index2VirtReg (NumVirtRegs st)).
  set (New := mkMI (NextId st) O (def r :: rest) (Parent MI) MMOs).
  exists [New]. split.
  - unfold At, emittedAt. cbn [Insts NextId NumVirtRegs]. rewrite HI.
    replace (pre ++ acc ++ MI :: post) with ((pre ++ acc) ++ MI :: post)
      by (rewrite <- app_assoc; reflexivity).
    rewrite insertBefore_at by (assumption || reflexivity).
    split; [rewrite <- !app_assoc; reflexivity|].
    split.
    { rewrite app_assoc. apply Forall_app. split; [assumption|].
      constructor; [cbn [Id New]; lia | constructor]. }
    split; [lia|]. split; [lia|].
    split.
    { apply Forall_app. split; [assumption|].
      constructor; [cbn [Id New]; lia | constructor]. }
    split; [lia|].
    apply Forall_app. split.
    + eapply Forall_impl; [| exact Hdefs]. intros i Hi.
      eapply Forall_impl; [| exact Hi]. intros MO HMO Hd.
      specialize (HMO Hd). unfold index2VirtReg in *. lia.
    + constructor; [| constructor]. cbn [Operands New].
      constructor.
      * intros _. cbn [getReg def]. unfold r, index2VirtReg. lia.
      * eapply Forall_impl; [| exact HR]. intros MO HMO Hd.
        rewrite HMO in Hd. discriminate.
  - exists r, (NextId st). split; [reflexivity|]. split; [reflexivity|].
    split; [unfold r, index2VirtReg; lia|].
    eapply Forall_impl; [| exact Hdefs]. intros i Hi.
    unfold definesReg. apply not_true_is_false. intro Hex.
    apply existsb_exists in Hex. destruct Hex as (MO & HIn & HMO).
    apply andb_prop in HMO. destruct HMO as [Hd Heq].
    apply Z.eqb_eq in Heq.
    pose proof (proj1 (Forall_forall _ _) Hi MO HIn Hd) as HB.
    unfold r in Heq. rewrite Heq in HB. lia.
Qed.

(** A builder call that adds one instruction without a definition. *)
Lemma emits_nodef (acc : list MachineInstr) (O : Opcode)
      (ops : list MachineOperand) (MMOs : list MachineMemOperand) :
  Forall (fun MO => isDef MO = false) ops ->
  emits acc
        (_ <- insertInstr (pointBefore MI) O ops MMOs ;; ret tt)
        (fun _ E => exists n, E = [mkMI n O ops (Parent MI) MMOs]).
Proof.
  intros HR st a st' (HI & HF & HN & Hn0 & Hids & Hk0 & Hdefs) H.
  unfold bind, insertInstr, pointBefore, ret in H.
  cbn [fst snd] in H. inversion H; subst a st'; clear H.
  set (New := mkMI (NextId st) O ops (Parent MI) MMOs).
  exists [New]. split; [| exists (NextId st); reflexivity].
  unfold At, emittedAt. cbn [Insts NextId NumVirtRegs]. rewrite HI.
  replace (pre ++ acc ++ MI :: post) with ((pre ++ acc) ++ MI :: post)
    by (rewrite <- app_assoc; reflexivity).
  rewrite insertBefore_at by (assumption || reflexivity).
  split; [rewrite <- !app_assoc; reflexivity|].
  split.
  { rewrite app_assoc. apply Forall_app. split; [assumption|].
    constructor; [cbn [Id New]; lia | constructor]. }
  split; [lia|]. split; [lia|].
  split.
  { apply Forall_app. split; [assumption|].
    constructor; [cbn [Id New]; lia | constructor]. }
  split; [lia|].
  apply Forall_app. split; [assumption|].
  constructor; [| constructor]. cbn [Operands New].
  eapply Forall_impl; [| exact HR]. intros MO HMO Hd.
  rewrite HMO in Hd. discriminate.
Qed.

Lemma reachIn_one (T : list MachineInstr) (O : Opcode) (Base : Register)
      (A : MachineInstr) (off : Z) :
  Opc A = O ->
  pointerOffset T Base (getReg (getOperand A 1)) = Some off ->
  reachIn T O Base [A] = [Some (MMO_Size (firstMMO A), off)].
Proof.
  intros HO HP. unfold reachIn. cbn [filter]. unfold opc_eqb.
  destruct (Opcode_eq_dec (Opc A) O); [| contradiction].
  cbn [map]. rewrite HP. reflexivity.
Qed.

Lemma reachIn_cons_other (T : list MachineInstr) (O : Opcode)
      (Base : Register) (A : MachineInstr) (E : list MachineInstr) :
  Opc A <> O -> reachIn T O Base (A :: E) = reachIn T O Base E.
Proof.
  intros HO. unfold reachIn. cbn [filter]. unfold opc_eqb.
  destruct (Opcode_eq_dec (Opc A) O); [contradiction | reflexivity].
Qed.

Lemma reachIn_cons_one (T : list MachineInstr) (O : Opcode)
      (Base : Register) (A : MachineInstr) (E : list MachineInstr)
      (off : Z) :
  Opc A = O ->
  pointerOffset T Base (getReg (getOperand A 1)) = Some off ->
  reachIn T O Base (A :: E)
  = Some (MMO_Size (firstMMO A), off) :: reachIn T O Base E.
Proof.
  intros HO HP. change (A :: E) with ([A] ++ E).
  rewrite reachIn_app, (reachIn_one _ _ _ _ _ HO HP). reflexivity.
Qed.

Lemma pointerOffset_base (T : list MachineInstr) (Base : Register) :
  pointerOffset T Base Base = Some 0.
Proof. unfold pointerOffset. rewrite Z.eqb_refl. reflexivity. Qed.

Lemma emits_buildConstant (acc : list MachineInstr) (Ty : LLT) (Val : Z) :
  emits acc (buildConstant (pointBefore MI) Ty Val)
        (fun c E => exists n,
             E = [mkMI n G_CONSTANT [def c; MO_CImmediate Val]
                       (Parent MI) []]
             /\ fresh acc c).
Proof.
  unfold buildConstant.
  eapply emits_conseq.
  - apply (emits_def acc Ty G_CONSTANT [MO_CImmediate Val] []
                     (fun r => r)).
    repeat constructor.
  - intros a E (r & n & -> & -> & Hf). exists n. auto.
Qed.

Lemma emits_buildBinOp (acc : list MachineInstr) (O : Opcode) (Ty : LLT)
      (x y : Register) :
  emits acc (buildBinOp (pointBefore MI) O Ty x y)
        (fun r E => exists n,
             E = [mkMI n O [def r; use x; use y] (Parent MI) []]
             /\ fresh acc r).
Proof.
  unfold buildBinOp.
  eapply emits_conseq.
  - apply (emits_def acc Ty O [use x; use y] [] (fun r => r)).
    repeat constructor.
  - intros a E (r & n & -> & -> & Hf). exists n. auto.
Qed.

Lemma emits_buildUnOp (acc : list MachineInstr) (O : Opcode) (Ty : LLT)
      (x : Register) :
  emits acc (buildUnOp (pointBefore MI) O Ty x)
        (fun r E => exists n,
             E = [mkMI n O [def r; use x] (Parent MI) []]
             /\ fresh acc r).
Proof.
  unfold buildUnOp.
  eapply emits_conseq.
  - apply (emits_def acc Ty O [use x] [] (fun r => r)).
    repeat constructor.
  - intros a E (r & n & -> & -> & Hf). exists n. auto.
Qed.

Lemma emits_buildLoad (acc : list MachineInstr) (Ty : LLT)
      (Addr : Register) (MMO : MachineMemOperand) :
  emits acc (buildLoad (pointBefore MI) Ty Addr MMO)
        (fun r E => exists n,
             E = [mkMI n G_LOAD [def r; use Addr] (Parent MI) [MMO]]
             /\ fresh acc r).
Proof.
  unfold buildLoad.
  eapply emits_conseq.
  - apply (emits_def acc Ty G_LOAD [use Addr] [MMO] (fun r => r)).
    repeat constructor.
  - intros a E (r & n & -> & -> & Hf). exists n. auto.
Qed.

Lemma emits_buildStore (acc : list MachineInstr) (V P : Register)
      (MMO : MachineMemOperand) :
  emits acc (buildStore (pointBefore MI) V P MMO)
        (fun _ E => exists n,
             E = [mkMI n G_STORE [use V; use P] (Parent MI) [MMO]]).
Proof.
  unfold buildStore. apply emits_nodef. repeat constructor.
Qed.

(** The pointer to a chunk away from the start, lines 1362-1367 and
    the like. *)
Lemma emits_offsetPointer (acc : list MachineInstr) (PtrTy : LLT)
      (Base : Register) (Off : Z) :
  emits acc
        (Offset <- buildConstant (pointBefore MI)
                     (LLT_scalar (LLTOps.getSizeInBits PtrTy)) Off ;;
         buildBinOp (pointBefore MI) G_PTR_ADD PtrTy Base Offset)
        (fun p E => exists c n1 n2,
             E = [mkMI n1 G_CONSTANT [def c; MO_CImmediate Off]
                       (Parent MI) [];
                  mkMI n2 G_PTR_ADD [def p; use Base; use c]
                       (Parent MI) []]
             /\ fresh acc c
             /\ fresh (acc ++ [mkMI n1 G_CONSTANT [def c; MO_CImmediate Off]
                                    (Parent MI) []]) p).
Proof.
  eapply emits_bind; [apply emits_buildConstant|].
  intros c E1 (n1 & -> & Hc).
  eapply emits_conseq; [apply emits_buildBinOp|].
  intros p E2 (n2 & -> & Hp). exists c, n1, n2. auto.
Qed.

(** The offset pointer resolves to its offset however the list goes
    on. *)
Lemma offsetPointer_resolves (acc mid S : list MachineInstr)
      (Base c p Off n1 n2 : Z) :
  Base < index2VirtReg k0 ->
  fresh acc c ->
  fresh (acc ++ mkMI n1 G_CONSTANT [def c; MO_CImmediate Off] (Parent MI) []
             :: mid) p ->
  pointerOffset
    (acc ++ mkMI n1 G_CONSTANT [def c; MO_CImmediate Off] (Parent MI) []
         :: mid ++ mkMI n2 G_PTR_ADD [def p; use Base; use c] (Parent MI) []
         :: S)
    Base p
  = Some Off.
Proof.
  intros HB [_ Fc] [Hp Fp].
  apply (pointerOffset_chain acc mid S _ _ Base c p Off); auto.
  unfold Register in *. lia.
Qed.

Ltac norm_lists_in H :=
  repeat rewrite app_nil_r in H; repeat rewrite <- app_assoc in H;
  cbn [app] in H.
Ltac norm_lists :=
  repeat rewrite app_nil_r; repeat rewrite <- app_assoc; cbn [app].

Lemma memmoveLoadLoop_reach (Src : Register) (PtrTy : LLT)
      (SrcMMO : MachineMemOperand) (MemOps : list LLT) :
  forall acc CurrOffset LoadVals,
    emits acc
          (memmoveLoadLoop (pointBefore MI) Src PtrTy SrcMMO MemOps
                           CurrOffset LoadVals)
          (fun _ E =>
             Forall (fun i => Opc i <> G_STORE) E
             /\ (Src < index2VirtReg k0 ->
                 forall S,
                   reachIn (acc ++ E ++ S) G_LOAD Src E
                   = map Some (chunksFrom MemOps
                                 (memmoveOffsets MemOps CurrOffset)))).
Proof.
  induction MemOps as [|CopyTy rest IH]; intros acc CurrOffset LoadVals.
  - cbn [memmoveLoadLoop]. apply emits_ret. split; [constructor|].
    intros HB S. reflexivity.
  - cbn [memmoveLoadLoop memmoveOffsets]. cbv zeta.
    destruct (CurrOffset =? 0) eqn:E0; cbn [negb].
    + apply Z.eqb_eq in E0. subst CurrOffset.
      eapply emits_bind;
        [apply (emits_ret acc Src (fun a E => a = Src /\ E = []));
         split; reflexivity|].
      intros a E1 [-> ->].
      eapply emits_bind; [apply emits_buildLoad|].
      intros v E2 (n & -> & Hv).
      eapply emits_conseq; [apply IH|].
      intros a E3 (Hns & Hr). cbn [app].
      split; [constructor; [cbn [Opc]; discriminate | exact Hns]|].
      intros HB S. specialize (Hr HB S).
      norm_lists_in Hr. norm_lists.
      erewrite reachIn_cons_one;
        [| reflexivity | cbn [getOperand Operands nth getReg use];
                         apply pointerOffset_base].
      rewrite Hr. reflexivity.
    + apply Z.eqb_neq in E0.
      eapply emits_bind; [apply emits_offsetPointer|].
      intros p E1 (c & n1 & n2 & -> & Hc & Hp).
      eapply emits_bind; [apply emits_buildLoad|].
      intros v E2 (n & -> & Hv).
      eapply emits_conseq; [apply IH|].
      intros a E3 (Hns & Hr). cbn [app].
      split; [repeat (constructor; [cbn [Opc]; discriminate|]); exact Hns|].
      intros HB S. specialize (Hr HB S).
      norm_lists_in Hr. norm_lists.
      rewrite reachIn_cons_other by (cbn [Opc]; discriminate).
      rewrite reachIn_cons_other by (cbn [Opc]; discriminate).
      erewrite reachIn_cons_one;
        [| reflexivity
         | cbn [getOperand Operands nth getReg use];
           apply (offsetPointer_resolves acc [] _ Src c p CurrOffset n1 n2
                    HB Hc Hp)].
      rewrite Hr. reflexivity.
Qed.

Lemma memmoveStoreLoop_reach (Dst : Register) (PtrTy : LLT)
      (DstMMO : MachineMemOperand) (LoadVals : list Register)
      (MemOps : list LLT) :
  forall acc I CurrOffset,
    emits acc
          (memmoveStoreLoop (pointBefore MI) Dst PtrTy DstMMO MemOps
                            LoadVals I CurrOffset)
          (fun _ E =>
             Forall (fun i => Opc i <> G_LOAD) E
             /\ (Dst < index2VirtReg k0 ->
                 forall S,
                   reachIn (acc ++ E ++ S) G_STORE Dst E
                   = map Some (chunksFrom MemOps
                                 (memmoveOffsets MemOps CurrOffset)))).
Proof.
  induction MemOps as [|CopyTy rest IH]; intros acc I CurrOffset.
  - cbn [memmoveStoreLoop]. apply emits_ret. split; [constructor|].
    intros HB S. reflexivity.
  - cbn [memmoveStoreLoop memmoveOffsets]. cbv zeta.
    destruct (CurrOffset =? 0) eqn:E0; cbn [negb].
    + apply Z.eqb_eq in E0. subst CurrOffset.
      eapply emits_bind;
        [apply (emits_ret acc Dst (fun a E => a = Dst /\ E = []));
         split; reflexivity|].
      intros a E1 [-> ->].
      eapply emits_bind; [apply emits_buildStore|].
      intros [] E2 (n & ->).
      eapply emits_conseq; [apply IH|].
      intros a E3 (Hns & Hr). cbn [app].
      split; [constructor; [cbn [Opc]; discriminate | exact Hns]|].
      intros HB S. specialize (Hr HB S).
      norm_lists_in Hr. norm_lists.
      erewrite reachIn_cons_one;
        [| reflexivity | cbn [getOperand Operands nth getReg use];
                         apply pointerOffset_base].
      rewrite Hr. reflexivity.
    + apply Z.eqb_neq in E0.
      eapply emits_bind; [apply emits_offsetPointer|].
      intros p E1 (c & n1 & n2 & -> & Hc & Hp).
      eapply emits_bind; [apply emits_buildStore|].
      intros [] E2 (n & ->).
      eapply emits_conseq; [apply IH|].
      intros a E3 (Hns & Hr). cbn [app].
      split; [repeat (constructor; [cbn [Opc]; discriminate|]); exact Hns|].
      intros HB S. specialize (Hr HB S).
      norm_lists_in Hr. norm_lists.
      rewrite reachIn_cons_other by (cbn [Opc]; discriminate).
      rewrite reachIn_cons_other by (cbn [Opc]; discriminate).
      erewrite reachIn_cons_one;
        [| reflexivity
         | cbn [getOperand Operands nth getReg use];
           apply (offsetPointer_resolves acc [] _ Dst c p CurrOffset n1 n2
                    HB Hc Hp)].
      rewrite Hr. reflexivity.
Qed.

Lemma fresh_snoc (acc : list MachineInstr) (x : MachineInstr)
      (r : Register) :
  fresh (acc ++ [x]) r -> fresh acc r.
Proof.
  intros [H1 H2]. split; [exact H1|].
  apply Forall_app in H2. tauto.
Qed.

Lemma pointerOffset_base_at (T : list MachineInstr) (Base Off : Z) :
  Off = 0 -> pointerOffset T Base Base = Some Off.
Proof. intros ->. apply pointerOffset_base. Qed.

(** Lines 1262-1268: the offset constant and the load pointer. *)
Lemma emits_copyPointers (acc : list MachineInstr) (PtrTy : LLT)
      (Src : Register) (Off : Z) :
  emits acc
        (Offset <- buildConstant (pointBefore MI)
                     (LLT_scalar (LLTOps.getSizeInBits PtrTy)) Off ;;
         LoadPtr <- buildBinOp (pointBefore MI) G_PTR_ADD PtrTy Src Offset ;;
         ret (LoadPtr, Offset))
        (fun po E => exists n1 n2,
             E = [mkMI n1 G_CONSTANT [def (snd po); MO_CImmediate Off]
                       (Parent MI) [];
                  mkMI n2 G_PTR_ADD [def (fst po); use Src; use (snd po)]
                       (Parent MI) []]
             /\ fresh acc (snd po)
             /\ fresh (acc ++ [mkMI n1 G_CONSTANT
                                    [def (snd po); MO_CImmediate Off]
                                    (Parent MI) []]) (fst po)).
Proof.
  eapply emits_bind; [apply emits_buildConstant|].
  intros c E1 (n1 & -> & Hc).
  eapply emits_bind; [apply emits_buildBinOp|].
  intros p E2 (n2 & -> & Hp).
  apply emits_ret. cbn [app fst snd]. exists n1, n2. auto.
Qed.

Lemma fresh_app_l (acc E : list MachineInstr) (r : Register) :
  fresh (acc ++ E) r -> fresh acc r.
Proof.
  intros [H1 H2]. split; [exact H1|].
  apply Forall_app in H2. tauto.
Qed.

Lemma memcpyLoop_reach (Dst Src : Register) (PtrTy : LLT)
      (DstMMO SrcMMO : MachineMemOperand) (MemOps : list LLT) :
  forall acc CurrOffset Size,
    emits acc
          (memcpyLoop (pointBefore MI) Dst Src PtrTy DstMMO SrcMMO MemOps
                      CurrOffset Size)
          (fun _ E =>
             Dst < index2VirtReg k0 -> Src < index2VirtReg k0 ->
             forall S,
               reachIn (acc ++ E ++ S) G_LOAD Src E
               = map Some (chunksFrom MemOps
                             (memcpyOffsets MemOps CurrOffset Size))
               /\ reachIn (acc ++ E ++ S) G_STORE Dst E
                  = map Some (chunksFrom MemOps
                                (memcpyOffsets MemOps CurrOffset Size))).
Proof.
  induction MemOps as [|CopyTy rest IH]; intros acc CurrOffset Size.
  - cbn [memcpyLoop]. apply emits_ret. intros HD HS S. split; reflexivity.
  - cbn [memcpyLoop memcpyOffsets]. cbv zeta.
    set (Off := if LLTOps.getSizeInBytes CopyTy >? Size
                then u32 (CurrOffset - u32 (LLTOps.getSizeInBytes CopyTy - Size))
                else CurrOffset).
    destruct (Off =? 0) eqn:E0; cbn [negb].
    + apply Z.eqb_eq in E0.
      eapply emits_bind;
        [apply (emits_ret acc (Src, NoRegister)
                  (fun a E => a = (Src, NoRegister) /\ E = []));
         split; reflexivity|].
      intros a E1 [-> ->]. cbn [fst snd].
      eapply emits_bind; [apply emits_buildLoad|].
      intros v E2 (n & -> & Hv).
      eapply emits_bind;
        [apply (emits_ret _ Dst (fun a E => a = Dst /\ E = []));
         split; reflexivity|].
      intros a E3 [-> ->].
      eapply emits_bind; [apply emits_buildStore|].
      intros [] E4 (m & ->).
      eapply emits_conseq; [apply IH|].
      intros a E5 Hr HD HS S. specialize (Hr HD HS S).
      destruct Hr as [Hl Hs].
      norm_lists_in Hl. norm_lists_in Hs. norm_lists.
      split.
      * erewrite reachIn_cons_one;
          [| reflexivity | cbn [getOperand Operands nth getReg use];
                           apply pointerOffset_base_at; exact E0].
        rewrite reachIn_cons_other by (cbn [Opc]; discriminate).
        rewrite Hl. reflexivity.
      * rewrite reachIn_cons_other by (cbn [Opc]; discriminate).
        erewrite reachIn_cons_one;
          [| reflexivity | cbn [getOperand Operands nth getReg use];
                           apply pointerOffset_base_at; exact E0].
        rewrite Hs. reflexivity.
    + apply Z.eqb_neq in E0.
      eapply emits_bind; [apply emits_copyPointers|].
      intros [p c] E1 (n1 & n2 & -> & Hc & Hp). cbn [fst snd] in *.
      eapply emits_bind; [apply emits_buildLoad|].
      intros v E2 (n & -> & Hv).
      eapply emits_bind; [apply emits_buildBinOp|].
      intros q E3 (n3 & -> & Hq).
      eapply emits_bind; [apply emits_buildStore|].
      intros [] E4 (m & ->).
      eapply emits_conseq; [apply IH|].
      intros a E5 Hr HD HS S. specialize (Hr HD HS S).
      destruct Hr as [Hl Hs].
      norm_lists_in Hl. norm_lists_in Hs. norm_lists.
      norm_lists_in Hq.
      split.
      * rewrite reachIn_cons_other by (cbn [Opc]; discriminate).
        rewrite reachIn_cons_other by (cbn [Opc]; discriminate).
        erewrite reachIn_cons_one;
          [| reflexivity
           | cbn [getOperand Operands nth getReg use];
             apply (offsetPointer_resolves acc [] _ Src c p Off n1 n2
                      HS Hc Hp)].
        rewrite reachIn_cons_other by (cbn [Opc]; discriminate).
        rewrite reachIn_cons_other by (cbn [Opc]; discriminate).
        rewrite Hl. reflexivity.
      * do 4 (rewrite reachIn_cons_other by (cbn [Opc]; discriminate)).
        erewrite reachIn_cons_one;
          [| reflexivity
           | cbn [getOperand Operands nth getReg use];
             apply (offsetPointer_resolves acc
                      [mkMI n2 G_PTR_ADD [def p; use Src; use c]
                            (Parent MI) [];
                       mkMI n G_LOAD [def v; use p] (Parent MI)
                            [getMachineMemOperand SrcMMO Off
                               (LLTOps.getSizeInBytes CopyTy)]]
                      _ Dst c q Off n1 n3 HD Hc Hq)].
        rewrite Hs. reflexivity.
Qed.

Lemma emits_quiet_ret {A : Type} (acc : list MachineInstr) (a : A) :
  emits acc (ret a) (fun _ E => quiet E).
Proof. apply emits_ret. constructor. Qed.

Lemma emits_quiet_bind {A B : Type} (acc : list MachineInstr) (m : M A)
      (k : A -> M B) :
  emits acc m (fun _ E => quiet E) ->
  (forall acc' a, emits acc' (k a) (fun _ E => quiet E)) ->
  emits acc (bind m k) (fun _ E => quiet E).
Proof.
  intros Hm Hk. eapply emits_bind; [exact Hm|].
  intros a E1 H1. eapply emits_conseq; [apply Hk|].
  intros b E2 H2. apply Forall_app. split; assumption.
Qed.

Lemma emits_quiet_def {A : Type} (acc : list MachineInstr) (Ty : LLT)
      (O : Opcode) (rest : list MachineOperand) (k : Register -> A) :
  O <> G_STORE -> O <> G_LOAD ->
  Forall (fun MO => isDef MO = false) rest ->
  emits acc
        (r <- createGenericVirtualRegister Ty ;;
         _ <- insertInstr (pointBefore MI) O (def r :: rest) [] ;;
         ret (k r))
        (fun _ E => quiet E).
Proof.
  intros N1 N2 HR. eapply emits_conseq; [apply emits_def; exact HR|].
  intros a E (r & n & _ & -> & _). constructor; [| constructor].
  cbn [Opc]. split; assumption.
Qed.

Lemma uses_have_no_def (r : Register) (n : nat) :
  Forall (fun MO => isDef MO = false) (repeat (use r) n).
Proof. induction n; cbn [repeat]; constructor; auto. Qed.

Lemma emits_quiet_buildConstant (acc : list MachineInstr) (Ty : LLT)
      (Val : Z) :
  emits acc (buildConstant (pointBefore MI) Ty Val) (fun _ E => quiet E).
Proof.
  unfold buildConstant.
  apply (emits_quiet_def acc Ty G_CONSTANT [MO_CImmediate Val] (fun r => r));
    [discriminate | discriminate | repeat constructor].
Qed.

Lemma emits_quiet_buildSplatVector (acc : list MachineInstr) (Ty : LLT)
      (x : Register) :
  emits acc (buildSplatVector (pointBefore MI) Ty x) (fun _ E => quiet E).
Proof.
  unfold buildSplatVector.
  apply (emits_quiet_def acc Ty G_BUILD_VECTOR
           (repeat (use x) (Z.to_nat (u32 (LLTOps.getNumElements Ty))))
           (fun r => r));
    [discriminate | discriminate | apply uses_have_no_def].
Qed.

Lemma emits_quiet_buildConstantOfType (acc : list MachineInstr) (Ty : LLT)
      (Val : Z) :
  emits acc (buildConstantOfType (pointBefore MI) Ty Val)
        (fun _ E => quiet E).
Proof.
  unfold buildConstantOfType. destruct (LLTOps.isVector Ty).
  - apply emits_quiet_bind; [apply emits_quiet_buildConstant|].
    intros acc' c. apply emits_quiet_buildSplatVector.
  - apply emits_quiet_buildConstant.
Qed.

Lemma emits_quiet_buildUnOp (acc : list MachineInstr) (O : Opcode)
      (Ty : LLT) (x : Register) :
  O <> G_STORE -> O <> G_LOAD ->
  emits acc (buildUnOp (pointBefore MI) O Ty x) (fun _ E => quiet E).
Proof.
  intros N1 N2. unfold buildUnOp.
  apply (emits_quiet_def acc Ty O [use x] (fun r => r));
    [assumption | assumption | repeat constructor].
Qed.

Lemma emits_quiet_buildBinOp (acc : list MachineInstr) (O : Opcode)
      (Ty : LLT) (x y : Register) :
  O <> G_STORE -> O <> G_LOAD ->
  emits acc (buildBinOp (pointBefore MI) O Ty x y) (fun _ E => quiet E).
Proof.
  intros N1 N2. unfold buildBinOp.
  apply (emits_quiet_def acc Ty O [use x; use y] (fun r => r));
    [assumption | assumption | repeat constructor].
Qed.

Lemma emits_quiet_buildZExtOrTrunc (acc : list MachineInstr) (Ty : LLT)
      (x : Register) :
  emits acc (buildZExtOrTrunc (pointBefore MI) Ty x) (fun _ E => quiet E).
Proof.
  unfold buildZExtOrTrunc. apply emits_state. intro s. cbv zeta.
  apply emits_quiet_buildUnOp;
    (destruct (_ >? _); [discriminate|]; destruct (_ <? _); discriminate).
Qed.

Lemma emits_quiet_getMemsetValue
      (getConstantVRegValWithLookThrough :
         MachineRegisterInfo -> Register -> option Z)
      (acc : list MachineInstr) (Val : Register) (Ty : LLT) :
  emits acc
        (getMemsetValue getConstantVRegValWithLookThrough Val Ty
                        (pointBefore MI))
        (fun _ E => quiet E).
Proof.
  unfold getMemsetValue. apply emits_state. intro s. cbv zeta.
  destruct (if negb (LLTOps.isVector Ty)
            then getConstantVRegValWithLookThrough (MRIof s) Val
            else None) as [Value|].
  - apply emits_quiet_buildConstantOfType.
  - match goal with
    | |- emits _ (if ?c then _ else _) _ => destruct c
    end.
    + apply emits_quiet_buildConstantOfType.
    + apply emits_quiet_bind; [apply emits_quiet_buildZExtOrTrunc|].
      intros acc1 ZExt.
      apply emits_quiet_bind.
      * destruct (_ >? 8).
        -- apply emits_quiet_bind; [apply emits_quiet_buildConstantOfType|].
           intros acc2 Magic.
           apply emits_quiet_buildBinOp; discriminate.
        -- apply emits_quiet_ret.
      * intros acc2 V. destruct (LLTOps.isVector Ty).
        -- apply emits_quiet_buildSplatVector.
        -- apply emits_quiet_ret.
Qed.

Lemma quiet_no (O : Opcode) (E : list MachineInstr) :
  O = G_STORE \/ O = G_LOAD -> quiet E -> Forall (fun i => Opc i <> O) E.
Proof.
  intros HO HQ. eapply Forall_impl; [| exact HQ].
  intros i [H1 H2]. destruct HO as [-> | ->]; assumption.
Qed.

(** The store loop of the memset lowering stores, chunk by chunk, the
    chunk's size at the chunk's offset from [Dst]. *)
Lemma memsetLoop_emits
      (TLI : TargetLowering)
      (getConstantVRegValWithLookThrough :
         MachineRegisterInfo -> Register -> option Z)
      (Dst Val : Register) (PtrTy : LLT) (DstMMO : MachineMemOperand)
      (LargestTy : LLT) (MemSetValue : Register) (MemOps : list LLT) :
  Forall fitsUnsigned MemOps ->
  forall acc DstOff Size,
    emits acc
          (memsetLoop TLI getConstantVRegValWithLookThrough (pointBefore MI)
                      Dst Val PtrTy DstMMO LargestTy MemSetValue MemOps
                      DstOff Size)
          (fun ok E =>
             ok = true ->
             accesses G_STORE E
             = chunksAt DstMMO MemOps (memcpyOffsets MemOps DstOff Size)
             /\ (Dst < index2VirtReg k0 ->
                 forall S,
                   reachIn (acc ++ E ++ S) G_STORE Dst E
                   = map Some (chunksFrom MemOps
                                 (memcpyOffsets MemOps DstOff Size)))).
Proof.
  induction 1 as [|Ty rest HTy HF IH]; intros acc DstOff Size.
  - cbn [memsetLoop]. apply emits_ret. intros _.
    split; [reflexivity | intros _ S; reflexivity].
  - cbn [memsetLoop memcpyOffsets]. cbv zeta.
    replace (u32 (LLTOps.getSizeInBytes Ty)) with (LLTOps.getSizeInBytes Ty)
      by (symmetry; unfold u32; apply Z.mod_small; exact HTy).
    set (Off := if LLTOps.getSizeInBytes Ty >? Size
                then u32 (DstOff - u32 (LLTOps.getSizeInBytes Ty - Size))
                else DstOff).
    eapply emits_bind with (Q1 := fun _ E => quiet E).
    { destruct (_ <? _); [| apply emits_quiet_ret].
      destruct (_ && _).
      - apply emits_quiet_buildUnOp; discriminate.
      - apply emits_quiet_getMemsetValue. }
    intros Value E1 H1.
    destruct (Value =? NoRegister).
    { apply emits_ret. discriminate. }
    destruct (Off =? 0) eqn:E0; cbn [negb].
    + apply Z.eqb_eq in E0.
      eapply emits_bind;
        [apply (emits_ret _ Dst (fun a E => a = Dst /\ E = []));
         split; reflexivity|].
      intros a E2 [-> ->].
      eapply emits_bind; [apply emits_buildStore|].
      intros [] E3 (n & ->).
      eapply emits_conseq; [apply IH|].
      intros ok E4 H4 Hok. specialize (H4 Hok). destruct H4 as [Ha Hr].
      split.
      * rewrite !accesses_app, Ha.
        rewrite (accesses_none_of G_STORE E1)
          by (apply quiet_no; [left; reflexivity | exact H1]).
        cbn [app]. unfold chunksAt, accesses.
        cbn [filter combine map fst snd Opc firstMMO memoperands hd
             getMachineMemOperand MMO_Size MMO_Offset].
        change (opc_eqb G_STORE G_STORE) with true. reflexivity.
      * intros HB S. specialize (Hr HB S).
        norm_lists_in Hr. norm_lists.
        rewrite !reachIn_app.
        rewrite (reachIn_none _ G_STORE Dst E1)
          by (apply quiet_no; [left; reflexivity | exact H1]).
        cbn [app].
        erewrite reachIn_cons_one;
          [| reflexivity | cbn [getOperand Operands nth getReg use];
                           apply pointerOffset_base_at; exact E0].
        rewrite Hr. reflexivity.
    + apply Z.eqb_neq in E0.
      eapply emits_bind; [apply emits_offsetPointer|].
      intros p E2 (c & n1 & n2 & -> & Hc & Hp).
      eapply emits_bind; [apply emits_buildStore|].
      intros [] E3 (n & ->).
      eapply emits_conseq; [apply IH|].
      intros ok E4 H4 Hok. specialize (H4 Hok). destruct H4 as [Ha Hr].
      split.
      * rewrite !accesses_app, Ha.
        rewrite (accesses_none_of G_STORE E1)
          by (apply quiet_no; [left; reflexivity | exact H1]).
        cbn [app]. unfold chunksAt, accesses.
        cbn [filter combine map fst snd Opc firstMMO memoperands hd
             getMachineMemOperand MMO_Size MMO_Offset app].
        change (opc_eqb G_CONSTANT G_STORE) with false.
        change (opc_eqb G_PTR_ADD G_STORE) with false.
        change (opc_eqb G_STORE G_STORE) with true. reflexivity.
      * intros HB S. specialize (Hr HB S).
        norm_lists_in Hr. norm_lists.
        rewrite !reachIn_app.
        rewrite (reachIn_none _ G_STORE Dst E1)
          by (apply quiet_no; [left; reflexivity | exact H1]).
        cbn [app].
        rewrite reachIn_cons_other by (cbn [Opc]; discriminate).
        rewrite reachIn_cons_other by (cbn [Opc]; discriminate).
        erewrite reachIn_cons_one;
          [| reflexivity
           | cbn [getOperand Operands nth getReg use];
             rewrite app_assoc;
             apply (offsetPointer_resolves (acc ++ E1) [] _ Dst c p Off
                      n1 n2 HB Hc Hp)].
        rewrite Hr. reflexivity.
Qed.

End Emission.

Lemma emittedAt_start (MI : MachineInstr) (pre post : list MachineInstr)
      (st st1 : CombinerState) :
  Insts st = pre ++ MI :: post ->
  Forall (fun i => Id i <> Id MI) pre ->
  Id MI < NextId st ->
  Insts st1 = Insts st -> NextId st1 = NextId st ->
  NumVirtRegs st1 = NumVirtRegs st ->
  emittedAt MI pre post (NextId st) (NumVirtRegs st) [] st1.
Proof.
  intros HI HF HN KI KN KV. unfold emittedAt. rewrite KI, KN, KV, HI.
  rewrite app_nil_r. cbn [app].
  repeat split; try assumption; try lia; constructor.
Qed.

Lemma emittedAt_erased (MI : MachineInstr) (pre post : list MachineInstr)
      (n0 k0 : Z) (E : list MachineInstr) (st : CombinerState) :
  Forall (fun i => Id i <> Id MI) post ->
  emittedAt MI pre post n0 k0 E st ->
  filter (fun x => negb (Id x =? Id MI)) (Insts st) = pre ++ E ++ post
  /\ Forall (fun i => n0 <= Id i) E.
Proof.
  intros Fpost (HI & HF & _ & _ & Hids & _). split; [| exact Hids].
  rewrite HI.
  replace (pre ++ E ++ MI :: post) with ((pre ++ E) ++ MI :: post)
    by (rewrite <- app_assoc; reflexivity).
  rewrite erase_at by (auto || reflexivity).
  rewrite <- app_assoc. reflexivity.
Qed.

(** What a successful memmove lowering leaves in place of the
    [G_MEMMOVE], by the pointers of its accesses. *)
Lemma optimizeMemmove_reach :
  forall (TLI : TargetLowering)
         (getOpcodeDef :
            MachineRegisterInfo -> Opcode -> Register -> option MachineInstr)
         (isOSDarwin hasMinSize hasOptSize : bool)
         (isFixedObjectIndex : Z -> bool) (getABITypeAlign : LLT -> Align)
         (exceedsNaturalStackAlignment : Align -> bool)
         (needsStackRealignment : bool) (fuel : nat)
         (MI : MachineInstr) (Dst Src : Register) (KnownLen : Z)
         (DstAlign SrcAlign : Align) (IsVolatile : bool)
         (st st' : CombinerState) (pre post : list MachineInstr),
    Insts st = pre ++ MI :: post ->
    Forall (fun i => Id i <> Id MI) (pre ++ post) ->
    Id MI < NextId st ->
    optimizeMemmove TLI getOpcodeDef isOSDarwin hasMinSize hasOptSize
                    isFixedObjectIndex getABITypeAlign
                    exceedsNaturalStackAlignment needsStackRealignment fuel
                    MI Dst Src KnownLen DstAlign SrcAlign IsVolatile st
    = Some (true, st') ->
    exists (MemOps : list LLT) (E : list MachineInstr),
      memmovePlan TLI getOpcodeDef isOSDarwin hasMinSize hasOptSize
                  isFixedObjectIndex fuel st MI Dst KnownLen DstAlign SrcAlign
      = Some (true, MemOps)
      /\ Insts st' = pre ++ E ++ post
      /\ Forall (fun i => NextId st <= Id i) E
      /\ (Src < index2VirtReg (NumVirtRegs st) ->
          reach G_LOAD Src E
          = map Some (chunksFrom MemOps (memmoveOffsets MemOps 0)))
      /\ (Dst < index2VirtReg (NumVirtRegs st) ->
          reach G_STORE Dst E
          = map Some (chunksFrom MemOps (memmoveOffsets MemOps 0))).
Proof.
  intros TLI god dar mins opts fixed abi exceeds realign fuel MI Dst Src
         KnownLen DA SA IsVolatile st st' pre post HI HF HN H.
  apply Forall_app in HF. destruct HF as [Fpre Fpost].
  unfold optimizeMemmove, bind, getState in H.
  destruct (frameIndexDef god fixed st Dst) as [FIDef CanChange] eqn:EFI.
  destruct (memmovePlan TLI god dar mins opts fixed fuel st MI Dst KnownLen
                        DA SA) as [[[|] MemOps]|] eqn:EP;
    [| unfold ret in H; discriminate H | discriminate H].
  exists MemOps.
  match type of H with
  | match ?m st with _ => _ end = _ => destruct (m st) as [[a st1]|] eqn:ER
  end; [|discriminate H].
  assert (K : Insts st1 = Insts st /\ NextId st1 = NextId st
              /\ RegTypes st1 = RegTypes st
              /\ NumVirtRegs st1 = NumVirtRegs st).
  { destruct CanChange.
    - apply raiseDstAlign_keeps_graph in ER. tauto.
    - unfold ret in ER. inversion ER; subst. auto. }
  destruct K as (KI & KN & _ & KV).
  pose proof (emittedAt_start MI pre post st st1 HI Fpre HN KI KN KV) as A0.
  destruct (memmoveLoadLoop (pointBefore MI) Src (stateType st Src)
              (secondMMO MI) MemOps 0 [] st1) as [[LoadVals st2]|] eqn:EL;
    [|discriminate H].
  destruct (memmoveLoadLoop_reach _ _ _ _ _ _ _ _ _ _ _ _ _ _ _ A0 EL)
    as (E1 & A1 & Hns1 & Hr1).
  destruct (memmoveStoreLoop (pointBefore MI) Dst (stateType st Src)
              (firstMMO MI) MemOps LoadVals 0 0 st2) as [[[] st3]|] eqn:ES;
    [|discriminate H].
  destruct (memmoveStoreLoop_reach _ _ _ _ _ _ _ _ _ _ _ _ _ _ _ _ A1 ES)
    as (E2 & A2 & Hnl2 & Hr2).
  cbn [app] in A2.
  unfold eraseFromParent, ret, setInsts in H. inversion H; subst st'.
  destruct (emittedAt_erased _ _ _ _ _ _ _ Fpost A2) as [HE Hids].
  exists (E1 ++ E2). cbn [Insts].
  split; [reflexivity|]. split; [exact HE|]. split; [exact Hids|].
  split.
  - intros HB. unfold reach. rewrite reachIn_app.
    pose proof (Hr1 HB E2) as R1. cbn [app] in R1. rewrite R1.
    rewrite (reachIn_none _ G_LOAD Src E2 Hnl2). apply app_nil_r.
  - intros HB. unfold reach. rewrite reachIn_app.
    rewrite (reachIn_none _ G_STORE Dst E1 Hns1).
    pose proof (Hr2 HB []) as R2. cbn [app] in R2.
    rewrite app_nil_r in R2. cbn [app]. exact R2.
Qed.

(** What a successful memcpy lowering leaves in place of the
    [G_MEMCPY], by the pointers of its accesses. *)
Lemma optimizeMemcpy_reach :
  forall (TLI : TargetLowering)
         (getOpcodeDef :
            MachineRegisterInfo -> Opcode -> Register -> option MachineInstr)
         (isOSDarwin hasMinSize hasOptSize : bool)
         (isFixedObjectIndex : Z -> bool) (getABITypeAlign : LLT -> Align)
         (exceedsNaturalStackAlignment : Align -> bool)
         (needsStackRealignment : bool) (fuel : nat)
         (MI : MachineInstr) (Dst Src : Register) (KnownLen : Z)
         (DstAlign SrcAlign : Align) (IsVolatile : bool)
         (st st' : CombinerState) (pre post : list MachineInstr),
    Insts st = pre ++ MI :: post ->
    Forall (fun i => Id i <> Id MI) (pre ++ post) ->
    Id MI < NextId st ->
    optimizeMemcpy TLI getOpcodeDef isOSDarwin hasMinSize hasOptSize
                   isFixedObjectIndex getABITypeAlign
                   exceedsNaturalStackAlignment needsStackRealignment fuel
                   MI Dst Src KnownLen DstAlign SrcAlign IsVolatile st
    = Some (true, st') ->
    exists (MemOps : list LLT) (E : list MachineInstr),
      memcpyPlan TLI getOpcodeDef isOSDarwin hasMinSize hasOptSize
                 isFixedObjectIndex fuel st MI Dst KnownLen DstAlign SrcAlign
                 IsVolatile
      = Some (true, MemOps)
      /\ Insts st' = pre ++ E ++ post
      /\ Forall (fun i => NextId st <= Id i) E
      /\ (Dst < index2VirtReg (NumVirtRegs st) ->
          Src < index2VirtReg (NumVirtRegs st) ->
          reach G_LOAD Src E
          = map Some (chunksFrom MemOps (memcpyOffsets MemOps 0 KnownLen))
          /\ reach G_STORE Dst E
             = map Some (chunksFrom MemOps
                           (memcpyOffsets MemOps 0 KnownLen))).
Proof.
  intros TLI god dar mins opts fixed abi exceeds realign fuel MI Dst Src
         KnownLen DA SA IsVolatile st st' pre post HI HF HN H.
  apply Forall_app in HF. destruct HF as [Fpre Fpost].
  unfold optimizeMemcpy, bind, getState in H.
  destruct (frameIndexDef god fixed st Dst) as [FIDef CanChange] eqn:EFI.
  destruct (memcpyPlan TLI god dar mins opts fixed fuel st MI Dst KnownLen
                       DA SA IsVolatile) as [[[|] MemOps]|] eqn:EP;
    [| unfold ret in H; discriminate H | discriminate H].
  exists MemOps.
  match type of H with
  | match ?m st with _ => _ end = _ => destruct (m st) as [[a st1]|] eqn:ER
  end; [|discriminate H].
  assert (K : Insts st1 = Insts st /\ NextId st1 = NextId st
              /\ RegTypes st1 = RegTypes st
              /\ NumVirtRegs st1 = NumVirtRegs st).
  { destruct CanChange.
    - apply raiseDstAlign_keeps_graph in ER. tauto.
    - unfold ret in ER. inversion ER; subst. auto. }
  destruct K as (KI & KN & _ & KV).
  pose proof (emittedAt_start MI pre post st st1 HI Fpre HN KI KN KV) as A0.
  destruct (memcpyLoop (pointBefore MI) Dst Src (stateType st Src)
              (firstMMO MI) (secondMMO MI) MemOps 0 KnownLen st1)
    as [[[] st2]|] eqn:EL; [|discriminate H].
  destruct (memcpyLoop_reach _ _ _ _ _ _ _ _ _ _ _ _ _ _ _ _ _ A0 EL)
    as (E & A1 & Hr).
  cbn [app] in A1.
  unfold eraseFromParent, ret, setInsts in H. inversion H; subst st'.
  destruct (emittedAt_erased _ _ _ _ _ _ _ Fpost A1) as [HE Hids].
  exists E. cbn [Insts].
  split; [reflexivity|]. split; [exact HE|]. split; [exact Hids|].
  intros HD HS. pose proof (Hr HD HS []) as R. cbn [app] in R.
  rewrite app_nil_r in R. exact R.
Qed.



(* ------------------------------------------------------------------ *)
(** ** Memcpy: a load and a store per chunk *)

Ltac run_builder_cbn :=
  cbn [bind ret buildConstant buildBinOp buildUnOp buildMerge buildLoad
       buildStore createGenericVirtualRegister insertInstr eraseFromParent
       setInsts createRegs fst snd map app nth Insts RegTypes NumVirtRegs
       NextId InsertBB InsertPt ObjectAligns Log].

Ltac solve_accesses :=
  unfold accesses at 1; cbn [filter Opc];
  repeat match goal with
    | |- context [opc_eqb ?a ?b] =>
        let v := eval vm_compute in (opc_eqb a b) in
        change (opc_eqb a b) with v
    end;
  cbv iota;
  cbn [map firstMMO memoperands hd app getMachineMemOperand MMO_Size
       MMO_Offset];
  unfold chunksAt; cbn [combine map fst snd]; reflexivity.

(** The copy loop emits, chunk by chunk, a load and a store of the
    chunk's size at the chunk's offset. *)
Lemma memcpyLoop_emits (MI : MachineInstr) (post : list MachineInstr)
      (PtrTy : LLT) (Dst Src : Register) (DstMMO SrcMMO : MachineMemOperand)
      (MemOps : list LLT) :
  forall acc st CurrOffset Size,
    Insts st = acc ++ MI :: post ->
    Forall (fun i => Id i <> Id MI) acc ->
    Id MI < NextId st ->
    exists E st',
      memcpyLoop (pointBefore MI) Dst Src PtrTy DstMMO SrcMMO MemOps
                 CurrOffset Size st
      = Some (tt, st')
      /\ Insts st' = (acc ++ E) ++ MI :: post
      /\ Forall (fun i => Id i <> Id MI) (acc ++ E)
      /\ Id MI < NextId st'
      /\ accesses G_LOAD E
         = chunksAt SrcMMO MemOps (memcpyOffsets MemOps CurrOffset Size)
      /\ accesses G_STORE E
         = chunksAt DstMMO MemOps (memcpyOffsets MemOps CurrOffset Size).
Proof.
  induction MemOps as [|CopyTy rest IH];
    intros acc st CurrOffset Size HI HF HN.
  - exists [], st. cbn [memcpyLoop]. unfold ret.
    rewrite !app_nil_r. repeat split; auto.
  - cbn [memcpyLoop memcpyOffsets]. unfold pointBefore.
    set (Off := if LLTOps.getSizeInBytes CopyTy >? Size
                then u32 (CurrOffset - u32 (LLTOps.getSizeInBytes CopyTy - Size))
                else CurrOffset).
    cbv zeta.
    destruct (Off =? 0) eqn:E0; cbn [negb].
    + run_builder. rewrite HI.
      rewrite !insertBefore_at by (solve_forall || reflexivity).
      pose (iload := mkMI (NextId st) G_LOAD
                       [def (index2VirtReg (NumVirtRegs st)); use Src]
                       (Parent MI)
                       [getMachineMemOperand SrcMMO Off
                          (LLTOps.getSizeInBytes CopyTy)]).
      pose (istore := mkMI (NextId st + 1) G_STORE
                        [use (index2VirtReg (NumVirtRegs st)); use Dst]
                        (Parent MI)
                        [getMachineMemOperand DstMMO Off
                           (LLTOps.getSizeInBytes CopyTy)]).
      match goal with
      | |- context [memcpyLoop ?pt ?d ?s ?p ?dm ?sm rest ?o ?sz ?st1] =>
          destruct (IH ((acc ++ [iload]) ++ [istore]) st1 o sz)
            as (E & st' & Hrun & HI' & HF' & HN' & Hl & Hs)
      end; [reflexivity | subst iload istore; solve_forall
            | cbn [NextId]; lia |].
      exists (iload :: istore :: E), st'. unfold pointBefore in Hrun.
      split; [exact Hrun|].
      split; [rewrite HI'; rewrite <- !app_assoc; reflexivity|].
      split; [rewrite <- !app_assoc in HF'; exact HF'|].
      split; [exact HN'|].
      split.
      * change (iload :: istore :: E) with ([iload; istore] ++ E).
        rewrite accesses_app, Hl. subst iload istore. solve_accesses.
      * change (iload :: istore :: E) with ([iload; istore] ++ E).
        rewrite accesses_app, Hs. subst iload istore. solve_accesses.
    + run_builder_cbn. rewrite HI.
      rewrite !insertBefore_at by (solve_forall || reflexivity).
      pose (i1 := mkMI (NextId st) G_CONSTANT
                    [def (index2VirtReg (NumVirtRegs st)); MO_CImmediate Off]
                    (Parent MI) []).
      pose (i2 := mkMI (NextId st + 1) G_PTR_ADD
                    [def (index2VirtReg (NumVirtRegs st + 1)); use Src;
                     use (index2VirtReg (NumVirtRegs st))] (Parent MI) []).
      pose (i3 := mkMI (NextId st + 1 + 1) G_LOAD
                    [def (index2VirtReg (NumVirtRegs st + 1 + 1));
                     use (index2VirtReg (NumVirtRegs st + 1))] (Parent MI)
                    [getMachineMemOperand SrcMMO Off
                       (LLTOps.getSizeInBytes CopyTy)]).
      pose (i4 := mkMI (NextId st + 1 + 1 + 1) G_PTR_ADD
                    [def (index2VirtReg (NumVirtRegs st + 1 + 1 + 1));
                     use Dst; use (index2VirtReg (NumVirtRegs st))]
                    (Parent MI) []).
      pose (i5 := mkMI (NextId st + 1 + 1 + 1 + 1) G_STORE
                    [use (index2VirtReg (NumVirtRegs st + 1 + 1));
                     use (index2VirtReg (NumVirtRegs st + 1 + 1 + 1))]
                    (Parent MI)
                    [getMachineMemOperand DstMMO Off
                       (LLTOps.getSizeInBytes CopyTy)]).
      match goal with
      | |- context [memcpyLoop ?pt ?d ?s ?p ?dm ?sm rest ?o ?sz ?st1] =>
          destruct (IH (((((acc ++ [i1]) ++ [i2]) ++ [i3]) ++ [i4]) ++ [i5])
                       st1 o sz)
            as (E & st' & Hrun & HI' & HF' & HN' & Hl & Hs)
      end; [reflexivity | subst i1 i2 i3 i4 i5; solve_forall
            | cbn [NextId]; lia |].
      exists (i1 :: i2 :: i3 :: i4 :: i5 :: E), st'.
      unfold pointBefore in Hrun.
      split; [exact Hrun|].
      split; [rewrite HI'; rewrite <- !app_assoc; reflexivity|].
      split; [rewrite <- !app_assoc in HF'; exact HF'|].
      split; [exact HN'|].
      split.
      * change (i1 :: i2 :: i3 :: i4 :: i5 :: E)
          with ([i1; i2; i3; i4; i5] ++ E).
        rewrite accesses_app, Hl. subst i1 i2 i3 i4 i5. solve_accesses.
      * change (i1 :: i2 :: i3 :: i4 :: i5 :: E)
          with ([i1; i2; i3; i4; i5] ++ E).
        rewrite accesses_app, Hs. subst i1 i2 i3 i4 i5. solve_accesses.
Qed.

(** What a successful memcpy lowering leaves in place of the
    [G_MEMCPY]. *)
Lemma optimizeMemcpy_emits :
  forall (TLI : TargetLowering)
         (getOpcodeDef :
            MachineRegisterInfo -> Opcode -> Register -> option MachineInstr)
         (isOSDarwin hasMinSize hasOptSize : bool)
         (isFixedObjectIndex : Z -> bool) (getABITypeAlign : LLT -> Align)
         (exceedsNaturalStackAlignment : Align -> bool)
         (needsStackRealignment : bool) (fuel : nat)
         (MI : MachineInstr) (Dst Src : Register) (KnownLen : Z)
         (DstAlign SrcAlign : Align) (IsVolatile : bool)
         (st st' : CombinerState) (pre post : list MachineInstr),
    Insts st = pre ++ MI :: post ->
    Forall (fun i => Id i <> Id MI) (pre ++ post) ->
    Id MI < NextId st ->
    optimizeMemcpy TLI getOpcodeDef isOSDarwin hasMinSize hasOptSize
                   isFixedObjectIndex getABITypeAlign
                   exceedsNaturalStackAlignment needsStackRealignment fuel
                   MI Dst Src KnownLen DstAlign SrcAlign IsVolatile st
    = Some (true, st') ->
    exists (MemOps : list LLT) (E : list MachineInstr),
      memcpyPlan TLI getOpcodeDef isOSDarwin hasMinSize hasOptSize
                 isFixedObjectIndex fuel st MI Dst KnownLen DstAlign SrcAlign
                 IsVolatile
      = Some (true, MemOps)
      /\ Insts st' = pre ++ E ++ post
      /\ accesses G_LOAD E
         = chunksAt (secondMMO MI) MemOps (memcpyOffsets MemOps 0 KnownLen)
      /\ accesses G_STORE E
         = chunksAt (firstMMO MI) MemOps (memcpyOffsets MemOps 0 KnownLen).
Proof.
  intros TLI god dar mins opts fixed abi exceeds realign fuel MI Dst Src
         KnownLen DA SA IsVolatile st st' pre post HI HF HN H.
  apply Forall_app in HF. destruct HF as [Fpre Fpost].
  unfold optimizeMemcpy, bind, getState in H.
  destruct (frameIndexDef god fixed st Dst) as [FIDef CanChange] eqn:EFI.
  destruct (memcpyPlan TLI god dar mins opts fixed fuel st MI Dst KnownLen
                       DA SA IsVolatile) as [[[|] MemOps]|] eqn:EP;
    [| unfold ret in H; discriminate H | discriminate H].
  exists MemOps.
  match type of H with
  | match ?m st with _ => _ end = _ => destruct (m st) as [[a st1]|] eqn:ER
  end; [|discriminate H].
  assert (K : Insts st1 = Insts st /\ NextId st1 = NextId st).
  { destruct CanChange.
    - apply raiseDstAlign_keeps_graph in ER. tauto.
    - unfold ret in ER. inversion ER; subst. auto. }
  destruct K as [KI KN].
  destruct (memcpyLoop_emits MI post (stateType st Src) Dst Src (firstMMO MI)
              (secondMMO MI) MemOps pre st1 0 KnownLen)
    as (E & st2 & Hrun & HI2 & HF2 & HN2 & Hl & Hs).
  { rewrite KI. exact HI. }
  { exact Fpre. }
  { rewrite KN. exact HN. }
  rewrite Hrun in H.
  unfold eraseFromParent, ret, setInsts in H. inversion H; subst st'.
  exists E. cbn [Insts]. rewrite HI2.
  rewrite erase_at by (auto || reflexivity).
  split; [reflexivity|].
  split; [rewrite <- app_assoc; reflexivity|].
  split; [exact Hl | exact Hs].
Qed.

(* ------------------------------------------------------------------ *)
(** ** Planning: memmove against memcpy *)

Lemma u32_range (x : Z) : 0 <= u32 x < 2 ^ 32.
Proof. unfold u32. apply Z.mod_pos_bound. lia. Qed.

Lemma u32_small (x : Z) : 0 <= x < 2 ^ 32 -> u32 x = x.
Proof. intro H. unfold u32. apply Z.mod_small. exact H. Qed.

Lemma u64_small (x : Z) : 0 <= x < 2 ^ 64 -> u64 x = x.
Proof. intro H. unfold u64. apply Z.mod_small. exact H. Qed.

Lemma PowerOf2Floor_range (A : Z) :
  0 <= A < 2 ^ 32 -> 0 <= PowerOf2Floor A < 2 ^ 32.
Proof.
  intro H. unfold PowerOf2Floor. destruct (Z.leb_spec A 0); [lia|].
  pose proof (Z.log2_spec A ltac:(lia)) as [L _]. split; [|lia].
  apply Z.pow_nonneg. lia.
Qed.

Lemma fitsUnsigned_scalar (b : Z) :
  0 <= b < 2 ^ 32 -> fitsUnsigned (LLT_scalar b).
Proof.
  intro H. unfold fitsUnsigned, LLTOps.getSizeInBytes. cbn [LLTOps.getSizeInBits].
  split.
  - apply Z.div_pos; lia.
  - apply Z.div_lt_upper_bound; lia.
Qed.

Section PlanFacts.

Variable TLI : TargetLowering.

(** The target never reports an overlapping misaligned access as both
    allowed and fast. *)
Hypothesis noFastOverlap :
  forall Ty AS Al,
    fst (allowsMisalignedMemoryAccessesFast TLI Ty AS Al)
    && snd (allowsMisalignedMemoryAccessesFast TLI Ty AS Al) = false.

Lemma shrinkTypeLoop_no_overlap (fuel : nat) (Op : MemOp) (DstAS : Z)
      (NumMemOps Size : Z) :
  forall Ty Ty' TySize,
    fitsUnsigned Ty ->
    shrinkTypeLoop TLI fuel Op DstAS NumMemOps Size Ty
                   (u32 (LLTOps.getSizeInBytes Ty))
    = Some (Ty', TySize) ->
    fitsUnsigned Ty' /\ TySize = LLTOps.getSizeInBytes Ty' /\ TySize <= Size.
Proof.
  induction fuel as [|k IH]; intros Ty Ty' TySize HTy H.
  - cbn [shrinkTypeLoop] in H.
    destruct (Z.gtb_spec (u32 (LLTOps.getSizeInBytes Ty)) Size);
      [discriminate|].
    inversion H; subst. rewrite u32_small by exact HTy.
    rewrite u32_small in * by exact HTy. auto.
  - cbn [shrinkTypeLoop] in H.
    destruct (Z.gtb_spec (u32 (LLTOps.getSizeInBytes Ty)) Size).
    + destruct (allowsMisalignedMemoryAccessesFast TLI Ty DstAS
                  (if MemOpOps.isFixedDstAlign Op
                   then Align_value (DstAlign Op) else 0))
        as [allowed Fast] eqn:EF.
      pose proof (noFastOverlap Ty DstAS
                    (if MemOpOps.isFixedDstAlign Op
                     then Align_value (DstAlign Op) else 0)) as NF.
      rewrite EF in NF. cbn [fst snd] in NF. rewrite NF in H.
      rewrite !andb_false_r in H.
      match type of H with
      | shrinkTypeLoop _ _ _ _ _ _ ?T (u32 (LLTOps.getSizeInBytes ?T)) = _ =>
          apply (IH T)
      end; [|exact H].
      apply fitsUnsigned_scalar. apply PowerOf2Floor_range. apply u32_range.
    + inversion H; subst. rewrite u32_small by exact HTy.
      rewrite u32_small in * by exact HTy. auto.
Qed.

Lemma shrinkTypeLoop_any_op (fuel : nat) (Op Op' : MemOp) (DstAS : Z)
      (NumMemOps Size : Z) :
  forall Ty TySize,
    shrinkTypeLoop TLI fuel Op DstAS NumMemOps Size Ty TySize
    = shrinkTypeLoop TLI fuel Op' DstAS NumMemOps Size Ty TySize.
Proof.
  induction fuel as [|k IH]; intros Ty TySize; cbn [shrinkTypeLoop];
    [reflexivity|].
  destruct (TySize >? Size); [|reflexivity].
  pose proof (noFastOverlap Ty DstAS
                (if MemOpOps.isFixedDstAlign Op
                 then Align_value (DstAlign Op) else 0)) as NF.
  pose proof (noFastOverlap Ty DstAS
                (if MemOpOps.isFixedDstAlign Op'
                 then Align_value (DstAlign Op') else 0)) as NF'.
  destruct (allowsMisalignedMemoryAccessesFast TLI Ty DstAS
              (if MemOpOps.isFixedDstAlign Op
               then Align_value (DstAlign Op) else 0)) as [a f].
  destruct (allowsMisalignedMemoryAccessesFast TLI Ty DstAS
              (if MemOpOps.isFixedDstAlign Op'
               then Align_value (DstAlign Op') else 0)) as [a' f'].
  cbn [fst snd] in NF, NF'. rewrite NF, NF'. rewrite !andb_false_r.
  apply IH.
Qed.

Lemma memOpsLoop_any_op (fuel inner : nat) (Limit : Z) (Op Op' : MemOp)
      (DstAS : Z) :
  forall NumMemOps Size Ty MemOps,
    memOpsLoop TLI fuel inner Limit Op DstAS NumMemOps Size Ty MemOps
    = memOpsLoop TLI fuel inner Limit Op' DstAS NumMemOps Size Ty MemOps.
Proof.
  induction fuel as [|k IH]; intros NumMemOps Size Ty MemOps;
    cbn [memOpsLoop]; [reflexivity|].
  destruct (Size =? 0); [reflexivity|].
  rewrite (shrinkTypeLoop_any_op inner Op Op').
  destruct (shrinkTypeLoop TLI inner Op' DstAS NumMemOps Size Ty
                           (u32 (LLTOps.getSizeInBytes Ty)))
    as [[Ty' TySize]|]; [|reflexivity].
  destruct (u32 (NumMemOps + 1) >? Limit); [reflexivity|].
  apply IH.
Qed.

Lemma alignTypeLoop_any_op (fuel : nat) (Op Op' : MemOp) (DstAS : Z) :
  DstAlign Op = DstAlign Op' ->
  forall Ty, alignTypeLoop TLI fuel Op DstAS Ty
             = alignTypeLoop TLI fuel Op' DstAS Ty.
Proof.
  intro E. induction fuel as [|k IH]; intro Ty; cbn [alignTypeLoop];
    rewrite E; [reflexivity|].
  destruct ((Align_value (DstAlign Op') <? LLTOps.getSizeInBytes Ty)
            && negb (allowsMisalignedMemoryAccesses TLI Ty DstAS
                       (Align_value (DstAlign Op')))); [|reflexivity].
  apply IH.
Qed.

Lemma alignTypeLoop_fits (fuel : nat) (Op : MemOp) (DstAS : Z) :
  forall Ty Ty',
    fitsUnsigned Ty ->
    alignTypeLoop TLI fuel Op DstAS Ty = Some Ty' -> fitsUnsigned Ty'.
Proof.
  induction fuel as [|k IH]; intros Ty Ty' HTy H; cbn [alignTypeLoop] in H.
  - destruct (_ && _); [discriminate|]. inversion H; subst. exact HTy.
  - destruct (_ && _).
    + apply (IH _ _ (fitsUnsigned_scalar _ HTy) H).
    + inversion H; subst. exact HTy.
Qed.

Lemma memOpsLoop_offsets (fuel inner : nat) (Limit : Z) (Op : MemOp)
      (DstAS : Z) :
  forall NumMemOps Size Ty MemOps R,
    fitsUnsigned Ty -> 0 <= Size < 2 ^ 32 ->
    memOpsLoop TLI fuel inner Limit Op DstAS NumMemOps Size Ty MemOps
    = Some (true, R) ->
    exists L,
      R = MemOps ++ L
      /\ forall off, memcpyOffsets L off Size = memmoveOffsets L off.
Proof.
  induction fuel as [|k IH]; intros NumMemOps Size Ty MemOps R HTy HS H;
    cbn [memOpsLoop] in H.
  - destruct (Z.eqb_spec Size 0); [|discriminate].
    inversion H; subst. exists []. rewrite app_nil_r. auto.
  - destruct (Z.eqb_spec Size 0).
    + inversion H; subst. exists []. rewrite app_nil_r. auto.
    + destruct (shrinkTypeLoop TLI inner Op DstAS NumMemOps Size Ty
                               (u32 (LLTOps.getSizeInBytes Ty)))
        as [[Ty' TySize]|] eqn:ES; [|discriminate].
      destruct (shrinkTypeLoop_no_overlap _ _ _ _ _ _ _ _ HTy ES)
        as (HTy' & ETy & Hle).
      destruct (u32 (NumMemOps + 1) >? Limit); [discriminate|].
      assert (Hb : 0 <= TySize) by (rewrite ETy; apply HTy').
      rewrite u64_small in H by lia.
      assert (HS' : 0 <= Size - TySize < 2 ^ 32) by lia.
      destruct (IH _ _ _ _ _ HTy' HS' H) as (L & ER & Hoff).
      exists (Ty' :: L). split.
      * rewrite ER, <- app_assoc. reflexivity.
      * intro off. cbn [memcpyOffsets memmoveOffsets].
        rewrite <- ETy.
        replace (TySize >? Size) with false
          by (symmetry; rewrite Z.gtb_ltb; apply Z.ltb_ge; exact Hle).
        rewrite (u32_small (Size - TySize)) by lia.
        rewrite Hoff. reflexivity.
Qed.

End PlanFacts.

(** Without fast overlapping accesses the planner call of the move
    answers as the planner call of the copy. *)
Lemma memmovePlan_eq_memcpyPlan :
  forall (TLI : TargetLowering)
         (getOpcodeDef :
            MachineRegisterInfo -> Opcode -> Register -> option MachineInstr)
         (isOSDarwin hasMinSize hasOptSize : bool)
         (isFixedObjectIndex : Z -> bool) (fuel : nat)
         (st : CombinerState) (MI : MachineInstr) (Dst : Register)
         (KnownLen : Z) (DstAlign SrcAlign : Align) (IsVolatile : bool),
    (forall Ty AS Al,
        fst (allowsMisalignedMemoryAccessesFast TLI Ty AS Al)
        && snd (allowsMisalignedMemoryAccessesFast TLI Ty AS Al) = false) ->
    getMaxStoresPerMemmove TLI
      (shouldLowerMemFuncForSize isOSDarwin hasMinSize hasOptSize)
    = getMaxStoresPerMemcpy TLI
        (shouldLowerMemFuncForSize isOSDarwin hasMinSize hasOptSize) ->
    (forall Size CanChange A S v v',
        getOptimalMemOpLLT TLI (MemOpOps.Copy Size CanChange A S v)
        = getOptimalMemOpLLT TLI (MemOpOps.Copy Size CanChange A S v')) ->
    memmovePlan TLI getOpcodeDef isOSDarwin hasMinSize hasOptSize
                isFixedObjectIndex fuel st MI Dst KnownLen DstAlign SrcAlign
    = memcpyPlan TLI getOpcodeDef isOSDarwin hasMinSize hasOptSize
                 isFixedObjectIndex fuel st MI Dst KnownLen DstAlign SrcAlign
                 IsVolatile.
Proof.
  intros TLI god dar mins opts fixed fuel st MI Dst KnownLen DA SA
         IsVolatile NoFast HLimit HOpt.
  unfold memmovePlan, memcpyPlan, findGISelOptimalMemOpLowering.
  rewrite HLimit.
  rewrite (HOpt _ _ _ _ true IsVolatile).
  unfold MemOpOps.isMemcpyWithFixedDstAlign, MemOpOps.isMemcpy,
    MemOpOps.isFixedDstAlign.
  cbn [MemOpOps.Copy IsMemset DstAlignCanChange SrcAlign DstAlign
       MO_Size].
  match goal with
  | |- (if ?c then _ else _) = _ => destruct c; [reflexivity|]
  end.
  rewrite (alignTypeLoop_any_op TLI fuel
             (MemOpOps.Copy KnownLen (snd (frameIndexDef god fixed st Dst))
                            (commonAlignmentOf DA SA) SA true)
             (MemOpOps.Copy KnownLen (snd (frameIndexDef god fixed st Dst))
                            (commonAlignmentOf DA SA) SA IsVolatile))
    by reflexivity.
  match goal with
  | |- match ?x with _ => _ end = _ => destruct x as [Ty|]; [|reflexivity]
  end.
  apply memOpsLoop_any_op. exact NoFast.
Qed.

(** On a memmove plan the copy loop never moves a chunk back: it
    places the chunks where the move loops place them. *)
Lemma memmovePlan_offsets :
  forall (TLI : TargetLowering)
         (getOpcodeDef :
            MachineRegisterInfo -> Opcode -> Register -> option MachineInstr)
         (isOSDarwin hasMinSize hasOptSize : bool)
         (isFixedObjectIndex : Z -> bool) (fuel : nat)
         (st : CombinerState) (MI : MachineInstr) (Dst : Register)
         (KnownLen : Z) (DstAlign SrcAlign : Align) (MemOps : list LLT),
    (forall Ty AS Al,
        fst (allowsMisalignedMemoryAccessesFast TLI Ty AS Al)
        && snd (allowsMisalignedMemoryAccessesFast TLI Ty AS Al) = false) ->
    (forall Op, fitsUnsigned (getOptimalMemOpLLT TLI Op)) ->
    0 <= KnownLen < 2 ^ 32 ->
    memmovePlan TLI getOpcodeDef isOSDarwin hasMinSize hasOptSize
                isFixedObjectIndex fuel st MI Dst KnownLen DstAlign SrcAlign
    = Some (true, MemOps) ->
    memcpyOffsets MemOps 0 KnownLen = memmoveOffsets MemOps 0.
Proof.
  intros TLI god dar mins opts fixed fuel st MI Dst KnownLen DA SA MemOps
         NoFast HFits HLen H.
  unfold memmovePlan, findGISelOptimalMemOpLowering in H.
  match type of H with
  | (if ?c then _ else _) = _ => destruct c; [discriminate|]
  end.
  match type of H with
  | match ?x with _ => _ end = _ => destruct x as [Ty|] eqn:ETy;
                                    [|discriminate]
  end.
  assert (HTy : fitsUnsigned Ty).
  { destruct (LLTOps.eqb _ LLT_invalid).
    - destruct (MemOpOps.isFixedDstAlign _).
      + eapply alignTypeLoop_fits; [|exact ETy].
        apply fitsUnsigned_scalar. lia.
      + inversion ETy. apply fitsUnsigned_scalar. lia.
    - inversion ETy. apply HFits. }
  cbn [MemOpOps.Copy MO_Size] in H.
  rewrite u64_small in H by lia.
  destruct (memOpsLoop_offsets TLI NoFast _ _ _ _ _ _ _ _ _ _ HTy HLen H)
    as (L & -> & Hoff).
  cbn [app]. apply Hoff.
Qed.

(** C7 (as amended).  Memmove plans exactly as memcpy would with
    overlapping accesses disallowed.  For the same length, alignments
    and target answers (same operation limit, same optimal type), and
    on a target that never reports an overlapping misaligned access as
    allowed and fast, the memmove lowering computes the same sequence
    of chunk types as the memcpy lowering, and the offsets at which the
    memcpy loop places these chunks are those of the memmove loops. *)
Theorem memmove_plans_as_memcpy_without_overlap :
  forall (TLI : TargetLowering)
         (getOpcodeDef :
            MachineRegisterInfo -> Opcode -> Register -> option MachineInstr)
         (isOSDarwin hasMinSize hasOptSize : bool)
         (isFixedObjectIndex : Z -> bool) (fuel : nat)
         (st : CombinerState) (MI : MachineInstr) (Dst : Register)
         (KnownLen : Z) (DstAlign SrcAlign : Align) (IsVolatile : bool),
    (forall Ty AS Al,
        fst (allowsMisalignedMemoryAccessesFast TLI Ty AS Al)
        && snd (allowsMisalignedMemoryAccessesFast TLI Ty AS Al) = false) ->
    getMaxStoresPerMemmove TLI
      (shouldLowerMemFuncForSize isOSDarwin hasMinSize hasOptSize)
    = getMaxStoresPerMemcpy TLI
        (shouldLowerMemFuncForSize isOSDarwin hasMinSize hasOptSize) ->
    (forall Size CanChange A S v v',
        getOptimalMemOpLLT TLI (MemOpOps.Copy Size CanChange A S v)
        = getOptimalMemOpLLT TLI (MemOpOps.Copy Size CanChange A S v')) ->
    (forall Op, fitsUnsigned (getOptimalMemOpLLT TLI Op)) ->
    0 <= KnownLen < 2 ^ 32 ->
    memmovePlan TLI getOpcodeDef isOSDarwin hasMinSize hasOptSize
                isFixedObjectIndex fuel st MI Dst KnownLen DstAlign SrcAlign
    = memcpyPlan TLI getOpcodeDef isOSDarwin hasMinSize hasOptSize
                 isFixedObjectIndex fuel st MI Dst KnownLen DstAlign SrcAlign
                 IsVolatile
    /\ forall MemOps,
        memmovePlan TLI getOpcodeDef isOSDarwin hasMinSize hasOptSize
                    isFixedObjectIndex fuel st MI Dst KnownLen DstAlign
                    SrcAlign
        = Some (true, MemOps) ->
        memcpyOffsets MemOps 0 KnownLen = memmoveOffsets MemOps 0.
Proof.
  intros TLI god dar mins opts fixed fuel st MI Dst KnownLen DA SA
         IsVolatile NoFast HLimit HOpt HFits HLen.
  split.
  - apply memmovePlan_eq_memcpyPlan; assumption.
  - intros MemOps H.
    exact (memmovePlan_offsets TLI god dar mins opts fixed fuel st MI Dst
             KnownLen DA SA MemOps NoFast HFits HLen H).
Qed.

Lemma memmove_plans_as_memcpy_without_overlap_witness :
  memmovePlan (Examples.simpleTLI false) Examples.opcodeDefOf
              false false false (fun _ => true) 64%nat
              (Examples.memState G_MEMMOVE 7) (Examples.memOp G_MEMMOVE)
              (Examples.v 0) 7 (mkAlign 2) (mkAlign 2)
  = memcpyPlan (Examples.simpleTLI false) Examples.opcodeDefOf
               false false false (fun _ => true) 64%nat
               (Examples.memState G_MEMMOVE 7) (Examples.memOp G_MEMMOVE)
               (Examples.v 0) 7 (mkAlign 2) (mkAlign 2) false
  /\ forall MemOps,
      memmovePlan (Examples.simpleTLI false) Examples.opcodeDefOf
                  false false false (fun _ => true) 64%nat
                  (Examples.memState G_MEMMOVE 7) (Examples.memOp G_MEMMOVE)
                  (Examples.v 0) 7 (mkAlign 2) (mkAlign 2)
      = Some (true, MemOps) ->
      memcpyOffsets MemOps 0 7 = memmoveOffsets MemOps 0.
Proof.
  apply (memmove_plans_as_memcpy_without_overlap
           (Examples.simpleTLI false) Examples.opcodeDefOf
           false false false (fun _ => true) 64%nat
           (Examples.memState G_MEMMOVE 7) (Examples.memOp G_MEMMOVE)
           (Examples.v 0) 7 (mkAlign 2) (mkAlign 2) false).
  - intros. reflexivity.
  - reflexivity.
  - intros. reflexivity.
  - intro Op. unfold fitsUnsigned.
    change (LLTOps.getSizeInBytes
              (getOptimalMemOpLLT (Examples.simpleTLI false) Op)) with 0.
    lia.
  - lia.
Defined.

(** C7 (as stated) fails: on a target that reports overlapping
    misaligned accesses as fast, with the same limit and the same
    optimal type for both, a copy of 7 bytes is planned as two 4-byte
    chunks at offsets 0 and 3, a move of 7 bytes as chunks of 4, 2 and
    1 bytes at offsets 0, 4 and 6. *)
Lemma memmove_plan_differs_from_memcpy_plan :
  Examples.memcpyPlan7 = Some (true, [LLT_scalar 32; LLT_scalar 32])
  /\ Examples.memmovePlan7
     = Some (true, [LLT_scalar 32; LLT_scalar 16; LLT_scalar 8])
  /\ memcpyOffsets [LLT_scalar 32; LLT_scalar 32] 0 7 = [0; 3]
  /\ memmoveOffsets [LLT_scalar 32; LLT_scalar 16; LLT_scalar 8] 0 = [0; 4; 6]
  /\ (exists stc stm,
         Examples.tryExample true G_MEMCPY 7 0 = Some (true, stc)
         /\ Examples.tryExample true G_MEMMOVE 7 0 = Some (true, stm)
         /\ accesses G_STORE (Insts stc) = [(4, 0); (4, 3)]
         /\ accesses G_STORE (Insts stm) = [(4, 0); (2, 4); (1, 6)]).
Proof.
  split; [vm_compute; reflexivity|].
  split; [vm_compute; reflexivity|].
  split; [vm_compute; reflexivity|].
  split; [vm_compute; reflexivity|].
  eexists. eexists.
  split; [vm_compute; reflexivity|].
  split; [vm_compute; reflexivity|].
  split; vm_compute; reflexivity.
Qed.

(* ------------------------------------------------------------------ *)
(** ** The planner and the lowerings return *)

Lemma PowerOf2Floor_nonneg (A : Z) : 0 <= PowerOf2Floor A.
Proof.
  unfold PowerOf2Floor. destruct (A <=? 0); [lia|].
  apply Z.pow_nonneg. lia.
Qed.

Lemma PowerOf2Floor_below (A : Z) (m : nat) :
  A < 2 ^ Z.of_nat (S m) -> PowerOf2Floor A <= 2 ^ Z.of_nat m.
Proof.
  intro H. unfold PowerOf2Floor. destruct (Z.leb_spec A 0).
  - apply Z.pow_nonneg. lia.
  - apply Z.pow_le_mono_r; [lia|].
    apply Z.log2_lt_pow2 in H; lia.
Qed.

Lemma u32_le (x : Z) : 0 <= x -> u32 x <= x.
Proof. intro H. unfold u32. apply Z.mod_le; lia. Qed.

Section PlannerTermination.

Variable TLI : TargetLowering.
Variable Op : MemOp.
Variable DstAS : Z.

Lemma shrinkTypeLoop_exit (fuel : nat) (NumMemOps Size : Z) (Ty : LLT)
      (TySize : Z) :
  TySize <= Size ->
  shrinkTypeLoop TLI fuel Op DstAS NumMemOps Size Ty TySize
  = Some (Ty, TySize).
Proof.
  intro H.
  assert (E : (TySize >? Size) = false)
    by (rewrite Z.gtb_ltb; apply Z.ltb_ge; exact H).
  destruct fuel; cbn [shrinkTypeLoop]; rewrite E; reflexivity.
Qed.

(** From a scalar of at most [2 ^ m] bits the inner loop ends within
    [m] rounds: every round at least halves the width. *)
Lemma shrinkTypeLoop_total_scalar (NumMemOps Size : Z) :
  1 <= Size ->
  forall (m fuel : nat) (P : Z),
    0 <= P <= 2 ^ Z.of_nat m -> (m <= 32)%nat -> (m <= fuel)%nat ->
    exists r,
      shrinkTypeLoop TLI fuel Op DstAS NumMemOps Size (LLT_scalar P)
                     (u32 (LLTOps.getSizeInBytes (LLT_scalar P)))
      = Some r.
Proof.
  intros HS. induction m as [|m IH]; intros fuel P HP Hm Hf.
  - eexists. apply shrinkTypeLoop_exit.
    unfold LLTOps.getSizeInBytes. cbn [LLTOps.getSizeInBits].
    change (2 ^ Z.of_nat 0) with 1 in HP.
    assert (B : 0 <= (P + 7) / 8 <= 1).
    { split; [apply Z.div_pos; lia|].
      apply Z.lt_succ_r. apply Z.div_lt_upper_bound; lia. }
    rewrite u32_small by lia. lia.
  - destruct fuel as [|k]; [lia|].
    destruct (Z.le_gt_cases (u32 (LLTOps.getSizeInBytes (LLT_scalar P))) Size)
      as [Hle | Hgt].
    { eexists. apply shrinkTypeLoop_exit. exact Hle. }
    assert (HP32 : 2 ^ Z.of_nat (S m) <= 2 ^ 32)
      by (apply Z.pow_le_mono_r; lia).
    assert (HP1 : 1 <= P).
    { destruct (Z.eq_dec P 0) as [->|]; [|lia].
      exfalso. revert Hgt. unfold LLTOps.getSizeInBytes.
      cbn [LLTOps.getSizeInBits]. change (u32 ((0 + 7) / 8)) with 0. lia. }
    cbn [shrinkTypeLoop].
    replace (u32 (LLTOps.getSizeInBytes (LLT_scalar P)) >? Size) with true
      by (symmetry; apply Z.gtb_lt; lia).
    cbn [LLTOps.isVector LLTOps.getSizeInBits].
    match goal with
    | |- context [if ?c then shrinkTypeLoop _ _ _ _ _ _ _ (u32 Size) else _] =>
        destruct c
    end.
    + eexists. apply shrinkTypeLoop_exit. apply u32_le. lia.
    + apply IH; [|lia|lia].
      rewrite (u32_small (P - 1)) by lia.
      split; [apply PowerOf2Floor_nonneg|].
      apply PowerOf2Floor_below. lia.
Qed.

(** The inner loop always ends within 33 rounds. *)
Lemma shrinkTypeLoop_total (NumMemOps Size : Z) (fuel : nat) (Ty : LLT)
      (TySize : Z) :
  1 <= Size -> (33 <= fuel)%nat ->
  exists r,
    shrinkTypeLoop TLI fuel Op DstAS NumMemOps Size Ty TySize = Some r.
Proof.
  intros HS Hf.
  destruct (Z.le_gt_cases TySize Size) as [Hle | Hgt].
  { eexists. apply shrinkTypeLoop_exit. exact Hle. }
  destruct fuel as [|k]; [lia|].
  cbn [shrinkTypeLoop].
  replace (TySize >? Size) with true by (symmetry; apply Z.gtb_lt; lia).
  match goal with
  | |- context [if ?c then shrinkTypeLoop _ _ _ _ _ _ _ (u32 Size) else _] =>
      destruct c
  end.
  - eexists. apply shrinkTypeLoop_exit. apply u32_le. lia.
  - apply (shrinkTypeLoop_total_scalar NumMemOps Size HS 32); [|lia|lia].
    split; [apply PowerOf2Floor_nonneg|].
    transitivity (2 ^ Z.of_nat 31).
    + apply PowerOf2Floor_below.
      change (2 ^ Z.of_nat 32) with (2 ^ 32). apply u32_range.
    + apply Z.pow_le_mono_r; lia.
Qed.

(** The outer loop ends once the operation count passes the limit, or
    earlier. *)
Lemma memOpsLoop_total (Limit : Z) (inner : nat) :
  Limit < 2 ^ 32 - 1 -> (33 <= inner)%nat ->
  forall (fuel : nat) (NumMemOps Size : Z) (Ty : LLT) (MemOps : list LLT),
    0 <= NumMemOps <= Limit \/ Size = 0 ->
    0 <= Size ->
    Limit + 1 - NumMemOps <= Z.of_nat fuel ->
    exists r,
      memOpsLoop TLI fuel inner Limit Op DstAS NumMemOps Size Ty MemOps
      = Some r.
Proof.
  intros HL Hin. induction fuel as [|k IH];
    intros NumMemOps Size Ty MemOps HN HS Hf; cbn [memOpsLoop].
  - destruct (Z.eqb_spec Size 0); [eauto|]. lia.
  - destruct (Z.eqb_spec Size 0); [eauto|].
    assert (HN' : 0 <= NumMemOps <= Limit) by lia.
    destruct (shrinkTypeLoop_total NumMemOps Size inner Ty
                (u32 (LLTOps.getSizeInBytes Ty))) as [[Ty' TySize] E];
      [lia | exact Hin |].
    rewrite E. rewrite (u32_small (NumMemOps + 1)) by lia.
    destruct (Z.gtb_spec (NumMemOps + 1) Limit); [eauto|].
    apply IH.
    + left. lia.
    + unfold u64. apply Z.mod_pos_bound. lia.
    + lia.
Qed.

Lemma alignTypeLoop_total (fuel : nat) :
  (1 <= fuel)%nat ->
  exists Ty, alignTypeLoop TLI fuel Op DstAS (LLT_scalar 64) = Some Ty.
Proof.
  intro Hf. destruct fuel as [|k]; [lia|]. cbn [alignTypeLoop].
  match goal with
  | |- context [if ?c then _ else _] => destruct c
  end; [|eauto].
  assert (E : (Align_value (DstAlign Op)
               <? LLTOps.getSizeInBytes
                    (LLT_scalar (LLTOps.getSizeInBytes (LLT_scalar 64))))
              = false).
  { apply Z.ltb_ge. change (LLTOps.getSizeInBytes
                              (LLT_scalar (LLTOps.getSizeInBytes
                                             (LLT_scalar 64)))) with 1.
    unfold Align_value.
    assert (0 < 2 ^ Z.of_nat (ShiftValue (DstAlign Op)))
      by (apply Z.pow_pos_nonneg; lia).
    lia. }
  destruct k; cbn [alignTypeLoop]; rewrite E; cbn [andb]; eauto.
Qed.

End PlannerTermination.

(** The planner is total: with fuel for 33 rounds of the inner loop
    and [Limit + 1] rounds of the outer one it returns. *)
Lemma findGISelOptimalMemOpLowering_total :
  forall (TLI : TargetLowering) (fuel : nat) (MemOps : list LLT)
         (Limit : Z) (Op : MemOp) (DstAS SrcAS : Z),
    0 <= Limit < 2 ^ 32 - 1 ->
    (33 <= fuel)%nat -> Limit + 1 <= Z.of_nat fuel ->
    exists r,
      findGISelOptimalMemOpLowering TLI fuel MemOps Limit Op DstAS SrcAS
      = Some r.
Proof.
  intros TLI fuel MemOps Limit Op DstAS SrcAS HL Hf HLf.
  unfold findGISelOptimalMemOpLowering.
  match goal with
  | |- context [if ?c then Some (false, MemOps) else _] => destruct c
  end; [eauto|].
  assert (HT : exists Ty,
             (if LLTOps.eqb (getOptimalMemOpLLT TLI Op) LLT_invalid
              then if MemOpOps.isFixedDstAlign Op
                   then alignTypeLoop TLI fuel Op DstAS (LLT_scalar 64)
                   else Some (LLT_scalar 64)
              else Some (getOptimalMemOpLLT TLI Op)) = Some Ty).
  { destruct (LLTOps.eqb _ _); [|eauto].
    destruct (MemOpOps.isFixedDstAlign Op); [|eauto].
    apply alignTypeLoop_total. lia. }
  destruct HT as [Ty ->].
  apply memOpsLoop_total; try lia.
  unfold u64. apply Z.mod_pos_bound. lia.
Qed.

Lemma frameIndexDef_can_change :
  forall getOpcodeDef isFixedObjectIndex st Dst FIDef,
    frameIndexDef getOpcodeDef isFixedObjectIndex st Dst = (FIDef, true) ->
    exists d, FIDef = Some d.
Proof.
  intros god fixed st Dst FIDef H. unfold frameIndexDef in H.
  destruct (god (MRIof st) G_FRAME_INDEX Dst) as [d|].
  - inversion H; subst. exists d. reflexivity.
  - inversion H.
Qed.

Lemma raiseDstAlign_runs :
  forall getABITypeAlign exceedsNaturalStackAlignment needsStackRealignment
         Realign d Ty0 Alignment st,
    exists a st1,
      raiseDstAlign getABITypeAlign exceedsNaturalStackAlignment
                    needsStackRealignment Realign (Some d) Ty0 Alignment st
      = Some (a, st1).
Proof.
  intros abi exceeds realign Realign d Ty0 Alignment st.
  unfold raiseDstAlign.
  match goal with
  | |- context [if ?c then _ else _] => destruct c
  end.
  - unfold bind, getState.
    match goal with
    | |- context [if ?c then _ else _] => destruct c
    end; unfold setObjectAlignment, ret; eauto.
  - unfold ret. eauto.
Qed.

(** Once the planner has answered, the memmove lowering runs to its
    end and reports the planner's flag. *)
Lemma optimizeMemmove_runs :
  forall (TLI : TargetLowering)
         (getOpcodeDef :
            MachineRegisterInfo -> Opcode -> Register -> option MachineInstr)
         (isOSDarwin hasMinSize hasOptSize : bool)
         (isFixedObjectIndex : Z -> bool) (getABITypeAlign : LLT -> Align)
         (exceedsNaturalStackAlignment : Align -> bool)
         (needsStackRealignment : bool) (fuel : nat)
         (MI : MachineInstr) (Dst Src : Register) (KnownLen : Z)
         (DstAlign SrcAlign : Align) (IsVolatile : bool)
         (st : CombinerState) (pre post : list MachineInstr)
         (ok : bool) (MemOps : list LLT),
    Insts st = pre ++ MI :: post ->
    Forall (fun i => Id i <> Id MI) (pre ++ post) ->
    Id MI < NextId st ->
    memmovePlan TLI getOpcodeDef isOSDarwin hasMinSize hasOptSize
                isFixedObjectIndex fuel st MI Dst KnownLen DstAlign SrcAlign
    = Some (ok, MemOps) ->
    exists st',
      optimizeMemmove TLI getOpcodeDef isOSDarwin hasMinSize hasOptSize
                      isFixedObjectIndex getABITypeAlign
                      exceedsNaturalStackAlignment needsStackRealignment fuel
                      MI Dst Src KnownLen DstAlign SrcAlign IsVolatile st
      = Some (ok, st').
Proof.
  intros TLI god dar mins opts fixed abi exceeds realign fuel MI Dst Src
         KnownLen DA SA IsVolatile st pre post ok MemOps HI HF HN HP.
  apply Forall_app in HF. destruct HF as [Fpre Fpost].
  unfold optimizeMemmove, bind, getState.
  destruct (frameIndexDef god fixed st Dst) as [FIDef CanChange] eqn:EFI.
  rewrite HP. destruct ok; [|unfold ret; eauto].
  assert (R : exists a st1,
             (if CanChange
              then raiseDstAlign abi exceeds realign true FIDef
                                 (hd LLT_invalid MemOps)
                                 (commonAlignmentOf DA SA)
              else ret (commonAlignmentOf DA SA)) st = Some (a, st1)).
  { destruct CanChange.
    - destruct (frameIndexDef_can_change _ _ _ _ _ EFI) as [d ->].
      apply raiseDstAlign_runs.
    - unfold ret. eauto. }
  destruct R as (a & st1 & ER). rewrite ER.
  assert (K : Insts st1 = Insts st /\ NextId st1 = NextId st).
  { destruct CanChange.
    - apply raiseDstAlign_keeps_graph in ER. tauto.
    - unfold ret in ER. inversion ER; subst. auto. }
  destruct K as [KI KN].
  destruct (memmoveLoadLoop_emits MI post (stateType st Src) Src (secondMMO MI)
              MemOps pre st1 0 [])
    as (loads & st2 & Hload & HAt2 & _).
  { rewrite KI, KN. auto. }
  rewrite Hload. cbn [app].
  destruct (memmoveStoreLoop_emits MI post (stateType st Src) Dst (firstMMO MI)
              (firstRegs G_LOAD loads) MemOps (pre ++ loads) st2 0%nat 0)
    as (stores & st3 & Hstore & _).
  { exact HAt2. }
  rewrite Hstore. unfold eraseFromParent, ret. eauto.
Qed.

(** The memmove lowering is total on a state in which the [G_MEMMOVE]
    stands, for a target whose operation limit is below [UINT_MAX]. *)
Lemma optimizeMemmove_total :
  forall (TLI : TargetLowering)
         (getOpcodeDef :
            MachineRegisterInfo -> Opcode -> Register -> option MachineInstr)
         (isOSDarwin hasMinSize hasOptSize : bool)
         (isFixedObjectIndex : Z -> bool) (getABITypeAlign : LLT -> Align)
         (exceedsNaturalStackAlignment : Align -> bool)
         (needsStackRealignment : bool) (fuel : nat)
         (MI : MachineInstr) (Dst Src : Register) (KnownLen : Z)
         (DstAlign SrcAlign : Align) (IsVolatile : bool)
         (st : CombinerState) (pre post : list MachineInstr),
    Insts st = pre ++ MI :: post ->
    Forall (fun i => Id i <> Id MI) (pre ++ post) ->
    Id MI < NextId st ->
    0 <= getMaxStoresPerMemmove TLI
           (shouldLowerMemFuncForSize isOSDarwin hasMinSize hasOptSize)
      < 2 ^ 32 - 1 ->
    (33 <= fuel)%nat ->
    getMaxStoresPerMemmove TLI
      (shouldLowerMemFuncForSize isOSDarwin hasMinSize hasOptSize) + 1
    <= Z.of_nat fuel ->
    exists ok st',
      optimizeMemmove TLI getOpcodeDef isOSDarwin hasMinSize hasOptSize
                      isFixedObjectIndex getABITypeAlign
                      exceedsNaturalStackAlignment needsStackRealignment fuel
                      MI Dst Src KnownLen DstAlign SrcAlign IsVolatile st
      = Some (ok, st').
Proof.
  intros TLI god dar mins opts fixed abi exceeds realign fuel MI Dst Src
         KnownLen DA SA IsVolatile st pre post HI HF HN HL Hf HLf.
  destruct (findGISelOptimalMemOpLowering_total TLI fuel []
              (getMaxStoresPerMemmove TLI
                 (shouldLowerMemFuncForSize dar mins opts))
              (MemOpOps.Copy KnownLen (snd (frameIndexDef god fixed st Dst))
                             (commonAlignmentOf DA SA) SA true)
              (MMO_AddrSpace (firstMMO MI)) (MMO_AddrSpace (secondMMO MI))
              HL Hf HLf) as [[ok MemOps] HP].
  exists ok.
  apply (optimizeMemmove_runs TLI god dar mins opts fixed abi exceeds realign
           fuel MI Dst Src KnownLen DA SA IsVolatile st pre post ok MemOps
           HI HF HN).
  exact HP.
Qed.

Lemma accesses_none (O : Opcode) (l : list MachineInstr) :
  countOpcode O l = 0%nat -> accesses O l = [].
Proof.
  unfold countOpcode, accesses. intro H.
  destruct (filter (fun i => opc_eqb (Opc i) O) l); [reflexivity|].
  discriminate H.
Qed.

(** C7 at the level of the emitted instructions: under the conditions
    of the amended claim, when both lowerings succeed on the same
    operation they emit loads of the same sizes at the same offsets,
    in the same order, and likewise stores. *)
Lemma memmove_accesses_as_memcpy :
  forall (TLI : TargetLowering)
         (getOpcodeDef :
            MachineRegisterInfo -> Opcode -> Register -> option MachineInstr)
         (isOSDarwin hasMinSize hasOptSize : bool)
         (isFixedObjectIndex : Z -> bool) (getABITypeAlign : LLT -> Align)
         (exceedsNaturalStackAlignment : Align -> bool)
         (needsStackRealignment : bool) (fuel : nat)
         (MI : MachineInstr) (Dst Src : Register) (KnownLen : Z)
         (DstAlign SrcAlign : Align) (IsVolatile : bool)
         (st stc stm : CombinerState) (pre post : list MachineInstr),
    (forall Ty AS Al,
        fst (allowsMisalignedMemoryAccessesFast TLI Ty AS Al)
        && snd (allowsMisalignedMemoryAccessesFast TLI Ty AS Al) = false) ->
    getMaxStoresPerMemmove TLI
      (shouldLowerMemFuncForSize isOSDarwin hasMinSize hasOptSize)
    = getMaxStoresPerMemcpy TLI
        (shouldLowerMemFuncForSize isOSDarwin hasMinSize hasOptSize) ->
    (forall Size CanChange A S v v',
        getOptimalMemOpLLT TLI (MemOpOps.Copy Size CanChange A S v)
        = getOptimalMemOpLLT TLI (MemOpOps.Copy Size CanChange A S v')) ->
    (forall Op, fitsUnsigned (getOptimalMemOpLLT TLI Op)) ->
    0 <= KnownLen < 2 ^ 32 ->
    Insts st = pre ++ MI :: post ->
    Forall (fun i => Id i <> Id MI) (pre ++ post) ->
    Id MI < NextId st ->
    optimizeMemcpy TLI getOpcodeDef isOSDarwin hasMinSize hasOptSize
                   isFixedObjectIndex getABITypeAlign
                   exceedsNaturalStackAlignment needsStackRealignment fuel
                   MI Dst Src KnownLen DstAlign SrcAlign IsVolatile st
    = Some (true, stc) ->
    optimizeMemmove TLI getOpcodeDef isOSDarwin hasMinSize hasOptSize
                    isFixedObjectIndex getABITypeAlign
                    exceedsNaturalStackAlignment needsStackRealignment fuel
                    MI Dst Src KnownLen DstAlign SrcAlign IsVolatile st
    = Some (true, stm) ->
    exists (C M : list MachineInstr),
      Insts stc = pre ++ C ++ post
      /\ Insts stm = pre ++ M ++ post
      /\ accesses G_LOAD M = accesses G_LOAD C
      /\ accesses G_STORE M = accesses G_STORE C.
Proof.
  intros TLI god dar mins opts fixed abi exceeds realign fuel MI Dst Src
         KnownLen DA SA IsVolatile st stc stm pre post NoFast HLimit HOpt
         HFits HLen HI HF HN Hc Hm.
  destruct (optimizeMemcpy_emits TLI god dar mins opts fixed abi exceeds
              realign fuel MI Dst Src KnownLen DA SA IsVolatile st stc
              pre post HI HF HN Hc)
    as (Pc & C & HPc & HIc & Hcl & Hcs).
  destruct (optimizeMemmove_emits TLI god dar mins opts fixed abi exceeds
              realign fuel MI Dst Src KnownLen DA SA IsVolatile st stm
              pre post HI HF HN Hm)
    as (Pm & loads & stores & HPm & HIm & Hnostore & Hnoload
        & Hml & Hms & _).
  pose proof (memmovePlan_eq_memcpyPlan TLI god dar mins opts fixed fuel st
                MI Dst KnownLen DA SA IsVolatile NoFast HLimit HOpt) as EP.
  rewrite HPm, HPc in EP. inversion EP; subst Pc.
  pose proof (memmovePlan_offsets TLI god dar mins opts fixed fuel st MI Dst
                KnownLen DA SA Pm NoFast HFits HLen HPm) as EO.
  exists C, (loads ++ stores).
  split; [exact HIc|]. split; [exact HIm|].
  rewrite !accesses_app.
  rewrite (accesses_none G_LOAD stores Hnoload).
  rewrite (accesses_none G_STORE loads Hnostore).
  rewrite app_nil_r. cbn [app].
  rewrite Hml, Hms, Hcl, Hcs, EO. split; reflexivity.
Qed.

(** On the target without fast misaligned accesses the copy and the
    move of 7 bytes access the same chunks. *)
Example memcpy7_without_fast_overlap :
  exists stc stm,
    Examples.tryExample false G_MEMCPY 7 0 = Some (true, stc)
    /\ Examples.tryExample false G_MEMMOVE 7 0 = Some (true, stm)
    /\ accesses G_LOAD (Insts stc) = [(4, 0); (2, 4); (1, 6)]
    /\ accesses G_LOAD (Insts stm) = [(4, 0); (2, 4); (1, 6)]
    /\ accesses G_STORE (Insts stc) = [(4, 0); (2, 4); (1, 6)]
    /\ accesses G_STORE (Insts stm) = [(4, 0); (2, 4); (1, 6)].
Proof.
  eexists. eexists.
  split; [vm_compute; reflexivity|].
  split; [vm_compute; reflexivity|].
  repeat split.
Qed.

(* ------------------------------------------------------------------ *)
(** ** The planner: how many chunks, and which bytes they cover *)

Ltac andb_hyps :=
  repeat match goal with
         | H : _ && _ = true |- _ => apply andb_prop in H; destruct H
         | H : (_ <=? _) = true |- _ => apply Z.leb_le in H
         | H : (_ <? _) = true |- _ => apply Z.ltb_lt in H
         | H : (_ =? _) = true |- _ => apply Z.eqb_eq in H
         end.

Lemma contiguousTo_covers (chunks : list (Z * Z)) (lo hi : Z) :
  forall cur,
    lo <= cur ->
    contiguousTo chunks lo cur hi = true ->
    Forall (chunkInside lo hi) chunks
    /\ forall x, cur <= x < hi -> byteCovered chunks x.
Proof.
  induction chunks as [|[b o] tl IH]; intros cur Hlo H; cbn [contiguousTo] in H.
  - apply Z.eqb_eq in H. split; [constructor | intros x Hx; lia].
  - apply andb_prop in H. destruct H as [H Htl]. andb_hyps.
    destruct (IH (o + b) ltac:(lia) Htl) as [HF HC].
    split.
    + constructor; [split; cbn [fst snd]; lia | exact HF].
    + intros x Hx. destruct (Z.lt_ge_cases x (o + b)) as [Hin | Hout].
      * exists (b, o). split; [left; reflexivity | cbn [fst snd]; lia].
      * destruct (HC x ltac:(lia)) as (c & Hc & Hr).
        exists c. split; [right; exact Hc | exact Hr].
Qed.

Lemma tilesFrom_contiguousTo (chunks : list (Z * Z)) (hi : Z) :
  forall lo cur,
    lo <= cur ->
    tilesFrom chunks cur hi = true -> contiguousTo chunks lo cur hi = true.
Proof.
  induction chunks as [|[b o] tl IH]; intros lo cur Hlo H;
    cbn [tilesFrom contiguousTo] in *; [exact H|].
  apply andb_prop in H. destruct H as [H Htl]. andb_hyps. subst o.
  assert (Hhi : forall l c, tilesFrom l c hi = true -> c <= hi).
  { clear. induction l as [|[b' o'] l IH']; intros c Ht; cbn [tilesFrom] in Ht.
    - apply Z.eqb_eq in Ht. lia.
    - apply andb_prop in Ht. destruct Ht as [Ht Hl]. andb_hyps. subst o'.
      specialize (IH' _ Hl). lia. }
  pose proof (Hhi _ _ Htl).
  rewrite (IH lo (cur + b)) by (lia || assumption).
  rewrite !andb_true_r.
  repeat (apply andb_true_intro; split); apply Z.leb_le; lia.
Qed.

Section PlanShape.

Variable TLI : TargetLowering.
Variable Op : MemOp.
Variable DstAS : Z.

(** What the inner loop settles on: a type no wider than the one it
    started from that fits in what is left, or, after at least one
    operation and where overlap is allowed, a type wider than what is
    left, to be placed so as to end at the end. *)
Lemma shrinkTypeLoop_shape (fuel : nat) (NumMemOps Size : Z) :
  1 <= Size < 2 ^ 32 ->
  forall Ty Ty' TySize,
    fitsUnsigned Ty ->
    shrinkTypeLoop TLI fuel Op DstAS NumMemOps Size Ty
                   (u32 (LLTOps.getSizeInBytes Ty))
    = Some (Ty', TySize) ->
    fitsUnsigned Ty'
    /\ LLTOps.getSizeInBytes Ty' <= LLTOps.getSizeInBytes Ty
    /\ ((TySize = LLTOps.getSizeInBytes Ty' /\ TySize <= Size)
        \/ (NumMemOps <> 0 /\ AllowOverlap Op = true /\ TySize = Size
            /\ Size < LLTOps.getSizeInBytes Ty')).
Proof.
  intros HS. induction fuel as [|k IH]; intros Ty Ty' TySize HTy H;
    cbn [shrinkTypeLoop] in H;
    rewrite (u32_small _ HTy) in H;
    destruct (Z.gtb_spec (LLTOps.getSizeInBytes Ty) Size) as [Hgt | Hle];
    try discriminate;
    try (inversion H; subst; split; [exact HTy|]; split; [lia|];
         left; split; [reflexivity | exact Hle]).
  set (NewTy0 := if LLTOps.isVector Ty
                 then if LLTOps.getSizeInBits Ty >? 64
                      then LLT_scalar 64 else LLT_scalar 32
                 else Ty) in H.
  set (NewTy := LLT_scalar (PowerOf2Floor
                              (u32 (LLTOps.getSizeInBits NewTy0 - 1)))) in H.
  assert (HNew : fitsUnsigned NewTy).
  { apply fitsUnsigned_scalar. apply PowerOf2Floor_range. apply u32_range. }
  assert (Hmono : LLTOps.getSizeInBytes NewTy <= LLTOps.getSizeInBytes Ty).
  { unfold LLTOps.getSizeInBytes in Hgt |- *. unfold NewTy.
    cbn [LLTOps.getSizeInBits].
    assert (Hbits : 9 <= LLTOps.getSizeInBits Ty).
    { destruct (Z.lt_ge_cases (LLTOps.getSizeInBits Ty) 9) as [Hs|]; [|lia].
      exfalso.
      assert ((LLTOps.getSizeInBits Ty + 7) / 8 <= 1).
      { apply Z.lt_succ_r. apply Z.div_lt_upper_bound; lia. }
      lia. }
    unfold NewTy0. destruct (LLTOps.isVector Ty).
    - destruct (Z.gtb_spec (LLTOps.getSizeInBits Ty) 64).
      + cbn [LLTOps.getSizeInBits]. change (u32 (64 - 1)) with 63.
        change ((PowerOf2Floor 63 + 7) / 8) with 4.
        apply Z.div_le_lower_bound; lia.
      + cbn [LLTOps.getSizeInBits]. change (u32 (32 - 1)) with 31.
        change ((PowerOf2Floor 31 + 7) / 8) with 2.
        apply Z.div_le_lower_bound; lia.
    - apply Z.div_le_mono; [lia|].
      assert (Hle : PowerOf2Floor (u32 (LLTOps.getSizeInBits Ty - 1))
                    <= u32 (LLTOps.getSizeInBits Ty - 1)).
      { unfold PowerOf2Floor.
        destruct (Z.leb_spec (u32 (LLTOps.getSizeInBits Ty - 1)) 0);
          [pose proof (u32_range (LLTOps.getSizeInBits Ty - 1)); lia|].
        apply Z.log2_spec. lia. }
      assert (u32 (LLTOps.getSizeInBits Ty - 1)
              <= LLTOps.getSizeInBits Ty - 1).
      { unfold u32. apply Z.mod_le; lia. }
      lia. }
  match type of H with
  | (if ?c then _ else _) = _ => destruct c eqn:EC
  end.
  - rewrite shrinkTypeLoop_exit in H
      by (rewrite u32_small by lia; lia).
    inversion H; subst Ty' TySize.
    apply andb_prop in EC. destruct EC as [EC _].
    apply andb_prop in EC. destruct EC as [EC _].
    apply andb_prop in EC. destruct EC as [EN EA].
    split; [exact HTy|]. split; [lia|]. right.
    split; [intro E0; rewrite E0 in EN; discriminate EN|].
    split; [exact EA|]. split; [apply u32_small; lia | lia].
  - destruct (IH NewTy Ty' TySize HNew H) as (HF & HM & HC).
    split; [exact HF|]. split; [lia | exact HC].
Qed.

End PlanShape.

Section PlanCover.

Variable TLI : TargetLowering.
Variable Op : MemOp.
Variable DstAS : Z.
Variable Limit : Z.
Variable inner : nat.

(** The chunks the outer loop appends number at most what is left of
    the limit. *)
Lemma memOpsLoop_count :
  Limit < 2 ^ 32 - 1 ->
  forall (fuel : nat) (NumMemOps Size : Z) (Ty : LLT) (MemOps R : list LLT),
    0 <= NumMemOps <= Limit ->
    memOpsLoop TLI fuel inner Limit Op DstAS NumMemOps Size Ty MemOps
    = Some (true, R) ->
    exists L, R = MemOps ++ L /\ NumMemOps + Z.of_nat (length L) <= Limit.
Proof.
  intros HL. induction fuel as [|k IH];
    intros NumMemOps Size Ty MemOps R HN H; cbn [memOpsLoop] in H.
  - destruct (Size =? 0); [|discriminate].
    inversion H; subst. exists []. rewrite app_nil_r.
      split; [reflexivity | cbn [length]; lia].
  - destruct (Size =? 0).
    + inversion H; subst. exists []. rewrite app_nil_r.
      split; [reflexivity | cbn [length]; lia].
    + destruct (shrinkTypeLoop TLI inner Op DstAS NumMemOps Size Ty
                               (u32 (LLTOps.getSizeInBytes Ty)))
        as [[Ty' TySize]|]; [|discriminate].
      rewrite (u32_small (NumMemOps + 1)) in H by lia.
      destruct (Z.gtb_spec (NumMemOps + 1) Limit); [discriminate|].
      assert (HN' : 0 <= NumMemOps + 1 <= Limit) by lia.
      destruct (IH _ _ _ _ _ HN' H) as (L & -> & HLen).
      exists (Ty' :: L). split; [rewrite <- app_assoc; reflexivity|].
      cbn [length]. lia.
Qed.

(** Placed by the copy loop, the chunks the outer loop appends go on
    from where the earlier ones end and reach the end of the range
    without leaving it. *)
Lemma memOpsLoop_covers (Base : MachineMemOperand) :
  forall (fuel : nat) (NumMemOps Size : Z) (Ty : LLT) (MemOps R : list LLT)
         (off : Z),
    fitsUnsigned Ty -> 0 <= Size -> 0 <= off -> off + Size < 2 ^ 32 ->
    (NumMemOps <> 0 -> LLTOps.getSizeInBytes Ty <= off) ->
    memOpsLoop TLI fuel inner Limit Op DstAS NumMemOps Size Ty MemOps
    = Some (true, R) ->
    exists L,
      R = MemOps ++ L
      /\ contiguousTo (chunksAt Base L (memcpyOffsets L off Size))
                      (MMO_Offset Base) (MMO_Offset Base + off)
                      (MMO_Offset Base + (off + Size)) = true.
Proof.
  induction fuel as [|k IH];
    intros NumMemOps Size Ty MemOps R off HTy HS Hoff Hsum Hprev H;
    cbn [memOpsLoop] in H.
  - destruct (Z.eqb_spec Size 0); [|discriminate].
    inversion H; subst. exists []. rewrite app_nil_r.
    split; [reflexivity|]. cbn. apply Z.eqb_eq. lia.
  - destruct (Z.eqb_spec Size 0).
    + inversion H; subst. exists []. rewrite app_nil_r.
      split; [reflexivity|]. cbn. apply Z.eqb_eq. lia.
    + destruct (shrinkTypeLoop TLI inner Op DstAS NumMemOps Size Ty
                               (u32 (LLTOps.getSizeInBytes Ty)))
        as [[Ty' TySize]|] eqn:ES; [|discriminate].
      assert (HS1 : 1 <= Size < 2 ^ 32) by lia.
      destruct (shrinkTypeLoop_shape TLI Op DstAS inner NumMemOps Size
                  HS1 _ _ _ HTy ES) as (HTy' & Hmono & Hcase).
      destruct (u32 (NumMemOps + 1) >? Limit); [discriminate|].
      pose proof HTy' as [Hb0 Hb1].
      destruct Hcase as [[ETy Hle] | (HN & _ & ETy & Hlt)].
      * rewrite u64_small in H by lia.
        assert (H1 : 0 <= Size - TySize) by lia.
        assert (H2 : 0 <= off + TySize) by lia.
        assert (H3 : off + TySize + (Size - TySize) < 2 ^ 32) by lia.
        assert (H4 : u32 (NumMemOps + 1) <> 0 ->
                     LLTOps.getSizeInBytes Ty' <= off + TySize) by lia.
        destruct (IH _ _ _ _ _ (off + TySize) HTy' H1 H2 H3 H4 H)
          as (L & -> & HC).
        exists (Ty' :: L). split; [rewrite <- app_assoc; reflexivity|].
        unfold chunksAt in HC |- *. cbn [memcpyOffsets combine map fst snd].
        rewrite <- ETy.
        replace (TySize >? Size) with false
          by (symmetry; rewrite Z.gtb_ltb; apply Z.ltb_ge; exact Hle).
        rewrite (u32_small (off + TySize)) by lia.
        rewrite (u32_small (Size - TySize)) by lia.
        cbn [contiguousTo].
        replace (MMO_Offset Base + off + TySize)
          with (MMO_Offset Base + (off + TySize)) by lia.
        replace (MMO_Offset Base + (off + TySize + (Size - TySize)))
          with (MMO_Offset Base + (off + Size)) in HC by lia.
        rewrite HC. rewrite andb_true_r.
        repeat (apply andb_true_intro; split); apply Z.leb_le; lia.
      * subst TySize. replace (Size - Size) with 0 in H by lia.
        change (u64 0) with 0 in H.
        destruct k; cbn [memOpsLoop] in H; change (0 =? 0) with true in H;
          cbv iota in H; inversion H; subst R.
        all: exists [Ty']; split; [reflexivity|].
        all: unfold chunksAt; cbn [memcpyOffsets combine map fst snd].
        all: replace (LLTOps.getSizeInBytes Ty' >? Size) with true
            by (symmetry; apply Z.gtb_lt; lia).
        all: specialize (Hprev HN).
        all: rewrite (u32_small (LLTOps.getSizeInBytes Ty' - Size)) by lia.
        all: rewrite (u32_small (off - (LLTOps.getSizeInBytes Ty' - Size)))
            by lia.
        all: cbn [contiguousTo].
        all: repeat (apply andb_true_intro; split);
          try apply Z.leb_le; try apply Z.eqb_eq; lia.
Qed.

(** Where overlap is not allowed, the chunks follow one another
    without gap or overlap and end at the end of the range. *)
Lemma memOpsLoop_tiles (Base : MachineMemOperand) :
  AllowOverlap Op = false ->
  forall (fuel : nat) (NumMemOps Size : Z) (Ty : LLT) (MemOps R : list LLT)
         (off : Z),
    fitsUnsigned Ty -> 0 <= Size -> 0 <= off -> off + Size < 2 ^ 32 ->
    memOpsLoop TLI fuel inner Limit Op DstAS NumMemOps Size Ty MemOps
    = Some (true, R) ->
    exists L,
      R = MemOps ++ L
      /\ tilesFrom (chunksAt Base L (memmoveOffsets L off))
                   (MMO_Offset Base + off)
                   (MMO_Offset Base + (off + Size)) = true.
Proof.
  intros HA. induction fuel as [|k IH];
    intros NumMemOps Size Ty MemOps R off HTy HS Hoff Hsum H;
    cbn [memOpsLoop] in H.
  - destruct (Z.eqb_spec Size 0); [|discriminate].
    inversion H; subst. exists []. rewrite app_nil_r.
    split; [reflexivity|]. cbn. apply Z.eqb_eq. lia.
  - destruct (Z.eqb_spec Size 0).
    + inversion H; subst. exists []. rewrite app_nil_r.
      split; [reflexivity|]. cbn. apply Z.eqb_eq. lia.
    + destruct (shrinkTypeLoop TLI inner Op DstAS NumMemOps Size Ty
                               (u32 (LLTOps.getSizeInBytes Ty)))
        as [[Ty' TySize]|] eqn:ES; [|discriminate].
      assert (HS1 : 1 <= Size < 2 ^ 32) by lia.
      destruct (shrinkTypeLoop_shape TLI Op DstAS inner NumMemOps Size
                  HS1 _ _ _ HTy ES) as (HTy' & Hmono & Hcase).
      destruct (u32 (NumMemOps + 1) >? Limit); [discriminate|].
      pose proof HTy' as [Hb0 Hb1].
      destruct Hcase as [[ETy Hle] | (_ & HA' & _)];
        [|rewrite HA in HA'; discriminate HA'].
      rewrite u64_small in H by lia.
      assert (H1 : 0 <= Size - TySize) by lia.
      assert (H2 : 0 <= off + TySize) by lia.
      assert (H3 : off + TySize + (Size - TySize) < 2 ^ 32) by lia.
      destruct (IH _ _ _ _ _ (off + TySize) HTy' H1 H2 H3 H)
        as (L & -> & HC).
      exists (Ty' :: L). split; [rewrite <- app_assoc; reflexivity|].
      unfold chunksAt in HC |- *. cbn [memmoveOffsets combine map fst snd].
      rewrite <- ETy. rewrite (u32_small (off + TySize)) by lia.
      cbn [tilesFrom].
      replace (MMO_Offset Base + off + TySize)
        with (MMO_Offset Base + (off + TySize)) by lia.
      replace (MMO_Offset Base + (off + TySize + (Size - TySize)))
        with (MMO_Offset Base + (off + Size)) in HC by lia.
      rewrite HC. rewrite andb_true_r.
      apply andb_true_intro; split; [apply Z.eqb_eq | apply Z.leb_le]; lia.
Qed.

End PlanCover.

Lemma findGISelOptimalMemOpLowering_start :
  forall (TLI : TargetLowering) (fuel : nat) (MemOps : list LLT) (Limit : Z)
         (Op : MemOp) (DstAS SrcAS : Z) (R : list LLT),
    (forall Op', fitsUnsigned (getOptimalMemOpLLT TLI Op')) ->
    findGISelOptimalMemOpLowering TLI fuel MemOps Limit Op DstAS SrcAS
    = Some (true, R) ->
    exists Ty,
      fitsUnsigned Ty
      /\ memOpsLoop TLI fuel fuel Limit Op DstAS 0 (u64 (MO_Size Op)) Ty MemOps
         = Some (true, R).
Proof.
  intros TLI fuel MemOps Limit Op DstAS SrcAS R HFits H.
  unfold findGISelOptimalMemOpLowering in H.
  match type of H with
  | (if ?c then _ else _) = _ => destruct c; [discriminate|]
  end.
  match type of H with
  | match ?x with _ => _ end = _ => destruct x as [Ty|] eqn:ETy;
                                    [|discriminate]
  end.
  exists Ty. split; [|exact H].
  destruct (LLTOps.eqb _ LLT_invalid).
  - destruct (MemOpOps.isFixedDstAlign _).
    + eapply alignTypeLoop_fits; [|exact ETy].
      apply fitsUnsigned_scalar. lia.
    + inversion ETy. apply fitsUnsigned_scalar. lia.
  - inversion ETy. apply HFits.
Qed.

(** X1.  The planner never plans more operations than the limit it is
    given: when it returns true, the chunk types it has appended to
    [MemOps] number at most [Limit]. *)
Theorem findGISelOptimalMemOpLowering_within_limit :
  forall (TLI : TargetLowering) (fuel : nat) (MemOps : list LLT) (Limit : Z)
         (Op : MemOp) (DstAS SrcAS : Z) (R : list LLT),
    0 <= Limit < 2 ^ 32 - 1 ->
    findGISelOptimalMemOpLowering TLI fuel MemOps Limit Op DstAS SrcAS
    = Some (true, R) ->
    exists L, R = MemOps ++ L /\ Z.of_nat (length L) <= Limit.
Proof.
  intros TLI fuel MemOps Limit Op DstAS SrcAS R HL H.
  unfold findGISelOptimalMemOpLowering in H.
  match type of H with
  | (if ?c then _ else _) = _ => destruct c; [discriminate|]
  end.
  match type of H with
  | match ?x with _ => _ end = _ => destruct x as [Ty|]; [|discriminate]
  end.
  assert (H0 : 0 <= 0 <= Limit) by lia.
  destruct (memOpsLoop_count TLI Op DstAS Limit fuel ltac:(lia) fuel 0 _ Ty
              MemOps R H0 H) as (L & E & HLen).
  exists L. split; [exact E | lia].
Qed.

Lemma findGISelOptimalMemOpLowering_within_limit_witness :
  exists L,
    [LLT_scalar 32; LLT_scalar 32] = [] ++ L /\ Z.of_nat (length L) <= 8.
Proof.
  apply (findGISelOptimalMemOpLowering_within_limit
           (Examples.simpleTLI true) 64%nat [] 8
           (MemOpOps.Copy 7 false (mkAlign 2) (mkAlign 2) false) 0 0
           [LLT_scalar 32; LLT_scalar 32]).
  - lia.
  - vm_compute. reflexivity.
Defined.

Lemma chunksAt_shift (Base : MachineMemOperand) (MemOps : list LLT)
      (Offsets : list Z) :
  chunksAt Base MemOps Offsets
  = map (fun c => (fst c, MMO_Offset Base + snd c))
        (chunksFrom MemOps Offsets).
Proof.
  unfold chunksAt, chunksFrom. rewrite map_map. reflexivity.
Qed.

Lemma chunksAt_noMMO (MemOps : list LLT) (Offsets : list Z) :
  chunksAt noMMO MemOps Offsets = chunksFrom MemOps Offsets.
Proof. reflexivity. Qed.

(** X2.  The copy lowering reads and writes exactly the bytes of the
    copy.  When it succeeds there is a list [L] of chunks (size in
    bytes, offset) such that the loads it emits read, in order, the
    chunks of [L] through pointers at these offsets from [Src] ([Src]
    itself at offset 0, a [G_PTR_ADD] of [Src] and the constant offset
    elsewhere), its stores write the same chunks through pointers at
    the same offsets from [Dst] ([Src] and [Dst] being registers that
    exist when the lowering starts), and the memory operands describe
    the same chunks from the operands' own offsets; every chunk lies
    inside the [KnownLen] bytes of the copy and every one of these
    bytes is in some chunk. *)
Theorem optimizeMemcpy_covers_range :
  forall (TLI : TargetLowering)
         (getOpcodeDef :
            MachineRegisterInfo -> Opcode -> Register -> option MachineInstr)
         (isOSDarwin hasMinSize hasOptSize : bool)
         (isFixedObjectIndex : Z -> bool) (getABITypeAlign : LLT -> Align)
         (exceedsNaturalStackAlignment : Align -> bool)
         (needsStackRealignment : bool) (fuel : nat)
         (MI : MachineInstr) (Dst Src : Register) (KnownLen : Z)
         (DstAlign SrcAlign : Align) (IsVolatile : bool)
         (st st' : CombinerState) (pre post : list MachineInstr),
    Insts st = pre ++ MI :: post ->
    Forall (fun i => Id i <> Id MI) (pre ++ post) ->
    Id MI < NextId st ->
    (forall Op, fitsUnsigned (getOptimalMemOpLLT TLI Op)) ->
    0 <= KnownLen < 2 ^ 32 ->
    optimizeMemcpy TLI getOpcodeDef isOSDarwin hasMinSize hasOptSize
                   isFixedObjectIndex getABITypeAlign
                   exceedsNaturalStackAlignment needsStackRealignment fuel
                   MI Dst Src KnownLen DstAlign SrcAlign IsVolatile st
    = Some (true, st') ->
    exists (E : list MachineInstr) (L : list (Z * Z)),
      Insts st' = pre ++ E ++ post
      /\ (Src < index2VirtReg (NumVirtRegs st) ->
          Dst < index2VirtReg (NumVirtRegs st) ->
          reach G_LOAD Src E = map Some L
          /\ reach G_STORE Dst E = map Some L)
      /\ accesses G_LOAD E
         = map (fun c => (fst c, MMO_Offset (secondMMO MI) + snd c)) L
      /\ accesses G_STORE E
         = map (fun c => (fst c, MMO_Offset (firstMMO MI) + snd c)) L
      /\ Forall (chunkInside 0 KnownLen) L
      /\ (forall x, 0 <= x < KnownLen -> byteCovered L x).
Proof.
  intros TLI god dar mins opts fixed abi exceeds realign fuel MI Dst Src
         KnownLen DA SA IsVolatile st st' pre post HI HF HN HFits HLen H.
  destruct (optimizeMemcpy_emits TLI god dar mins opts fixed abi exceeds
              realign fuel MI Dst Src KnownLen DA SA IsVolatile st st'
              pre post HI HF HN H)
    as (MemOps & E & HP & HIE & Hl & Hs).
  destruct (optimizeMemcpy_reach TLI god dar mins opts fixed abi exceeds
              realign fuel MI Dst Src KnownLen DA SA IsVolatile st st'
              pre post HI HF HN H)
    as (MemOps' & E' & HP' & HE' & _ & Hr).
  assert (MemOps' = MemOps) by congruence. subst MemOps'.
  assert (E' = E).
  { rewrite HE' in HIE. apply app_inv_head in HIE.
    apply app_inv_tail in HIE. exact HIE. }
  subst E'.
  exists E, (chunksFrom MemOps (memcpyOffsets MemOps 0 KnownLen)).
  split; [exact HIE|].
  split; [intros HSrc HDst; exact (Hr HDst HSrc)|].
  split; [rewrite Hl; apply chunksAt_shift|].
  split; [rewrite Hs; apply chunksAt_shift|].
  unfold memcpyPlan in HP.
  destruct (findGISelOptimalMemOpLowering_start _ _ _ _ _ _ _ _ HFits HP)
    as (Ty & HTy & HLoop).
  cbn [MemOpOps.Copy MO_Size] in HLoop. rewrite u64_small in HLoop by lia.
  assert (H0 : 0 <= 0) by lia.
  assert (H1 : 0 + KnownLen < 2 ^ 32) by lia.
  assert (H2 : 0 <> 0 -> LLTOps.getSizeInBytes Ty <= 0) by lia.
  destruct (memOpsLoop_covers TLI _ _ _ _ noMMO _ _ _ _ _ _ 0 HTy
              (proj1 HLen) H0 H1 H2 HLoop) as (L & EL & HC).
  cbn [app] in EL. subst L. rewrite chunksAt_noMMO in HC.
  change (MMO_Offset noMMO) with 0 in HC. cbn [Z.add] in HC.
  exact (contiguousTo_covers _ _ _ 0 (Z.le_refl 0) HC).
Qed.

Lemma optimizeMemcpy_covers_range_witness :
  exists (E : list MachineInstr) (L : list (Z * Z)),
    Insts Fixtures.memcpy7State
    = [Examples.memDst; Examples.memSrc; Examples.memLen 7] ++ E ++ []
    /\ reach G_LOAD (Examples.v 1) E = map Some L
    /\ reach G_STORE (Examples.v 0) E = map Some L
    /\ accesses G_LOAD E
       = map (fun c => (fst c,
                        MMO_Offset (secondMMO (Examples.memOp G_MEMCPY))
                        + snd c)) L
    /\ accesses G_STORE E
       = map (fun c => (fst c,
                        MMO_Offset (firstMMO (Examples.memOp G_MEMCPY))
                        + snd c)) L
    /\ Forall (chunkInside 0 7) L
    /\ (forall x, 0 <= x < 7 -> byteCovered L x).
Proof.
  destruct (optimizeMemcpy_covers_range
              (Examples.simpleTLI true) Examples.opcodeDefOf false false false
              (fun _ => true) (fun _ => mkAlign 3) (fun _ => false) false
              64%nat
              (Examples.memOp G_MEMCPY) (Examples.v 0) (Examples.v 1) 7
              (mkAlign 2) (mkAlign 2) false (Examples.memState G_MEMCPY 7)
              Fixtures.memcpy7State
              [Examples.memDst; Examples.memSrc; Examples.memLen 7] [])
    as (E & L & HE & Hr & Hl & Hs & HIn & HCov).
  - reflexivity.
  - repeat constructor; cbn; lia.
  - cbn. lia.
  - intro Op. unfold fitsUnsigned.
    change (LLTOps.getSizeInBytes
              (getOptimalMemOpLLT (Examples.simpleTLI true) Op)) with 0.
    lia.
  - lia.
  - vm_compute. reflexivity.
  - destruct Hr as [Hrl Hrs];
      [vm_compute; reflexivity | vm_compute; reflexivity |].
    exists E, L.
    split; [exact HE|]. split; [exact Hrl|]. split; [exact Hrs|].
    split; [exact Hl|]. split; [exact Hs|]. split; [exact HIn | exact HCov].
Defined.

(** X3.  The move lowering reads and writes the bytes of the move once
    each.  When it succeeds there is a list [L] of chunks (size in
    bytes, offset) that follow one another without gap or overlap from
    offset 0 to [KnownLen]; its loads read, in order, the chunks of
    [L] through pointers at these offsets from [Src], its stores write
    them through pointers at the same offsets from [Dst] ([Src] and
    [Dst] being registers that exist when the lowering starts), and
    the memory operands describe the same chunks from the operands'
    own offsets. *)
Theorem optimizeMemmove_tiles_range :
  forall (TLI : TargetLowering)
         (getOpcodeDef :
            MachineRegisterInfo -> Opcode -> Register -> option MachineInstr)
         (isOSDarwin hasMinSize hasOptSize : bool)
         (isFixedObjectIndex : Z -> bool) (getABITypeAlign : LLT -> Align)
         (exceedsNaturalStackAlignment : Align -> bool)
         (needsStackRealignment : bool) (fuel : nat)
         (MI : MachineInstr) (Dst Src : Register) (KnownLen : Z)
         (DstAlign SrcAlign : Align) (IsVolatile : bool)
         (st st' : CombinerState) (pre post : list MachineInstr),
    Insts st = pre ++ MI :: post ->
    Forall (fun i => Id i <> Id MI) (pre ++ post) ->
    Id MI < NextId st ->
    (forall Op, fitsUnsigned (getOptimalMemOpLLT TLI Op)) ->
    0 <= KnownLen < 2 ^ 32 ->
    optimizeMemmove TLI getOpcodeDef isOSDarwin hasMinSize hasOptSize
                    isFixedObjectIndex getABITypeAlign
                    exceedsNaturalStackAlignment needsStackRealignment fuel
                    MI Dst Src KnownLen DstAlign SrcAlign IsVolatile st
    = Some (true, st') ->
    exists (E : list MachineInstr) (L : list (Z * Z)),
      Insts st' = pre ++ E ++ post
      /\ (Src < index2VirtReg (NumVirtRegs st) ->
          Dst < index2VirtReg (NumVirtRegs st) ->
          reach G_LOAD Src E = map Some L
          /\ reach G_STORE Dst E = map Some L)
      /\ accesses G_LOAD E
         = map (fun c => (fst c, MMO_Offset (secondMMO MI) + snd c)) L
      /\ accesses G_STORE E
         = map (fun c => (fst c, MMO_Offset (firstMMO MI) + snd c)) L
      /\ tilesFrom L 0 KnownLen = true.
Proof.
  intros TLI god dar mins opts fixed abi exceeds realign fuel MI Dst Src
         KnownLen DA SA IsVolatile st st' pre post HI HF HN HFits HLen H.
  destruct (optimizeMemmove_emits TLI god dar mins opts fixed abi exceeds
              realign fuel MI Dst Src KnownLen DA SA IsVolatile st st'
              pre post HI HF HN H)
    as (MemOps & loads & stores & HP & HIE & Hnostore & Hnoload
        & Hl & Hs & _).
  destruct (optimizeMemmove_reach TLI god dar mins opts fixed abi exceeds
              realign fuel MI Dst Src KnownLen DA SA IsVolatile st st'
              pre post HI HF HN H)
    as (MemOps' & E & HP' & HE & _ & Hrl & Hrs).
  assert (MemOps' = MemOps) by congruence. subst MemOps'.
  assert (E = loads ++ stores).
  { rewrite HE in HIE. apply app_inv_head in HIE.
    apply app_inv_tail in HIE. exact HIE. }
  subst E.
  exists (loads ++ stores), (chunksFrom MemOps (memmoveOffsets MemOps 0)).
  split; [exact HIE|].
  split; [intros HSrc HDst; split; [exact (Hrl HSrc) | exact (Hrs HDst)]|].
  rewrite !accesses_app.
  rewrite (accesses_none G_LOAD stores Hnoload).
  rewrite (accesses_none G_STORE loads Hnostore).
  rewrite app_nil_r. cbn [app]. rewrite Hl, Hs.
  split; [apply chunksAt_shift|]. split; [apply chunksAt_shift|].
  unfold memmovePlan in HP.
  destruct (findGISelOptimalMemOpLowering_start _ _ _ _ _ _ _ _ HFits HP)
    as (Ty & HTy & HLoop).
  cbn [MemOpOps.Copy MO_Size] in HLoop. rewrite u64_small in HLoop by lia.
  assert (H0 : 0 <= 0) by lia.
  assert (H1 : 0 + KnownLen < 2 ^ 32) by lia.
  destruct (memOpsLoop_tiles TLI
              (MemOpOps.Copy KnownLen (snd (frameIndexDef god fixed st Dst))
                             (commonAlignmentOf DA SA) SA true)
              _ _ _ noMMO eq_refl _ _ _ _ _ _ 0 HTy
              (proj1 HLen) H0 H1 HLoop) as (L & EL & HC).
  cbn [app] in EL. subst L. rewrite chunksAt_noMMO in HC.
  change (MMO_Offset noMMO) with 0 in HC. cbn [Z.add] in HC.
  exact HC.
Qed.

Lemma optimizeMemmove_tiles_range_witness :
  exists (E : list MachineInstr) (L : list (Z * Z)),
    Insts Examples.memmove7State
    = [Examples.memDst; Examples.memSrc; Examples.memLen 7] ++ E ++ []
    /\ reach G_LOAD (Examples.v 1) E = map Some L
    /\ reach G_STORE (Examples.v 0) E = map Some L
    /\ accesses G_LOAD E
       = map (fun c => (fst c,
                        MMO_Offset (secondMMO (Examples.memOp G_MEMMOVE))
                        + snd c)) L
    /\ accesses G_STORE E
       = map (fun c => (fst c,
                        MMO_Offset (firstMMO (Examples.memOp G_MEMMOVE))
                        + snd c)) L
    /\ tilesFrom L 0 7 = true.
Proof.
  destruct (optimizeMemmove_tiles_range
              (Examples.simpleTLI true) Examples.opcodeDefOf false false false
              (fun _ => true) (fun _ => mkAlign 3) (fun _ => false) false
              64%nat
              (Examples.memOp G_MEMMOVE) (Examples.v 0) (Examples.v 1) 7
              (mkAlign 2) (mkAlign 2) false (Examples.memState G_MEMMOVE 7)
              Examples.memmove7State
              [Examples.memDst; Examples.memSrc; Examples.memLen 7] [])
    as (E & L & HE & Hr & Hl & Hs & HT).
  - reflexivity.
  - repeat constructor; cbn; lia.
  - cbn. lia.
  - intro Op. unfold fitsUnsigned.
    change (LLTOps.getSizeInBytes
              (getOptimalMemOpLLT (Examples.simpleTLI true) Op)) with 0.
    lia.
  - lia.
  - vm_compute. reflexivity.
  - destruct Hr as [Hrl Hrs];
      [vm_compute; reflexivity | vm_compute; reflexivity |].
    exists E, L.
    split; [exact HE|]. split; [exact Hrl|]. split; [exact Hrs|].
    split; [exact Hl|]. split; [exact Hs|]. exact HT.
Defined.

(* ------------------------------------------------------------------ *)
(** ** Memset: one store per chunk *)

Lemma contiguousTo_fits (Base : MachineMemOperand) (lo hi : Z) :
  hi - lo < 2 ^ 32 ->
  forall (L : list LLT) (off Size cur : Z),
    contiguousTo (chunksAt Base L (memcpyOffsets L off Size)) lo cur hi = true ->
    Forall fitsUnsigned L.
Proof.
  intros Hhi. induction L as [|Ty rest IH]; intros off Size cur H.
  - constructor.
  - cbn [memcpyOffsets] in H. cbv zeta in H. unfold chunksAt in H.
    cbn [combine map fst snd contiguousTo] in H.
    apply andb_prop in H. destruct H as [H Htl]. andb_hyps.
    constructor.
    + unfold fitsUnsigned.
      repeat match goal with
             | K : (_ <=? _) = true |- _ => apply Z.leb_le in K
             end.
      lia.
    + eapply IH. exact Htl.
Qed.

(** What a successful memset lowering leaves in place of the
    [G_MEMSET]: the plan's chunks as stores, and the plan covers the
    set. *)
Lemma optimizeMemset_emits :
  forall (TLI : TargetLowering)
         (getOpcodeDef :
            MachineRegisterInfo -> Opcode -> Register -> option MachineInstr)
         (getConstantVRegValWithLookThrough :
            MachineRegisterInfo -> Register -> option Z)
         (isOSDarwin hasMinSize hasOptSize : bool)
         (isFixedObjectIndex : Z -> bool) (getABITypeAlign : LLT -> Align)
         (exceedsNaturalStackAlignment : Align -> bool)
         (needsStackRealignment : bool) (fuel : nat)
         (MI : MachineInstr) (Dst Val : Register) (KnownLen : Z)
         (Alignment : Align) (IsVolatile : bool)
         (st st' : CombinerState) (pre post : list MachineInstr),
    Insts st = pre ++ MI :: post ->
    Forall (fun i => Id i <> Id MI) (pre ++ post) ->
    Id MI < NextId st ->
    (forall Op, fitsUnsigned (getOptimalMemOpLLT TLI Op)) ->
    0 <= KnownLen < 2 ^ 32 ->
    optimizeMemset TLI getOpcodeDef getConstantVRegValWithLookThrough
                   isOSDarwin hasMinSize hasOptSize isFixedObjectIndex
                   getABITypeAlign exceedsNaturalStackAlignment
                   needsStackRealignment fuel
                   MI Dst Val KnownLen Alignment IsVolatile st
    = Some (true, st') ->
    exists (MemOps : list LLT) (E : list MachineInstr)
           (Op : MemOp) (DstAS SrcAS : Z),
      findGISelOptimalMemOpLowering TLI fuel []
        (getMaxStoresPerMemset TLI
           (shouldLowerMemFuncForSize isOSDarwin hasMinSize hasOptSize))
        Op DstAS SrcAS
      = Some (true, MemOps)
      /\ Insts st' = pre ++ E ++ post
      /\ accesses G_STORE E
         = chunksAt (firstMMO MI) MemOps (memcpyOffsets MemOps 0 KnownLen)
      /\ contiguousTo (chunksAt (firstMMO MI) MemOps
                         (memcpyOffsets MemOps 0 KnownLen))
                      (MMO_Offset (firstMMO MI))
                      (MMO_Offset (firstMMO MI) + 0)
                      (MMO_Offset (firstMMO MI) + (0 + KnownLen)) = true
      /\ Forall (fun i => NextId st <= Id i) E
      /\ (Dst < index2VirtReg (NumVirtRegs st) ->
          reach G_STORE Dst E
          = map Some (chunksFrom MemOps (memcpyOffsets MemOps 0 KnownLen)))
      /\ contiguousTo (chunksFrom MemOps (memcpyOffsets MemOps 0 KnownLen))
                      0 0 KnownLen = true.
Proof.
  intros TLI god look dar mins opts fixed abi exceeds realign fuel MI Dst Val
         KnownLen Alignment IsVolatile st st' pre post HI HF HN HFits HLen H.
  apply Forall_app in HF. destruct HF as [Fpre Fpost].
  unfold optimizeMemset in H. unfold bind at 1 in H. unfold getState in H.
  destruct (frameIndexDef god fixed st Dst) as [FIDef CanChange] eqn:EFI.
  cbv zeta in H.
  match type of H with
  | match ?p with _ => _ end _ = _ =>
      destruct p as [[[|] MemOps]|] eqn:EP;
        [| unfold ret in H; discriminate H
         | unfold undefinedBehaviour in H; discriminate H]
  end.
  destruct (findGISelOptimalMemOpLowering_start _ _ _ _ _ _ _ _ HFits EP)
    as (Ty & HTy & HLoop).
  cbn [MemOpOps.SetOp MO_Size] in HLoop. rewrite u64_small in HLoop by lia.
  assert (Hcov : contiguousTo (chunksAt (firstMMO MI) MemOps
                                 (memcpyOffsets MemOps 0 KnownLen))
                              (MMO_Offset (firstMMO MI))
                              (MMO_Offset (firstMMO MI) + 0)
                              (MMO_Offset (firstMMO MI) + (0 + KnownLen))
                 = true).
  { assert (H0 : 0 <= 0) by lia.
    assert (H1 : 0 + KnownLen < 2 ^ 32) by lia.
    assert (H2 : 0 <> 0 -> LLTOps.getSizeInBytes Ty <= 0) by lia.
    destruct (memOpsLoop_covers TLI _ _ _ _ (firstMMO MI) _ _ _ _ _ _ 0 HTy
                (proj1 HLen) H0 H1 H2 HLoop) as (L & EL & HC).
    cbn [app] in EL. subst L. exact HC. }
  assert (Hcov0 : contiguousTo (chunksFrom MemOps
                                  (memcpyOffsets MemOps 0 KnownLen))
                               0 0 KnownLen = true).
  { assert (H0 : 0 <= 0) by lia.
    assert (H1 : 0 + KnownLen < 2 ^ 32) by lia.
    assert (H2 : 0 <> 0 -> LLTOps.getSizeInBytes Ty <= 0) by lia.
    destruct (memOpsLoop_covers TLI _ _ _ _ noMMO _ _ _ _ _ _ 0 HTy
                (proj1 HLen) H0 H1 H2 HLoop) as (L & EL & HC).
    cbn [app] in EL. subst L. rewrite chunksAt_noMMO in HC.
    change (MMO_Offset noMMO) with 0 in HC. cbn [Z.add] in HC. exact HC. }
  assert (HFitsAll : Forall fitsUnsigned MemOps).
  { eapply contiguousTo_fits; [| exact Hcov]. lia. }
  unfold bind in H.
  match type of H with
  | match ?m st with _ => _ end = _ => destruct (m st) as [[a st1]|] eqn:ER
  end; [|discriminate H].
  assert (K : Insts st1 = Insts st /\ NextId st1 = NextId st
              /\ RegTypes st1 = RegTypes st
              /\ NumVirtRegs st1 = NumVirtRegs st).
  { destruct CanChange.
    - apply raiseDstAlign_keeps_graph in ER. tauto.
    - unfold ret in ER. inversion ER; subst. auto. }
  destruct K as (KI & KN & _ & KV).
  pose proof (emittedAt_start MI pre post st st1 HI Fpre HN KI KN KV) as A0.
  destruct (getMemsetValue look Val (largestType MemOps) (pointBefore MI) st1)
    as [[MemSetValue st2]|] eqn:EV; [|discriminate H].
  destruct (emits_quiet_getMemsetValue MI pre post (NextId st)
              (NumVirtRegs st) look [] Val (largestType MemOps)
              st1 MemSetValue st2 A0 EV) as (E1 & A1 & HQ1).
  cbn [app] in A1.
  destruct (MemSetValue =? NoRegister); [unfold ret in H; discriminate H|].
  match type of H with
  | match ?m st2 with _ => _ end = _ => destruct (m st2) as [[ok st3]|] eqn:EL
  end; [|discriminate H].
  destruct (memsetLoop_emits MI pre post (NextId st) (NumVirtRegs st)
              TLI look Dst Val (stateType st Dst)
              (firstMMO MI) (largestType MemOps) MemSetValue MemOps HFitsAll
              E1 0 KnownLen st2 ok st3 A1 EL) as (E2 & A2 & HQ2).
  destruct ok; [| unfold ret in H; discriminate H].
  destruct (HQ2 eq_refl) as [Hacc Hreach].
  unfold eraseFromParent, ret, setInsts in H. inversion H; subst st'.
  destruct (emittedAt_erased _ _ _ _ _ _ _ Fpost A2) as [HE Hids].
  exists MemOps, (E1 ++ E2). do 3 eexists.
  split; [exact EP|].
  cbn [Insts].
  split; [exact HE|].
  split.
  { rewrite accesses_app, Hacc.
    rewrite (accesses_none_of G_STORE E1
               (quiet_no G_STORE E1 (or_introl eq_refl) HQ1)).
    reflexivity. }
  split; [exact Hcov|]. split; [exact Hids|].
  split; [| exact Hcov0].
  intro HD. unfold reach. rewrite reachIn_app.
  rewrite (reachIn_none _ G_STORE Dst E1
             (quiet_no G_STORE E1 (or_introl eq_refl) HQ1)).
  cbn [app]. pose proof (Hreach HD []) as R. rewrite app_nil_r in R. exact R.
Qed.

(** X4.  The memset lowering writes exactly the bytes of the set.  When
    [optimizeMemset] succeeds there is a list [L] of chunks (size in
    bytes, offset) such that the stores among the instructions it
    leaves in place of the [G_MEMSET] write, in order, the chunks of
    [L] through pointers at these offsets from [Dst] ([Dst] itself at
    offset 0, a [G_PTR_ADD] of [Dst] and the constant offset
    elsewhere; [Dst] being a register that exists when the lowering
    starts), their memory operands describe the same chunks from
    the destination operand's own offset, every chunk lies inside the
    [KnownLen] bytes of the set and every one of these bytes is in
    some chunk. *)
Theorem optimizeMemset_covers_range :
  forall (TLI : TargetLowering)
         (getOpcodeDef :
            MachineRegisterInfo -> Opcode -> Register -> option MachineInstr)
         (getConstantVRegValWithLookThrough :
            MachineRegisterInfo -> Register -> option Z)
         (isOSDarwin hasMinSize hasOptSize : bool)
         (isFixedObjectIndex : Z -> bool) (getABITypeAlign : LLT -> Align)
         (exceedsNaturalStackAlignment : Align -> bool)
         (needsStackRealignment : bool) (fuel : nat)
         (MI : MachineInstr) (Dst Val : Register) (KnownLen : Z)
         (Alignment : Align) (IsVolatile : bool)
         (st st' : CombinerState) (pre post : list MachineInstr),
    Insts st = pre ++ MI :: post ->
    Forall (fun i => Id i <> Id MI) (pre ++ post) ->
    Id MI < NextId st ->
    (forall Op, fitsUnsigned (getOptimalMemOpLLT TLI Op)) ->
    0 <= KnownLen < 2 ^ 32 ->
    optimizeMemset TLI getOpcodeDef getConstantVRegValWithLookThrough
                   isOSDarwin hasMinSize hasOptSize isFixedObjectIndex
                   getABITypeAlign exceedsNaturalStackAlignment
                   needsStackRealignment fuel
                   MI Dst Val KnownLen Alignment IsVolatile st
    = Some (true, st') ->
    exists (E : list MachineInstr) (L : list (Z * Z)),
      Insts st' = pre ++ E ++ post
      /\ (Dst < index2VirtReg (NumVirtRegs st) ->
          reach G_STORE Dst E = map Some L)
      /\ accesses G_STORE E
         = map (fun c => (fst c, MMO_Offset (firstMMO MI) + snd c)) L
      /\ Forall (chunkInside 0 KnownLen) L
      /\ (forall x, 0 <= x < KnownLen -> byteCovered L x).
Proof.
  intros TLI god look dar mins opts fixed abi exceeds realign fuel MI Dst Val
         KnownLen Alignment IsVolatile st st' pre post HI HF HN HFits HLen H.
  destruct (optimizeMemset_emits TLI god look dar mins opts fixed abi exceeds
              realign fuel MI Dst Val KnownLen Alignment IsVolatile st st'
              pre post HI HF HN HFits HLen H)
    as (MemOps & E & Op & DstAS & SrcAS & HP & HIE & Hs & _ & _ & Hr & HC).
  exists E, (chunksFrom MemOps (memcpyOffsets MemOps 0 KnownLen)).
  split; [exact HIE|]. split; [exact Hr|].
  split; [rewrite Hs; apply chunksAt_shift|].
  exact (contiguousTo_covers _ _ _ 0 (Z.le_refl 0) HC).
Qed.

Lemma optimizeMemset_covers_range_witness :
  exists (E : list MachineInstr) (L : list (Z * Z)),
    Insts Fixtures.memset7State
    = [Examples.memDst; Fixtures.memsetVal; Examples.memLen 7] ++ E ++ []
    /\ reach G_STORE (Examples.v 0) E = map Some L
    /\ accesses G_STORE E
       = map (fun c => (fst c, MMO_Offset (firstMMO Fixtures.memsetOp)
                                + snd c)) L
    /\ Forall (chunkInside 0 7) L
    /\ (forall x, 0 <= x < 7 -> byteCovered L x).
Proof.
  destruct (optimizeMemset_covers_range
              (Examples.simpleTLI true) Examples.opcodeDefOf
              Examples.constantNoLookThrough false false false
              (fun _ => true) (fun _ => mkAlign 3) (fun _ => false) false
              64%nat
              Fixtures.memsetOp (Examples.v 0) (Examples.v 1) 7
              (mkAlign 2) false Fixtures.memsetState Fixtures.memset7State
              [Examples.memDst; Fixtures.memsetVal; Examples.memLen 7] [])
    as (E & L & HE & Hr & Hs & HIn & HCov).
  - reflexivity.
  - repeat constructor; cbn; lia.
  - cbn. lia.
  - intro Op. unfold fitsUnsigned.
    change (LLTOps.getSizeInBytes
              (getOptimalMemOpLLT (Examples.simpleTLI true) Op)) with 0.
    lia.
  - lia.
  - vm_compute. reflexivity.
  - exists E, L.
    split; [exact HE|].
    split; [apply Hr; vm_compute; reflexivity|].
    split; [exact Hs|]. split; [exact HIn | exact HCov].
Defined.

(* ------------------------------------------------------------------ *)
(** ** The lowerings stay within the target's operation limit *)

Lemma length_memcpyOffsets (MemOps : list LLT) :
  forall CurrOffset Size,
    length (memcpyOffsets MemOps CurrOffset Size) = length MemOps.
Proof.
  induction MemOps as [|Ty rest IH]; intros CurrOffset Size;
    cbn [memcpyOffsets length]; [reflexivity|].
  rewrite IH. reflexivity.
Qed.

Lemma length_memmoveOffsets (MemOps : list LLT) :
  forall CurrOffset,
    length (memmoveOffsets MemOps CurrOffset) = length MemOps.
Proof.
  induction MemOps as [|Ty rest IH]; intros CurrOffset;
    cbn [memmoveOffsets length]; [reflexivity|].
  rewrite IH. reflexivity.
Qed.

Lemma length_chunksAt (Base : MachineMemOperand) (MemOps : list LLT)
      (Offsets : list Z) :
  length Offsets = length MemOps ->
  length (chunksAt Base MemOps Offsets) = length MemOps.
Proof.
  intros E. unfold chunksAt. rewrite length_map, length_combine, E.
  apply Nat.min_id.
Qed.

(** A plan made from nothing has at most [Limit] chunks. *)
Lemma plan_length_within_limit :
  forall (TLI : TargetLowering) (fuel : nat) (Limit : Z) (Op : MemOp)
         (DstAS SrcAS : Z) (MemOps : list LLT),
    0 <= Limit < 2 ^ 32 - 1 ->
    findGISelOptimalMemOpLowering TLI fuel [] Limit Op DstAS SrcAS
    = Some (true, MemOps) ->
    Z.of_nat (length MemOps) <= Limit.
Proof.
  intros TLI fuel Limit Op DstAS SrcAS MemOps HL H.
  unfold findGISelOptimalMemOpLowering in H.
  match type of H with
  | (if ?c then _ else _) = _ => destruct c; [discriminate|]
  end.
  match type of H with
  | match ?x with _ => _ end = _ => destruct x as [Ty|]; [|discriminate]
  end.
  assert (H0 : 0 <= 0 <= Limit) by lia.
  assert (H1 : Limit < 2 ^ 32 - 1) by lia.
  destruct (memOpsLoop_count TLI Op DstAS Limit fuel H1 fuel 0 _ Ty
              [] MemOps H0 H) as (L & E & HLen).
  cbn [app] in E. subst L. lia.
Qed.

(** X5.  [tryCombineMemCpyFamily] never emits more stores than the
    target allows: when it returns true, the instruction has been
    replaced by instructions of which at most
    [getMaxStoresPerMemcpy], [getMaxStoresPerMemmove] or
    [getMaxStoresPerMemset] (by the instruction's opcode) are
    [G_STORE]s. *)
Theorem tryCombineMemCpyFamily_within_store_limit :
  forall (TLI : TargetLowering)
         (getOpcodeDef :
            MachineRegisterInfo -> Opcode -> Register -> option MachineInstr)
         (getConstantVRegValWithLookThrough :
            MachineRegisterInfo -> Register -> option Z)
         (isOSDarwin hasMinSize hasOptSize : bool)
         (isFixedObjectIndex : Z -> bool) (getABITypeAlign : LLT -> Align)
         (exceedsNaturalStackAlignment : Align -> bool)
         (needsStackRealignment : bool) (fuel : nat)
         (MI : MachineInstr) (MaxLen : Z)
         (st st' : CombinerState) (pre post : list MachineInstr),
    Insts st = pre ++ MI :: post ->
    Forall (fun i => Id i <> Id MI) (pre ++ post) ->
    Id MI < NextId st ->
    (forall Op, fitsUnsigned (getOptimalMemOpLLT TLI Op)) ->
    (forall O,
        0 <= maxStoresFor TLI
               (shouldLowerMemFuncForSize isOSDarwin hasMinSize hasOptSize) O
        < 2 ^ 32 - 1) ->
    tryCombineMemCpyFamily TLI getOpcodeDef getConstantVRegValWithLookThrough
      isOSDarwin hasMinSize hasOptSize isFixedObjectIndex getABITypeAlign
      exceedsNaturalStackAlignment needsStackRealignment fuel MI MaxLen st
    = Some (true, st') ->
    exists E : list MachineInstr,
      Insts st' = pre ++ E ++ post
      /\ Z.of_nat (length (accesses G_STORE E))
         <= maxStoresFor TLI
              (shouldLowerMemFuncForSize isOSDarwin hasMinSize hasOptSize)
              (Opc MI).
Proof.
  intros TLI god gcv dar mins opts fixed abi exceeds realign fuel MI MaxLen
         st st' pre post HI HF HN HFits HLim H.
  unfold tryCombineMemCpyFamily in H.
  destruct (MMO_Volatile (firstMMO MI));
    [unfold ret in H; discriminate H|].
  unfold bind, getState in H.
  destruct (gcv (MRIof st) (getReg (getOperand MI 2))) as [Value|];
    [|unfold ret in H; discriminate H].
  pose proof (u32_range Value) as HK.
  destruct (u32 Value =? 0).
  { unfold eraseFromParent, ret, setInsts in H. inversion H; subst st'.
    exists []. cbn [Insts app accesses filter map length]. rewrite HI.
    pose proof (HLim (Opc MI)).
    apply Forall_app in HF. destruct HF as [Fpre Fpost].
    split; [apply erase_at; auto | lia]. }
  destruct (negb (MaxLen =? 0) && (u32 Value >? MaxLen));
    [unfold ret in H; discriminate H|].
  pose proof (HLim (Opc MI)) as HL. unfold maxStoresFor in HL |- *.
  destruct (opc_eqb (Opc MI) G_MEMCPY).
  - destruct (optimizeMemcpy_emits _ _ _ _ _ _ _ _ _ _ _ _ _ _ _ _ _ _ _
                _ _ HI HF HN H) as (MemOps & E & HP & HE & _ & Hs).
    exists E. split; [exact HE|]. rewrite Hs.
    rewrite length_chunksAt by apply length_memcpyOffsets.
    unfold memcpyPlan in HP.
    exact (plan_length_within_limit _ _ _ _ _ _ _ HL HP).
  - destruct (opc_eqb (Opc MI) G_MEMMOVE).
    + destruct (optimizeMemmove_emits _ _ _ _ _ _ _ _ _ _ _ _ _ _ _ _ _ _ _
                  _ _ HI HF HN H)
        as (MemOps & loads & stores & HP & HE & Hnostore & _ & _ & Hs & _).
      exists (loads ++ stores). split; [exact HE|].
      rewrite accesses_app, (accesses_none G_STORE loads Hnostore), Hs.
      cbn [app]. rewrite length_chunksAt by apply length_memmoveOffsets.
      unfold memmovePlan in HP.
      exact (plan_length_within_limit _ _ _ _ _ _ _ HL HP).
    + destruct (opc_eqb (Opc MI) G_MEMSET); [| unfold ret in H; discriminate H].
      destruct (optimizeMemset_emits _ _ _ _ _ _ _ _ _ _ _ _ _ _ _ _ _ _ _
                  _ _ HI HF HN HFits HK H)
        as (MemOps & E & Op & DstAS & SrcAS & HP & HE & Hs & _).
      exists E. split; [exact HE|]. rewrite Hs.
      rewrite length_chunksAt by apply length_memcpyOffsets.
      exact (plan_length_within_limit _ _ _ _ _ _ _ HL HP).
Qed.

Lemma tryCombineMemCpyFamily_within_store_limit_witness :
  exists E : list MachineInstr,
    Insts Fixtures.memcpy7State
    = [Examples.memDst; Examples.memSrc; Examples.memLen 7] ++ E ++ []
    /\ Z.of_nat (length (accesses G_STORE E))
       <= maxStoresFor (Examples.simpleTLI true)
            (shouldLowerMemFuncForSize false false false)
            (Opc (Examples.memOp G_MEMCPY)).
Proof.
  apply (tryCombineMemCpyFamily_within_store_limit
           (Examples.simpleTLI true) Examples.opcodeDefOf
           Examples.constantNoLookThrough false false false
           (fun _ => true) (fun _ => mkAlign 3) (fun _ => false) false 64%nat
           (Examples.memOp G_MEMCPY) 0 (Examples.memState G_MEMCPY 7)
           Fixtures.memcpy7State
           [Examples.memDst; Examples.memSrc; Examples.memLen 7] []).
  - reflexivity.
  - repeat constructor; cbn; lia.
  - cbn. lia.
  - intro Op. unfold fitsUnsigned.
    change (LLTOps.getSizeInBytes
              (getOptimalMemOpLLT (Examples.simpleTLI true) Op)) with 0.
    lia.
  - intro O. unfold maxStoresFor.
    destruct (opc_eqb O G_MEMCPY); [cbn; lia|].
    destruct (opc_eqb O G_MEMMOVE); cbn; lia.
  - vm_compute. reflexivity.
Defined.

(* ------------------------------------------------------------------ *)
(** ** Copies and moves are lowered whole or left alone *)

Section AllOrNothing.

Variable TLI : TargetLowering.
Variable getOpcodeDef :
  MachineRegisterInfo -> Opcode -> Register -> option MachineInstr.
Variable getConstantVRegValWithLookThrough :
  MachineRegisterInfo -> Register -> option Z.
Variables isOSDarwin hasMinSize hasOptSize : bool.
Variable isFixedObjectIndex : Z -> bool.
Variable getABITypeAlign : LLT -> Align.
Variable exceedsNaturalStackAlignment : Align -> bool.
Variable needsStackRealignment : bool.
Variable fuel : nat.

Lemma optimizeMemcpy_false_untouched :
  forall MI Dst Src KnownLen DstAlign SrcAlign IsVolatile st st',
    optimizeMemcpy TLI getOpcodeDef isOSDarwin hasMinSize hasOptSize
                   isFixedObjectIndex getABITypeAlign
                   exceedsNaturalStackAlignment needsStackRealignment fuel
                   MI Dst Src KnownLen DstAlign SrcAlign IsVolatile st
    = Some (false, st') ->
    st' = st.
Proof.
  intros MI Dst Src KnownLen DA SA IsVolatile st st' H.
  unfold optimizeMemcpy, bind, getState in H.
  destruct (frameIndexDef getOpcodeDef isFixedObjectIndex st Dst)
    as [FIDef CanChange].
  destruct (memcpyPlan _ _ _ _ _ _ _ _ _ _ _ _ _ _) as [[[|] MemOps]|];
    [| unfold ret in H; inversion H; reflexivity | discriminate H].
  repeat match type of H with
         | match ?m ?s with _ => _ end = _ =>
             destruct (m s) as [[? ?]|]; [|discriminate H]
         end.
  unfold ret in H. discriminate H.
Qed.

Lemma optimizeMemmove_false_untouched :
  forall MI Dst Src KnownLen DstAlign SrcAlign IsVolatile st st',
    optimizeMemmove TLI getOpcodeDef isOSDarwin hasMinSize hasOptSize
                    isFixedObjectIndex getABITypeAlign
                    exceedsNaturalStackAlignment needsStackRealignment fuel
                    MI Dst Src KnownLen DstAlign SrcAlign IsVolatile st
    = Some (false, st') ->
    st' = st.
Proof.
  intros MI Dst Src KnownLen DA SA IsVolatile st st' H.
  unfold optimizeMemmove, bind, getState in H.
  destruct (frameIndexDef getOpcodeDef isFixedObjectIndex st Dst)
    as [FIDef CanChange].
  destruct (memmovePlan _ _ _ _ _ _ _ _ _ _ _ _ _) as [[[|] MemOps]|];
    [| unfold ret in H; inversion H; reflexivity | discriminate H].
  repeat match type of H with
         | match ?m ?s with _ => _ end = _ =>
             destruct (m s) as [[? ?]|]; [|discriminate H]
         end.
  unfold ret in H. discriminate H.
Qed.

End AllOrNothing.

(** X6.  For a [G_MEMCPY] or a [G_MEMMOVE], [tryCombineMemCpyFamily]
    works all or nothing.  When it returns false the state, and with it
    the function, is exactly as before.  When it returns true the
    instruction is gone and in its place, between the unchanged
    instructions before and after it, stand only instructions created
    by this call (their identities were not in use before): none when
    the length is zero, and in every case loads that read chunks
    through pointers at offsets from the source pointer and stores
    that write the same chunks through pointers at the same offsets
    from the destination pointer (the two pointers being registers
    that exist when the call starts). *)
Theorem tryCombineMemCpyFamily_copy_move_all_or_nothing :
  forall (TLI : TargetLowering)
         (getOpcodeDef :
            MachineRegisterInfo -> Opcode -> Register -> option MachineInstr)
         (getConstantVRegValWithLookThrough :
            MachineRegisterInfo -> Register -> option Z)
         (isOSDarwin hasMinSize hasOptSize : bool)
         (isFixedObjectIndex : Z -> bool) (getABITypeAlign : LLT -> Align)
         (exceedsNaturalStackAlignment : Align -> bool)
         (needsStackRealignment : bool) (fuel : nat)
         (MI : MachineInstr) (MaxLen : Z) (r : bool)
         (st st' : CombinerState) (pre post : list MachineInstr),
    Opc MI = G_MEMCPY \/ Opc MI = G_MEMMOVE ->
    Insts st = pre ++ MI :: post ->
    Forall (fun i => Id i <> Id MI) (pre ++ post) ->
    Id MI < NextId st ->
    tryCombineMemCpyFamily TLI getOpcodeDef
      getConstantVRegValWithLookThrough isOSDarwin hasMinSize hasOptSize
      isFixedObjectIndex getABITypeAlign exceedsNaturalStackAlignment
      needsStackRealignment fuel MI MaxLen st
    = Some (r, st') ->
    if r then
      exists (E : list MachineInstr) (Value : Z),
        getConstantVRegValWithLookThrough (MRIof st)
          (getReg (getOperand MI 2)) = Some Value
        /\ Insts st' = pre ++ E ++ post
        /\ Forall (fun i => NextId st <= Id i) E
        /\ (u32 Value = 0 -> E = [])
        /\ (getReg (getOperand MI 0) < index2VirtReg (NumVirtRegs st) ->
            getReg (getOperand MI 1) < index2VirtReg (NumVirtRegs st) ->
            exists L : list (Z * Z),
              reach G_LOAD (getReg (getOperand MI 1)) E = map Some L
              /\ reach G_STORE (getReg (getOperand MI 0)) E = map Some L)
    else st' = st.
Proof.
  intros TLI god gcv dar mins opts fixed abi exceeds realign fuel MI MaxLen r
         st st' pre post HO HI HF HN H.
  unfold tryCombineMemCpyFamily in H.
  destruct (MMO_Volatile (firstMMO MI));
    [unfold ret in H; inversion H; reflexivity|].
  unfold bind, getState in H.
  destruct (gcv (MRIof st) (getReg (getOperand MI 2))) as [Value|];
    [|unfold ret in H; inversion H; reflexivity].
  destruct (u32 Value =? 0) eqn:EZ.
  { unfold eraseFromParent, ret, setInsts in H. inversion H; subst r st'.
    exists [], Value. cbn [Insts app]. rewrite HI.
    apply Forall_app in HF. destruct HF as [Fpre Fpost].
    split; [reflexivity|].
    split; [apply erase_at; auto|].
    split; [constructor|]. split; [reflexivity|].
    intros _ _. exists []. split; reflexivity. }
  apply Z.eqb_neq in EZ.
  destruct (negb (MaxLen =? 0) && (u32 Value >? MaxLen));
    [unfold ret in H; inversion H; reflexivity|].
  destruct HO as [HO | HO]; rewrite HO in H.
  - change (opc_eqb G_MEMCPY G_MEMCPY) with true in H. cbv iota in H.
    destruct r.
    + destruct (optimizeMemcpy_reach _ _ _ _ _ _ _ _ _ _ _ _ _ _ _ _ _ _ _
                  _ _ HI HF HN H) as (MemOps & E & _ & HE & Hids & Hr).
      exists E, Value.
      split; [reflexivity|]. split; [exact HE|]. split; [exact Hids|].
      split; [intro Z0; contradiction|].
      intros HD HS. destruct (Hr HD HS) as [Rl Rs].
      eexists. split; [exact Rl | exact Rs].
    + eapply optimizeMemcpy_false_untouched. exact H.
  - change (opc_eqb G_MEMMOVE G_MEMCPY) with false in H.
    change (opc_eqb G_MEMMOVE G_MEMMOVE) with true in H. cbv iota in H.
    destruct r.
    + destruct (optimizeMemmove_reach _ _ _ _ _ _ _ _ _ _ _ _ _ _ _ _ _ _ _
                  _ _ HI HF HN H) as (MemOps & E & _ & HE & Hids & Hrl & Hrs).
      exists E, Value.
      split; [reflexivity|]. split; [exact HE|]. split; [exact Hids|].
      split; [intro Z0; contradiction|].
      intros HD HS.
      eexists. split; [exact (Hrl HS) | exact (Hrs HD)].
    + eapply optimizeMemmove_false_untouched. exact H.
Qed.

Lemma tryCombineMemCpyFamily_copy_move_all_or_nothing_witness :
  exists (E : list MachineInstr) (Value : Z),
    Examples.constantNoLookThrough (MRIof (Examples.memState G_MEMCPY 7))
      (getReg (getOperand (Examples.memOp G_MEMCPY) 2)) = Some Value
    /\ Insts Fixtures.memcpy7State
       = [Examples.memDst; Examples.memSrc; Examples.memLen 7] ++ E ++ []
    /\ Forall (fun i => NextId (Examples.memState G_MEMCPY 7) <= Id i) E
    /\ (u32 Value = 0 -> E = [])
    /\ (getReg (getOperand (Examples.memOp G_MEMCPY) 0)
        < index2VirtReg (NumVirtRegs (Examples.memState G_MEMCPY 7)) ->
        getReg (getOperand (Examples.memOp G_MEMCPY) 1)
        < index2VirtReg (NumVirtRegs (Examples.memState G_MEMCPY 7)) ->
        exists L : list (Z * Z),
          reach G_LOAD (getReg (getOperand (Examples.memOp G_MEMCPY) 1)) E
          = map Some L
          /\ reach G_STORE (getReg (getOperand (Examples.memOp G_MEMCPY) 0)) E
             = map Some L).
Proof.
  apply (tryCombineMemCpyFamily_copy_move_all_or_nothing
           (Examples.simpleTLI true) Examples.opcodeDefOf
           Examples.constantNoLookThrough false false false
           (fun _ => true) (fun _ => mkAlign 3) (fun _ => false) false 64%nat
           (Examples.memOp G_MEMCPY) 0 true (Examples.memState G_MEMCPY 7)
           Fixtures.memcpy7State
           [Examples.memDst; Examples.memSrc; Examples.memLen 7] []).
  - left. reflexivity.
  - reflexivity.
  - repeat constructor; cbn; lia.
  - cbn. lia.
  - vm_compute. reflexivity.
Defined.

(* ------------------------------------------------------------------ *)
(** ** The shift splitting of left and arithmetic right shifts *)

Lemma tryCombineShiftToUnmerge_shl_runs :
  forall (getConstantVRegValWithLookThrough :
            MachineRegisterInfo -> Register -> option Z)
         (st : CombinerState) (MI : MachineInstr)
         (pre post : list MachineInstr) (TargetShiftSize C : Z),
    Opc MI = G_SHL ->
    stateType st (getReg (getOperand MI 0)) = LLT_scalar 64 ->
    stateType st (getReg (getOperand MI 1)) = LLT_scalar 64 ->
    getConstantVRegValWithLookThrough (MRIof st) (getReg (getOperand MI 2))
    = Some C ->
    32 <= C <= 63 ->
    TargetShiftSize < 64 ->
    Insts st = pre ++ MI :: post ->
    Forall (fun i => Id i <> Id MI) (pre ++ post) ->
    Id MI < NextId st ->
    exists st',
      tryCombineShiftToUnmerge getConstantVRegValWithLookThrough MI
                               TargetShiftSize st = Some (true, st')
      /\ Insts st'
         = pre ++ shlSplitSequence (Parent MI) (NextId st) (NumVirtRegs st)
                    (getReg (getOperand MI 1)) (getReg (getOperand MI 0)) C
               ++ post
      /\ RegTypes st'
         = (if C =? 32 then []
            else [(index2VirtReg (NumVirtRegs st + 1 + 1 + 1 + 1),
                   LLT_scalar 32);
                  (index2VirtReg (NumVirtRegs st + 1 + 1 + 1),
                   LLT_scalar 32)])
           ++ (index2VirtReg (NumVirtRegs st + 1 + 1), LLT_scalar 32)
              :: (index2VirtReg (NumVirtRegs st + 1), LLT_scalar 32)
              :: (index2VirtReg (NumVirtRegs st), LLT_scalar 32)
              :: RegTypes st.
Proof.
  intros gcv st MI pre post T C HO HD HS HC HCr HT HI HF HN.
  apply Forall_app in HF. destruct HF as [Fpre Fpost].
  unfold tryCombineShiftToUnmerge, matchCombineShiftToUnmerge, bind, getState.
  rewrite HD. cbn [LLTOps.isVector LLTOps.getSizeInBits].
  change (u32 64) with 64.
  replace (64 <=? T) with false by (symmetry; apply Z.leb_gt; lia).
  rewrite HC. unfold ret at 1. cbn [fst snd].
  assert (EC : u32 C = C) by (unfold u32; apply Z.mod_small; lia).
  rewrite EC. change (64 / 2) with 32.
  replace (32 <=? C) with true by (symmetry; apply Z.leb_le; lia).
  replace (C <? 64) with true by (symmetry; apply Z.ltb_lt; lia).
  cbn [andb].
  unfold applyCombineShiftToUnmerge, bind, getState.
  rewrite HS, HO. cbn [LLTOps.getSizeInBits]. change (u32 64) with 64.
  change (64 / 2) with 32.
  change (opc_eqb G_SHL G_LSHR) with false.
  change (opc_eqb G_SHL G_SHL) with true. cbv iota.
  unfold setInsertPt, BuilderPoint, buildUnmerge, bind, getState.
  cbn [Insts RegTypes NumVirtRegs NextId InsertBB InsertPt ObjectAligns Log
       fst snd].
  unfold stateType in HS |- *. cbn [RegTypes].
  fold (stateType st (getReg (getOperand MI 1))).
  unfold stateType. rewrite HS.
  cbn [LLTOps.getSizeInBits]. change (Z.to_nat (u32 (64 / 32))) with 2%nat.
  run_builder. rewrite HI.
  rewrite insertBefore_at by (solve_forall || reflexivity).
  unfold shlSplitSequence.
  destruct (Z.eqb_spec C 32) as [E32 | N32].
  - subst C. change (u32 (32 - 32)) with 0. change (negb (0 =? 0)) with false.
    cbv iota. run_builder.
    rewrite !insertBefore_at by (solve_forall || reflexivity).
    rewrite erase_at by (solve_forall || reflexivity).
    eexists. split; [reflexivity|]. cbn [Insts RegTypes].
    split.
    + rewrite <- !app_assoc. reflexivity.
    + reflexivity.
  - assert (EN : u32 (C - 32) = C - 32)
      by (unfold u32; apply Z.mod_small; lia).
    rewrite EN.
    replace (C - 32 =? 0) with false by (symmetry; apply Z.eqb_neq; lia).
    cbn [negb]. cbv iota. run_builder.
    rewrite !insertBefore_at by (solve_forall || reflexivity).
    rewrite erase_at by (solve_forall || reflexivity).
    eexists. split; [reflexivity|]. cbn [Insts RegTypes].
    split.
    + rewrite <- !app_assoc. reflexivity.
    + replace (C =? 32) with false by (symmetry; apply Z.eqb_neq; lia).
      reflexivity.
Qed.

Lemma shiftl_low_half (x C : Z) :
  0 <= x < 2 ^ 64 -> 32 <= C <= 63 ->
  Z.shiftl (Z.shiftl (x mod 2 ^ 32) (C - 32) mod 2 ^ 32) 32
  = Z.shiftl x C mod 2 ^ 64.
Proof.
  intros Hx HC.
  rewrite !Z.shiftl_mul_pow2 by lia.
  assert (E64 : 2 ^ 64 = 2 ^ 32 * 2 ^ 32) by reflexivity.
  assert (EC : 2 ^ C = 2 ^ (C - 32) * 2 ^ 32).
  { rewrite <- Z.pow_add_r by lia. f_equal. lia. }
  rewrite E64, EC.
  rewrite Z.mul_assoc.
  rewrite Z.mul_mod_distr_r by lia.
  f_equal.
  rewrite <- (Z.mul_mod_idemp_l x) by lia.
  reflexivity.
Qed.

Lemma shlSplitSequence_value :
  forall (st' : CombinerState) (bb n k : Z) (Src Dst : Register)
         (C x : Z) (env : RegEnv),
    32 <= C <= 63 -> 0 <= x < 2 ^ 64 -> env Src = x ->
    stateType st' (index2VirtReg k) = LLT_scalar 32 ->
    stateType st' (index2VirtReg (k + 1)) = LLT_scalar 32 ->
    stateType st' (index2VirtReg (k + 1 + 1)) = LLT_scalar 32 ->
    (C <> 32 ->
     stateType st' (index2VirtReg (k + 1 + 1 + 1)) = LLT_scalar 32
     /\ stateType st' (index2VirtReg (k + 1 + 1 + 1 + 1)) = LLT_scalar 32) ->
    exists env',
      evalInstrs st' (shlSplitSequence bb n k Src Dst C) env = Some env'
      /\ env' Dst = Z.shiftl x C mod 2 ^ 64.
Proof.
  intros st' bb n k Src Dst C x env HC Hx Henv T0 T1 T2 T34.
  assert (H32 : Z.shiftr x 32 mod 2 ^ 32 = Z.shiftr x 32).
  { apply Z.mod_small. rewrite Z.shiftr_div_pow2 by lia. split.
    - apply Z.div_pos; lia.
    - apply Z.div_lt_upper_bound; [lia|].
      change (2 ^ 32 * 2 ^ 32) with (2 ^ 64). lia. }
  unfold shlSplitSequence.
  destruct (Z.eqb_spec C 32) as [E32 | N32].
  - eexists. cbn [evalInstrs]. unfold evalInstr.
    cbn [Opc getOperand Operands nth getReg def use filter isDef last
         setPieces uses dropDefs hd mergePieces].
    unfold widthOf. rewrite T0, T2. cbn [LLTOps.getSizeInBits].
    split; [reflexivity|]. unfold setReg. rewrite Z.eqb_refl. decide_regs.
    rewrite Henv. change (0 + 1) with 1.
    change (1 * 32) with 32. change (0 * 32) with 0.
    change (0 mod 2 ^ 32) with 0.
    rewrite Z.shiftl_0_l, Z.shiftr_0_r. subst C.
    rewrite <- (shiftl_low_half x 32) by lia.
    change (32 - 32) with 0. rewrite Z.shiftl_0_r.
    rewrite Z.mod_mod by lia. lia.
  - destruct (T34 N32) as [T3 T4].
    assert (EM : (C - 32) mod 2 ^ 32 = C - 32) by (apply Z.mod_small; lia).
    eexists. cbn [evalInstrs]. unfold evalInstr.
    cbn [Opc getOperand Operands nth getReg def use filter isDef last
         setPieces uses dropDefs hd mergePieces].
    unfold widthOf. rewrite T0, T2, T3, T4. cbn [LLTOps.getSizeInBits].
    unfold setReg at 1. rewrite Z.eqb_refl. rewrite EM.
    replace (C - 32 <? 32) with true by (symmetry; apply Z.ltb_lt; lia).
    split; [reflexivity|]. unfold setReg. rewrite Z.eqb_refl. decide_regs.
    rewrite Henv. change (0 + 1) with 1.
    change (1 * 32) with 32. change (0 * 32) with 0.
    change (0 mod 2 ^ 32) with 0.
    rewrite Z.shiftl_0_l, Z.shiftr_0_r.
    rewrite shiftl_low_half by lia. lia.
Qed.

(** X7.  For a 64-bit value [x] and a constant amount [C] with
    [32 <= C <= 63], the shift-splitting rewrite of
    [Dst = G_SHL Src, C] succeeds and replaces the instruction by the
    unmerge of [Src], one narrow [G_SHL] of the low half by [C - 32]
    (none when [C] is 32), a zero and the merge of the zero (low part)
    with the shifted low half (high part); on any register file in
    which [Src] holds [x] the sequence leaves [x] shifted left by [C],
    cut to 64 bits, in [Dst]. *)
Theorem shift_to_unmerge_shl_correct :
  forall (getConstantVRegValWithLookThrough :
            MachineRegisterInfo -> Register -> option Z)
         (st : CombinerState) (MI : MachineInstr)
         (pre post : list MachineInstr) (TargetShiftSize C x : Z),
    Opc MI = G_SHL ->
    stateType st (getReg (getOperand MI 0)) = LLT_scalar 64 ->
    stateType st (getReg (getOperand MI 1)) = LLT_scalar 64 ->
    getConstantVRegValWithLookThrough (MRIof st) (getReg (getOperand MI 2))
    = Some C ->
    32 <= C <= 63 ->
    TargetShiftSize < 64 ->
    Insts st = pre ++ MI :: post ->
    Forall (fun i => Id i <> Id MI) (pre ++ post) ->
    Id MI < NextId st ->
    0 <= x < 2 ^ 64 ->
    let Src := getReg (getOperand MI 1) in
    let Dst := getReg (getOperand MI 0) in
    let emitted :=
      shlSplitSequence (Parent MI) (NextId st) (NumVirtRegs st) Src Dst C in
    exists st',
      tryCombineShiftToUnmerge getConstantVRegValWithLookThrough MI
                               TargetShiftSize st = Some (true, st')
      /\ Insts st' = pre ++ emitted ++ post
      /\ countOpcode G_SHL emitted = (if C =? 32 then 0%nat else 1%nat)
      /\ forall env : RegEnv,
          env Src = x ->
          exists env',
            evalInstrs st' emitted env = Some env'
            /\ env' Dst = Z.shiftl x C mod 2 ^ 64.
Proof.
  intros gcv st MI pre post T C x HO HD HS HC HCr HT HI HF HN Hx
         Src Dst emitted.
  destruct (tryCombineShiftToUnmerge_shl_runs gcv st MI pre post T C
              HO HD HS HC HCr HT HI HF HN)
    as (st' & Hrun & HInsts & HRT).
  exists st'. split; [exact Hrun|]. split; [exact HInsts|].
  split.
  { unfold emitted, shlSplitSequence. destruct (C =? 32); reflexivity. }
  intros env Henv.
  apply shlSplitSequence_value; auto.
  - unfold stateType. rewrite HRT.
    destruct (C =? 32); cbn [app lookupZ]; decide_regs; reflexivity.
  - unfold stateType. rewrite HRT.
    destruct (C =? 32); cbn [app lookupZ]; decide_regs; reflexivity.
  - unfold stateType. rewrite HRT.
    destruct (C =? 32); cbn [app lookupZ]; decide_regs; reflexivity.
  - intro N32. unfold stateType. rewrite HRT.
    replace (C =? 32) with false by (symmetry; apply Z.eqb_neq; lia).
    cbn [app lookupZ]; decide_regs. split; reflexivity.
Qed.

Lemma shift_to_unmerge_shl_correct_witness :
  exists st',
    tryCombineShiftToUnmerge Examples.constantNoLookThrough
                             (ShiftFixtures.shiftBy40 G_SHL) 32
                             (ShiftFixtures.shiftByState G_SHL)
    = Some (true, st')
    /\ Insts st'
       = [Examples.shiftSrc; Examples.shiftAmt]
           ++ shlSplitSequence 0 100 16 (Examples.v 0) (Examples.v 2) 40
           ++ []
    /\ countOpcode G_SHL
         (shlSplitSequence 0 100 16 (Examples.v 0) (Examples.v 2) 40)
       = 1%nat
    /\ forall env : RegEnv,
        env (Examples.v 0) = 81985529216486895 ->
        exists env',
          evalInstrs st'
            (shlSplitSequence 0 100 16 (Examples.v 0) (Examples.v 2) 40)
            env = Some env'
          /\ env' (Examples.v 2)
             = Z.shiftl 81985529216486895 40 mod 2 ^ 64.
Proof.
  apply (shift_to_unmerge_shl_correct
           Examples.constantNoLookThrough (ShiftFixtures.shiftByState G_SHL)
           (ShiftFixtures.shiftBy40 G_SHL)
           [Examples.shiftSrc; Examples.shiftAmt] [] 32 40
           81985529216486895).
  - reflexivity.
  - reflexivity.
  - reflexivity.
  - reflexivity.
  - lia.
  - lia.
  - reflexivity.
  - repeat constructor; cbn; lia.
  - cbn. lia.
  - lia.
Defined.

Lemma tryCombineShiftToUnmerge_ashr_runs :
  forall (getConstantVRegValWithLookThrough :
            MachineRegisterInfo -> Register -> option Z)
         (st : CombinerState) (MI : MachineInstr)
         (pre post : list MachineInstr) (TargetShiftSize C : Z),
    Opc MI = G_ASHR ->
    stateType st (getReg (getOperand MI 0)) = LLT_scalar 64 ->
    stateType st (getReg (getOperand MI 1)) = LLT_scalar 64 ->
    getConstantVRegValWithLookThrough (MRIof st) (getReg (getOperand MI 2))
    = Some C ->
    32 <= C <= 63 ->
    TargetShiftSize < 64 ->
    Insts st = pre ++ MI :: post ->
    Forall (fun i => Id i <> Id MI) (pre ++ post) ->
    Id MI < NextId st ->
    exists st',
      tryCombineShiftToUnmerge getConstantVRegValWithLookThrough MI
                               TargetShiftSize st = Some (true, st')
      /\ Insts st'
         = pre ++ ashrSplitSequence (Parent MI) (NextId st) (NumVirtRegs st)
                    (getReg (getOperand MI 1)) (getReg (getOperand MI 0)) C
               ++ post
      /\ RegTypes st'
         = (if (C =? 32) || (C =? 63) then []
            else [(index2VirtReg (NumVirtRegs st + 1 + 1 + 1 + 1 + 1),
                   LLT_scalar 32);
                  (index2VirtReg (NumVirtRegs st + 1 + 1 + 1 + 1),
                   LLT_scalar 32)])
           ++ (index2VirtReg (NumVirtRegs st + 1 + 1 + 1), LLT_scalar 32)
              :: (index2VirtReg (NumVirtRegs st + 1 + 1), LLT_scalar 32)
              :: (index2VirtReg (NumVirtRegs st + 1), LLT_scalar 32)
              :: (index2VirtReg (NumVirtRegs st), LLT_scalar 32)
              :: RegTypes st.
Proof.
  intros gcv st MI pre post T C HO HD HS HC HCr HT HI HF HN.
  apply Forall_app in HF. destruct HF as [Fpre Fpost].
  unfold tryCombineShiftToUnmerge, matchCombineShiftToUnmerge, bind, getState.
  rewrite HD. cbn [LLTOps.isVector LLTOps.getSizeInBits].
  change (u32 64) with 64.
  replace (64 <=? T) with false by (symmetry; apply Z.leb_gt; lia).
  rewrite HC. unfold ret at 1. cbn [fst snd].
  assert (EC : u32 C = C) by (unfold u32; apply Z.mod_small; lia).
  rewrite EC. change (64 / 2) with 32.
  replace (32 <=? C) with true by (symmetry; apply Z.leb_le; lia).
  replace (C <? 64) with true by (symmetry; apply Z.ltb_lt; lia).
  cbn [andb].
  unfold applyCombineShiftToUnmerge, bind, getState.
  rewrite HS, HO. cbn [LLTOps.getSizeInBits]. change (u32 64) with 64.
  change (64 / 2) with 32.
  change (opc_eqb G_ASHR G_LSHR) with false.
  change (opc_eqb G_ASHR G_SHL) with false. cbv iota.
  change (u32 (32 - 1)) with 31. change (u32 (64 - 1)) with 63.
  unfold setInsertPt, BuilderPoint, buildUnmerge, bind, getState.
  cbn [Insts RegTypes NumVirtRegs NextId InsertBB InsertPt ObjectAligns Log
       fst snd].
  unfold stateType in HS |- *. cbn [RegTypes].
  fold (stateType st (getReg (getOperand MI 1))).
  unfold stateType. rewrite HS.
  cbn [LLTOps.getSizeInBits]. change (Z.to_nat (u32 (64 / 32))) with 2%nat.
  run_builder_cbn. rewrite HI.
  rewrite !insertBefore_at by (solve_forall || reflexivity).
  unfold ashrSplitSequence.
  destruct (Z.eqb_spec C 32) as [E32 | N32].
  - run_builder_cbn.
    rewrite !insertBefore_at by (solve_forall || reflexivity).
    rewrite erase_at by (solve_forall || reflexivity).
    eexists. split; [reflexivity|]. cbn [Insts RegTypes orb].
    split.
    + rewrite <- !app_assoc. reflexivity.
    + reflexivity.
  - destruct (Z.eqb_spec C 63) as [E63 | N63].
    + run_builder_cbn.
      rewrite !insertBefore_at by (solve_forall || reflexivity).
      rewrite erase_at by (solve_forall || reflexivity).
      eexists. split; [reflexivity|]. cbn [Insts RegTypes orb].
      split.
      * rewrite <- !app_assoc. reflexivity.
      * reflexivity.
    + assert (EN : u32 (C - 32) = C - 32)
        by (unfold u32; apply Z.mod_small; lia).
      rewrite EN. run_builder_cbn.
      rewrite !insertBefore_at by (solve_forall || reflexivity).
      rewrite erase_at by (solve_forall || reflexivity).
      eexists. split; [reflexivity|]. cbn [Insts RegTypes orb].
      split.
      * rewrite <- !app_assoc. reflexivity.
      * reflexivity.
Qed.

Lemma mod_of_negative (a m : Z) : - m <= a < 0 -> a mod m = a + m.
Proof.
  intro H. replace a with (a + m + (-1) * m) at 1 by lia.
  rewrite Z.mod_add by lia. apply Z.mod_small. lia.
Qed.

(** The sign word and a narrow arithmetic shift of the high half make
    up the wide arithmetic shift. *)
Lemma ashr_high_half (x C : Z) :
  0 <= x < 2 ^ 64 -> 32 <= C <= 63 ->
  let s := signedValue 32 (Z.shiftr x 32) in
  Z.shiftl (Z.shiftr s (C - 32) mod 2 ^ 32) 0
  + Z.shiftl (Z.shiftr s 31 mod 2 ^ 32) 32
  = Z.shiftr (signedValue 64 x) C mod 2 ^ 64.
Proof.
  intros Hx HC s.
  assert (Hhi : 0 <= Z.shiftr x 32 < 2 ^ 32).
  { rewrite Z.shiftr_div_pow2 by lia. split.
    - apply Z.div_pos; lia.
    - apply Z.div_lt_upper_bound; [lia|].
      change (2 ^ 32 * 2 ^ 32) with (2 ^ 64). lia. }
  assert (Es : Z.shiftr (signedValue 64 x) 32 = s).
  { unfold s, signedValue. rewrite !Z.shiftr_div_pow2 by lia.
    change (2 ^ (64 - 1)) with (2 ^ 63). change (2 ^ (32 - 1)) with (2 ^ 31).
    rewrite Z.shiftr_div_pow2 in Hhi by lia.
    destruct (Z.ltb_spec x (2 ^ 63)) as [Hs | Hs].
    - replace (x / 2 ^ 32 <? 2 ^ 31) with true; [reflexivity|].
      symmetry. apply Z.ltb_lt. apply Z.div_lt_upper_bound; [lia|].
      change (2 ^ 32 * 2 ^ 31) with (2 ^ 63). lia.
    - replace (x / 2 ^ 32 <? 2 ^ 31) with false.
      + replace (x - 2 ^ 64) with (x + (- 2 ^ 32) * 2 ^ 32) by lia.
        rewrite Z.div_add by lia. lia.
      + symmetry. apply Z.ltb_ge. apply Z.div_le_lower_bound; [lia|].
        change (2 ^ 32 * 2 ^ 31) with (2 ^ 63). lia. }
  assert (EC : Z.shiftr (signedValue 64 x) C = Z.shiftr s (C - 32)).
  { rewrite <- Es. rewrite Z.shiftr_shiftr by lia. f_equal. lia. }
  rewrite EC.
  assert (Hs : - 2 ^ 31 <= s < 2 ^ 31).
  { unfold s, signedValue. change (2 ^ (32 - 1)) with (2 ^ 31).
    destruct (Z.ltb_spec (Z.shiftr x 32) (2 ^ 31)); lia. }
  rewrite Z.shiftl_0_r. rewrite Z.shiftl_mul_pow2 by lia.
  rewrite !Z.shiftr_div_pow2 by lia.
  assert (Hp : 0 < 2 ^ (C - 32)) by (apply Z.pow_pos_nonneg; lia).
  destruct (Z.lt_ge_cases s 0) as [Hneg | Hpos].
  - assert (Ht : - 2 ^ 31 <= s / 2 ^ (C - 32) < 0).
    { split.
      - apply Z.div_le_lower_bound; [lia|]. nia.
      - apply Z.div_lt_upper_bound; lia. }
    assert (H31 : s / 2 ^ 31 = -1).
    { assert (-1 <= s / 2 ^ 31) by (apply Z.div_le_lower_bound; lia).
      assert (s / 2 ^ 31 < 0) by (apply Z.div_lt_upper_bound; lia).
      lia. }
    rewrite H31. change (-1 mod 2 ^ 32) with (2 ^ 32 - 1).
    rewrite (mod_of_negative _ (2 ^ 32)) by lia.
    rewrite (mod_of_negative _ (2 ^ 64)) by lia.
    change (2 ^ 64) with (2 ^ 32 * 2 ^ 32). lia.
  - assert (Ht : 0 <= s / 2 ^ (C - 32) < 2 ^ 31).
    { split.
      - apply Z.div_pos; lia.
      - apply Z.div_lt_upper_bound; [lia|]. nia. }
    assert (H31 : s / 2 ^ 31 = 0) by (apply Z.div_small; lia).
    rewrite H31. change (0 mod 2 ^ 32) with 0.
    rewrite !Z.mod_small by lia. lia.
Qed.

Lemma ashrSplitSequence_value :
  forall (st' : CombinerState) (bb n k : Z) (Src Dst : Register)
         (C x : Z) (env : RegEnv),
    32 <= C <= 63 -> 0 <= x < 2 ^ 64 -> env Src = x ->
    stateType st' (index2VirtReg k) = LLT_scalar 32 ->
    stateType st' (index2VirtReg (k + 1)) = LLT_scalar 32 ->
    stateType st' (index2VirtReg (k + 1 + 1)) = LLT_scalar 32 ->
    stateType st' (index2VirtReg (k + 1 + 1 + 1)) = LLT_scalar 32 ->
    (C <> 32 -> C <> 63 ->
     stateType st' (index2VirtReg (k + 1 + 1 + 1 + 1)) = LLT_scalar 32
     /\ stateType st' (index2VirtReg (k + 1 + 1 + 1 + 1 + 1))
        = LLT_scalar 32) ->
    exists env',
      evalInstrsX st' (ashrSplitSequence bb n k Src Dst C) env = Some env'
      /\ env' Dst = Z.shiftr (signedValue 64 x) C mod 2 ^ 64.
Proof.
  intros st' bb n k Src Dst C x env HC Hx Henv T0 T1 T2 T3 T45.
  assert (H32 : Z.shiftr x 32 mod 2 ^ 32 = Z.shiftr x 32).
  { apply Z.mod_small. rewrite Z.shiftr_div_pow2 by lia. split.
    - apply Z.div_pos; lia.
    - apply Z.div_lt_upper_bound; [lia|].
      change (2 ^ 32 * 2 ^ 32) with (2 ^ 64). lia. }
  pose proof (ashr_high_half x C Hx HC) as Hval. cbv zeta in Hval.
  unfold ashrSplitSequence.
  destruct (Z.eqb_spec C 32) as [E32 | N32].
  - eexists. cbn [app evalInstrsX]. unfold evalInstrX, evalInstr.
    cbn [Opc getOperand Operands nth getReg def use filter isDef last
         setPieces uses dropDefs hd mergePieces].
    unfold widthOf. rewrite T0, T1, T2, T3. cbn [LLTOps.getSizeInBits].
    unfold setReg at 1. rewrite Z.eqb_refl.
    change (31 mod 2 ^ 32 <? 32) with true. cbv iota.
    split; [reflexivity|]. unfold setReg. rewrite Z.eqb_refl. decide_regs.
    rewrite Henv. change (0 + 1) with 1.
    change (1 * 32) with 32. change (0 * 32) with 0.
    rewrite H32. change (31 mod 2 ^ 32) with 31.
    rewrite <- Hval. subst C. change (32 - 32) with 0.
    rewrite Z.shiftr_0_r.
    assert (Elow : signedValue 32 (Z.shiftr x 32) mod 2 ^ 32 = Z.shiftr x 32).
    { unfold signedValue. change (2 ^ (32 - 1)) with (2 ^ 31).
      destruct (Z.ltb_spec (Z.shiftr x 32) (2 ^ 31)); [exact H32|].
      replace (Z.shiftr x 32 - 2 ^ 32)
        with (Z.shiftr x 32 + (-1) * 2 ^ 32) by lia.
      rewrite Z.mod_add by lia. exact H32. }
    rewrite Elow. lia.
  - destruct (Z.eqb_spec C 63) as [E63 | N63].
    + eexists. cbn [app evalInstrsX]. unfold evalInstrX, evalInstr.
      cbn [Opc getOperand Operands nth getReg def use filter isDef last
           setPieces uses dropDefs hd mergePieces].
      unfold widthOf. rewrite T0, T2, T3. cbn [LLTOps.getSizeInBits].
      unfold setReg at 1. rewrite Z.eqb_refl.
      change (31 mod 2 ^ 32 <? 32) with true. cbv iota.
      split; [reflexivity|]. unfold setReg. rewrite Z.eqb_refl. decide_regs.
      rewrite Henv. change (0 + 1) with 1.
      change (1 * 32) with 32. change (0 * 32) with 0.
      rewrite H32. change (31 mod 2 ^ 32) with 31.
      rewrite <- Hval. subst C. change (63 - 32) with 31. lia.
    + destruct (T45 N32 N63) as [T4 T5].
      assert (EM : (C - 32) mod 2 ^ 32 = C - 32) by (apply Z.mod_small; lia).
      eexists. cbn [app evalInstrsX]. unfold evalInstrX, evalInstr.
      cbn [Opc getOperand Operands nth getReg def use filter isDef last
           setPieces uses dropDefs hd mergePieces].
      unfold widthOf. rewrite T0, T2, T3, T4, T5. cbn [LLTOps.getSizeInBits].
      unfold setReg at 1. rewrite Z.eqb_refl.
      change (31 mod 2 ^ 32 <? 32) with true. cbv iota.
      unfold setReg at 1. rewrite Z.eqb_refl. rewrite EM.
      replace (C - 32 <? 32) with true by (symmetry; apply Z.ltb_lt; lia).
      split; [reflexivity|]. unfold setReg. rewrite Z.eqb_refl. decide_regs.
      rewrite Henv. change (0 + 1) with 1.
      change (1 * 32) with 32. change (0 * 32) with 0.
      rewrite H32. change (31 mod 2 ^ 32) with 31.
      rewrite <- Hval. lia.
Qed.

(** X8.  For a 64-bit value [x] and a constant amount [C] with
    [32 <= C <= 63], the shift-splitting rewrite of
    [Dst = G_ASHR Src, C] succeeds and replaces the instruction by the
    unmerge of [Src], the sign word [G_ASHR hi, 31] and, unless [C] is
    32 or 63, one more narrow [G_ASHR] of the high half by [C - 32],
    merged with the sign word as the high part; on any register file in
    which [Src] holds [x] the sequence leaves in [Dst] the signed
    reading of [x] shifted right by [C], as a 64-bit value. *)
Theorem shift_to_unmerge_ashr_correct :
  forall (getConstantVRegValWithLookThrough :
            MachineRegisterInfo -> Register -> option Z)
         (st : CombinerState) (MI : MachineInstr)
         (pre post : list MachineInstr) (TargetShiftSize C x : Z),
    Opc MI = G_ASHR ->
    stateType st (getReg (getOperand MI 0)) = LLT_scalar 64 ->
    stateType st (getReg (getOperand MI 1)) = LLT_scalar 64 ->
    getConstantVRegValWithLookThrough (MRIof st) (getReg (getOperand MI 2))
    = Some C ->
    32 <= C <= 63 ->
    TargetShiftSize < 64 ->
    Insts st = pre ++ MI :: post ->
    Forall (fun i => Id i <> Id MI) (pre ++ post) ->
    Id MI < NextId st ->
    0 <= x < 2 ^ 64 ->
    let Src := getReg (getOperand MI 1) in
    let Dst := getReg (getOperand MI 0) in
    let emitted :=
      ashrSplitSequence (Parent MI) (NextId st) (NumVirtRegs st) Src Dst C in
    exists st',
      tryCombineShiftToUnmerge getConstantVRegValWithLookThrough MI
                               TargetShiftSize st = Some (true, st')
      /\ Insts st' = pre ++ emitted ++ post
      /\ countOpcode G_ASHR emitted
         = (if (C =? 32) || (C =? 63) then 1%nat else 2%nat)
      /\ forall env : RegEnv,
          env Src = x ->
          exists env',
            evalInstrsX st' emitted env = Some env'
            /\ env' Dst = Z.shiftr (signedValue 64 x) C mod 2 ^ 64.
Proof.
  intros gcv st MI pre post T C x HO HD HS HC HCr HT HI HF HN Hx
         Src Dst emitted.
  destruct (tryCombineShiftToUnmerge_ashr_runs gcv st MI pre post T C
              HO HD HS HC HCr HT HI HF HN)
    as (st' & Hrun & HInsts & HRT).
  exists st'. split; [exact Hrun|]. split; [exact HInsts|].
  split.
  { unfold emitted, ashrSplitSequence.
    destruct (C =? 32); [reflexivity|]. destruct (C =? 63); reflexivity. }
  intros env Henv.
  apply ashrSplitSequence_value; auto.
  - unfold stateType. rewrite HRT.
    destruct ((C =? 32) || (C =? 63)); cbn [app lookupZ]; decide_regs;
      reflexivity.
  - unfold stateType. rewrite HRT.
    destruct ((C =? 32) || (C =? 63)); cbn [app lookupZ]; decide_regs;
      reflexivity.
  - unfold stateType. rewrite HRT.
    destruct ((C =? 32) || (C =? 63)); cbn [app lookupZ]; decide_regs;
      reflexivity.
  - unfold stateType. rewrite HRT.
    destruct ((C =? 32) || (C =? 63)); cbn [app lookupZ]; decide_regs;
      reflexivity.
  - intros N32 N63. unfold stateType. rewrite HRT.
    replace (C =? 32) with false by (symmetry; apply Z.eqb_neq; lia).
    replace (C =? 63) with false by (symmetry; apply Z.eqb_neq; lia).
    cbn [orb app lookupZ]; decide_regs. split; reflexivity.
Qed.

Lemma shift_to_unmerge_ashr_correct_witness :
  exists st',
    tryCombineShiftToUnmerge Examples.constantNoLookThrough
                             (ShiftFixtures.shiftBy40 G_ASHR) 32
                             (ShiftFixtures.shiftByState G_ASHR)
    = Some (true, st')
    /\ Insts st'
       = [Examples.shiftSrc; Examples.shiftAmt]
           ++ ashrSplitSequence 0 100 16 (Examples.v 0) (Examples.v 2) 40
           ++ []
    /\ countOpcode G_ASHR
         (ashrSplitSequence 0 100 16 (Examples.v 0) (Examples.v 2) 40)
       = 2%nat
    /\ forall env : RegEnv,
        env (Examples.v 0) = 18364758544493064720 ->
        exists env',
          evalInstrsX st'
            (ashrSplitSequence 0 100 16 (Examples.v 0) (Examples.v 2) 40)
            env = Some env'
          /\ env' (Examples.v 2)
             = Z.shiftr (signedValue 64 18364758544493064720) 40 mod 2 ^ 64.
Proof.
  apply (shift_to_unmerge_ashr_correct
           Examples.constantNoLookThrough (ShiftFixtures.shiftByState G_ASHR)
           (ShiftFixtures.shiftBy40 G_ASHR)
           [Examples.shiftSrc; Examples.shiftAmt] [] 32 40
           18364758544493064720).
  - reflexivity.
  - reflexivity.
  - reflexivity.
  - reflexivity.
  - lia.
  - lia.
  - reflexivity.
  - repeat constructor; cbn; lia.
  - cbn. lia.
  - lia.
Defined.

(* ------------------------------------------------------------------ *)
(** ** Combines that rewrite an instruction in place *)

Lemma update_at (p : Z) (f : MachineInstr -> MachineInstr) (x : MachineInstr)
      (l1 l2 : list MachineInstr) :
  Forall (fun i => Id i <> p) l1 -> Forall (fun i => Id i <> p) l2 ->
  Id x = p ->
  map (fun i => if Id i =? p then f i else i) (l1 ++ x :: l2)
  = l1 ++ f x :: l2.
Proof.
  intros F1 F2 E.
  assert (K : forall l, Forall (fun i => Id i <> p) l ->
                        map (fun i => if Id i =? p then f i else i) l = l).
  { intros l F. induction F as [|y l Hy F IH]; cbn [map]; [reflexivity|].
    rewrite (proj2 (Z.eqb_neq _ _) Hy), IH. reflexivity. }
  rewrite map_app. cbn [map].
  rewrite (proj2 (Z.eqb_eq _ _) E), (K l1 F1), (K l2 F2). reflexivity.
Qed.

(** An unsigned 64-bit number that [isPowerOf2_64] accepts is two to
    its [Log2_64]. *)
Lemma isPowerOf2_64_log2 (V : Z) :
  0 <= V < 2 ^ 64 -> isPowerOf2_64 V = true ->
  V = 2 ^ Log2_64 V /\ 0 <= Log2_64 V <= 63.
Proof.
  intros HV HP. unfold isPowerOf2_64 in HP.
  apply andb_prop in HP. destruct HP as [HZ HL].
  apply negb_true_iff in HZ. apply Z.eqb_neq in HZ. apply Z.eqb_eq in HL.
  unfold Log2_64. rewrite (proj2 (Z.eqb_neq _ _) HZ).
  assert (HV1 : 0 < V) by lia.
  assert (EU : u64 (V - 1) = V - 1) by (unfold u64; apply Z.mod_small; lia).
  rewrite EU in HL.
  pose proof (Z.log2_spec V HV1) as [Hlo Hhi].
  pose proof (Z.log2_nonneg V) as Hk.
  assert (Hk63 : Z.log2 V <= 63).
  { destruct (Z_le_gt_dec (Z.log2 V) 63) as [|G]; [assumption|].
    assert (2 ^ 64 <= 2 ^ Z.log2 V) by (apply Z.pow_le_mono_r; lia). lia. }
  split; [| lia].
  destruct (Z.eq_dec V (2 ^ Z.log2 V)) as [|NE]; [assumption|].
  exfalso.
  assert (L1 : Z.log2 (V - 1) = Z.log2 V).
  { apply Z.log2_unique; [exact Hk|]. lia. }
  assert (B1 : Z.testbit V (Z.log2 V) = true) by (apply Z.bit_log2; lia).
  assert (B2 : Z.testbit (V - 1) (Z.log2 V) = true).
  { rewrite <- L1. apply Z.bit_log2. lia. }
  assert (B : Z.testbit (Z.land V (V - 1)) (Z.log2 V) = true).
  { rewrite Z.land_spec, B1, B2. reflexivity. }
  rewrite HL, Z.bits_0 in B. discriminate.
Qed.

(** A constant of [w] bits that is a power of two as an unsigned
    64-bit number: its [w]-bit pattern is that power, and the exponent
    is below [w]. *)
Lemma power_of_two_constant (w Value : Z) :
  1 <= w <= 64 -> - 2 ^ (w - 1) <= Value < 2 ^ (w - 1) ->
  isPowerOf2_64 (u64 Value) = true ->
  Value mod 2 ^ w = 2 ^ Log2_64 (u64 Value)
  /\ 0 <= Log2_64 (u64 Value) < w.
Proof.
  intros Hw HV HP.
  assert (HU : 0 <= u64 Value < 2 ^ 64)
    by (unfold u64; apply Z.mod_pos_bound; lia).
  destruct (isPowerOf2_64_log2 _ HU HP) as [E Hk].
  set (k := Log2_64 (u64 Value)) in *.
  assert (Hw1 : 2 ^ (w - 1) <= 2 ^ 63) by (apply Z.pow_le_mono_r; lia).
  assert (Hww : 2 ^ w = 2 * 2 ^ (w - 1)).
  { replace w with (Z.succ (w - 1)) at 1 by lia. apply Z.pow_succ_r. lia. }
  destruct (Z_lt_ge_dec Value 0) as [Neg|Pos].
  - assert (EU : u64 Value = Value + 2 ^ 64).
    { unfold u64. symmetry. apply Z.mod_unique with (q := -1); lia. }
    assert (H63 : 2 ^ 63 <= 2 ^ k) by lia.
    assert (k = 63).
    { destruct (Z.eq_dec k 63) as [|NE]; [assumption|].
      assert (2 ^ k <= 2 ^ 62) by (apply Z.pow_le_mono_r; lia). lia. }
    subst k. rewrite H in *.
    assert (w = 64).
    { destruct (Z.eq_dec w 64) as [|NE]; [assumption|].
      assert (2 ^ (w - 1) <= 2 ^ 62) by (apply Z.pow_le_mono_r; lia). lia. }
    subst w. split; [| lia].
    symmetry. apply Z.mod_unique with (q := -1); lia.
  - assert (EU : u64 Value = Value).
    { unfold u64. apply Z.mod_small. lia. }
    rewrite EU in E. split.
    + rewrite Z.mod_small by lia. exact E.
    + split; [lia|].
      destruct (Z_lt_ge_dec k w) as [|G]; [assumption|].
      assert (2 ^ w <= 2 ^ k) by (apply Z.pow_le_mono_r; lia). lia.
Qed.

Lemma setReg_same (r : Register) (v : Z) (env : RegEnv) :
  setReg r v env r = v.
Proof. unfold setReg. rewrite Z.eqb_refl. reflexivity. Qed.

Lemma setReg_other (r r' : Register) (v : Z) (env : RegEnv) :
  r' <> r -> setReg r v env r' = env r'.
Proof.
  intros NE. unfold setReg. rewrite (proj2 (Z.eqb_neq _ _) NE). reflexivity.
Qed.

Lemma lt_pow2_self (k : Z) : 0 <= k -> k < 2 ^ k.
Proof. intros H. apply Z.pow_gt_lin_r; lia. Qed.

(** The state [applyCombineMulToShl] and [applyPtrAddImmedChain] leave:
    a constant before the instruction, which is changed where it
    stands. *)
Lemma constant_then_update :
  forall (st : CombinerState) (MI : MachineInstr)
         (pre post : list MachineInstr) (Ty : LLT) (Val : Z)
         (f : MachineInstr -> MachineInstr)
         (g : Register -> MachineInstr -> MachineInstr),
    Insts st = pre ++ MI :: post ->
    Forall (fun i => Id i <> Id MI) (pre ++ post) ->
    Id MI < NextId st ->
    (forall x, Id (f x) = Id x) ->
    exists st',
      (NewCst <- buildConstant (pointBefore MI) Ty Val ;;
       notify (changingInstr (Id MI)) ;;;
       updateInstr MI f ;;;
       updateInstr MI (g NewCst) ;;;
       notify (changedInstr (Id MI)) ;;;
       ret true) st = Some (true, st')
      /\ Insts st'
         = pre ++ mkMI (NextId st) G_CONSTANT
                       [def (index2VirtReg (NumVirtRegs st));
                        MO_CImmediate Val] (Parent MI) []
               :: g (index2VirtReg (NumVirtRegs st)) (f MI) :: post
      /\ RegTypes st' = (index2VirtReg (NumVirtRegs st), Ty) :: RegTypes st.
Proof.
  intros st MI pre post Ty Val f g HI HF HId Hf.
  apply Forall_app in HF. destruct HF as [Fpre Fpost].
  eexists. split; [| split].
  - unfold buildConstant, updateInstr, notify, pointBefore.
    run_builder_cbn. reflexivity.
  - cbn [Insts setInsts fst snd]. rewrite HI.
    rewrite insertBefore_at by (assumption || reflexivity).
    rewrite update_at; [| solve_forall | assumption | reflexivity].
    rewrite update_at; [| solve_forall | assumption | apply Hf].
    rewrite <- app_assoc. reflexivity.
  - reflexivity.
Qed.

Lemma widthOf_after_new (st st' : CombinerState) (r n : Register) (Ty : LLT) :
  RegTypes st' = (n, Ty) :: RegTypes st ->
  (widthOf st' n = LLTOps.getSizeInBits Ty)
  /\ (r <> n -> widthOf st' r = widthOf st r).
Proof.
  intros E. unfold widthOf, stateType. rewrite E. cbn [lookupZ]. split.
  - rewrite Z.eqb_refl. reflexivity.
  - intros NE. rewrite (proj2 (Z.eqb_neq _ _)) by congruence. reflexivity.
Qed.

(** X9.  [matchCombineMulToShl] followed by [applyCombineMulToShl] keeps
    the value of the product.  When the matcher accepts a scalar
    [G_MUL] of [w <= 64] bits by a constant of [w] bits, the apply step
    runs, puts one [G_CONSTANT] in front of the instruction and turns
    it into a [G_SHL] that defines, in every environment in which the
    constant's register holds the constant, the value the [G_MUL]
    defined. *)
Theorem mul_to_shl_keeps_value :
  forall (getConstantVRegValWithLookThrough :
            MachineRegisterInfo -> Register -> option Z)
         (st st1 : CombinerState) (MI : MachineInstr)
         (pre post : list MachineInstr) (Dst Src Cst : Register)
         (Value w S0 ShiftVal : Z),
    Insts st = pre ++ MI :: post ->
    Forall (fun i => Id i <> Id MI) (pre ++ post) ->
    Id MI < NextId st ->
    Opc MI = G_MUL ->
    Operands MI = [def Dst; use Src; use Cst] ->
    stateType st Dst = LLT_scalar w ->
    1 <= w <= 64 ->
    getConstantVRegValWithLookThrough (MRIof st) Cst = Some Value ->
    - 2 ^ (w - 1) <= Value < 2 ^ (w - 1) ->
    Dst <> index2VirtReg (NumVirtRegs st) ->
    Src <> index2VirtReg (NumVirtRegs st) ->
    matchCombineMulToShl getConstantVRegValWithLookThrough MI S0 st
    = Some ((true, ShiftVal), st1) ->
    exists (st' : CombinerState) (NewCst MI' : MachineInstr),
      applyCombineMulToShl MI ShiftVal st1 = Some (true, st')
      /\ Insts st' = pre ++ NewCst :: MI' :: post
      /\ Opc NewCst = G_CONSTANT
      /\ Opc MI' = G_SHL
      /\ Id MI' = Id MI
      /\ forall env : RegEnv,
           env Cst = Value mod 2 ^ w ->
           exists e e' : RegEnv,
             evalInstrX st MI env = Some e
             /\ evalInstrsX st' [NewCst; MI'] env = Some e'
             /\ e' Dst = e Dst.
Proof.
  intros look st st1 MI pre post Dst Src Cst Value w S0 ShiftVal
         HI HF HId HO HOps HTy Hw HC HV HD HS HM.
  unfold matchCombineMulToShl, bind, getState, getOperand in HM.
  rewrite HOps in HM. cbn [nth getReg use] in HM. rewrite HC in HM.
  destruct (isPowerOf2_64 (u64 Value)) eqn:HP; cbn [negb] in HM;
    unfold ret in HM; [| discriminate].
  injection HM as <- <-.
  destruct (power_of_two_constant w Value Hw HV HP) as [EV Hk].
  set (k := Log2_64 (u64 Value)) in *.
  destruct (constant_then_update st MI pre post
              (stateType st (getReg (getOperand MI 0))) k
              (setDesc G_SHL) (setOperandReg 2) HI HF HId
              (fun x => eq_refl)) as (st' & Hrun & HIn & HRT).
  exists st'. do 2 eexists.
  split; [| split; [exact HIn | ]].
  { unfold applyCombineMulToShl. unfold bind at 1. unfold getState.
    exact Hrun. }
  unfold setOperandReg, setDesc. cbn [Operands]. rewrite HOps.
  cbn [nth_error use setNth Opc Id].
  split; [reflexivity | split; [reflexivity | split; [reflexivity |]]].
  intros env HE.
  unfold getOperand in HRT. rewrite HOps in HRT. cbn [nth getReg def] in HRT.
  destruct (widthOf_after_new st st' Dst _ _ HRT) as [WN WO].
  specialize (WO HD). rewrite HTy in WN. cbn [LLTOps.getSizeInBits] in WN.
  assert (WD : widthOf st Dst = w)
    by (unfold widthOf; rewrite HTy; reflexivity).
  do 2 eexists. split; [| split].
  - unfold evalInstrX, getOperand. rewrite HO, HOps.
    cbn [nth getReg def use]. reflexivity.
  - cbn [evalInstrsX]. unfold evalInstrX at 1. unfold evalInstr, getOperand.
    cbn [Opc Operands nth getReg def]. rewrite WN.
    unfold evalInstrX, evalInstr, getOperand.
    cbn [Opc Operands nth getReg def use]. rewrite WO, WD.
    rewrite !setReg_same, (setReg_other _ Src) by exact HS.
    assert (Ek : k mod 2 ^ w = k).
    { apply Z.mod_small. pose proof (lt_pow2_self w). lia. }
    rewrite Ek. rewrite (proj2 (Z.ltb_lt _ _)) by lia. reflexivity.
  - rewrite !setReg_same.
    rewrite WD, HE, EV. rewrite Z.shiftl_mul_pow2 by lia. reflexivity.
Qed.

Lemma mul_to_shl_keeps_value_witness :
  exists (st' : CombinerState) (NewCst MI' : MachineInstr),
    applyCombineMulToShl ConstantFixtures.mulBy8 3 ConstantFixtures.mulState
    = Some (true, st')
    /\ Insts st'
       = [ConstantFixtures.mulSrc; ConstantFixtures.mulCst]
           ++ NewCst :: MI' :: []
    /\ Opc NewCst = G_CONSTANT
    /\ Opc MI' = G_SHL
    /\ Id MI' = Id ConstantFixtures.mulBy8
    /\ forall env : RegEnv,
         env (Examples.v 1) = 8 mod 2 ^ 32 ->
         exists e e' : RegEnv,
           evalInstrX ConstantFixtures.mulState ConstantFixtures.mulBy8 env
           = Some e
           /\ evalInstrsX st' [NewCst; MI'] env = Some e'
           /\ e' (Examples.v 2) = e (Examples.v 2).
Proof.
  apply (mul_to_shl_keeps_value
           Examples.constantNoLookThrough ConstantFixtures.mulState
           ConstantFixtures.mulState ConstantFixtures.mulBy8
           [ConstantFixtures.mulSrc; ConstantFixtures.mulCst] []
           (Examples.v 2) (Examples.v 0) (Examples.v 1) 8 32 0 3).
  - reflexivity.
  - repeat constructor; cbn; lia.
  - cbn. lia.
  - reflexivity.
  - reflexivity.
  - reflexivity.
  - lia.
  - reflexivity.
  - lia.
  - cbv. discriminate.
  - cbv. discriminate.
  - reflexivity.
Defined.

(** X10.  [matchPtrAddImmedChain] followed by [applyPtrAddImmedChain]
    keeps the address.  When the matcher accepts a [G_PTR_ADD] whose
    pointer is itself a [G_PTR_ADD] of a base and a constant, the apply
    step runs, puts one [G_CONSTANT] holding the sum of the two
    constants in front of the instruction and redirects it to the
    base; in every environment in which the inner addition and the
    outer constant hold their values, the rewritten instruction
    defines the address the original defined. *)
Theorem ptr_add_chain_keeps_address :
  forall (getConstantVRegValWithLookThrough :
            MachineRegisterInfo -> Register -> option Z)
         (st st1 : CombinerState) (MI Add2Def : MachineInstr)
         (pre post : list MachineInstr) (Dst Add2 Imm1 : Register)
         (ImmVal Imm2Val w : Z) (M0 MatchInfo : PtrAddChain.t),
    Insts st = pre ++ MI :: post ->
    Forall (fun i => Id i <> Id MI) (pre ++ post) ->
    Id MI < NextId st ->
    Operands MI = [def Dst; use Add2; use Imm1] ->
    getUniqueVRegDef (MRIof st) Add2 = Some Add2Def ->
    getConstantVRegValWithLookThrough (MRIof st) Imm1 = Some ImmVal ->
    getConstantVRegValWithLookThrough (MRIof st)
      (getReg (getOperand Add2Def 2)) = Some Imm2Val ->
    widthOf st Dst = w ->
    widthOf st Imm1 = w ->
    Dst <> index2VirtReg (NumVirtRegs st) ->
    getReg (getOperand Add2Def 1) <> index2VirtReg (NumVirtRegs st) ->
    matchPtrAddImmedChain getConstantVRegValWithLookThrough MI M0 st
    = Some ((true, MatchInfo), st1) ->
    exists (st' : CombinerState) (NewCst MI' : MachineInstr),
      applyPtrAddImmedChain MI MatchInfo st1 = Some (true, st')
      /\ Insts st' = pre ++ NewCst :: MI' :: post
      /\ Opc NewCst = G_CONSTANT
      /\ Opc MI' = G_PTR_ADD
      /\ Id MI' = Id MI
      /\ getReg (getOperand MI' 1) = getReg (getOperand Add2Def 1)
      /\ forall env : RegEnv,
           env Imm1 = ImmVal mod 2 ^ w ->
           env Add2
           = (env (getReg (getOperand Add2Def 1)) + Imm2Val) mod 2 ^ w ->
           exists e e' : RegEnv,
             evalInstrX st MI env = Some e
             /\ evalInstrsX st' [NewCst; MI'] env = Some e'
             /\ e' Dst = e Dst.
Proof.
  intros look st st1 MI Add2Def pre post Dst Add2 Imm1 ImmVal Imm2Val w
         M0 MatchInfo HI HF HId HOps HU HC1 HC2 HWD HWI HD HB HM.
  unfold matchPtrAddImmedChain, bind, getState in HM.
  destruct (opc_eqb (Opc MI) G_PTR_ADD) eqn:HO; cbn [negb] in HM;
    [| unfold ret in HM; discriminate].
  unfold getOperand at 1 2 in HM. rewrite HOps in HM.
  cbn [nth getReg use] in HM. rewrite HC1, HU in HM.
  destruct (opc_eqb (Opc Add2Def) G_PTR_ADD) eqn:HO2; cbn [negb] in HM;
    [| unfold ret in HM; discriminate].
  rewrite HC2 in HM.
  destruct ((- 2 ^ 63 <=? ImmVal + Imm2Val) && (ImmVal + Imm2Val <? 2 ^ 63));
    [| unfold undefinedBehaviour in HM; discriminate].
  unfold ret in HM. injection HM as <- <-.
  unfold opc_eqb in HO. destruct (Opcode_eq_dec (Opc MI) G_PTR_ADD) as [EO|];
    [| discriminate].
  set (Base := getReg (getOperand Add2Def 1)) in *.
  destruct (constant_then_update st MI pre post
              (stateType st (getReg (getOperand MI 2))) (ImmVal + Imm2Val)
              (setOperandReg 1 Base) (setOperandReg 2) HI HF HId)
    as (st' & Hrun & HIn & HRT).
  { intros x. unfold setOperandReg.
    destruct (nth_error (Operands x) 1) as [[]|]; reflexivity. }
  exists st'. do 2 eexists.
  split; [| split; [exact HIn | ]].
  { unfold applyPtrAddImmedChain. unfold bind at 1. unfold getState.
    cbn [PtrAddChain.Imm PtrAddChain.Base]. exact Hrun. }
  unfold setOperandReg. rewrite HOps.
  cbn [nth_error use setNth Opc Id Operands].
  split; [reflexivity | split; [exact EO | split; [reflexivity |]]].
  split; [reflexivity |].
  intros env HE1 HE2.
  unfold getOperand in HRT. rewrite HOps in HRT. cbn [nth getReg use] in HRT.
  destruct (widthOf_after_new st st' Dst _ _ HRT) as [WN WO].
  specialize (WO HD). fold (widthOf st Imm1) in WN. rewrite HWI in WN.
  do 2 eexists. split; [| split].
  - unfold evalInstrX, getOperand. rewrite EO, HOps.
    cbn [nth getReg def use]. reflexivity.
  - cbn [evalInstrsX]. unfold evalInstrX at 1. unfold evalInstr, getOperand.
    cbn [Opc Operands nth getReg def]. rewrite WN.
    unfold evalInstrX, getOperand.
    cbn [Opc Operands nth getReg def use]. rewrite EO, WO, HWD.
    reflexivity.
  - rewrite !setReg_same, (setReg_other _ Base) by exact HB.
    rewrite HE1, HE2, HWD.
    rewrite Zplus_mod_idemp_r. symmetry.
    rewrite Zplus_mod_idemp_l, Zplus_mod_idemp_r. f_equal. lia.
Qed.

Lemma ptr_add_chain_keeps_address_witness :
  exists (st' : CombinerState) (NewCst MI' : MachineInstr),
    applyPtrAddImmedChain ConstantFixtures.chainRoot
                          (PtrAddChain.mk 40 (Examples.v 0))
                          ConstantFixtures.chainState
    = Some (true, st')
    /\ Insts st'
       = [ConstantFixtures.chainBase; ConstantFixtures.chainImm2;
          ConstantFixtures.chainInner; ConstantFixtures.chainImm1]
           ++ NewCst :: MI' :: []
    /\ Opc NewCst = G_CONSTANT
    /\ Opc MI' = G_PTR_ADD
    /\ Id MI' = Id ConstantFixtures.chainRoot
    /\ getReg (getOperand MI' 1)
       = getReg (getOperand ConstantFixtures.chainInner 1)
    /\ forall env : RegEnv,
         env (Examples.v 3) = 24 mod 2 ^ 64 ->
         env (Examples.v 2)
         = (env (getReg (getOperand ConstantFixtures.chainInner 1)) + 16)
             mod 2 ^ 64 ->
         exists e e' : RegEnv,
           evalInstrX ConstantFixtures.chainState ConstantFixtures.chainRoot
                      env = Some e
           /\ evalInstrsX st' [NewCst; MI'] env = Some e'
           /\ e' (Examples.v 4) = e (Examples.v 4).
Proof.
  apply (ptr_add_chain_keeps_address
           Examples.constantNoLookThrough ConstantFixtures.chainState
           ConstantFixtures.chainState ConstantFixtures.chainRoot
           ConstantFixtures.chainInner
           [ConstantFixtures.chainBase; ConstantFixtures.chainImm2;
            ConstantFixtures.chainInner; ConstantFixtures.chainImm1] []
           (Examples.v 4) (Examples.v 2) (Examples.v 3) 24 16 64
           (PtrAddChain.mk 0 0) (PtrAddChain.mk 40 (Examples.v 0))).
  - reflexivity.
  - repeat constructor; cbn; lia.
  - cbn. lia.
  - reflexivity.
  - reflexivity.
  - reflexivity.
  - reflexivity.
  - reflexivity.
  - reflexivity.
  - cbv. discriminate.
  - cbv. discriminate.
  - reflexivity.
Defined.

(* ------------------------------------------------------------------ *)
(** ** A shuffle matched as a concatenation reads the same lanes *)

Lemma length_setNth {A : Type} (v : A) (l : list A) :
  forall n, length (setNth n v l) = length l.
Proof.
  induction l as [|x l IH]; intros [|n]; cbn [setNth length]; auto.
Qed.

Lemma nth_setNth_same {A : Type} (v d : A) (l : list A) :
  forall n, (n < length l)%nat -> nth n (setNth n v l) d = v.
Proof.
  induction l as [|x l IH]; intros [|n] H; cbn [setNth nth length] in *;
    try lia; auto. apply IH. lia.
Qed.

Lemma nth_setNth_other {A : Type} (v d : A) (l : list A) :
  forall n m, n <> m -> nth m (setNth n v l) d = nth m l d.
Proof.
  induction l as [|x l IH]; intros [|n] [|m] H; cbn [setNth nth];
    try reflexivity; try contradiction.
  apply IH. intro E. apply H. f_equal. exact E.
Qed.

Section ShuffleMask.

Variable SrcNumElts : Z.
Variable Mask : list Z.
Hypothesis SrcPos : 0 < SrcNumElts.

(** The mask loop keeps the pieces it has settled and settles the
    piece of every defined lane it passes: the lane's index names that
    piece's source and the lane's own position in it. *)
Lemma shuffleMaskLoop_sound :
  forall (k : nat) (i : Z) (cs cs' : list Z),
    0 <= i -> i + Z.of_nat k < 2 ^ 32 ->
    shuffleMaskLoop k i SrcNumElts Mask cs = Some (Some cs') ->
    length cs' = length cs
    /\ (forall p, 0 <= nth p cs (-1) -> nth p cs' (-1) = nth p cs (-1))
    /\ (forall j Idx,
           i <= j < i + Z.of_nat k ->
           nth_error Mask (Z.to_nat j) = Some Idx -> 0 <= Idx ->
           (Z.to_nat (j / SrcNumElts) < length cs)%nat ->
           nth (Z.to_nat (j / SrcNumElts)) cs' (-1) = Idx / SrcNumElts
           /\ Idx mod SrcNumElts = j mod SrcNumElts).
Proof.
  induction k as [|k IH]; intros i cs cs' Hi Hk H.
  - cbn [shuffleMaskLoop] in H. inversion H; subst cs'.
    split; [reflexivity|]. split; [auto|]. intros j Idx Hj. lia.
  - cbn [shuffleMaskLoop] in H.
    destruct (nth_error Mask (Z.to_nat i)) as [Idx0|] eqn:EM; [|discriminate].
    rewrite (u32_small (i + 1)) in H by lia.
    destruct (Z.ltb_spec Idx0 0) as [Hneg | Hpos].
    + destruct (IH (i + 1) cs cs' ltac:(lia) ltac:(lia) H) as (HL & HP & HS).
      split; [exact HL|]. split; [exact HP|].
      intros j Idx Hj HM HI Hlen.
      destruct (Z.eq_dec j i) as [-> | Hne].
      * rewrite EM in HM. inversion HM. lia.
      * apply HS; auto. lia.
    + set (piece := Z.to_nat (i / SrcNumElts)) in *.
      destruct (Z.eqb_spec (Idx0 mod SrcNumElts) (i mod SrcNumElts))
        as [Emod | Nmod]; cbn [negb orb] in H.
      2: { discriminate H. }
      destruct (Z.geb_spec (nth piece cs (-1)) 0) as [Hset | Hunset];
        cbn [andb] in H.
      * destruct (Z.eqb_spec (nth piece cs (-1)) (Idx0 / SrcNumElts))
          as [Ecur | Ncur]; cbn [negb] in H; [|discriminate H].
        destruct (IH (i + 1) _ cs' ltac:(lia) ltac:(lia) H) as (HL & HP & HS).
        rewrite length_setNth in HL, HS.
        assert (Hcs1 : forall p,
                   nth p (setNth piece (Idx0 / SrcNumElts) cs) (-1)
                   = nth p cs (-1)).
        { intro p. destruct (Nat.eq_dec piece p) as [<- | Hp].
          - destruct (Nat.lt_ge_cases piece (length cs)) as [Hin | Hout].
            + rewrite nth_setNth_same by exact Hin. symmetry. exact Ecur.
            + rewrite (nth_overflow cs) in Hset by exact Hout. lia.
          - apply nth_setNth_other. exact Hp. }
        split; [exact HL|]. split.
        { intros p Hp. rewrite <- Hcs1. apply HP. rewrite Hcs1. exact Hp. }
        intros j Idx Hj HM HI Hlen.
        destruct (Z.eq_dec j i) as [-> | Hne].
        -- rewrite EM in HM. inversion HM; subst Idx0.
           split; [|exact Emod].
           fold piece. rewrite HP by (rewrite Hcs1; exact Hset).
           rewrite Hcs1. exact Ecur.
        -- apply HS; auto. lia.
      * destruct (IH (i + 1) _ cs' ltac:(lia) ltac:(lia) H) as (HL & HP & HS).
        rewrite length_setNth in HL, HS.
        assert (Hdiv : 0 <= Idx0 / SrcNumElts) by (apply Z.div_pos; lia).
        split; [exact HL|]. split.
        { intros p Hp. destruct (Nat.eq_dec piece p) as [<- | Hne].
          - lia.
          - rewrite <- (nth_setNth_other (Idx0 / SrcNumElts) (-1) cs piece p)
              by exact Hne.
            apply HP. rewrite nth_setNth_other by exact Hne. exact Hp. }
        intros j Idx Hj HM HI Hlen.
        destruct (Z.eq_dec j i) as [-> | Hne].
        -- rewrite EM in HM. inversion HM; subst Idx0.
           split; [|exact Emod].
           fold piece. fold piece in Hlen.
           rewrite HP; rewrite nth_setNth_same by exact Hlen;
             [reflexivity | exact Hdiv].
        -- apply HS; auto. lia.
Qed.

End ShuffleMask.

Lemma shuffleOpsLoop_sound (MI : MachineInstr) (SrcType : LLT)
      (Src1 Src2 : Register) (cs : list Z) :
  forall UndefReg Ops st r st',
    shuffleOpsLoop MI SrcType Src1 Src2 cs UndefReg Ops st = Some (r, st') ->
    exists New,
      r = Ops ++ New /\ length New = length cs
      /\ forall p, (p < length cs)%nat -> 0 <= nth p cs (-1) ->
                   nth p New NoRegister
                   = if nth p cs (-1) =? 0 then Src1 else Src2.
Proof.
  induction cs as [|Src l IH]; intros UndefReg Ops st r st' H;
    cbn [shuffleOpsLoop] in H.
  - unfold ret in H. inversion H; subst. exists []. rewrite app_nil_r.
    split; [reflexivity|]. split; [reflexivity|]. intros p Hp. cbn in Hp. lia.
  - destruct (Z.ltb_spec Src 0) as [Hneg | Hpos].
    + unfold bind in H.
      match type of H with
      | match ?m st with _ => _ end = _ =>
          destruct (m st) as [[u st1]|]; [|discriminate H]
      end.
      destruct (IH _ _ _ _ _ H) as (New & -> & HL & HN).
      exists (u :: New). split; [rewrite <- app_assoc; reflexivity|].
      split; [cbn [length]; lia|].
      intros [|p] Hp Hv; cbn [nth length] in *; [lia|]. apply HN; [lia | exact Hv].
    + destruct (Z.eqb_spec Src 0) as [E0 | N0].
      * destruct (IH _ _ _ _ _ H) as (New & -> & HL & HN).
        exists (Src1 :: New). split; [rewrite <- app_assoc; reflexivity|].
        split; [cbn [length]; lia|].
        intros [|p] Hp Hv; cbn [nth length] in *.
        -- subst Src. reflexivity.
        -- apply HN; [lia | exact Hv].
      * destruct (IH _ _ _ _ _ H) as (New & -> & HL & HN).
        exists (Src2 :: New). split; [rewrite <- app_assoc; reflexivity|].
        split; [cbn [length]; lia|].
        intros [|p] Hp Hv; cbn [nth length] in *.
        -- replace (Src =? 0) with false
             by (symmetry; apply Z.eqb_neq; exact N0). reflexivity.
        -- apply HN; [lia | exact Hv].
Qed.

(** X11.  When [matchCombineShuffleVector] answers true, it has appended one
    operand per source-sized piece of the result, and every defined
    lane of the shuffle (mask entry [Idx] in range) comes from the same
    lane of the same source register in the concatenation of these
    operands. *)
Theorem matchCombineShuffleVector_reads_same_lanes :
  forall (MI : MachineInstr) (Ops0 Ops : list Register)
         (st st' : CombinerState),
    matchCombineShuffleVector MI Ops0 st = Some ((true, Ops), st') ->
    let n := shuffleNumElts st (getReg (getOperand MI 1)) in
    let D := shuffleNumElts st (getReg (getOperand MI 0)) in
    let Mask := getShuffleMask (getOperand MI 3) in
    exists New,
      Ops = Ops0 ++ New
      /\ 0 < n /\ D mod n = 0 /\ Z.of_nat (length New) = D / n
      /\ forall i Idx,
          0 <= i < D ->
          nth_error Mask (Z.to_nat i) = Some Idx ->
          0 <= Idx < 2 * n ->
          concatSource New n i
          = shuffleSource (getReg (getOperand MI 1))
                          (getReg (getOperand MI 2)) n Idx.
Proof.
  intros MI Ops0 Ops st st' H n D Mask.
  unfold matchCombineShuffleVector, bind, getState in H.
  fold (shuffleNumElts st (getReg (getOperand MI 0))) in H.
  fold (shuffleNumElts st (getReg (getOperand MI 1))) in H.
  fold n in H. fold D in H. fold Mask in H.
  assert (Hn : 0 <= n < 2 ^ 32).
  { unfold n, shuffleNumElts. destruct (LLTOps.isVector _);
      [apply u32_range | lia]. }
  assert (HD : 0 <= D < 2 ^ 32).
  { unfold D, shuffleNumElts. destruct (LLTOps.isVector _);
      [apply u32_range | lia]. }
  destruct ((D <? u32 (2 * n)) && negb (D =? 1));
    [unfold ret in H; discriminate H|].
  destruct (Z.eqb_spec n 0) as [|Hn0]; [discriminate H|].
  destruct (Z.eqb_spec (D mod n) 0) as [Hmod|]; cbn [negb] in H;
    [|unfold ret in H; discriminate H].
  destruct (shuffleMaskLoop (Z.to_nat D) 0 n Mask
                            (repeat (-1) (Z.to_nat (D / n))))
    as [[cs|]|] eqn:EM; [| unfold ret in H; discriminate H | discriminate H].
  match type of H with
  | match ?m st with _ => _ end = _ =>
      destruct (m st) as [[Ops' st1]|] eqn:EO; [|discriminate H]
  end.
  unfold ret in H. inversion H; subst Ops' st1.
  assert (Hpos : 0 < n) by lia.
  destruct (shuffleMaskLoop_sound n Mask Hpos (Z.to_nat D) 0 _ cs
              ltac:(lia) ltac:(lia) EM) as (HL & _ & HS).
  rewrite repeat_length in HL, HS.
  destruct (shuffleOpsLoop_sound _ _ _ _ _ _ _ _ _ _ EO)
    as (New & -> & HLN & HN).
  exists New. split; [reflexivity|]. split; [exact Hpos|].
  split; [exact Hmod|].
  assert (Hdiv : 0 <= D / n) by (apply Z.div_pos; lia).
  split; [rewrite HLN, HL; lia|].
  intros i Idx Hi HM HI.
  assert (Hpiece : (Z.to_nat (i / n) < Z.to_nat (D / n))%nat).
  { assert (0 <= i / n) by (apply Z.div_pos; lia).
    assert (i / n < D / n).
    { apply Z.div_lt_upper_bound; [lia|].
      rewrite <- Z.div_exact in Hmod by lia.
      rewrite <- Hmod. lia. }
    lia. }
  destruct (HS i Idx ltac:(lia) HM (proj1 HI) Hpiece) as [Ecs Emod].
  assert (Hq : 0 <= Idx / n) by (apply Z.div_pos; lia).
  unfold concatSource, shuffleSource.
  rewrite HN by (rewrite ?HL; (exact Hpiece || (rewrite Ecs; exact Hq))).
  rewrite Ecs.
  destruct (Z.ltb_spec Idx n) as [Hlt | Hge].
  - rewrite Z.div_small by lia. cbn.
    rewrite <- Emod. rewrite Z.mod_small by lia. reflexivity.
  - replace (Idx / n =? 0) with false.
    + rewrite <- Emod. f_equal.
      replace Idx with ((Idx - n) + 1 * n) at 1 by lia.
      rewrite Z.mod_add by lia. apply Z.mod_small. lia.
    + symmetry. apply Z.eqb_neq. intro E0.
      apply Z.div_small_iff in E0; lia.
Qed.

Lemma matchCombineShuffleVector_reads_same_lanes_witness :
  exists New,
    [Examples.v 1; Examples.v 0] = [] ++ New
    /\ 0 < 2 /\ 4 mod 2 = 0 /\ Z.of_nat (length New) = 4 / 2
    /\ forall i Idx,
        0 <= i < 4 ->
        nth_error [2; 3; 0; 1] (Z.to_nat i) = Some Idx ->
        0 <= Idx < 2 * 2 ->
        concatSource New 2 i
        = shuffleSource (Examples.v 0) (Examples.v 1) 2 Idx.
Proof.
  apply (matchCombineShuffleVector_reads_same_lanes
           VectorFixtures.shuffleSwap [] [Examples.v 1; Examples.v 0]
           VectorFixtures.shuffleSwapState VectorFixtures.shuffleSwapState).
  vm_compute. reflexivity.
Defined.

(* ------------------------------------------------------------------ *)
(** ** The extending-load match, whatever the kind of load *)

Lemma ChoosePreferredUse_either (P : PreferredTuple) (ty : LLT) (o : Opcode)
      (U : MachineInstr) :
  ChoosePreferredUse P ty o U = P
  \/ ChoosePreferredUse P ty o U = Pref.mk ty o (Some U).
Proof.
  unfold ChoosePreferredUse.
  repeat match goal with
         | |- context [if ?c then _ else _] => destruct c
         end; auto.
Qed.

Section ExtLoadSound.

Variable LI : option LegalizerInfo.
Variable MRI : MachineRegisterInfo.
Variable MI : MachineInstr.

Let chosenFrom (seen : list MachineInstr) (P : PreferredTuple) : Prop :=
  match Pref.MI P with
  | None => True
  | Some U =>
      In U seen /\ Pref.Ty P = useType MRI U /\ Pref.ExtendOpcode P = Opc U
  end.

Lemma chosenFrom_fold (l seen : list MachineInstr) (P : PreferredTuple) :
  chosenFrom seen P ->
  chosenFrom (seen ++ filter (fun U => isExtendOpcode (Opc U)
                                       && extUseIsLegal LI MRI MI U) l)
             (fold_left (extLoadStep LI MRI MI) l P).
Proof.
  revert seen P. induction l as [|U l IH]; intros seen P Inv.
  - cbn. rewrite app_nil_r. exact Inv.
  - cbn [fold_left filter]. rewrite extLoadStep_candidate.
    destruct (isExtendOpcode (Opc U) && extUseIsLegal LI MRI MI U).
    + replace (seen ++ U :: filter _ l)
        with ((seen ++ [U]) ++ filter
                (fun U => isExtendOpcode (Opc U)
                          && extUseIsLegal LI MRI MI U) l)
        by (rewrite <- app_assoc; reflexivity).
      apply IH.
      destruct (ChoosePreferredUse_either P (useType MRI U) (Opc U) U)
        as [-> | ->].
      * unfold chosenFrom in *. destruct (Pref.MI P); [|exact I].
        destruct Inv as (HIn & HT & HO).
        split; [apply in_or_app; left; exact HIn | auto].
      * unfold chosenFrom. cbn.
        split; [apply in_or_app; right; left; reflexivity | auto].
    + apply IH. exact Inv.
Qed.

End ExtLoadSound.

(** X12.  Whatever the kind of load, [matchCombineExtendingLoads] answers
    true only for a [G_LOAD], [G_SEXTLOAD] or [G_ZEXTLOAD] of a scalar
    of at least 8 bits, and the preference it returns then describes
    one of the extend uses of the loaded value that pass the legality
    query: that use, its result type and its opcode.  When no extend
    use passes the query, it answers false. *)
Theorem matchCombineExtendingLoads_prefers_legal_use :
  forall (LI : option LegalizerInfo) (MRI : MachineRegisterInfo)
         (MI : MachineInstr) (Preferred : PreferredTuple),
    (forall P',
        matchCombineExtendingLoads LI MRI MI Preferred = (true, P') ->
        (Opc MI = G_LOAD \/ Opc MI = G_SEXTLOAD \/ Opc MI = G_ZEXTLOAD)
        /\ LLTOps.isScalar (getType MRI (getReg (getOperand MI 0))) = true
        /\ 8 <= LLTOps.getSizeInBits (getType MRI (getReg (getOperand MI 0)))
        /\ exists U,
            P' = Pref.mk (useType MRI U) (Opc U) (Some U)
            /\ In U (legalExtendUses LI MRI MI))
    /\ (legalExtendUses LI MRI MI = [] ->
        fst (matchCombineExtendingLoads LI MRI MI Preferred) = false).
Proof.
  intros LI MRI MI Preferred.
  assert (Inv : forall o,
             match Pref.MI (fold_left (extLoadStep LI MRI MI)
                              (use_nodbg_instructions MRI
                                 (getReg (getOperand MI 0)))
                              (Pref.mk LLT_invalid o None)) with
             | None => True
             | Some U =>
                 In U (legalExtendUses LI MRI MI)
                 /\ Pref.Ty (fold_left (extLoadStep LI MRI MI)
                               (use_nodbg_instructions MRI
                                  (getReg (getOperand MI 0)))
                               (Pref.mk LLT_invalid o None))
                    = useType MRI U
                 /\ Pref.ExtendOpcode
                      (fold_left (extLoadStep LI MRI MI)
                         (use_nodbg_instructions MRI
                            (getReg (getOperand MI 0)))
                         (Pref.mk LLT_invalid o None))
                    = Opc U
             end).
  { intro o.
    exact (chosenFrom_fold LI MRI MI
             (use_nodbg_instructions MRI (getReg (getOperand MI 0))) []
             (Pref.mk LLT_invalid o None) I). }
  split.
  - intros P' H. unfold matchCombineExtendingLoads in H. cbv zeta in H.
    destruct (opc_eqb (Opc MI) G_LOAD) eqn:EL;
      destruct (opc_eqb (Opc MI) G_SEXTLOAD) eqn:ES;
      destruct (opc_eqb (Opc MI) G_ZEXTLOAD) eqn:EZ;
      cbn [negb andb] in H; try discriminate H.
    all: destruct (LLTOps.isScalar (getType MRI (getReg (getOperand MI 0))))
        eqn:Esc; cbn [negb] in H; [|discriminate H].
    all: destruct (Z.ltb_spec (LLTOps.getSizeInBits
                                 (getType MRI (getReg (getOperand MI 0)))) 8);
      [discriminate H|].
    all: destruct (isPowerOf2_32 _); cbn [negb] in H; [|discriminate H].
    all: match type of H with
         | context [Pref.mk LLT_invalid ?o None] => specialize (Inv o)
         end.
    all: set (F := fold_left _ _ _) in *; clearbody F;
      destruct F as [ty opc mi];
      cbn [Pref.MI Pref.Ty Pref.ExtendOpcode] in *.
    all: destruct mi as [U|]; [|discriminate H].
    all: inversion H; subst P'; destruct Inv as (HIn & -> & ->).
    all: split;
      [unfold opc_eqb in EL, ES, EZ;
       destruct (Opcode_eq_dec (Opc MI) G_LOAD);
       destruct (Opcode_eq_dec (Opc MI) G_SEXTLOAD);
       destruct (Opcode_eq_dec (Opc MI) G_ZEXTLOAD);
       try discriminate; auto|].
    all: split; [reflexivity|]. all: split; [assumption|].
    all: exists U; split; [reflexivity | exact HIn].
  - intro Hnone. unfold matchCombineExtendingLoads. cbv zeta.
    repeat match goal with
           | |- context [if ?c then (false, Preferred) else _] =>
               destruct c; [reflexivity|]
           end.
    match goal with
    | |- context [Pref.mk LLT_invalid ?o None] => specialize (Inv o)
    end.
    set (F := fold_left _ _ _) in *. clearbody F. revert Inv.
    destruct (Pref.MI F); intro Inv; [|reflexivity].
    destruct Inv as (HIn & _). rewrite Hnone in HIn. contradiction.
Qed.

Lemma matchCombineExtendingLoads_prefers_legal_use_witness :
  (Opc Examples.load8 = G_LOAD \/ Opc Examples.load8 = G_SEXTLOAD
   \/ Opc Examples.load8 = G_ZEXTLOAD)
  /\ LLTOps.isScalar (getType (MRIof Examples.mixedUsesState)
                              (getReg (getOperand Examples.load8 0))) = true
  /\ 8 <= LLTOps.getSizeInBits
            (getType (MRIof Examples.mixedUsesState)
                     (getReg (getOperand Examples.load8 0)))
  /\ exists U,
      Pref.mk (LLT_scalar 32) G_ZEXT (Some Examples.zext32)
      = Pref.mk (useType (MRIof Examples.mixedUsesState) U) (Opc U) (Some U)
      /\ In U (legalExtendUses (Some (fun _ => Legal))
                               (MRIof Examples.mixedUsesState)
                               Examples.load8).
Proof.
  apply (proj1 (matchCombineExtendingLoads_prefers_legal_use
                  (Some (fun _ => Legal)) (MRIof Examples.mixedUsesState)
                  Examples.load8 (Pref.mk LLT_invalid G_ANYEXT None))).
  reflexivity.
Defined.

(* ------------------------------------------------------------------ *)
(** ** The indexed searches without a dominator tree *)

Lemma dominates_without_tree (MRI : MachineRegisterInfo)
      (DefMI UseMI : MachineInstr) :
  dominates MRI None DefMI UseMI <> Some true.
Proof.
  unfold dominates.
  destruct (negb (Parent DefMI =? Parent UseMI)); [discriminate|].
  apply isPredecessor_never_true.
Qed.

(** X13.  Without a dominator tree the same-block scan of [isPredecessor]
    never reports dominance, and so neither search accepts anything:
    [findPostIndexCandidate] never returns true, and
    [findPreIndexCandidate] never returns true for an address that has
    a use. *)
Theorem indexed_searches_need_dominator_tree :
  forall (MRI : MachineRegisterInfo) (ForceLegalIndexing : bool)
         (isIndexingLegal : MachineInstr -> Register -> Register -> bool -> bool)
         (getOpcodeDef : Opcode -> Register -> option MachineInstr)
         (getDefIgnoringCopies : Register -> option MachineInstr)
         (MI : MachineInstr) (Addr0 Base0 Offset0 : Register),
    (forall Addr Base Offset,
        findPostIndexCandidate MRI None ForceLegalIndexing isIndexingLegal MI
                               Addr0 Base0 Offset0
        <> Some (true, Addr, Base, Offset))
    /\ (use_nodbg_instructions MRI (getReg (getOperand MI 1)) <> [] ->
        forall Addr Base Offset,
          findPreIndexCandidate MRI None ForceLegalIndexing isIndexingLegal
                                getOpcodeDef getDefIgnoringCopies MI
                                Addr0 Base0 Offset0
          <> Some (true, Addr, Base, Offset)).
Proof.
  intros MRI Force legal god gdic MI Addr0 Base0 Offset0. split.
  - intros Addr Base Offset H.
    unfold findPostIndexCandidate in H.
    destruct (match getUniqueVRegDef MRI (getReg (getOperand MI 1)) with
              | Some d => opc_eqb (Opc d) G_FRAME_INDEX
              | None => false
              end); [discriminate|].
    destruct (postIndexLoop MRI None Force legal MI (getReg (getOperand MI 1))
                (use_nodbg_instructions MRI (getReg (getOperand MI 1)))
                Addr0 Offset0) as [[[r A] O]|] eqn:EL; [|discriminate].
    inversion H; subst r A Base O.
    destruct (postIndexLoop_accepts _ _ _ _ _ _ _ _ _ _ _ EL)
      as (U & D & _ & _ & _ & _ & _ & HD & _).
    exact (dominates_without_tree _ _ _ HD).
  - intros Hne Addr Base Offset H.
    unfold findPreIndexCandidate in H.
    destruct (god G_PTR_ADD (getReg (getOperand MI 1))); [|discriminate].
    repeat match type of H with
           | (if ?c then _ else _) = _ => destruct c; [discriminate|]
           end.
    destruct (gdic _); [|discriminate].
    repeat match type of H with
           | (if ?c then _ else _) = _ => destruct c; [discriminate|]
           end.
    destruct (dominatesAllAddrUses MRI None MI
                (use_nodbg_instructions MRI (getReg (getOperand MI 1))))
      as [[|]|] eqn:ED; try discriminate.
    destruct (use_nodbg_instructions MRI (getReg (getOperand MI 1)))
      as [|U l] eqn:EU; [contradiction|].
    pose proof (dominatesAllAddrUses_true MRI None MI (U :: l) ED U
                  (or_introl eq_refl)) as HD.
    exact (dominates_without_tree _ _ _ HD).
Qed.

Lemma indexed_searches_need_dominator_tree_witness :
  use_nodbg_instructions (MRIof Examples.preIndexState)
                         (getReg (getOperand Examples.preLoad 1)) <> []
  /\ forall Addr Base Offset,
      findPreIndexCandidate (MRIof Examples.preIndexState) None true
        (fun _ _ _ _ => false)
        (Examples.opcodeDefNoCopies Examples.preIndexState)
        (Examples.defNoCopies Examples.preIndexState)
        Examples.preLoad 0 0 0
      <> Some (true, Addr, Base, Offset).
Proof.
  split; [vm_compute; discriminate |].
  apply (proj2 (indexed_searches_need_dominator_tree
                  (MRIof Examples.preIndexState) true (fun _ _ _ _ => false)
                  (Examples.opcodeDefNoCopies Examples.preIndexState)
                  (Examples.defNoCopies Examples.preIndexState)
                  Examples.preLoad 0 0 0)).
  vm_compute. discriminate.
Defined.
